(** * PilotAssistant AHRS: sensor conversion, Madgwick filter, attitude loops

    A shallow embedding of the attitude pipeline of the PilotAssistant
    repository: the ICM-20948 driver ([icm20948_sensor.c]), the Madgwick
    filter ([madgwick_filter.c]), the two attitude loops
    ([action_test_gyro] of the Pico menu and [attitude_indicator_run]) and
    the warning evaluation of the Raspberry Pi application.

    The C code computes on [float] (IEEE 754 binary32) and, where [M_PI] is
    involved, on [double] (binary64).  The code is written once over an
    arithmetic signature [CArith] and read at two instances:

    - [machine]: bit-exact binary32/binary64 on the Standard Library's
      [SpecFloat] (round to nearest even, NaN, infinities, signed zeros);
    - [ideal]: the real numbers, where every value is finite and no rounding
      takes place.

    The functions [asinf] and [atan2f] of the C library are a parameter
    ([LibM]): at [ideal] they are [asin] and [atan2] themselves, at
    [machine] any functions that stay in their range ([libm_in_range]).

    Around the pipeline the development covers the integer and text code
    that feeds and shows it: the YUV to RGB565 conversion of the camera
    frames, the register access of the driver, the command lines between
    the Pico and the Raspberry Pi with their two parsers, the telemetry
    line and its parser, and on the Pico the debounced inputs, the menu,
    the radar marks and the framebuffer of the LCD.  C strings are
    [string]s, arrays are lists, and a read or a store outside an array,
    like a signed overflow, is [None].

    The definitions come first; the theory of the float operations, the
    lemmas on the program and the statements of the specification
    follow. *)

From Stdlib Require Import ZArith Bool List Lia.
From Stdlib Require Import Floats.SpecFloat.
From Stdlib Require Import Reals Lra.
From Stdlib Require Ascii String.
Import ListNotations.

Set Implicit Arguments.

(* ================================================================== *)
(** * The arithmetic signature of the C code *)
(* ================================================================== *)

Class CArith := {
  float : Type;                       (* C [float] *)
  double : Type;                      (* C [double] *)
  fadd : float -> float -> float;
  fsub : float -> float -> float;
  fmul : float -> float -> float;
  fdiv : float -> float -> float;
  fneg : float -> float;
  fabsf : float -> float;
  sqrtf : float -> float;
  copysignf : float -> float -> float;
  feq : float -> float -> bool;       (* [==] *)
  flt : float -> float -> bool;       (* [<]  *)
  fle : float -> float -> bool;       (* [<=] *)
  isfinite : float -> bool;
  lit : Z -> Z -> float;              (* the literal [m]e[k]f, m * 10^k *)
  of_int : Z -> float;                (* [(float) n] for an integer [n] *)
  f2d : float -> double;              (* promotion float -> double *)
  d2f : double -> float;              (* conversion double -> float *)
  dmul : double -> double -> double;
  ddiv : double -> double -> double;
  M_PI : double                       (* 3.14159265358979323846 *)
}.

Declare Scope cf_scope.
Delimit Scope cf_scope with cf.
Bind Scope cf_scope with float.
Notation "x + y" := (fadd x y) : cf_scope.
Notation "x - y" := (fsub x y) : cf_scope.
Notation "x * y" := (fmul x y) : cf_scope.
Notation "x / y" := (fdiv x y) : cf_scope.
Notation "- x" := (fneg x) : cf_scope.
Notation "x == y" := (feq x y) (at level 70, no associativity) : cf_scope.
Notation "x < y" := (flt x y) : cf_scope.
Notation "x <= y" := (fle x y) : cf_scope.
Notation "x > y" := (flt y x) (only parsing) : cf_scope.
Notation "x >= y" := (fle y x) (only parsing) : cf_scope.

(* ================================================================== *)
(** * Machine arithmetic: IEEE 754 binary32 and binary64 *)
(* ================================================================== *)

Module IEEE.

(** Correct rounding of the fraction [num / den] ([den > 0]) to the
    format [(prec, emax)]. *)
Definition round_quot (prec emax : Z) (num den : Z) : spec_float :=
  match num, den with
  | Z0, Zpos _ => S754_zero false
  | Zpos n, Zpos d =>
      let '(mz, ez, lz) := SFdiv_core_binary prec emax (Zpos n) 0 (Zpos d) 0 in
      binary_round_aux prec emax false mz ez lz
  | Zneg n, Zpos d =>
      let '(mz, ez, lz) := SFdiv_core_binary prec emax (Zpos n) 0 (Zpos d) 0 in
      binary_round_aux prec emax true mz ez lz
  | _, _ => S754_nan
  end.

(** A decimal literal [m * 10^k], correctly rounded. *)
Definition decimal (prec emax : Z) (m k : Z) : spec_float :=
  if (0 <=? k)%Z then round_quot prec emax (m * 10 ^ k) 1
  else round_quot prec emax m (10 ^ (- k)).

Definition is_finite (x : spec_float) : bool :=
  match x with
  | S754_zero _ | S754_finite _ _ _ => true
  | S754_infinity _ | S754_nan => false
  end.

Definition is_nan (x : spec_float) : bool :=
  match x with S754_nan => true | _ => false end.

Definition sign_bit (x : spec_float) : bool :=
  match x with
  | S754_zero s | S754_infinity s | S754_finite s _ _ => s
  | S754_nan => false
  end.

(** [copysign x y]: the magnitude of [x] with the sign of [y]. *)
Definition copysign (x y : spec_float) : spec_float :=
  match x with
  | S754_zero _ => S754_zero (sign_bit y)
  | S754_infinity _ => S754_infinity (sign_bit y)
  | S754_finite _ m e => S754_finite (sign_bit y) m e
  | S754_nan => S754_nan
  end.

(** Re-rounding of a float of another format (exact when widening). *)
Definition convert (prec emax : Z) (x : spec_float) : spec_float :=
  match x with
  | S754_finite s m e => binary_round prec emax s m e
  | _ => x
  end.

End IEEE.

Module B32.
Definition prec : Z := 24.
Definition emax : Z := 128.
Definition add := SFadd prec emax.
Definition sub := SFsub prec emax.
Definition mul := SFmul prec emax.
Definition div := SFdiv prec emax.
Definition sqrt := SFsqrt prec emax.
Definition decimal := IEEE.decimal prec emax.
Definition of_Z (n : Z) : spec_float := binary_normalize prec emax n 0 false.
End B32.

Module B64.
Definition prec : Z := 53.
Definition emax : Z := 1024.
Definition mul := SFmul prec emax.
Definition div := SFdiv prec emax.
(** [M_PI] of math.h, 3.14159265358979323846, as a double. *)
Definition M_PI : spec_float :=
  IEEE.decimal prec emax 314159265358979323846 (-20).
End B64.

Definition machine : CArith := {|
  float := spec_float;
  double := spec_float;
  fadd := B32.add;
  fsub := B32.sub;
  fmul := B32.mul;
  fdiv := B32.div;
  fneg := SFopp;
  fabsf := SFabs;
  sqrtf := B32.sqrt;
  copysignf := IEEE.copysign;
  feq := SFeqb;
  flt := SFltb;
  fle := SFleb;
  isfinite := IEEE.is_finite;
  lit := B32.decimal;
  of_int := B32.of_Z;
  f2d := IEEE.convert B64.prec B64.emax;
  d2f := IEEE.convert B32.prec B32.emax;
  dmul := B64.mul;
  ddiv := B64.div;
  M_PI := B64.M_PI
|}.

(* ================================================================== *)
(** * Ideal arithmetic: the real numbers *)
(* ================================================================== *)

Module RealArith.
Local Open Scope R_scope.

Definition decimal (m k : Z) : R :=
  match k with
  | Z0 => IZR m
  | Zpos p => IZR m * IZR (10 ^ Zpos p)
  | Zneg p => IZR m / IZR (10 ^ Zpos p)
  end.

Definition eqb (x y : R) : bool := if Req_dec_T x y then true else false.
Definition ltb (x y : R) : bool := if Rlt_dec x y then true else false.
Definition leb (x y : R) : bool := if Rle_dec x y then true else false.

Definition copysign (x y : R) : R :=
  if Rlt_dec y 0 then - Rabs x else Rabs x.
End RealArith.

Definition ideal : CArith := {|
  float := R;
  double := R;
  fadd := Rplus;
  fsub := Rminus;
  fmul := Rmult;
  fdiv := Rdiv;
  fneg := Ropp;
  fabsf := Rabs;
  sqrtf := sqrt;
  copysignf := RealArith.copysign;
  feq := RealArith.eqb;
  flt := RealArith.ltb;
  fle := RealArith.leb;
  isfinite := fun _ => true;
  lit := RealArith.decimal;
  of_int := IZR;
  f2d := fun x => x;
  d2f := fun x => x;
  dmul := Rmult;
  ddiv := Rdiv;
  M_PI := PI
|}.


(* ================================================================== *)
(** * ICM-20948 driver: raw-to-physical conversion (icm20948_sensor.c) *)
(* ================================================================== *)

(** The enumerations of icm20948_sensor.h; C passes them as integers, so a
    range argument is any integer, recognised or not. *)
Definition GYRO_RANGE_250DPS : Z := 0.
Definition GYRO_RANGE_500DPS : Z := 1.
Definition GYRO_RANGE_1000DPS : Z := 2.
Definition GYRO_RANGE_2000DPS : Z := 3.
Definition ACCEL_RANGE_2G : Z := 0.
Definition ACCEL_RANGE_4G : Z := 1.
Definition ACCEL_RANGE_8G : Z := 2.
Definition ACCEL_RANGE_16G : Z := 3.

(** [SensorData]: three raw signed 16-bit samples. *)
Record SensorData := { sx : Z; sy : Z; sz : Z }.

Definition INT16_MIN : Z := -32768.
Definition INT16_MAX : Z := 32767.
Definition is_int16 (n : Z) : Prop := (INT16_MIN <= n <= INT16_MAX)%Z.

Section Conversion.
Context {A : CArith}.
Local Open Scope cf_scope.

Definition accel_sensitivity (range : Z) : float :=
  match range with
  | 0%Z => lit 16384 0
  | 1%Z => lit 8192 0
  | 2%Z => lit 4096 0
  | 3%Z => lit 2048 0
  | _ => lit 8192 0
  end.

Definition icm20948_accel_to_g (raw_value : Z) (range : Z) : float :=
  let sensitivity := accel_sensitivity range in
  of_int raw_value / sensitivity.

Definition gyro_sensitivity (range : Z) : float :=
  match range with
  | 0%Z => lit 131 0
  | 1%Z => lit 655 (-1)
  | 2%Z => lit 328 (-1)
  | 3%Z => lit 164 (-1)
  | _ => lit 655 (-1)
  end.

Definition icm20948_gyro_to_dps (raw_value : Z) (range : Z) : float :=
  let sensitivity := gyro_sensitivity range in
  of_int raw_value / sensitivity.

(** AK09916 sensitivity: 0.15 uT/LSB. *)
Definition icm20948_mag_to_ut (raw_value : Z) : float :=
  of_int raw_value * lit 15 (-2).

End Conversion.

(* ================================================================== *)
(** * Madgwick filter (madgwick_filter.h, madgwick_filter.c) *)
(* ================================================================== *)

(** The literals of the filter and of the loops, as the source writes them. *)
Abbreviation c0 := (lit 0 0).              (* 0.0f *)
Abbreviation c1 := (lit 1 0).              (* 1.0f *)
Abbreviation c2 := (lit 2 0).              (* 2.0f *)
Abbreviation c4 := (lit 4 0).              (* 4.0f *)
Abbreviation c8 := (lit 8 0).              (* 8.0f *)
Abbreviation c0_5 := (lit 5 (-1)).         (* 0.5f *)
Abbreviation c1e_20 := (lit 1 (-20)).      (* 1e-20f *)
Abbreviation c1e_8 := (lit 1 (-8)).        (* 1e-8f *)
Abbreviation c1e_12 := (lit 1 (-12)).      (* 1e-12f *)
Abbreviation c180 := (lit 180 0).          (* 180.0f *)

(** The functions of the C library that IEEE 754 does not define. *)
Class LibM (A : CArith) := {
  atan2f : float -> float -> float;
  asinf : float -> float
}.

Section Madgwick.
Context {A : CArith}.
Local Open Scope cf_scope.

Record Quaternion := { q0 : float; q1 : float; q2 : float; q3 : float }.

Record MadgwickFilter := {
  q : Quaternion;
  beta : float;
  sample_freq : float;
  inv_sample_freq : float
}.

Definition inv_sqrt (x : float) : float :=
  if (x <= c1e_20) || negb (isfinite x) then c0
  else c1 / sqrtf x.

Definition identity_quaternion : Quaternion :=
  {| q0 := c1; q1 := c0; q2 := c0; q3 := c0 |}.

Definition set_q (filter : MadgwickFilter) (q' : Quaternion) : MadgwickFilter :=
  {| q := q';
     beta := beta filter;
     sample_freq := sample_freq filter;
     inv_sample_freq := inv_sample_freq filter |}.

Definition reset_quaternion (filter : MadgwickFilter) : MadgwickFilter :=
  set_q filter identity_quaternion.

Definition madgwick_init (sample_freq beta : float) : MadgwickFilter :=
  {| q := identity_quaternion;
     beta := beta;
     sample_freq := sample_freq;
     inv_sample_freq := c1 / sample_freq |}.

(** The rate of change [qDot1 .. qDot4] is carried as a quaternion. *)
Definition gyro_rate (f : Quaternion) (gx gy gz : float) : Quaternion :=
  {| q0 := c0_5 * (- q1 f * gx - q2 f * gy - q3 f * gz);
     q1 := c0_5 * (q0 f * gx + q2 f * gz - q3 f * gy);
     q2 := c0_5 * (q0 f * gy - q1 f * gz + q3 f * gx);
     q3 := c0_5 * (q0 f * gz + q1 f * gy - q2 f * gx) |}.

(** Squared norm, summed left to right as the C expression is. *)
Definition norm_sq (f : Quaternion) : float :=
  q0 f * q0 f + q1 f * q1 f + q2 f * q2 f + q3 f * q3 f.

(** "Normalize step magnitude" and "Apply feedback step": [qDot -= beta * s]
    when the step is not degenerate. *)
Definition apply_feedback (beta : float) (qDot s : Quaternion) : Quaternion :=
  let step_sq := norm_sq s in
  if step_sq > c1e_12 then
    let recipNorm := inv_sqrt step_sq in
    let s0 := q0 s * recipNorm in
    let s1 := q1 s * recipNorm in
    let s2 := q2 s * recipNorm in
    let s3 := q3 s * recipNorm in
    {| q0 := q0 qDot - beta * s0;
       q1 := q1 qDot - beta * s1;
       q2 := q2 qDot - beta * s2;
       q3 := q3 qDot - beta * s3 |}
  else qDot.

(** "Integrate rate of change of quaternion to yield quaternion":
    [q += qDot * inv_sample_freq], before the normalisation. *)
Definition integrated (filter : MadgwickFilter) (qDot : Quaternion) : Quaternion :=
  let f := q filter in
  {| q0 := q0 f + q0 qDot * inv_sample_freq filter;
     q1 := q1 f + q1 qDot * inv_sample_freq filter;
     q2 := q2 f + q2 qDot * inv_sample_freq filter;
     q3 := q3 f + q3 qDot * inv_sample_freq filter |}.

(** The code after the labels [integrate_6dof] and [integrate_9dof]:
    integrate the rate of change, then normalise or reset. *)
Definition integrate (filter : MadgwickFilter) (qDot : Quaternion) : MadgwickFilter :=
  let qi := integrated filter qDot in
  let q_sq := norm_sq qi in
  let recipNorm := inv_sqrt q_sq in
  if recipNorm == c0 then reset_quaternion filter
  else set_q filter {| q0 := q0 qi * recipNorm;
                       q1 := q1 qi * recipNorm;
                       q2 := q2 qi * recipNorm;
                       q3 := q3 qi * recipNorm |}.

(** Gradient of the 6-DOF objective for a normalised accelerometer vector. *)
Definition imu_gradient (f : Quaternion) (ax ay az : float) : Quaternion :=
  let _2q0 := c2 * q0 f in
  let _2q1 := c2 * q1 f in
  let _2q2 := c2 * q2 f in
  let _2q3 := c2 * q3 f in
  let _4q0 := c4 * q0 f in
  let _4q1 := c4 * q1 f in
  let _4q2 := c4 * q2 f in
  let _8q1 := c8 * q1 f in
  let _8q2 := c8 * q2 f in
  let q0q0 := q0 f * q0 f in
  let q1q1 := q1 f * q1 f in
  let q2q2 := q2 f * q2 f in
  let q3q3 := q3 f * q3 f in
  {| q0 := _4q0 * q2q2 + _2q2 * ax + _4q0 * q1q1 - _2q1 * ay;
     q1 := _4q1 * q3q3 - _2q3 * ax + c4 * q0q0 * q1 f - _2q0 * ay - _4q1
           + _8q1 * q1q1 + _8q1 * q2q2 + _4q1 * az;
     q2 := c4 * q0q0 * q2 f + _2q0 * ax + _4q2 * q3q3 - _2q3 * ay - _4q2
           + _8q2 * q1q1 + _8q2 * q2q2 + _4q2 * az;
     q3 := c4 * q1q1 * q3 f - _2q1 * ax + c4 * q2q2 * q3 f - _2q2 * ay |}.

(** Update filter with 6-DOF sensor data (accel + gyro, no mag). *)
Definition madgwick_update_imu (filter : MadgwickFilter)
    (gx gy gz ax ay az : float) : MadgwickFilter :=
  let qDot := gyro_rate (q filter) gx gy gz in
  let acc_sq := ax * ax + ay * ay + az * az in
  if (acc_sq > c1e_8) && isfinite acc_sq then
    let recipNorm := inv_sqrt acc_sq in
    if recipNorm == c0 then integrate filter qDot
    else
      let ax := ax * recipNorm in
      let ay := ay * recipNorm in
      let az := az * recipNorm in
      let s := imu_gradient (q filter) ax ay az in
      integrate filter (apply_feedback (beta filter) qDot s)
  else integrate filter qDot.

(** Gradient of the 9-DOF objective for normalised accelerometer and
    magnetometer vectors. *)
Definition marg_gradient (f : Quaternion) (ax ay az mx my mz : float) : Quaternion :=
  let _2q0mx := c2 * q0 f * mx in
  let _2q0my := c2 * q0 f * my in
  let _2q0mz := c2 * q0 f * mz in
  let _2q1mx := c2 * q1 f * mx in
  let _2q0 := c2 * q0 f in
  let _2q1 := c2 * q1 f in
  let _2q2 := c2 * q2 f in
  let _2q3 := c2 * q3 f in
  let _2q0q2 := c2 * q0 f * q2 f in
  let _2q2q3 := c2 * q2 f * q3 f in
  let q0q0 := q0 f * q0 f in
  let q0q1 := q0 f * q1 f in
  let q0q2 := q0 f * q2 f in
  let q0q3 := q0 f * q3 f in
  let q1q1 := q1 f * q1 f in
  let q1q2 := q1 f * q2 f in
  let q1q3 := q1 f * q3 f in
  let q2q2 := q2 f * q2 f in
  let q2q3 := q2 f * q3 f in
  let q3q3 := q3 f * q3 f in
  let hx := mx * q0q0 - _2q0my * q3 f + _2q0mz * q2 f +
            mx * q1q1 + _2q1 * my * q2 f + _2q1 * mz * q3 f -
            mx * q2q2 - mx * q3q3 in
  let hy := _2q0mx * q3 f + my * q0q0 - _2q0mz * q1 f +
            _2q1mx * q2 f - my * q1q1 + my * q2q2 +
            _2q2 * mz * q3 f - my * q3q3 in
  let _2bx := sqrtf (hx * hx + hy * hy) in
  let _2bz := - _2q0mx * q2 f + _2q0my * q1 f + mz * q0q0 +
              _2q1mx * q3 f - mz * q1q1 + _2q2 * my * q3 f -
              mz * q2q2 + mz * q3q3 in
  let _4bx := c2 * _2bx in
  let _4bz := c2 * _2bz in
  {| q0 := - _2q2 * (c2 * q1q3 - _2q0q2 - ax) +
           _2q1 * (c2 * q0q1 + _2q2q3 - ay) -
           _2bz * q2 f * (_2bx * (c0_5 - q2q2 - q3q3) + _2bz * (q1q3 - q0q2) - mx) +
           (- _2bx * q3 f + _2bz * q1 f) * (_2bx * (q1q2 - q0q3) + _2bz * (q0q1 + q2q3) - my) +
           _2bx * q2 f * (_2bx * (q0q2 + q1q3) + _2bz * (c0_5 - q1q1 - q2q2) - mz);
     q1 := _2q3 * (c2 * q1q3 - _2q0q2 - ax) +
           _2q0 * (c2 * q0q1 + _2q2q3 - ay) -
           c4 * q1 f * (c1 - c2 * q1q1 - c2 * q2q2 - az) +
           _2bz * q3 f * (_2bx * (c0_5 - q2q2 - q3q3) + _2bz * (q1q3 - q0q2) - mx) +
           (_2bx * q2 f + _2bz * q0 f) * (_2bx * (q1q2 - q0q3) + _2bz * (q0q1 + q2q3) - my) +
           (_2bx * q3 f - _4bz * q1 f) * (_2bx * (q0q2 + q1q3) + _2bz * (c0_5 - q1q1 - q2q2) - mz);
     q2 := - _2q0 * (c2 * q1q3 - _2q0q2 - ax) +
           _2q3 * (c2 * q0q1 + _2q2q3 - ay) -
           c4 * q2 f * (c1 - c2 * q1q1 - c2 * q2q2 - az) +
           (- _4bx * q2 f - _2bz * q0 f) * (_2bx * (c0_5 - q2q2 - q3q3) + _2bz * (q1q3 - q0q2) - mx) +
           (_2bx * q1 f + _2bz * q3 f) * (_2bx * (q1q2 - q0q3) + _2bz * (q0q1 + q2q3) - my) +
           (_2bx * q0 f - _4bz * q2 f) * (_2bx * (q0q2 + q1q3) + _2bz * (c0_5 - q1q1 - q2q2) - mz);
     q3 := _2q1 * (c2 * q1q3 - _2q0q2 - ax) +
           _2q2 * (c2 * q0q1 + _2q2q3 - ay) +
           (- _4bx * q3 f + _2bz * q1 f) * (_2bx * (c0_5 - q2q2 - q3q3) + _2bz * (q1q3 - q0q2) - mx) +
           (- _2bx * q0 f + _2bz * q2 f) * (_2bx * (q1q2 - q0q3) + _2bz * (q0q1 + q2q3) - my) +
           _2bx * q1 f * (_2bx * (q0q2 + q1q3) + _2bz * (c0_5 - q1q1 - q2q2) - mz) |}.

(** Update filter with 9-DOF sensor data (accel + gyro + mag). *)
Definition madgwick_update (filter : MadgwickFilter)
    (gx gy gz ax ay az mx my mz : float) : MadgwickFilter :=
  if (mx == c0) && (my == c0) && (mz == c0) then
    madgwick_update_imu filter gx gy gz ax ay az
  else
    let qDot := gyro_rate (q filter) gx gy gz in
    let acc_sq := ax * ax + ay * ay + az * az in
    if (acc_sq > c1e_8) && isfinite acc_sq then
      let recipNorm := inv_sqrt acc_sq in
      if recipNorm == c0 then integrate filter qDot
      else
        let ax := ax * recipNorm in
        let ay := ay * recipNorm in
        let az := az * recipNorm in
        let mag_sq := mx * mx + my * my + mz * mz in
        let recipNorm := inv_sqrt mag_sq in
        if recipNorm == c0 then integrate filter qDot
        else
          let mx := mx * recipNorm in
          let my := my * recipNorm in
          let mz := mz * recipNorm in
          let s := marg_gradient (q filter) ax ay az mx my mz in
          integrate filter (apply_feedback (beta filter) qDot s)
    else integrate filter qDot.

Section Euler.
Context {L : LibM A}.

(** [M_PI / 2.0f] is a double; [copysignf] takes it as a float. *)
Definition half_pi : float := d2f (ddiv M_PI (f2d c2)).

(** Convert quaternion to Euler angles (radians): (roll, pitch, yaw). *)
Definition quaternion_to_euler (f : Quaternion) : float * float * float :=
  let sinr_cosp := c2 * (q0 f * q1 f + q2 f * q3 f) in
  let cosr_cosp := c1 - c2 * (q1 f * q1 f + q2 f * q2 f) in
  let roll := atan2f sinr_cosp cosr_cosp in
  let sinp := c2 * (q0 f * q2 f - q3 f * q1 f) in
  let pitch :=
    if fabsf sinp >= c1 then copysignf half_pi sinp
    else asinf sinp in
  let siny_cosp := c2 * (q0 f * q3 f + q1 f * q2 f) in
  let cosy_cosp := c1 - c2 * (q2 f * q2 f + q3 f * q3 f) in
  let yaw := atan2f siny_cosp cosy_cosp in
  (roll, pitch, yaw).

(** [x * 180.0f / M_PI]: a float product, a double quotient, returned as
    a float. *)
Definition rad_to_deg (x : float) : float :=
  d2f (ddiv (f2d (x * c180)) M_PI).

Definition madgwick_get_roll_deg (filter : MadgwickFilter) : float :=
  let '(roll, _, _) := quaternion_to_euler (q filter) in rad_to_deg roll.

Definition madgwick_get_pitch_deg (filter : MadgwickFilter) : float :=
  let '(_, pitch, _) := quaternion_to_euler (q filter) in rad_to_deg pitch.

Definition madgwick_get_yaw_deg (filter : MadgwickFilter) : float :=
  let '(_, _, yaw) := quaternion_to_euler (q filter) in rad_to_deg yaw.

End Euler.

End Madgwick.

(* ================================================================== *)
(** * ICM-20948 driver: register reads (icm20948_sensor.c) *)
(* ================================================================== *)

Definition ICM20948_BANK_0 : Z := 0.
Definition ICM20948_ACCEL_XOUT_H : Z := 0x2D.
Definition ICM20948_GYRO_XOUT_H : Z := 0x33.
Definition ICM20948_EXT_SLV_SENS_DATA_00 : Z := 0x3B.
Definition ICM20948_REG_BANK_SEL : Z := 0x7F.

(** [(uint8_t) n] and [(int16_t) n]. *)
Definition to_uint8 (n : Z) : Z := n mod 256.
Definition to_int16 (n : Z) : Z := (n + 32768) mod 65536 - 32768.

Section Driver.

(** The sensor behind the SPI bus is outside the program: a state that a
    write transaction changes and that answers a read transaction (the
    address byte, then [len] bytes clocked in) with bytes. *)
Variable Device : Type.
Variable spi_write : Device -> list Z -> Device.
Variable spi_read : Device -> Z -> nat -> list Z * Device.

(** Driver state: the device and the cached register bank
    ([current_bank], 0xFF when nothing was selected yet). *)
Record Driver := { device : Device; current_bank : Z }.

Definition select_bank (bank : Z) (d : Driver) : Driver :=
  if (bank =? current_bank d)%Z then d
  else {| device := spi_write (device d)
                      [ICM20948_REG_BANK_SEL; to_uint8 (Z.shiftl bank 4)];
          current_bank := bank |}.

Definition read_registers (reg : Z) (len : nat) (d : Driver) : list Z * Driver :=
  let tx := Z.lor reg 0x80 in
  let '(buffer, dev) := spi_read (device d) tx len in
  (map to_uint8 (firstn len buffer), {| device := dev; current_bank := current_bank d |}).

(** [buffer[i]]. *)
Definition byte_at (buffer : list Z) (i : nat) : Z := nth i buffer 0%Z.

(** [(int16_t)((hi << 8) | lo)]. *)
Definition combine (hi lo : Z) : Z := to_int16 (Z.lor (Z.shiftl hi 8) lo).

(** A [SensorData*] argument is [None] for NULL, otherwise the record it
    points to; a read returns its result, the record afterwards and the
    driver state. *)
Definition icm20948_read_accel (data : option SensorData) (d : Driver)
  : bool * option SensorData * Driver :=
  match data with
  | None => (false, None, d)
  | Some _ =>
      let d := select_bank ICM20948_BANK_0 d in
      let '(buffer, d) := read_registers ICM20948_ACCEL_XOUT_H 6 d in
      (true,
       Some {| sx := combine (byte_at buffer 0) (byte_at buffer 1);
               sy := combine (byte_at buffer 2) (byte_at buffer 3);
               sz := combine (byte_at buffer 4) (byte_at buffer 5) |},
       d)
  end.

Definition icm20948_read_gyro (data : option SensorData) (d : Driver)
  : bool * option SensorData * Driver :=
  match data with
  | None => (false, None, d)
  | Some _ =>
      let d := select_bank ICM20948_BANK_0 d in
      let '(buffer, d) := read_registers ICM20948_GYRO_XOUT_H 6 d in
      (true,
       Some {| sx := combine (byte_at buffer 0) (byte_at buffer 1);
               sy := combine (byte_at buffer 2) (byte_at buffer 3);
               sz := combine (byte_at buffer 4) (byte_at buffer 5) |},
       d)
  end.

Definition icm20948_read_accel_gyro (accel gyro : option SensorData) (d : Driver)
  : bool * option SensorData * option SensorData * Driver :=
  match accel, gyro with
  | Some _, Some _ =>
      let d := select_bank ICM20948_BANK_0 d in
      let '(buffer, d) := read_registers ICM20948_ACCEL_XOUT_H 12 d in
      (true,
       Some {| sx := combine (byte_at buffer 0) (byte_at buffer 1);
               sy := combine (byte_at buffer 2) (byte_at buffer 3);
               sz := combine (byte_at buffer 4) (byte_at buffer 5) |},
       Some {| sx := combine (byte_at buffer 6) (byte_at buffer 7);
               sy := combine (byte_at buffer 8) (byte_at buffer 9);
               sz := combine (byte_at buffer 10) (byte_at buffer 11) |},
       d)
  | _, _ => (false, accel, gyro, d)
  end.

(** The eight bytes ST1, HXL..HZH, ST2 of the AK09916 as the auxiliary bus
    left them in EXT_SLV_SENS_DATA. *)
Definition mag_buffer (d : Driver) : list Z * Driver :=
  read_registers ICM20948_EXT_SLV_SENS_DATA_00 8 (select_bank ICM20948_BANK_0 d).

Definition icm20948_read_mag (data : option SensorData) (d : Driver)
  : bool * option SensorData * Driver :=
  match data with
  | None => (false, None, d)
  | Some old =>
      let '(buffer, d) := mag_buffer d in
      if (Z.land (byte_at buffer 0) 0x01 =? 0)%Z then (false, Some old, d)
      else if negb (Z.land (byte_at buffer 7) 0x08 =? 0)%Z then (false, Some old, d)
      else
        (true,
         Some {| sx := combine (byte_at buffer 2) (byte_at buffer 1);
                 sy := combine (byte_at buffer 4) (byte_at buffer 3);
                 sz := combine (byte_at buffer 6) (byte_at buffer 5) |},
         d)
  end.

End Driver.

(* ================================================================== *)
(** * The filter of BasicGyro/madgwick.c (API of madgwick.h) *)
(* ================================================================== *)

(** [attitude_indicator_run] calls this older implementation: degrees per
    second in, degrees out, and no degeneracy guard.  Its filter struct
    holds the four quaternion fields directly; the record [MadgwickFilter]
    above stands for it. *)
Module BasicGyro.
Section Filter.
Context {A : CArith} {L : LibM A}.
Local Open Scope cf_scope.

(** 3.14159265358979323846f *)
Definition PI_F : float := lit 314159265358979323846 (-20).
Definition DEG_TO_RAD : float := PI_F / c180.
Definition RAD_TO_DEG : float := c180 / PI_F.

Definition inv_sqrt (x : float) : float := c1 / sqrtf x.

Definition normalise_step (beta : float) (qDot s : Quaternion) : Quaternion :=
  let recipNorm := inv_sqrt (norm_sq s) in
  let s0 := q0 s * recipNorm in
  let s1 := q1 s * recipNorm in
  let s2 := q2 s * recipNorm in
  let s3 := q3 s * recipNorm in
  {| q0 := q0 qDot - beta * s0;
     q1 := q1 qDot - beta * s1;
     q2 := q2 qDot - beta * s2;
     q3 := q3 qDot - beta * s3 |}.

Definition integrate (filter : MadgwickFilter) (qDot : Quaternion) : MadgwickFilter :=
  let f := q filter in
  let qi := {| q0 := q0 f + q0 qDot * inv_sample_freq filter;
               q1 := q1 f + q1 qDot * inv_sample_freq filter;
               q2 := q2 f + q2 qDot * inv_sample_freq filter;
               q3 := q3 f + q3 qDot * inv_sample_freq filter |} in
  let recipNorm := inv_sqrt (norm_sq qi) in
  set_q filter {| q0 := q0 qi * recipNorm;
                  q1 := q1 qi * recipNorm;
                  q2 := q2 qi * recipNorm;
                  q3 := q3 qi * recipNorm |}.

Definition madgwick_update_imu (filter : MadgwickFilter)
    (gx gy gz ax ay az : float) : MadgwickFilter :=
  let gx := gx * DEG_TO_RAD in
  let gy := gy * DEG_TO_RAD in
  let gz := gz * DEG_TO_RAD in
  let qDot := gyro_rate (q filter) gx gy gz in
  if negb ((ax == c0) && (ay == c0) && (az == c0)) then
    let recipNorm := inv_sqrt (ax * ax + ay * ay + az * az) in
    let ax := ax * recipNorm in
    let ay := ay * recipNorm in
    let az := az * recipNorm in
    let s := imu_gradient (q filter) ax ay az in
    integrate filter (normalise_step (beta filter) qDot s)
  else integrate filter qDot.

Definition madgwick_update_marg (filter : MadgwickFilter)
    (gx gy gz ax ay az mx my mz : float) : MadgwickFilter :=
  let gx := gx * DEG_TO_RAD in
  let gy := gy * DEG_TO_RAD in
  let gz := gz * DEG_TO_RAD in
  let qDot := gyro_rate (q filter) gx gy gz in
  if negb ((ax == c0) && (ay == c0) && (az == c0)) then
    let recipNorm := inv_sqrt (ax * ax + ay * ay + az * az) in
    let ax := ax * recipNorm in
    let ay := ay * recipNorm in
    let az := az * recipNorm in
    let recipNorm := inv_sqrt (mx * mx + my * my + mz * mz) in
    let mx := mx * recipNorm in
    let my := my * recipNorm in
    let mz := mz * recipNorm in
    let s := marg_gradient (q filter) ax ay az mx my mz in
    integrate filter (normalise_step (beta filter) qDot s)
  else integrate filter qDot.

(** Euler angles in degrees: (roll, pitch, yaw), the yaw negated. *)
Definition madgwick_get_euler (filter : MadgwickFilter) : float * float * float :=
  let f := q filter in
  let sinr_cosp := c2 * (q0 f * q1 f + q2 f * q3 f) in
  let cosr_cosp := c1 - c2 * (q1 f * q1 f + q2 f * q2 f) in
  let roll := atan2f sinr_cosp cosr_cosp * RAD_TO_DEG in
  let sinp := c2 * (q0 f * q2 f - q3 f * q1 f) in
  let pitch :=
    if fabsf sinp >= c1 then copysignf (lit 90 0) sinp
    else asinf sinp * RAD_TO_DEG in
  let siny_cosp := c2 * (q0 f * q3 f + q1 f * q2 f) in
  let cosy_cosp := c1 - c2 * (q2 f * q2 f + q3 f * q3 f) in
  let yaw := - atan2f siny_cosp cosy_cosp * RAD_TO_DEG in
  (roll, pitch, yaw).

End Filter.
End BasicGyro.

(* ================================================================== *)
(** * The AHRS loop of the Pico menu ([action_test_gyro], main_menu.c) *)
(* ================================================================== *)

(** One pass of a [while (true)] body either leaves the loop or goes on
    with the next pass ([continue] or the end of the body). *)
Inductive LoopStep (S : Type) : Type :=
| Exit (s : S)
| Continue (s : S).
Arguments Exit {S} s.
Arguments Continue {S} s.

Definition state_of {S : Type} (r : LoopStep S) : S :=
  match r with Exit s | Continue s => s end.

(** [(int64_t) n] and [(uint64_t) n]. *)
Definition to_int64 (n : Z) : Z := (n + 2 ^ 63) mod 2 ^ 64 - 2 ^ 63.
Definition to_uint64 (n : Z) : Z := n mod 2 ^ 64.

Section TestGyro.
Context {A : CArith} {L : LibM A}.
Local Open Scope cf_scope.

(** What [action_test_gyro] keeps from one pass of its loop to the next.
    [frame] is the attitude (roll, pitch) of the last frame flushed to
    the LCD, [None] before the first flush. *)
Record GyroTest := {
  filter : MadgwickFilter;
  gyro_bias_x : float;
  gyro_bias_y : float;
  gyro_bias_z : float;
  accel_bias_x : float;
  accel_bias_y : float;
  accel_bias_z : float;
  last_update : Z;
  frame : option (float * float)
}.

(** What one pass reads from outside: the KEY2 edge, the results of
    [icm20948_read_accel] and [icm20948_read_gyro] ([None] when the call
    returns false) and the clock in microseconds. *)
Record GyroTestInput := {
  key2 : bool;
  accel_read : option SensorData;
  gyro_read : option SensorData;
  now : Z
}.

(** Lines 518-521: the measured interval, or the nominal 0.01 s. *)
Definition measured_dt (dt_us : Z) : float :=
  let dt := of_int dt_us / lit 1000000 0 in
  if (dt <= c0) || (dt > lit 2 (-1)) then lit 1 (-2) else dt.

(** Lines 543-548. *)
Definition stationary (ax ay az gx_dps gy_dps gz_dps : float) : bool :=
  let acc_norm := sqrtf (ax * ax + ay * ay + az * az) in
  isfinite acc_norm &&
  (fabsf (acc_norm - c1) < lit 8 (-2)) &&
  (fabsf gx_dps < lit 12 (-1)) &&
  (fabsf gy_dps < lit 12 (-1)) &&
  (fabsf gz_dps < lit 12 (-1)).

(** Lines 550-551. *)
Definition bias_alpha (dt : float) : float :=
  let bias_alpha := dt * lit 8 (-2) in
  if bias_alpha > lit 2 (-2) then lit 2 (-2) else bias_alpha.

(** Lines 552-554, one axis. *)
Definition blend_bias (bias_alpha gyro_bias raw_dps : float) : float :=
  (c1 - bias_alpha) * gyro_bias + bias_alpha * raw_dps.

(** Lines 542-559: the three gyroscope biases after the auto-trim. *)
Definition trim_bias (dt : float) (bias raw : float * float * float)
    (ax ay az : float) : float * float * float :=
  let '(bx, by_, bz) := bias in
  let '(rx, ry, rz) := raw in
  if stationary ax ay az (rx - bx) (ry - by_) (rz - bz) then
    let a := bias_alpha dt in
    (blend_bias a bx rx, blend_bias a by_ ry, blend_bias a bz rz)
  else bias.

(** [x * M_PI / 180.0f], computed in double and stored in a float. *)
Definition deg_to_rad (x : float) : float :=
  d2f (ddiv (dmul (f2d x) M_PI) (f2d c180)).

Definition with_filter (s : GyroTest) (f : MadgwickFilter) (bias : float * float * float)
    (t : Z) (fr : option (float * float)) : GyroTest :=
  let '(bx, by_, bz) := bias in
  {| filter := f;
     gyro_bias_x := bx; gyro_bias_y := by_; gyro_bias_z := bz;
     accel_bias_x := accel_bias_x s;
     accel_bias_y := accel_bias_y s;
     accel_bias_z := accel_bias_z s;
     last_update := t;
     frame := fr |}.

Definition set_clock (s : GyroTest) (t : Z) : GyroTest :=
  with_filter s (filter s) (gyro_bias_x s, gyro_bias_y s, gyro_bias_z s) t (frame s).

(** Lines 465-489: the calibration before the loop.  [reads k] holds the
    results of [icm20948_read_gyro] and of [icm20948_read_accel] in pass
    [k] of its 100 passes ([None] when the call returns false).  Each
    bias is the sum of the converted readings divided by 100, whatever
    the number of readings that came; 1 g is taken off the z axis of the
    accelerometer.  The result is the three gyroscope biases and the
    three accelerometer biases. *)
Definition calibration_samples : Z := 100.

Definition calibration_pass
    (sums : (float * float * float) * (float * float * float))
    (read : option SensorData * option SensorData)
  : (float * float * float) * (float * float * float) :=
  let '((gx, gy, gz), (ax, ay, az)) := sums in
  let '(gyro_read, accel_read) := read in
  let gyro_sums :=
    match gyro_read with
    | Some gyro =>
        (gx + icm20948_gyro_to_dps (sx gyro) GYRO_RANGE_500DPS,
         gy + icm20948_gyro_to_dps (sy gyro) GYRO_RANGE_500DPS,
         gz + icm20948_gyro_to_dps (sz gyro) GYRO_RANGE_500DPS)
    | None => (gx, gy, gz)
    end in
  let accel_sums :=
    match accel_read with
    | Some accel =>
        (ax + icm20948_accel_to_g (sx accel) ACCEL_RANGE_4G,
         ay + icm20948_accel_to_g (sy accel) ACCEL_RANGE_4G,
         az + icm20948_accel_to_g (sz accel) ACCEL_RANGE_4G)
    | None => (ax, ay, az)
    end in
  (gyro_sums, accel_sums).

Definition calibrate (reads : nat -> option SensorData * option SensorData)
  : (float * float * float) * (float * float * float) :=
  let '((gx, gy, gz), (ax, ay, az)) :=
    fold_left (fun sums k => calibration_pass sums (reads k))
              (seq 0 (Z.to_nat calibration_samples))
              ((c0, c0, c0), (c0, c0, c0)) in
  let n := of_int calibration_samples in
  ((gx / n, gy / n, gz / n), (ax / n, ay / n, az / n - c1)).

(** Lines 457-499: what the loop starts from, at the time [t] of
    [get_absolute_time]. *)
Definition action_test_gyro_start
    (reads : nat -> option SensorData * option SensorData) (t : Z) : GyroTest :=
  let '((gx, gy, gz), (ax, ay, az)) := calibrate reads in
  {| filter := madgwick_init (lit 100 0) (lit 10 (-2));
     gyro_bias_x := gx; gyro_bias_y := gy; gyro_bias_z := gz;
     accel_bias_x := ax; accel_bias_y := ay; accel_bias_z := az;
     last_update := t;
     frame := None |}.

(** One pass of the loop (lines 502-640). *)
Definition action_test_gyro_pass (s : GyroTest) (i : GyroTestInput) : LoopStep GyroTest :=
  if key2 i then Exit s
  else
    match accel_read i, gyro_read i with
    | Some accel, Some gyro =>
        let dt_us := to_int64 (now i - last_update s) in
        let s1 := set_clock s (now i) in
        let dt := measured_dt dt_us in
        let ax := icm20948_accel_to_g (sx accel) ACCEL_RANGE_4G - accel_bias_x s in
        let ay := icm20948_accel_to_g (sy accel) ACCEL_RANGE_4G - accel_bias_y s in
        let az := icm20948_accel_to_g (sz accel) ACCEL_RANGE_4G - accel_bias_z s in
        let gx_raw_dps := icm20948_gyro_to_dps (sx gyro) GYRO_RANGE_500DPS in
        let gy_raw_dps := icm20948_gyro_to_dps (sy gyro) GYRO_RANGE_500DPS in
        let gz_raw_dps := icm20948_gyro_to_dps (sz gyro) GYRO_RANGE_500DPS in
        let gx_dps := gx_raw_dps - gyro_bias_x s in
        let gy_dps := gy_raw_dps - gyro_bias_y s in
        let gz_dps := gz_raw_dps - gyro_bias_z s in
        if negb (isfinite gx_dps) || negb (isfinite gy_dps) || negb (isfinite gz_dps)
        then Continue s1
        else if (fabsf gx_dps > lit 2000 0) || (fabsf gy_dps > lit 2000 0)
                || (fabsf gz_dps > lit 2000 0)
        then Continue s1
        else
          let bias := trim_bias dt (gyro_bias_x s, gyro_bias_y s, gyro_bias_z s)
                        (gx_raw_dps, gy_raw_dps, gz_raw_dps) ax ay az in
          let '(bx, by_, bz) := bias in
          let gx_dps := gx_raw_dps - bx in
          let gy_dps := gy_raw_dps - by_ in
          let gz_dps := gz_raw_dps - bz in
          let gz_dps := if fabsf gz_dps < lit 15 (-2) then c0 else gz_dps in
          let gx := deg_to_rad gx_dps in
          let gy := deg_to_rad gy_dps in
          let gz := deg_to_rad gz_dps in
          let f := {| q := q (filter s); beta := beta (filter s);
                      sample_freq := c1 / dt; inv_sample_freq := dt |} in
          let f := madgwick_update_imu f gx gy gz ax ay az in
          let roll := - madgwick_get_roll_deg f in
          let pitch := madgwick_get_pitch_deg f in
          if negb (isfinite roll) || negb (isfinite pitch) then
            Continue (with_filter s (madgwick_init (lit 100 0) (lit 10 (-2))) bias
                        (now i) (frame s))
          else
            let pitch := if pitch > lit 60 0 then lit 60 0 else pitch in
            let pitch := if pitch < - lit 60 0 then - lit 60 0 else pitch in
            Continue (with_filter s f bias (now i) (Some (roll, pitch)))
    | _, _ => Continue s
    end.

End TestGyro.

(* ================================================================== *)
(** * The attitude indicator ([attitude_indicator_run], attitude_indicator.c) *)
(* ================================================================== *)

Definition LOOP_HZ : Z := 100.
Definition LOOP_US : Z := 1000000 / LOOP_HZ.

Section AttitudeIndicator.
Context {A : CArith} {L : LibM A}.
Local Open Scope cf_scope.

Definition UI_SMOOTH : float := lit 12 (-2).
Definition MAX_DISPLAY_DEG : float := lit 80 0.

(** [while (deg < 0.0f) deg += 360.0f;] run for at most [fuel] passes:
    [None] when the loop is still running after them. *)
Fixpoint wrap_up (fuel : nat) (deg : float) : option float :=
  if deg < c0 then
    match fuel with
    | O => None
    | S fuel' => wrap_up fuel' (deg + lit 360 0)
    end
  else Some deg.

(** [while (deg >= 360.0f) deg -= 360.0f;] *)
Fixpoint wrap_down (fuel : nat) (deg : float) : option float :=
  if deg >= lit 360 0 then
    match fuel with
    | O => None
    | S fuel' => wrap_down fuel' (deg - lit 360 0)
    end
  else Some deg.

Definition wrap360 (fuel : nat) (deg : float) : option float :=
  match wrap_up fuel deg with
  | Some deg => wrap_down fuel deg
  | None => None
  end.

(** [wrap360 deg] never returns: its loops are still running after any
    number of passes. *)
Definition never_returns (deg : float) : Prop :=
  forall fuel : nat, wrap360 fuel deg = None.

Definition clampf (x lo hi : float) : float :=
  if x < lo then lo
  else if x > hi then hi
  else x.

(** What the loop keeps from one pass to the next.  [shown] is the
    attitude (roll, pitch, heading) last drawn and flushed. *)
Record Indicator := {
  ai_filter : MadgwickFilter;
  gx_bias : float;
  gy_bias : float;
  gz_bias : float;
  smooth_roll : float;
  smooth_pitch : float;
  next_tick_us : Z;
  last_update_us : Z;
  display_counter : Z;
  shown : option (float * float * float)
}.

(** What one pass reads from outside: the KEY2 edge, the clock, the result
    of [icm20948_read_accel_gyro] and of [icm20948_read_mag] ([None] when
    the call returns false). *)
Record IndicatorInput := {
  ai_key2 : bool;
  now_us : Z;
  accel_gyro_read : option (SensorData * SensorData);
  mag_read : option SensorData
}.

(** Lines 309-315: the interval handed to the filter. *)
Definition tick_dt (last_update_us now_us : Z) : float :=
  let dt := c1 / of_int LOOP_HZ in
  if negb (last_update_us =? 0)%Z then
    let measured_dt := of_int (to_uint64 (now_us - last_update_us)) / lit 1000000 0 in
    let measured_dt := if measured_dt < lit 1 (-3) then lit 1 (-3) else measured_dt in
    let measured_dt := if measured_dt > lit 5 (-2) then lit 5 (-2) else measured_dt in
    measured_dt
  else dt.

(** Lines 336-367 (USE_MAG = 1): the filter update of one tick. *)
Definition fuse (f : MadgwickFilter) (dt : float) (gx gy gz ax ay az : float)
    (accel_valid : bool) (mag : option SensorData) : MadgwickFilter :=
  let f := {| q := q f; beta := beta f;
              sample_freq := c1 / dt; inv_sample_freq := dt |} in
  match mag with
  | Some mag =>
      let mx := icm20948_mag_to_ut (sx mag) in
      let my := icm20948_mag_to_ut (sy mag) in
      let mz := icm20948_mag_to_ut (sz mag) in
      BasicGyro.madgwick_update_marg f gx gy gz
        (if accel_valid then ax else c0)
        (if accel_valid then ay else c0)
        (if accel_valid then az else c0)
        my mx mz
  | None =>
      BasicGyro.madgwick_update_imu f gx gy gz
        (if accel_valid then ax else c0)
        (if accel_valid then ay else c0)
        (if accel_valid then az else c0)
  end.

(** One pass of the loop (lines 290-397); [None] when [wrap360] does not
    return within [fuel] passes of its loops. *)
Definition attitude_indicator_pass (fuel : nat) (s : Indicator) (i : IndicatorInput)
  : option (LoopStep Indicator) :=
  if ai_key2 i then Some (Exit s)
  else if (to_int64 (now_us i - next_tick_us s) <? 0)%Z then Some (Continue s)
  else
    let next_tick := to_uint64 (now_us i + LOOP_US) in
    let dt := tick_dt (last_update_us s) (now_us i) in
    let s1 := {| ai_filter := ai_filter s;
                 gx_bias := gx_bias s; gy_bias := gy_bias s; gz_bias := gz_bias s;
                 smooth_roll := smooth_roll s; smooth_pitch := smooth_pitch s;
                 next_tick_us := next_tick; last_update_us := now_us i;
                 display_counter := display_counter s; shown := shown s |} in
    match accel_gyro_read i with
    | None => Some (Continue s1)
    | Some (accel, gyro) =>
        let ax := icm20948_accel_to_g (sx accel) ACCEL_RANGE_4G in
        let ay := icm20948_accel_to_g (sy accel) ACCEL_RANGE_4G in
        let az := icm20948_accel_to_g (sz accel) ACCEL_RANGE_4G in
        let gx := icm20948_gyro_to_dps (sx gyro) GYRO_RANGE_500DPS - gx_bias s in
        let gy := icm20948_gyro_to_dps (sy gyro) GYRO_RANGE_500DPS - gy_bias s in
        let gz := icm20948_gyro_to_dps (sz gyro) GYRO_RANGE_500DPS - gz_bias s in
        let anorm2 := ax * ax + ay * ay + az * az in
        let accel_valid := (anorm2 > lit 8 (-1)) && (anorm2 < lit 12 (-1)) in
        let f := fuse (ai_filter s) dt gx gy gz ax ay az accel_valid (mag_read i) in
        let '(roll, pitch, yaw) := BasicGyro.madgwick_get_euler f in
        match wrap360 fuel yaw with
        | None => None
        | Some heading =>
            let sr := smooth_roll s * (c1 - UI_SMOOTH) + roll * UI_SMOOTH in
            let sp := smooth_pitch s * (c1 - UI_SMOOTH) + pitch * UI_SMOOTH in
            let sr := clampf sr (- MAX_DISPLAY_DEG) MAX_DISPLAY_DEG in
            let sp := clampf sp (- MAX_DISPLAY_DEG) MAX_DISPLAY_DEG in
            let counter := to_uint8 (display_counter s + 1) in
            let draw := (2 <=? counter)%Z in
            Some (Continue
              {| ai_filter := f;
                 gx_bias := gx_bias s; gy_bias := gy_bias s; gz_bias := gz_bias s;
                 smooth_roll := sr; smooth_pitch := sp;
                 next_tick_us := next_tick; last_update_us := now_us i;
                 display_counter := if draw then 0%Z else counter;
                 shown := if draw then Some (sr, sp, heading) else shown s |})
        end
    end.

End AttitudeIndicator.

(* ================================================================== *)
(** * Warning evaluation of the Raspberry Pi application (main.c) *)
(* ================================================================== *)

Section Warnings.
Context {A : CArith}.
Local Open Scope cf_scope.

(** [(gps_data.speed_knots <= 85.0f) ? 20.0f : 30.0f] *)
Definition bank_limit (speed_knots : float) : float :=
  if speed_knots <= lit 85 0 then lit 20 0 else lit 30 0.

(** [fabs(attitude.roll) > bank_limit]: [fabs] is the double function; the
    promotion of both sides to double is exact and keeps the order, so the
    comparison is the one of the floats. *)
Definition bank_warning (roll speed_knots : float) : bool :=
  fabsf roll > bank_limit speed_knots.

(** [fabs(attitude.pitch) > 20.0f] *)
Definition pitch_warning (pitch : float) : bool :=
  fabsf pitch > lit 20 0.

End Warnings.

(* ================================================================== *)
(** * The value of a machine float; the C library over the reals *)
(* ================================================================== *)

(** The real number a binary float stands for (0 for NaN and infinities,
    which [IEEE.is_finite] tells apart). *)
Definition F2R (x : spec_float) : R :=
  match x with
  | S754_finite s m e =>
      let v := (IZR (Zpos m) * powerRZ 2 e)%R in
      if s then (- v)%R else v
  | _ => 0%R
  end.

(** A quaternion of machine floats is finite when its four fields are. *)
Definition quat_finite (f : @Quaternion machine) : bool :=
  IEEE.is_finite (q0 f) && IEEE.is_finite (q1 f) &&
  IEEE.is_finite (q2 f) && IEEE.is_finite (q3 f).

(** The exact squared norm of a quaternion of machine floats. *)
Definition exact_norm_sq (f : @Quaternion machine) : R :=
  (F2R (q0 f) * F2R (q0 f) + F2R (q1 f) * F2R (q1 f) +
   F2R (q2 f) * F2R (q2 f) + F2R (q3 f) * F2R (q3 f))%R.

(** [atan2] of the C standard over the reals: the angle of the point
    [(x, y)], in (-PI, PI]. *)
Definition real_atan2 (y x : R) : R :=
  if Rlt_dec 0 x then atan (y / x)
  else if Rlt_dec x 0 then
    if Rle_dec 0 y then (atan (y / x) + PI)%R else (atan (y / x) - PI)%R
  else if Rlt_dec 0 y then (PI / 2)%R
  else if Rlt_dec y 0 then (- (PI / 2))%R
  else 0%R.

Definition ideal_libm : LibM ideal := @Build_LibM ideal real_atan2 asin.

(* ================================================================== *)
(** * Binary formats: validity and rounding *)
(* ================================================================== *)

(** The power of two [2^e] as a real number. *)
Definition bpow (e : Z) : R := powerRZ 2 e.

(** A shift record that carries no round or sticky bit. *)
Definition shr_exact (r : shr_record) : Prop := shr_r r = false /\ shr_s r = false.

(** Comparison of the magnitudes of two finite floats. *)
Definition cmp_mag (m1 : positive) (e1 : Z) (m2 : positive) (e2 : Z) : comparison :=
  match Z.compare e1 e2 with
  | Lt => Lt
  | Gt => Gt
  | Eq => Pos.compare_cont Eq m1 m2
  end.

(** A float of the format with precision [prec] and exponents below [emax]. *)
Definition valid (prec emax : Z) (x : spec_float) : Prop :=
  valid_binary prec emax x = true.

(** [rounds_to prec emax x r]: the float [r] is the real [x] rounded to the
    format, downwards or upwards: [r] is in the format, it is not NaN, no
    float of the format lies strictly between [x] and [r], and a finite [r]
    is within one unit in the last place of [x]. *)
Definition rounds_to (prec emax : Z) (x : R) (r : spec_float) : Prop :=
  valid prec emax r /\ IEEE.is_nan r = false /\
  (forall c, valid prec emax c -> IEEE.is_finite c = true ->
             (F2R c <= x)%R -> SFleb c r = true) /\
  (forall c, valid prec emax c -> IEEE.is_finite c = true ->
             (x <= F2R c)%R -> SFleb r c = true) /\
  (IEEE.is_finite r = true ->
   (Rabs (F2R r - x) <= Rmax (bpow (1 - prec) * Rabs x) (bpow (emin prec emax)))%R).

(** The two formats of the C code. *)
Definition valid32 (x : spec_float) : Prop := valid B32.prec B32.emax x.
Definition rounds32 (x : R) (r : spec_float) : Prop := rounds_to B32.prec B32.emax x r.
Definition valid64 (x : spec_float) : Prop := valid B64.prec B64.emax x.
Definition rounds64 (x : R) (r : spec_float) : Prop := rounds_to B64.prec B64.emax x r.

(** A quaternion, and a filter, whose fields are binary32 values. *)
Definition quat_valid (f : @Quaternion machine) : Prop :=
  valid32 (q0 f) /\ valid32 (q1 f) /\ valid32 (q2 f) /\ valid32 (q3 f).

Definition filter_valid (f : @MadgwickFilter machine) : Prop :=
  quat_valid (q f) /\ valid32 (beta f) /\
  valid32 (sample_freq f) /\ valid32 (inv_sample_freq f).

(** The bound on the squared norm of a normalised quaternion: [2^-18],
    thirty-two units in the last place of 1. *)
Definition NORM_EPS : R := (/ 262144)%R.

(** A quaternion that is the identity, or finite with a squared norm within
    [NORM_EPS] of 1. *)
Definition unit_or_identity (f : @Quaternion machine) : Prop :=
  f = @identity_quaternion machine \/
  (quat_finite f = true /\ (Rabs (exact_norm_sq f - 1) <= NORM_EPS)%R).

(** What the code needs of the C library, on binary32 arguments: where
    the argument is below 1 in magnitude [asinf] returns a binary32 value
    between [-M_PI/2] and [M_PI/2], and where no argument is NaN [atan2f]
    returns one between [-M_PI] and [M_PI], the bounds being those of the
    functions rounded to binary32. *)
Definition libm_in_range (L : LibM machine) : Prop :=
  (forall x : spec_float,
      valid32 x -> SFltb (SFabs x) (B32.decimal 1 0) = true ->
      valid32 (@asinf machine L x) /\ IEEE.is_finite (@asinf machine L x) = true /\
      (Rabs (F2R (@asinf machine L x)) <= F2R (@half_pi machine))%R) /\
  (forall y x : spec_float,
      valid32 y -> valid32 x -> IEEE.is_nan y = false -> IEEE.is_nan x = false ->
      valid32 (@atan2f machine L y x) /\ IEEE.is_finite (@atan2f machine L y x) = true /\
      (Rabs (F2R (@atan2f machine L y x))
       <= F2R (IEEE.convert B32.prec B32.emax B64.M_PI))%R).

(** The crudest library in that range: [asinf x = x] and [atan2f y x = 0]. *)
Definition crude_libm : LibM machine :=
  @Build_LibM machine (fun _ _ => S754_zero false) (fun x => x).

(** A quaternion of finite binary32 values at most 2 in magnitude. *)
Definition quat_bounded (f : @Quaternion machine) : Prop :=
  quat_valid f /\ quat_finite f = true /\
  (Rabs (F2R (q0 f)) <= 2 /\ Rabs (F2R (q1 f)) <= 2 /\
   Rabs (F2R (q2 f)) <= 2 /\ Rabs (F2R (q3 f)) <= 2)%R.

(** The invariant of the loop of [action_test_gyro]: a filter of binary32
    values whose quaternion is the identity or of unit norm, and biases
    that are binary32 values. *)
Definition gyro_test_invariant (s : @GyroTest machine) : Prop :=
  filter_valid (filter s) /\ unit_or_identity (q (filter s)) /\
  (valid32 (gyro_bias_x s) /\ valid32 (gyro_bias_y s) /\ valid32 (gyro_bias_z s)) /\
  (valid32 (accel_bias_x s) /\ valid32 (accel_bias_y s) /\ valid32 (accel_bias_z s)).

Set Implicit Arguments.

(* ================================================================== *)
(** * Camera frames: YUV420 to RGB565 (camera_stream.cpp) *)
(* ================================================================== *)

Section Camera.
Local Open Scope Z_scope.

(** [(uint16_t) n], [(unsigned int) n] and [(int) n]. *)
Definition to_uint16 (n : Z) : Z := n mod 65536.
Definition to_uint32 (n : Z) : Z := n mod 2 ^ 32.
Definition to_int32 (n : Z) : Z := (n + 2 ^ 31) mod 2 ^ 32 - 2 ^ 31.

(** [r < 0 ? 0 : (r > 255 ? 255 : r)] *)
Definition clamp_channel (r : Z) : Z :=
  if r <? 0 then 0 else if r >? 255 then 255 else r.

(** The three channels of [yuv_to_rgb565] after the clamp; [>>] on a
    negative [int] is the arithmetic shift. *)
Definition yuv_red (y u v : Z) : Z :=
  let c := y - 16 in
  let e := v - 128 in
  clamp_channel (Z.shiftr (298 * c + 409 * e + 128) 8).

Definition yuv_green (y u v : Z) : Z :=
  let c := y - 16 in
  let d := u - 128 in
  let e := v - 128 in
  clamp_channel (Z.shiftr (298 * c - 100 * d - 208 * e + 128) 8).

Definition yuv_blue (y u v : Z) : Z :=
  let c := y - 16 in
  let d := u - 128 in
  clamp_channel (Z.shiftr (298 * c + 516 * d + 128) 8).

Definition yuv_to_rgb565 (y u v : Z) : Z :=
  let r := yuv_red y u v in
  let g := yuv_green y u v in
  let b := yuv_blue y u v in
  to_uint16
    (Z.lor (Z.lor (Z.shiftl (Z.land r 0xF8) 8) (Z.shiftl (Z.land g 0xFC) 3))
           (Z.shiftr b 3)).

Definition LCD_DISPLAY_WIDTH : Z := 320.
Definition LCD_DISPLAY_HEIGHT : Z := 240.

(** [data[i]] for the mapped plane [data]: [None] when the read is past
    its end. *)
Definition plane_byte (data : list Z) (i : Z) : option Z :=
  if i <? 0 then None else nth_error data (Z.to_nat i).

(** The body of the two loops of [display_frame_fast] for one LCD pixel:
    the value stored in [rgb_buffer[lcd_y * LCD_DISPLAY_WIDTH + lcd_x]].
    [width] and [height] are [unsigned int]; the planes are offsets into
    [data]. *)
Definition frame_pixel (data : list Z) (width height : Z) (lcd_x lcd_y : Z)
  : option Z :=
  let y_plane := 0 in
  let v_plane := y_plane + to_uint32 (width * height) in
  let u_plane := v_plane + to_uint32 (width * height) / 4 in
  let x_step := to_int32 (width / LCD_DISPLAY_WIDTH) in
  let y_step := to_int32 (height / LCD_DISPLAY_HEIGHT) in
  let src_x := lcd_x * x_step in
  let src_y := lcd_y * y_step in
  match plane_byte data (y_plane + to_uint32 (to_uint32 src_y * width + to_uint32 src_x)) with
  | None => None
  | Some y_val =>
      let uv_x := Z.quot src_x 2 in
      let uv_y := Z.quot src_y 2 in
      let uv_idx := to_int32 (to_uint32 (to_uint32 uv_y * (width / 2) + to_uint32 uv_x)) in
      match plane_byte data (u_plane + uv_idx) with
      | None => None
      | Some u_val =>
          match plane_byte data (v_plane + uv_idx) with
          | None => None
          | Some v_val => Some (yuv_to_rgb565 y_val u_val v_val)
          end
      end
  end.

(** [f 0, f 1, ..., f (n - 1)] as long as every one is [Some]. *)
Fixpoint collect (f : Z -> option (list Z)) (i : Z) (n : nat) : option (list Z) :=
  match n with
  | O => Some []
  | S n' =>
      match f i with
      | None => None
      | Some row =>
          match collect f (i + 1) n' with
          | None => None
          | Some rest => Some (row ++ rest)
          end
      end
  end.

(** [display_frame_fast]: the RGB565 buffer handed to [lcd_draw_image],
    row by row; [None] when a read leaves [data]. *)
Definition display_frame_fast (data : list Z) (width height : Z) : option (list Z) :=
  collect
    (fun lcd_y =>
       collect
         (fun lcd_x =>
            match frame_pixel data width height lcd_x lcd_y with
            | None => None
            | Some p => Some [p]
            end)
         0 (Z.to_nat LCD_DISPLAY_WIDTH))
    0 (Z.to_nat LCD_DISPLAY_HEIGHT).

End Camera.

(* ================================================================== *)
(** * ICM-20948 driver: single registers, temperature, magnetometer set-up *)
(* ================================================================== *)

Definition ICM20948_BANK_2 : Z := 2.
Definition ICM20948_BANK_3 : Z := 3.
Definition ICM20948_WHO_AM_I : Z := 0x00.
Definition ICM20948_USER_CTRL : Z := 0x03.
Definition ICM20948_PWR_MGMT_1 : Z := 0x06.
Definition ICM20948_PWR_MGMT_2 : Z := 0x07.
Definition ICM20948_TEMP_OUT_H : Z := 0x39.
Definition ICM20948_GYRO_CONFIG_1 : Z := 0x01.
Definition ICM20948_ACCEL_CONFIG : Z := 0x14.
Definition ICM20948_I2C_MST_CTRL : Z := 0x01.
Definition ICM20948_I2C_SLV0_ADDR : Z := 0x03.
Definition ICM20948_I2C_SLV0_REG : Z := 0x04.
Definition ICM20948_I2C_SLV0_CTRL : Z := 0x05.
Definition ICM20948_I2C_SLV0_DO : Z := 0x06.
Definition AK09916_I2C_ADDR : Z := 0x0C.
Definition AK09916_WHO_AM_I : Z := 0x01.
Definition AK09916_ST1 : Z := 0x10.
Definition AK09916_CNTL2 : Z := 0x31.
Definition AK09916_CNTL3 : Z := 0x32.
Definition AK09916_DEVICE_ID : Z := 0x09.
Definition AK09916_MODE_CONT_100HZ : Z := 0x08.
Definition ICM20948_DEVICE_ID : Z := 0xEA.

Section DriverControl.
Variable Device : Type.
Variable spi_write : Device -> list Z -> Device.
Variable spi_read : Device -> Z -> nat -> list Z * Device.
Local Open Scope Z_scope.

(** [read_register]: the address with the read bit, then one byte. *)
Definition read_register (reg : Z) (d : Driver Device) : Z * Driver Device :=
  let tx := Z.lor reg 0x80 in
  let '(buffer, dev) := spi_read (device d) tx 1 in
  (to_uint8 (byte_at buffer 0), {| device := dev; current_bank := current_bank d |}).

(** [write_register]: the address with the read bit cleared, then the
    value, in one write transaction. *)
Definition write_register (reg value : Z) (d : Driver Device) : Driver Device :=
  {| device := spi_write (device d) [Z.land reg 0x7F; to_uint8 value];
     current_bank := current_bank d |}.

(** An [int16_t*] argument is [None] for NULL. *)
Definition icm20948_read_temp (temp : option Z) (d : Driver Device)
  : bool * option Z * Driver Device :=
  match temp with
  | None => (false, None, d)
  | Some _ =>
      let d := select_bank spi_write ICM20948_BANK_0 d in
      let '(buffer, d) := read_registers spi_read ICM20948_TEMP_OUT_H 2 d in
      (true, Some (combine (byte_at buffer 0) (byte_at buffer 1)), d)
  end.

Definition icm20948_sleep (d : Driver Device) : Driver Device :=
  write_register ICM20948_PWR_MGMT_1 0x40 (select_bank spi_write ICM20948_BANK_0 d).

Definition icm20948_wake (d : Driver Device) : Driver Device :=
  write_register ICM20948_PWR_MGMT_1 0x01 (select_bank spi_write ICM20948_BANK_0 d).

Definition write_ak09916_register (reg value : Z) (d : Driver Device) : Driver Device :=
  let d := select_bank spi_write ICM20948_BANK_3 d in
  let d := write_register ICM20948_I2C_SLV0_ADDR AK09916_I2C_ADDR d in
  let d := write_register ICM20948_I2C_SLV0_REG reg d in
  let d := write_register ICM20948_I2C_SLV0_DO value d in
  write_register ICM20948_I2C_SLV0_CTRL 0x81 d.

Definition read_ak09916_register (reg : Z) (d : Driver Device) : Z * Driver Device :=
  let d := select_bank spi_write ICM20948_BANK_3 d in
  let d := write_register ICM20948_I2C_SLV0_ADDR (Z.lor AK09916_I2C_ADDR 0x80) d in
  let d := write_register ICM20948_I2C_SLV0_REG reg d in
  let d := write_register ICM20948_I2C_SLV0_CTRL 0x81 d in
  let d := select_bank spi_write ICM20948_BANK_0 d in
  read_register ICM20948_EXT_SLV_SENS_DATA_00 d.

(** [icm20948_init_magnetometer]; the waits ([sleep_ms]) pass no data and
    are left out. *)
Definition icm20948_init_magnetometer (d : Driver Device) : bool * Driver Device :=
  let d := select_bank spi_write ICM20948_BANK_0 d in
  let '(user_ctrl, d) := read_register ICM20948_USER_CTRL d in
  let d := write_register ICM20948_USER_CTRL (Z.lor user_ctrl 0x30) d in
  let d := select_bank spi_write ICM20948_BANK_3 d in
  let d := write_register ICM20948_I2C_MST_CTRL 0x07 d in
  let '(who_am_i, d) := read_ak09916_register AK09916_WHO_AM_I d in
  if negb (who_am_i =? AK09916_DEVICE_ID) then (false, d)
  else
    let d := write_ak09916_register AK09916_CNTL3 0x01 d in
    let d := write_ak09916_register AK09916_CNTL2 AK09916_MODE_CONT_100HZ d in
    let d := select_bank spi_write ICM20948_BANK_3 d in
    let d := write_register ICM20948_I2C_SLV0_ADDR (Z.lor AK09916_I2C_ADDR 0x80) d in
    let d := write_register ICM20948_I2C_SLV0_REG AK09916_ST1 d in
    let d := write_register ICM20948_I2C_SLV0_CTRL 0x88 d in
    let d := select_bank spi_write ICM20948_BANK_0 d in
    (true, d).

(** [icm20948_init] after the SPI and pin set-up. *)
Definition icm20948_init (d : Driver Device) : bool * Driver Device :=
  let d := select_bank spi_write ICM20948_BANK_0 d in
  let d := write_register ICM20948_PWR_MGMT_1 0x80 d in
  let d := write_register ICM20948_PWR_MGMT_1 0x01 d in
  let d := select_bank spi_write ICM20948_BANK_0 d in
  let '(who_am_i, d) := read_register ICM20948_WHO_AM_I d in
  if negb (who_am_i =? ICM20948_DEVICE_ID) then (false, d)
  else
    let d := write_register ICM20948_USER_CTRL 0x10 d in
    let d := select_bank spi_write ICM20948_BANK_2 d in
    let d := write_register ICM20948_GYRO_CONFIG_1 0x1B d in
    let d := write_register ICM20948_ACCEL_CONFIG 0x1B d in
    let d := select_bank spi_write ICM20948_BANK_0 d in
    let d := write_register ICM20948_PWR_MGMT_2 0x00 d in
    (true, d).

End DriverControl.

Set Implicit Arguments.

(* ================================================================== *)
(** * C strings and the functions of string.h and stdlib.h the code uses *)
(* ================================================================== *)

(** A [char*] that points into a NUL-terminated array is the string of the
    characters from the pointer up to the terminator: [p + n] drops [n]
    characters, a search returns the rest of the string from the place
    found ([None] for NULL), and the difference of two pointers into one
    string is the difference of the lengths of what follows them. *)

Section CStrings.
Import Ascii String.
Local Open Scope string_scope.

Definition NUL : ascii := "000"%char.
Definition TAB : ascii := "009"%char.
Definition LF : ascii := "010"%char.
Definition VT : ascii := "011"%char.
Definition FF : ascii := "012"%char.
Definition CR : ascii := "013"%char.
Definition SPACE : ascii := "032"%char.
Definition DQUOTE : ascii := "034"%char.

(** The C string held by an array: its characters before the first NUL. *)
Fixpoint c_str (s : string) : string :=
  match s with
  | EmptyString => EmptyString
  | String c s' => if Ascii.eqb c NUL then EmptyString else String c (c_str s')
  end.

(** [p + n], for [n] up to [strlen(p)]. *)
Fixpoint advance (p : string) (n : nat) {struct n} : string :=
  match n, p with
  | S n', String _ p' => advance p' n'
  | _, _ => p
  end.

(** [q - p] for two pointers into one string. *)
Definition ptr_diff (q p : string) : Z := Z.of_nat (length p) - Z.of_nat (length q).

(** [strncmp(a, b, n) == 0] *)
Fixpoint strncmp_eq (a b : string) (n : nat) {struct n} : bool :=
  match n with
  | O => true
  | S n' =>
      match a, b with
      | EmptyString, EmptyString => true
      | String x a', String y b' => Ascii.eqb x y && strncmp_eq a' b' n'
      | _, _ => false
      end
  end.

(** [strcmp(a, b) == 0] *)
Definition strcmp_eq (a b : string) : bool := String.eqb a b.

(** [needle] is found at the very start of [s]. *)
Fixpoint starts_with (needle s : string) : bool :=
  match needle, s with
  | EmptyString, _ => true
  | String x needle', String y s' => Ascii.eqb x y && starts_with needle' s'
  | String _ _, EmptyString => false
  end.

(** [strstr(haystack, needle)] *)
Fixpoint strstr (haystack needle : string) : option string :=
  if starts_with needle haystack then Some haystack
  else
    match haystack with
    | EmptyString => None
    | String _ rest => strstr rest needle
    end.

(** [strchr(s, c)] for a character [c] other than NUL. *)
Fixpoint strchr (s : string) (c : ascii) : option string :=
  match s with
  | EmptyString => None
  | String x rest => if Ascii.eqb x c then Some s else strchr rest c
  end.

(** [snprintf(buf, size, ...)] keeps the first [size - 1] characters of
    the formatted text. *)
Definition snprintf (size : nat) (text : string) : string :=
  substring 0 (size - 1) text.

(** The conversion [%d] of printf. *)
Definition digit_char (d : Z) : ascii := ascii_of_N (Z.to_N (48 + d)).

Fixpoint format_unsigned (fuel : nat) (n : Z) (acc : string) : string :=
  let acc := String (digit_char (n mod 10)) acc in
  match fuel with
  | O => acc
  | S fuel' => if (n <? 10)%Z then acc else format_unsigned fuel' (n / 10) acc
  end.

Definition format_d (n : Z) : string :=
  if (n <? 0)%Z then String "-"%char (format_unsigned 20 (- n) EmptyString)
  else format_unsigned 20 n EmptyString.

(** The conversion [%+d]: the sign is written for every number. *)
Definition format_plus_d (n : Z) : string :=
  if (n <? 0)%Z then format_d n else String "+"%char (format_d n).

(** The conversion [%u] of an [unsigned int]. *)
Definition format_u (n : Z) : string := format_unsigned 20 n EmptyString.

(** [isspace] in the C locale. *)
Definition isspace (c : ascii) : bool :=
  Ascii.eqb c SPACE || Ascii.eqb c TAB || Ascii.eqb c LF ||
  Ascii.eqb c VT || Ascii.eqb c FF || Ascii.eqb c CR.

Definition digit_value (c : ascii) : option Z :=
  let n := Z.of_N (N_of_ascii c) in
  if ((48 <=? n) && (n <=? 57))%Z then Some (n - 48)%Z else None.

Fixpoint skip_spaces (s : string) : string :=
  match s with
  | String c s' => if isspace c then skip_spaces s' else s
  | EmptyString => s
  end.

Fixpoint digits_value (s : string) (acc : Z) : Z :=
  match s with
  | String c s' =>
      match digit_value c with
      | Some d => digits_value s' (10 * acc + d)
      | None => acc
      end
  | EmptyString => acc
  end.

Definition INT_MIN : Z := - 2 ^ 31.
Definition INT_MAX : Z := 2 ^ 31 - 1.

(** [atoi]: white space, an optional sign, decimal digits.  The C standard
    leaves the result open when the number is no [int]: [None]. *)
Definition atoi (s : string) : option Z :=
  let s := skip_spaces s in
  let '(negative, s) :=
    match s with
    | String "-"%char s' => (true, s')
    | String "+"%char s' => (false, s')
    | _ => (false, s)
    end in
  let v := digits_value s 0 in
  let v := if negative then (- v)%Z else v in
  if ((INT_MIN <=? v) && (v <=? INT_MAX))%Z then Some v else None.

End CStrings.

(* ================================================================== *)
(** * Commands of the Pico menu over USB serial (main_menu.c) *)
(* ================================================================== *)

Section PicoCommands.
Import Ascii String.
Local Open Scope string_scope.

(** What [printf] writes to the USB serial line. *)
Definition send_button_command (button_id : Z) (action : string) : string :=
  "BTN:" ++ format_d (to_uint8 button_id) ++ "," ++ action ++ String LF EmptyString.

Definition send_joystick_command (direction : string) : string :=
  "JOY:" ++ direction ++ String LF EmptyString.

Definition send_high_level_command (command : string) : string :=
  "CMD:" ++ command ++ String LF EmptyString.

(** The edges [input_just_pressed_*] of one pass of the loop of
    [action_gyro_offset]. *)
Record OffsetInput := {
  offset_up : bool;
  offset_down : bool;
  offset_left : bool;
  offset_right : bool;
  offset_key2 : bool
}.

(** The two static offsets of [action_gyro_offset]. *)
Record OffsetState := {
  pico_pitch_offset : Z;
  pico_roll_offset : Z
}.

(** One pass of the loop of [action_gyro_offset] after its [input_read]:
    the offsets afterwards and the text written to the USB serial line,
    the command lines and the lines for the terminal between them; the
    drawing on the LCD is left out. *)
Definition action_gyro_offset_commands (s : OffsetState) (i : OffsetInput)
  : LoopStep OffsetState * string :=
  let '(s, out) :=
    if offset_up i then
      let p := (pico_pitch_offset s + 1)%Z in
      ({| pico_pitch_offset := p; pico_roll_offset := pico_roll_offset s |},
       send_high_level_command (snprintf 32 ("OFFSET:PITCH:" ++ format_d p))
       ++ "Pitch offset: " ++ format_plus_d p ++ String LF EmptyString)
    else (s, EmptyString) in
  let '(s, out) :=
    if offset_down i then
      let p := (pico_pitch_offset s - 1)%Z in
      ({| pico_pitch_offset := p; pico_roll_offset := pico_roll_offset s |},
       out ++ send_high_level_command (snprintf 32 ("OFFSET:PITCH:" ++ format_d p))
           ++ "Pitch offset: " ++ format_plus_d p ++ String LF EmptyString)
    else (s, out) in
  let '(s, out) :=
    if offset_left i then
      let r := (pico_roll_offset s - 1)%Z in
      ({| pico_pitch_offset := pico_pitch_offset s; pico_roll_offset := r |},
       out ++ send_high_level_command (snprintf 32 ("OFFSET:ROLL:" ++ format_d r))
           ++ "Roll offset: " ++ format_plus_d r ++ String LF EmptyString)
    else (s, out) in
  let '(s, out) :=
    if offset_right i then
      let r := (pico_roll_offset s + 1)%Z in
      ({| pico_pitch_offset := pico_pitch_offset s; pico_roll_offset := r |},
       out ++ send_high_level_command (snprintf 32 ("OFFSET:ROLL:" ++ format_d r))
           ++ "Roll offset: " ++ format_plus_d r ++ String LF EmptyString)
    else (s, out) in
  if offset_key2 i then
    (Exit s, out ++ "Returning to menu (KEY2 pressed)" ++ String LF EmptyString
                 ++ send_high_level_command "OFFSET_EXIT")
  else (Continue s, out).

End PicoCommands.

(* ================================================================== *)
(** * Serial input of the Raspberry Pi application (main.c) *)
(* ================================================================== *)

Section RpiSerial.
Context {A : CArith}.
Import Ascii String.
Local Open Scope string_scope.

Definition BUFFER_SIZE : nat := 256.
Definition MAX_CHARS_PER_CALL : nat := 32.

(** [parse_button_press]: the button name, [None] for NULL. *)
Definition parse_button_press (message : string) : option string :=
  if negb (strncmp_eq message "BTN:" 4) then None
  else
    match strstr message ":PRESSED" with
    | None => None
    | Some end_ =>
        let name_len := ptr_diff end_ (advance message 4) in
        if ((name_len <=? 0) || (name_len >=? 32))%Z then None
        else Some (substring 0 (Z.to_nat name_len) (advance message 4))
    end.

(** The static state of main.c that the serial input reads and writes:
    the line buffer (its first [buf_pos] characters), the run flag and the
    two calibration offsets. *)
Record RpiState := {
  line_buffer : string;
  running : bool;
  pitch_offset : float;
  roll_offset : float
}.

(** [parse_cmd_message]; [None] when [atoi] is handed a number that is no
    [int]. *)
Definition parse_cmd_message (message : string) (s : RpiState) : option RpiState :=
  if negb (strncmp_eq message "CMD:" 4) then Some s
  else
    let cmd := advance message 4 in
    if strncmp_eq cmd "OFFSET:PITCH:" 13 then
      match atoi (advance cmd 13) with
      | None => None
      | Some offset_value =>
          Some {| line_buffer := line_buffer s; running := running s;
                  pitch_offset := of_int offset_value; roll_offset := roll_offset s |}
      end
    else if strncmp_eq cmd "OFFSET:ROLL:" 12 then
      match atoi (advance cmd 12) with
      | None => None
      | Some offset_value =>
          Some {| line_buffer := line_buffer s; running := running s;
                  pitch_offset := pitch_offset s; roll_offset := of_int offset_value |}
      end
    else Some s.

(** The body of the loop of [process_serial_input] for one character
    read. *)
Definition serial_char (c : ascii) (s : RpiState) : option RpiState :=
  if Ascii.eqb c LF || Ascii.eqb c CR then
    if (0 <? length (line_buffer s))%nat then
      let message := c_str (line_buffer s) in
      match parse_cmd_message message s with
      | None => None
      | Some s =>
          let exit_requested :=
            match parse_button_press message with
            | Some button => strcmp_eq button "key4"
            | None => false
            end in
          Some {| line_buffer := EmptyString;
                  running := if exit_requested then false else running s;
                  pitch_offset := pitch_offset s; roll_offset := roll_offset s |}
      end
    else Some s
  else if (length (line_buffer s) <? BUFFER_SIZE - 1)%nat then
    Some {| line_buffer := line_buffer s ++ String c EmptyString; running := running s;
            pitch_offset := pitch_offset s; roll_offset := roll_offset s |}
  else
    Some {| line_buffer := EmptyString; running := running s;
            pitch_offset := pitch_offset s; roll_offset := roll_offset s |}.

(** The loop of [process_serial_input] with [budget] characters left of
    [MAX_CHARS_PER_CALL]; [pending] is what the serial port has to read.
    The result is the state and what is left unread. *)
Fixpoint serial_loop (budget : nat) (pending : string) (s : RpiState)
  : option (RpiState * string) :=
  match budget, pending with
  | S budget', String c pending' =>
      match serial_char c s with
      | None => None
      | Some s => serial_loop budget' pending' s
      end
  | _, _ => Some (s, pending)
  end.

Definition process_serial_input (pending : string) (s : RpiState)
  : option (RpiState * string) :=
  serial_loop MAX_CHARS_PER_CALL pending s.

End RpiSerial.

Set Implicit Arguments.

(* ================================================================== *)
(** * Telemetry: the JSON line of the Raspberry Pi and its parser on the Pico *)
(* ================================================================== *)

Section Telemetry.
Context {A : CArith}.
Import Ascii String.
Local Open Scope string_scope.

(** [atof] of the C library. *)
Variable atof : string -> double.

(** [0.0] as a double, also what [memset] leaves in a double. *)
Definition dzero : double := f2d (lit 0 0).

Definition MAX_TRAFFIC : nat := 10.

Record OwnShipData := {
  own_lat : double;
  own_lon : double;
  own_alt : double;
  own_pitch : double;
  own_roll : double;
  own_yaw : double
}.

Record TrafficData := {
  traffic_id : string;
  traffic_lat : double;
  traffic_lon : double;
  traffic_alt : double
}.

Record ConnectivityStatus := {
  status_wifi : bool;
  status_gps : bool;
  status_bluetooth : bool
}.

(** The fields [bank_warning] and [pitch_warning] of [WarningStatus]. *)
Record WarningStatus := {
  warning_bank : bool;
  warning_pitch : bool
}.

(** [TelemetryData]; [traffic_count] is the length of [tele_traffic]. *)
Record TelemetryData := {
  tele_own : OwnShipData;
  tele_traffic : list TrafficData;
  tele_status : ConnectivityStatus;
  tele_warnings : WarningStatus;
  tele_valid : bool
}.

(** What [memset(telemetry, 0, sizeof(TelemetryData))] leaves. *)
Definition zero_telemetry : TelemetryData :=
  {| tele_own := {| own_lat := dzero; own_lon := dzero; own_alt := dzero;
                    own_pitch := dzero; own_roll := dzero; own_yaw := dzero |};
     tele_traffic := [];
     tele_status := {| status_wifi := false; status_gps := false;
                       status_bluetooth := false |};
     tele_warnings := {| warning_bank := false; warning_pitch := false |};
     tele_valid := false |}.

(** A key between double quotes. *)
Definition quoted (key : string) : string :=
  String DQUOTE (key ++ String DQUOTE EmptyString).

(** [find_key]: the search text is the quoted key and a colon. *)
Definition find_key (json key : string) : option string :=
  strstr json (snprintf 64 (quoted key ++ ":")).

Definition extract_double (json key : string) : double :=
  match find_key json key with
  | None => dzero
  | Some pos =>
      match strchr pos ":"%char with
      | None => dzero
      | Some pos => atof (advance pos 1)
      end
  end.

(** The copy loop of [extract_string] with [room] characters left. *)
Fixpoint copy_value (room : nat) (pos : string) : string :=
  match room, pos with
  | S room', String c pos' =>
      if Ascii.eqb c DQUOTE then EmptyString else String c (copy_value room' pos')
  | _, _ => EmptyString
  end.

Definition extract_string (json key : string) (max_len : nat) : string :=
  match find_key json key with
  | None => EmptyString
  | Some pos =>
      match strchr pos DQUOTE with
      | None => EmptyString
      | Some pos =>
          match strchr (advance pos 1) DQUOTE with
          | None => EmptyString
          | Some pos =>
              match strchr (advance pos 1) DQUOTE with
              | None => EmptyString
              | Some pos => copy_value (max_len - 1) (advance pos 1)
              end
          end
      end
  end.

(** The loop of [extract_bool] that steps over blanks and tabs. *)
Fixpoint skip_blanks (pos : string) : string :=
  match pos with
  | String c pos' =>
      if Ascii.eqb c SPACE || Ascii.eqb c TAB then skip_blanks pos' else pos
  | EmptyString => pos
  end.

Definition extract_bool (json key : string) : bool :=
  match find_key json key with
  | None => false
  | Some pos =>
      match strchr pos ":"%char with
      | None => false
      | Some pos => strncmp_eq (skip_blanks (advance pos 1)) "true" 4
      end
  end.

(** The loop over the traffic array, with [room] entries left of
    [MAX_TRAFFIC]; [parsed] are the entries stored so far. *)
Fixpoint parse_traffic (room : nat) (current : string) (parsed : list TrafficData)
  : list TrafficData :=
  match room with
  | O => parsed
  | S room' =>
      match strchr current "{"%char with
      | None => parsed
      | Some obj_start =>
          match strchr obj_start "}"%char with
          | None => parsed
          | Some obj_end =>
              let t := {| traffic_id := extract_string obj_start "id" 8;
                          traffic_lat := extract_double obj_start "lat";
                          traffic_lon := extract_double obj_start "lon";
                          traffic_alt := extract_double obj_start "alt" |} in
              let parsed := (parsed ++ [t])%list in
              let current := advance obj_end 1 in
              let next_comma := strchr current ","%char in
              match strchr current "]"%char with
              | None => parsed
              | Some array_end =>
                  match next_comma with
                  | Some comma =>
                      if (0 <? ptr_diff comma array_end)%Z then parsed
                      else parse_traffic room' (advance comma 1) parsed
                  | None => parse_traffic room' array_end parsed
                  end
              end
          end
      end
  end.

(** [parse_telemetry] for non-NULL arguments: the result and the record
    afterwards. *)
Definition parse_telemetry (json_str : string) : bool * TelemetryData :=
  match strstr json_str (quoted "own") with
  | None => (false, zero_telemetry)
  | Some own_section =>
      let own := {| own_lat := extract_double own_section "lat";
                    own_lon := extract_double own_section "lon";
                    own_alt := extract_double own_section "alt";
                    own_pitch := extract_double own_section "pitch";
                    own_roll := extract_double own_section "roll";
                    own_yaw := extract_double own_section "yaw" |} in
      let traffic :=
        match strstr json_str (quoted "traffic") with
        | None => []
        | Some traffic_section =>
            match strchr traffic_section "["%char with
            | None => []
            | Some traffic_start => parse_traffic MAX_TRAFFIC (advance traffic_start 1) []
            end
        end in
      let status :=
        match strstr json_str (quoted "status") with
        | Some status_section =>
            {| status_wifi := extract_bool status_section "wifi";
               status_gps := extract_bool status_section "gps";
               status_bluetooth := extract_bool status_section "bluetooth" |}
        | None =>
            {| status_wifi := false; status_gps := false; status_bluetooth := false |}
        end in
      let warnings :=
        match strstr json_str (quoted "warnings") with
        | Some warnings_section =>
            {| warning_bank := extract_bool warnings_section "bank";
               warning_pitch := extract_bool warnings_section "pitch" |}
        | None => {| warning_bank := false; warning_pitch := false |}
        end in
      (true, {| tele_own := own; tele_traffic := traffic; tele_status := status;
                tele_warnings := warnings; tele_valid := true |})
  end.

(** ** The receiving side of the Pico menu (main_menu.c) *)

Definition RX_BUFFER_SIZE : nat := 1024.

(** The line buffer (its first [rx_index] characters), the last parsed
    telemetry and the flag [telemetry_received]. *)
Record PicoTelemetry := {
  rx_buffer : string;
  latest_telemetry : TelemetryData;
  telemetry_received : bool
}.

(** [read_telemetry_data]; [c] is the character [getchar_timeout_us]
    delivers, [None] for [PICO_ERROR_TIMEOUT]. *)
Definition read_telemetry_data (c : option ascii) (s : PicoTelemetry) : PicoTelemetry :=
  match c with
  | None => s
  | Some ch =>
      if Ascii.eqb ch LF || Ascii.eqb ch CR then
        if (0 <? length (rx_buffer s))%nat then
          let '(ok, telemetry) := parse_telemetry (c_str (rx_buffer s)) in
          {| rx_buffer := EmptyString;
             latest_telemetry := telemetry;
             telemetry_received := if ok then true else telemetry_received s |}
        else s
      else if (length (rx_buffer s) <? RX_BUFFER_SIZE - 1)%nat then
        {| rx_buffer := rx_buffer s ++ String ch EmptyString;
           latest_telemetry := latest_telemetry s;
           telemetry_received := telemetry_received s |}
      else
        {| rx_buffer := EmptyString;
           latest_telemetry := latest_telemetry s;
           telemetry_received := telemetry_received s |}
  end.

(** ** The status ribbon *)

Record RibbonState := {
  ribbon_telemetry_received : bool;
  ribbon_wifi_ok : bool;
  ribbon_gps_ok : bool;
  ribbon_bt_ok : bool;
  ribbon_any_warning : bool
}.

(** The state both [draw_ribbon_internal] and [draw_status_icons] build
    first. *)
Definition current_ribbon (s : PicoTelemetry) : RibbonState :=
  if telemetry_received s then
    {| ribbon_telemetry_received := true;
       ribbon_wifi_ok := status_wifi (tele_status (latest_telemetry s));
       ribbon_gps_ok := status_gps (tele_status (latest_telemetry s));
       ribbon_bt_ok := status_bluetooth (tele_status (latest_telemetry s));
       ribbon_any_warning :=
         warning_bank (tele_warnings (latest_telemetry s)) ||
         warning_pitch (tele_warnings (latest_telemetry s)) |}
  else
    {| ribbon_telemetry_received := false;
       ribbon_wifi_ok := false; ribbon_gps_ok := false; ribbon_bt_ok := false;
       ribbon_any_warning := false |}.

Definition COLOR_RED : Z := 0xF800.
Definition RIBBON_GREY : Z := 0x2104.

(** What [draw_ribbon_internal] puts on the display: the colour of the
    ribbon, whether WARNING is written, and the three icons. *)
Record Ribbon := {
  ribbon_color : Z;
  ribbon_warning_text : bool;
  icon_wifi : bool;
  icon_gps : bool;
  icon_bluetooth : bool
}.

(** [draw_ribbon_internal]: the new [last_ribbon_state] and the drawing. *)
Definition draw_ribbon_internal (s : PicoTelemetry) : RibbonState * Ribbon :=
  let current_state := current_ribbon s in
  (current_state,
   {| ribbon_color := if ribbon_any_warning current_state then COLOR_RED else RIBBON_GREY;
      ribbon_warning_text := ribbon_any_warning current_state;
      icon_wifi := ribbon_wifi_ok current_state;
      icon_gps := ribbon_gps_ok current_state;
      icon_bluetooth := ribbon_bt_ok current_state |}).

(** [draw_status_icons]: [last_ribbon_state] afterwards and the drawing,
    [None] when nothing is drawn. *)
Definition draw_status_icons (last_ribbon_state : RibbonState) (s : PicoTelemetry)
  : RibbonState * option Ribbon :=
  let current_state := current_ribbon s in
  let changed :=
    negb (Bool.eqb (ribbon_telemetry_received current_state)
                   (ribbon_telemetry_received last_ribbon_state)) ||
    negb (Bool.eqb (ribbon_wifi_ok current_state) (ribbon_wifi_ok last_ribbon_state)) ||
    negb (Bool.eqb (ribbon_gps_ok current_state) (ribbon_gps_ok last_ribbon_state)) ||
    negb (Bool.eqb (ribbon_bt_ok current_state) (ribbon_bt_ok last_ribbon_state)) ||
    negb (Bool.eqb (ribbon_any_warning current_state)
                   (ribbon_any_warning last_ribbon_state)) in
  if negb changed then (last_ribbon_state, None)
  else
    let '(state, drawn) := draw_ribbon_internal s in
    (state, Some drawn).

End Telemetry.

(* ================================================================== *)
(** * The telemetry line of the Raspberry Pi application (main.c) *)
(* ================================================================== *)

Section SendTelemetry.
Context {A : CArith}.
Import Ascii String.
Local Open Scope string_scope.

(** The conversion [%.1f] of printf. *)
Variable format_1f : float -> string.

Definition json_bool (b : bool) : string := if b then "true" else "false".

(** The text [snprintf] builds in [send_telemetry_to_pico]. *)
Definition telemetry_text (pitch roll : float) (wifi gps bank_w pitch_w : bool) : string :=
  "{" ++ quoted "own" ++ ":{" ++ quoted "lat" ++ ":0.0," ++ quoted "lon" ++ ":0.0," ++
  quoted "alt" ++ ":0.0," ++ quoted "pitch" ++ ":" ++ format_1f pitch ++ "," ++
  quoted "roll" ++ ":" ++ format_1f roll ++ "," ++ quoted "yaw" ++ ":0.0}," ++
  quoted "traffic" ++ ":[]," ++
  quoted "status" ++ ":{" ++ quoted "wifi" ++ ":" ++ json_bool wifi ++ "," ++
  quoted "gps" ++ ":" ++ json_bool gps ++ "," ++ quoted "bluetooth" ++ ":false}," ++
  quoted "warnings" ++ ":{" ++ quoted "bank" ++ ":" ++ json_bool bank_w ++ "," ++
  quoted "pitch" ++ ":" ++ json_bool pitch_w ++ "}}" ++ String LF EmptyString.

(** [send_telemetry_to_pico]: what is written to the serial port, [None]
    when there is no serial connection. *)
Definition send_telemetry_to_pico (serial_fd : Z) (speed_knots pitch roll : float)
    (has_fix wifi_connected : bool) : option string :=
  if (serial_fd <? 0)%Z then None
  else
    let bank_w := bank_warning roll speed_knots in
    let pitch_w := pitch_warning pitch in
    Some (snprintf 512 (telemetry_text pitch roll wifi_connected has_fix bank_w pitch_w)).

End SendTelemetry.

Set Implicit Arguments.

(* ================================================================== *)
(** * Commands received from the Pico (pico_commands.c) *)
(* ================================================================== *)

Section PicoCommandParser.
Import Ascii String.
Local Open Scope string_scope.

Inductive CommandType := CMD_TYPE_NONE | CMD_TYPE_BTN | CMD_TYPE_JOY | CMD_TYPE_CMD.

(** The two texts are the C strings held by the arrays of 64 characters. *)
Record PicoCommand := {
  cmd_type : CommandType;
  display_text : string;
  raw_string : string
}.

(** [strncpy(dest, src, n)] into an array that ends in NUL after its
    first [n] characters: the C string left in [dest]. *)
Definition strncpy (n : nat) (src : string) : string := substring 0 n src.

(** [str[i]]: the terminator at the end of the string. *)
Definition char_at (str : string) (i : nat) : ascii :=
  match get i str with
  | Some c => c
  | None => NUL
  end.

(** The second loop of [trim_whitespace]: [end] as an index from
    [start]. *)
Fixpoint trim_end (start : string) (end_ : nat) : nat :=
  match end_ with
  | O => O
  | S e => if isspace (char_at start end_) then trim_end start e else end_
  end.

(** [trim_whitespace]: the C string left in the array.  For an empty
    [start] the byte written is the terminator that is there already. *)
Definition trim_whitespace (str : string) : string :=
  let start := skip_spaces str in
  match length start with
  | O => EmptyString
  | S last => substring 0 (S (trim_end start last)) start
  end.

(** The conversion [%d] of scanf: white space, an optional sign, decimal
    digits; the number and what follows it, [None] when no digit is
    there. *)
Fixpoint skip_digits (s : string) : string :=
  match s with
  | String c s' =>
      match digit_value c with
      | Some _ => skip_digits s'
      | None => s
      end
  | EmptyString => s
  end.

Definition scan_d (s : string) : option (Z * string) :=
  let s := skip_spaces s in
  let '(negative, s) :=
    match s with
    | String "-"%char s' => (true, s')
    | String "+"%char s' => (false, s')
    | _ => (false, s)
    end in
  match s with
  | String c _ =>
      match digit_value c with
      | Some _ =>
          let v := digits_value s 0 in
          Some (if negative then (- v)%Z else v, skip_digits s)
      | None => None
      end
  | EmptyString => None
  end.

(** The conversion [%15s]: up to [width] characters that are no white
    space. *)
Fixpoint scan_word (width : nat) (s : string) : string :=
  match width, s with
  | S w, String c s' => if isspace c then EmptyString else String c (scan_word w s')
  | _, _ => EmptyString
  end.

(** [sscanf(input, "%d,%15s", &button_num, action) == 2] with the two
    values stored: [Some None] for any other count, [None] when the number
    is no [int], which the C standard leaves open. *)
Definition sscanf_button (input : string) : option (option (Z * string)) :=
  match scan_d input with
  | None => Some None
  | Some (v, rest) =>
      if negb ((INT_MIN <=? v) && (v <=? INT_MAX))%Z then None
      else
        match rest with
        | String ","%char rest' =>
            match scan_word 15 (skip_spaces rest') with
            | EmptyString => Some None
            | action => Some (Some (v, action))
            end
        | _ => Some None
        end
  end.

(** [parse_pico_command]: the value returned and the command structure
    afterwards; [line] is [None] for NULL. *)
Definition parse_pico_command (line : option string) (cmd : PicoCommand)
  : option (bool * PicoCommand) :=
  match line with
  | None => Some (false, cmd)
  | Some line =>
      let raw := trim_whitespace (strncpy 63 line) in
      let unknown :=
        {| cmd_type := CMD_TYPE_NONE; display_text := EmptyString; raw_string := raw |} in
      if (length raw =? 0)%nat then Some (false, unknown)
      else if strncmp_eq raw "BTN:" 4 then
        match sscanf_button (advance raw 4) with
        | None => None
        | Some (Some (button_num, action)) =>
            Some (true,
                  {| cmd_type := CMD_TYPE_BTN;
                     display_text :=
                       snprintf 64 ("BTN:" ++ format_d button_num ++ "," ++ action);
                     raw_string := raw |})
        | Some None =>
            Some (true,
                  {| cmd_type := CMD_TYPE_BTN; display_text := strncpy 63 raw;
                     raw_string := raw |})
        end
      else if strncmp_eq raw "JOY:" 4 then
        Some (true,
              {| cmd_type := CMD_TYPE_JOY; display_text := strncpy 63 raw;
                 raw_string := raw |})
      else if strncmp_eq raw "CMD:" 4 then
        Some (true,
              {| cmd_type := CMD_TYPE_CMD; display_text := strncpy 63 raw;
                 raw_string := raw |})
      else Some (false, unknown)
  end.

End PicoCommandParser.

(* ================================================================== *)
(** * Buttons and joystick of the Pico (input_handler.c) *)
(* ================================================================== *)

Module InputHandler.

(** The debounced state of the four buttons and the four directions of
    the joystick, the state at the read before, and the time in
    milliseconds ([uint32_t]) of the last change. *)
Record InputState := {
  up : bool;
  down : bool;
  left : bool;
  right : bool;
  press : bool;
  key1 : bool;
  key2 : bool;
  key4 : bool;
  up_prev : bool;
  down_prev : bool;
  left_prev : bool;
  right_prev : bool;
  press_prev : bool;
  key1_prev : bool;
  key2_prev : bool;
  key4_prev : bool;
  up_time : Z;
  down_time : Z;
  left_time : Z;
  right_time : Z;
  press_time : Z;
  key1_time : Z;
  key2_time : Z;
  key4_time : Z
}.

(** [InputState input_state = {0}] *)
Definition zero_state : InputState :=
  {| up := false; down := false; left := false; right := false;
     press := false; key1 := false; key2 := false; key4 := false;
     up_prev := false; down_prev := false; left_prev := false; right_prev := false;
     press_prev := false; key1_prev := false; key2_prev := false; key4_prev := false;
     up_time := 0; down_time := 0; left_time := 0; right_time := 0;
     press_time := 0; key1_time := 0; key2_time := 0; key4_time := 0 |}.

(** What one call of [input_read] reads from the hardware: the levels of
    the four pins ([gpio_get]) and the two conversions of the ADC. *)
Record Pins := {
  pin_key1 : bool;
  pin_key2 : bool;
  pin_key4 : bool;
  pin_joy_sw : bool;
  adc_x : Z;
  adc_y : Z
}.

Section Reading.
(** The three constants of input_handler.h. *)
Variable DEBOUNCE_MS : Z.
Variable JOYSTICK_CENTER_MIN : Z.
Variable JOYSTICK_CENTER_MAX : Z.
Local Open Scope Z_scope.

(** The difference of the two times is taken on [uint32_t], where it
    wraps, and the constant is converted to that type for the
    comparison. *)
Definition is_debounced (last_time current_time : Z) : bool :=
  to_uint32 (current_time - last_time) >? to_uint32 DEBOUNCE_MS.

(** [if (raw != state->b && is_debounced(state->b_time, current_time))]
    with its two assignments: the state and the time of one input
    afterwards. *)
Definition debounce (raw value : bool) (time current_time : Z) : bool * Z :=
  if negb (Bool.eqb raw value) && is_debounced time current_time
  then (raw, current_time)
  else (value, time).

(** [input_read] at the time [current_time]: the state it leaves; the
    line it prints every 1000 reads is [input_read_debug] below. *)
Definition input_read (state : InputState) (pins : Pins) (current_time : Z)
  : InputState :=
  let key1_raw := negb (pin_key1 pins) in
  let key2_raw := negb (pin_key2 pins) in
  let key4_raw := negb (pin_key4 pins) in
  let press_raw := negb (pin_joy_sw pins) in
  let x_raw := to_uint16 (adc_x pins) in
  let y_raw := to_uint16 (adc_y pins) in
  let left_raw := x_raw <? JOYSTICK_CENTER_MIN in
  let right_raw := x_raw >? JOYSTICK_CENTER_MAX in
  let up_raw := y_raw <? JOYSTICK_CENTER_MIN in
  let down_raw := y_raw >? JOYSTICK_CENTER_MAX in
  {| up := fst (debounce up_raw (up state) (up_time state) current_time);
     down := fst (debounce down_raw (down state) (down_time state) current_time);
     left := fst (debounce left_raw (left state) (left_time state) current_time);
     right := fst (debounce right_raw (right state) (right_time state) current_time);
     press := fst (debounce press_raw (press state) (press_time state) current_time);
     key1 := fst (debounce key1_raw (key1 state) (key1_time state) current_time);
     key2 := fst (debounce key2_raw (key2 state) (key2_time state) current_time);
     key4 := fst (debounce key4_raw (key4 state) (key4_time state) current_time);
     up_prev := up state;
     down_prev := down state;
     left_prev := left state;
     right_prev := right state;
     press_prev := press state;
     key1_prev := key1 state;
     key2_prev := key2 state;
     key4_prev := key4 state;
     up_time := snd (debounce up_raw (up state) (up_time state) current_time);
     down_time := snd (debounce down_raw (down state) (down_time state) current_time);
     left_time := snd (debounce left_raw (left state) (left_time state) current_time);
     right_time := snd (debounce right_raw (right state) (right_time state) current_time);
     press_time := snd (debounce press_raw (press state) (press_time state) current_time);
     key1_time := snd (debounce key1_raw (key1 state) (key1_time state) current_time);
     key2_time := snd (debounce key2_raw (key2 state) (key2_time state) current_time);
     key4_time := snd (debounce key4_raw (key4 state) (key4_time state) current_time) |}.

End Reading.

Section Debug.
Import Ascii String.
Local Open Scope string_scope.
Variable JOYSTICK_CENTER_MIN : Z.
Variable JOYSTICK_CENTER_MAX : Z.

(** What [input_read] prints: [static int debug_counter] counts the reads
    of the whole program, and every 1000th read, the first included,
    writes the two raw values of the joystick and the two bounds of its
    centre, all four with [%u].  The result is the counter afterwards and
    the text; [debug_counter++] at [INT_MAX] is undefined: [None]. *)
Definition input_read_debug (debug_counter : Z) (pins : Pins) : option (Z * string) :=
  let x_raw := to_uint16 (adc_x pins) in
  let y_raw := to_uint16 (adc_y pins) in
  if (debug_counter =? INT_MAX)%Z then None
  else
    Some ((debug_counter + 1)%Z,
          if (Z.rem debug_counter 1000 =? 0)%Z then
            "ADC: X=" ++ format_u x_raw ++ " Y=" ++ format_u y_raw ++
            " (center range: " ++ format_u (to_uint32 JOYSTICK_CENTER_MIN) ++ "-" ++
            format_u (to_uint32 JOYSTICK_CENTER_MAX) ++ ")" ++ String LF EmptyString
          else EmptyString).

End Debug.

Definition input_just_pressed_up (state : InputState) : bool :=
  up state && negb (up_prev state).
Definition input_just_pressed_down (state : InputState) : bool :=
  down state && negb (down_prev state).
Definition input_just_pressed_left (state : InputState) : bool :=
  left state && negb (left_prev state).
Definition input_just_pressed_right (state : InputState) : bool :=
  right state && negb (right_prev state).
Definition input_just_pressed_press (state : InputState) : bool :=
  press state && negb (press_prev state).
Definition input_just_pressed_key1 (state : InputState) : bool :=
  key1 state && negb (key1_prev state).
Definition input_just_pressed_key2 (state : InputState) : bool :=
  key2 state && negb (key2_prev state).
Definition input_just_pressed_key4 (state : InputState) : bool :=
  key4 state && negb (key4_prev state).

End InputHandler.

(* ================================================================== *)
(** * The commands of the main loop of the Pico menu (main_menu.c) *)
(* ================================================================== *)

Section PicoMainCommands.
Import Ascii String.
Local Open Scope string_scope.

Record ButtonReleaseTracker := {
  key1_was_pressed : bool;
  key2_was_pressed : bool;
  key4_was_pressed : bool;
  press_was_pressed : bool;
  up_was_pressed : bool;
  down_was_pressed : bool;
  left_was_pressed : bool;
  right_was_pressed : bool
}.

(** [static ButtonReleaseTracker release_tracker = {0}] *)
Definition zero_tracker : ButtonReleaseTracker :=
  {| key1_was_pressed := false; key2_was_pressed := false;
     key4_was_pressed := false; press_was_pressed := false;
     up_was_pressed := false; down_was_pressed := false;
     left_was_pressed := false; right_was_pressed := false |}.

(** The part of one pass of the loop of [main] between [input_read] and
    [read_telemetry_data]: the tracker afterwards and the text written to
    the USB serial line, for the input state [st] that [input_read] has
    left. *)
Definition main_commands (st : InputHandler.InputState) (t : ButtonReleaseTracker)
  : ButtonReleaseTracker * string :=
  (* presses of the buttons *)
  let '(k1, out) :=
    if InputHandler.input_just_pressed_key1 st
    then (true, send_button_command 1 "PRESS" ++ send_high_level_command "FLY_MODE")
    else (key1_was_pressed t, EmptyString) in
  let '(k2, out) :=
    if InputHandler.input_just_pressed_key2 st
    then (true, out ++ send_button_command 2 "PRESS"
                    ++ send_high_level_command "GYRO_CALIBRATION")
    else (key2_was_pressed t, out) in
  let '(k4, out) :=
    if InputHandler.input_just_pressed_key4 st
    then (true, out ++ send_button_command 4 "PRESS"
                    ++ send_high_level_command "BLUETOOTH")
    else (key4_was_pressed t, out) in
  let '(pr, out) :=
    if InputHandler.input_just_pressed_press st
    then (true, out ++ send_button_command 5 "PRESS")
    else (press_was_pressed t, out) in
  (* releases of the buttons *)
  let '(k1, out) :=
    if k1 && negb (InputHandler.key1 st)
    then (false, out ++ send_button_command 1 "RELEASE") else (k1, out) in
  let '(k2, out) :=
    if k2 && negb (InputHandler.key2 st)
    then (false, out ++ send_button_command 2 "RELEASE") else (k2, out) in
  let '(k4, out) :=
    if k4 && negb (InputHandler.key4 st)
    then (false, out ++ send_button_command 4 "RELEASE") else (k4, out) in
  let '(pr, out) :=
    if pr && negb (InputHandler.press st)
    then (false, out ++ send_button_command 5 "RELEASE") else (pr, out) in
  (* the joystick *)
  let '(u, out) :=
    if InputHandler.input_just_pressed_up st
    then (true, out ++ send_joystick_command "UP") else (up_was_pressed t, out) in
  let '(d, out) :=
    if InputHandler.input_just_pressed_down st
    then (true, out ++ send_joystick_command "DOWN") else (down_was_pressed t, out) in
  let '(l, out) :=
    if InputHandler.input_just_pressed_left st
    then (true, out ++ send_joystick_command "LEFT") else (left_was_pressed t, out) in
  let '(r, out) :=
    if InputHandler.input_just_pressed_right st
    then (true, out ++ send_joystick_command "RIGHT") else (right_was_pressed t, out) in
  let u := if u && negb (InputHandler.up st) then false else u in
  let d := if d && negb (InputHandler.down st) then false else d in
  let l := if l && negb (InputHandler.left st) then false else l in
  let r := if r && negb (InputHandler.right st) then false else r in
  ({| key1_was_pressed := k1; key2_was_pressed := k2; key4_was_pressed := k4;
      press_was_pressed := pr; up_was_pressed := u; down_was_pressed := d;
      left_was_pressed := l; right_was_pressed := r |}, out).

End PicoMainCommands.

(* ================================================================== *)
(** * One pass of the two loops of the Pico menu that send commands *)
(* ================================================================== *)

Section PicoPasses.
Import Ascii String.
Local Open Scope string_scope.
Variable DEBOUNCE_MS : Z.
Variable JOYSTICK_CENTER_MIN : Z.
Variable JOYSTICK_CENTER_MAX : Z.

(** One pass of the loop of [main] from [input_read] to the last command:
    the counter of reads, the input state and the tracker afterwards, and
    the text written to the USB serial line. *)
Definition main_pass (debug_counter : Z) (input_state : InputHandler.InputState)
    (t : ButtonReleaseTracker) (pins : InputHandler.Pins) (current_time : Z)
  : option (Z * InputHandler.InputState * ButtonReleaseTracker * string) :=
  match InputHandler.input_read_debug JOYSTICK_CENTER_MIN JOYSTICK_CENTER_MAX
          debug_counter pins with
  | None => None
  | Some (debug_counter, adc) =>
      let input_state :=
        InputHandler.input_read DEBOUNCE_MS JOYSTICK_CENTER_MIN JOYSTICK_CENTER_MAX
          input_state pins current_time in
      let '(t, out) := main_commands input_state t in
      Some (debug_counter, input_state, t, adc ++ out)
  end.

(** One pass of the loop of [action_gyro_offset], [input_read]
    included: the counter of reads, the input state and the offsets
    afterwards, and the text written to the USB serial line. *)
Definition action_gyro_offset_pass (debug_counter : Z)
    (input_state : InputHandler.InputState) (s : OffsetState)
    (pins : InputHandler.Pins) (current_time : Z)
  : option (Z * InputHandler.InputState * LoopStep OffsetState * string) :=
  match InputHandler.input_read_debug JOYSTICK_CENTER_MIN JOYSTICK_CENTER_MAX
          debug_counter pins with
  | None => None
  | Some (debug_counter, adc) =>
      let input_state :=
        InputHandler.input_read DEBOUNCE_MS JOYSTICK_CENTER_MIN JOYSTICK_CENTER_MAX
          input_state pins current_time in
      let '(s, out) :=
        action_gyro_offset_commands s
          {| offset_up := InputHandler.input_just_pressed_up input_state;
             offset_down := InputHandler.input_just_pressed_down input_state;
             offset_left := InputHandler.input_just_pressed_left input_state;
             offset_right := InputHandler.input_just_pressed_right input_state;
             offset_key2 := InputHandler.input_just_pressed_key2 input_state |} in
      Some (debug_counter, input_state, s, adc ++ out)
  end.

End PicoPasses.

(* ================================================================== *)
(** * The menu of the Pico (menu.c) *)
(* ================================================================== *)

Section Menu.
Import Ascii String.
(** What the function pointer of an item stands for. *)
Variable Action : Type.
Local Open Scope Z_scope.

Record MenuRect := {
  rect_x : Z;
  rect_y : Z;
  rect_width : Z;
  rect_height : Z
}.

Record MenuItem := {
  label : string;
  action : option Action
}.

Definition default_positions : list MenuRect :=
  [ {| rect_x := 5; rect_y := 20; rect_width := 310; rect_height := 35 |};
    {| rect_x := 5; rect_y := 60; rect_width := 310; rect_height := 35 |};
    {| rect_x := 5; rect_y := 100; rect_width := 310; rect_height := 35 |};
    {| rect_x := 5; rect_y := 140; rect_width := 310; rect_height := 35 |} ].

(** The two arrays are the objects the pointers point to: a read at an
    index past their end has no defined result. *)
Record MenuState := {
  items : list MenuItem;
  item_count : Z;
  selection_index : Z;
  last_selection_index : Z;
  positions : list MenuRect
}.

(** [a[i]]: [None] outside the array. *)
Definition array_at (T : Type) (a : list T) (i : Z) : option T :=
  if i <? 0 then None else nth_error a (Z.to_nat i).

Definition menu_init (items : list MenuItem) (count : Z)
    (positions : option (list MenuRect)) : MenuState :=
  {| items := items;
     item_count := count;
     selection_index := -1;
     last_selection_index := -2;
     positions := match positions with
                  | Some p => p
                  | None => default_positions
                  end |}.

(** What is drawn on the LCD: the screen cleared, or one item in its
    rectangle, selected (black on yellow) or not (yellow on black). *)
Inductive MenuDraw :=
| DrawClear
| DrawItem (rect : MenuRect) (text : string) (selected : bool).

Definition menu_draw_item (menu : MenuState) (index : Z) (selected : bool)
  : option (list MenuDraw) :=
  if (index <? 0) || (index >=? item_count menu) then Some []
  else
    match array_at (positions menu) index, array_at (items menu) index with
    | Some rect, Some item => Some [DrawItem rect (label item) selected]
    | _, _ => None
    end.

Definition with_last (menu : MenuState) : MenuState :=
  {| items := items menu; item_count := item_count menu;
     selection_index := selection_index menu;
     last_selection_index := selection_index menu;
     positions := positions menu |}.

Definition with_selection (menu : MenuState) (index : Z) : MenuState :=
  {| items := items menu; item_count := item_count menu;
     selection_index := index;
     last_selection_index := last_selection_index menu;
     positions := positions menu |}.

(** The loop of [menu_draw_full] from [i] on, [n] items to go. *)
Fixpoint draw_items (menu : MenuState) (i : Z) (n : nat) : option (list MenuDraw) :=
  match n with
  | O => Some []
  | S n' =>
      match menu_draw_item menu i (i =? selection_index menu) with
      | None => None
      | Some d =>
          match draw_items menu (i + 1) n' with
          | None => None
          | Some rest => Some (d ++ rest)
          end
      end
  end.

Definition menu_draw_full (menu : MenuState) : option (MenuState * list MenuDraw) :=
  match draw_items menu 0 (Z.to_nat (item_count menu)) with
  | None => None
  | Some d => Some (with_last menu, DrawClear :: d)
  end.

Definition menu_update_selection (menu : MenuState)
  : option (MenuState * list MenuDraw) :=
  if selection_index menu =? last_selection_index menu then Some (menu, [])
  else
    match
      (if (last_selection_index menu >=? 0)
          && (last_selection_index menu <? item_count menu)
       then menu_draw_item menu (last_selection_index menu) false
       else Some [])
    with
    | None => None
    | Some d1 =>
        match
          (if (selection_index menu >=? 0)
              && (selection_index menu <? item_count menu)
           then menu_draw_item menu (selection_index menu) true
           else Some [])
        with
        | None => None
        | Some d2 => Some (with_last menu, d1 ++ d2)
        end
    end.

(** [a % b] on [int]: no result for a zero divisor, nor when the quotient
    or [a] itself is no [int]. *)
Definition int_rem (a b : Z) : option Z :=
  if (b =? 0) || negb ((INT_MIN <=? a) && (a <=? INT_MAX))
     || ((a =? INT_MIN) && (b =? -1))
  then None
  else Some (Z.rem a b).

(** [menu_handle_input]: the menu afterwards, what is drawn, the action
    that is run (if the item has one) and the value returned. *)
Definition menu_handle_input (menu : MenuState) (input : InputHandler.InputState)
  : option (MenuState * list MenuDraw * option Action * bool) :=
  match
    (if InputHandler.input_just_pressed_down input then
       match
         (if selection_index menu =? -1 then Some 0
          else int_rem (selection_index menu + 1) (item_count menu))
       with
       | None => None
       | Some index => menu_update_selection (with_selection menu index)
       end
     else Some (menu, []))
  with
  | None => None
  | Some (menu, d1) =>
      match
        (if InputHandler.input_just_pressed_up input then
           match
             (if selection_index menu =? -1 then Some (item_count menu - 1)
              else int_rem (selection_index menu - 1 + item_count menu)
                           (item_count menu))
           with
           | None => None
           | Some index => menu_update_selection (with_selection menu index)
           end
         else Some (menu, []))
      with
      | None => None
      | Some (menu, d2) =>
          if (InputHandler.input_just_pressed_right input
              || InputHandler.input_just_pressed_press input)
             && (selection_index menu >=? 0)
          then
            match array_at (items menu) (selection_index menu) with
            | None => None
            | Some item => Some (menu, d1 ++ d2, action item, true)
            end
          else Some (menu, d1 ++ d2, None, false)
      end
  end.

End Menu.

(* ================================================================== *)
(** * The framebuffer of the Pico LCD (st7789_lcd.c) *)
(* ================================================================== *)

Section PicoLcd.
Local Open Scope Z_scope.

Definition LCD_WIDTH : Z := 320.
Definition LCD_HEIGHT : Z := 240.

(** [a[i] = v]: [None] outside the array. *)
Definition store (a : list Z) (i : Z) (v : Z) : option (list Z) :=
  if (0 <=? i) && (i <? Z.of_nat (length a))
  then Some (firstn (Z.to_nat i) a ++ v :: skipn (S (Z.to_nat i)) a)
  else None.

(** The inner loop of [lcd_fill_rect] with [n] columns to go from
    [col]. *)
Fixpoint fill_cols (framebuffer : list Z) (row col : Z) (n : nat) (color : Z)
  : option (list Z) :=
  match n with
  | O => Some framebuffer
  | S n' =>
      match store framebuffer (row * LCD_WIDTH + col) color with
      | None => None
      | Some framebuffer => fill_cols framebuffer row (col + 1) n' color
      end
  end.

(** The outer loop with [n] rows to go from [row]. *)
Fixpoint fill_rows (framebuffer : list Z) (row x : Z) (w n : nat) (color : Z)
  : option (list Z) :=
  match n with
  | O => Some framebuffer
  | S n' =>
      match fill_cols framebuffer row x w color with
      | None => None
      | Some framebuffer => fill_rows framebuffer (row + 1) x w n' color
      end
  end.

(** [lcd_fill_rect]: the framebuffer afterwards.  After the two clips
    [x + w] and [y + h] are at most 320 and 240, so the two counters of
    type [uint16_t] run from [x] and [y] over [w] and [h] values without
    wrapping. *)
Definition lcd_fill_rect (framebuffer : list Z) (x y w h color : Z)
  : option (list Z) :=
  if (x >=? LCD_WIDTH) || (y >=? LCD_HEIGHT) then Some framebuffer
  else
    let w := if x + w >? LCD_WIDTH then to_uint16 (LCD_WIDTH - x) else w in
    let h := if y + h >? LCD_HEIGHT then to_uint16 (LCD_HEIGHT - y) else h in
    fill_rows framebuffer y x (Z.to_nat w) (Z.to_nat h) color.

Definition lcd_draw_pixel (framebuffer : list Z) (x y color : Z) : option (list Z) :=
  if (x >=? LCD_WIDTH) || (y >=? LCD_HEIGHT) then Some framebuffer
  else store framebuffer (y * LCD_WIDTH + x) color.

(** The 5x7 font: a glyph for each character from the space (32) to Z
    (90), five columns of seven bits. *)
Definition font_5x7 : list (list Z) :=
  [
    [0x00; 0x00; 0x00; 0x00; 0x00];
    [0x00; 0x00; 0x5F; 0x00; 0x00];
    [0x00; 0x07; 0x00; 0x07; 0x00];
    [0x14; 0x7F; 0x14; 0x7F; 0x14];
    [0x24; 0x2A; 0x7F; 0x2A; 0x12];
    [0x23; 0x13; 0x08; 0x64; 0x62];
    [0x36; 0x49; 0x55; 0x22; 0x50];
    [0x00; 0x05; 0x03; 0x00; 0x00];
    [0x00; 0x1C; 0x22; 0x41; 0x00];
    [0x00; 0x41; 0x22; 0x1C; 0x00];
    [0x08; 0x2A; 0x1C; 0x2A; 0x08];
    [0x08; 0x08; 0x3E; 0x08; 0x08];
    [0x00; 0x50; 0x30; 0x00; 0x00];
    [0x08; 0x08; 0x08; 0x08; 0x08];
    [0x00; 0x60; 0x60; 0x00; 0x00];
    [0x20; 0x10; 0x08; 0x04; 0x02];
    [0x3E; 0x51; 0x49; 0x45; 0x3E];
    [0x00; 0x42; 0x7F; 0x40; 0x00];
    [0x42; 0x61; 0x51; 0x49; 0x46];
    [0x21; 0x41; 0x45; 0x4B; 0x31];
    [0x18; 0x14; 0x12; 0x7F; 0x10];
    [0x27; 0x45; 0x45; 0x45; 0x39];
    [0x3C; 0x4A; 0x49; 0x49; 0x30];
    [0x01; 0x71; 0x09; 0x05; 0x03];
    [0x36; 0x49; 0x49; 0x49; 0x36];
    [0x06; 0x49; 0x49; 0x29; 0x1E];
    [0x00; 0x36; 0x36; 0x00; 0x00];
    [0x00; 0x56; 0x36; 0x00; 0x00];
    [0x00; 0x08; 0x14; 0x22; 0x41];
    [0x14; 0x14; 0x14; 0x14; 0x14];
    [0x41; 0x22; 0x14; 0x08; 0x00];
    [0x02; 0x01; 0x51; 0x09; 0x06];
    [0x32; 0x49; 0x79; 0x41; 0x3E];
    [0x7E; 0x11; 0x11; 0x11; 0x7E];
    [0x7F; 0x49; 0x49; 0x49; 0x36];
    [0x3E; 0x41; 0x41; 0x41; 0x22];
    [0x7F; 0x41; 0x41; 0x22; 0x1C];
    [0x7F; 0x49; 0x49; 0x49; 0x41];
    [0x7F; 0x09; 0x09; 0x01; 0x01];
    [0x3E; 0x41; 0x41; 0x51; 0x32];
    [0x7F; 0x08; 0x08; 0x08; 0x7F];
    [0x00; 0x41; 0x7F; 0x41; 0x00];
    [0x20; 0x40; 0x41; 0x3F; 0x01];
    [0x7F; 0x08; 0x14; 0x22; 0x41];
    [0x7F; 0x40; 0x40; 0x40; 0x40];
    [0x7F; 0x02; 0x04; 0x02; 0x7F];
    [0x7F; 0x04; 0x08; 0x10; 0x7F];
    [0x3E; 0x41; 0x41; 0x41; 0x3E];
    [0x7F; 0x09; 0x09; 0x09; 0x06];
    [0x3E; 0x41; 0x51; 0x21; 0x5E];
    [0x7F; 0x09; 0x19; 0x29; 0x46];
    [0x46; 0x49; 0x49; 0x49; 0x31];
    [0x01; 0x01; 0x7F; 0x01; 0x01];
    [0x3F; 0x40; 0x40; 0x40; 0x3F];
    [0x1F; 0x20; 0x40; 0x20; 0x1F];
    [0x7F; 0x20; 0x18; 0x20; 0x7F];
    [0x63; 0x14; 0x08; 0x14; 0x63];
    [0x03; 0x04; 0x78; 0x04; 0x03];
    [0x61; 0x51; 0x49; 0x45; 0x43]
  ].

(** The inner loop of [lcd_draw_char] in row [j]: [n] columns to go from
    column [i]. *)
Fixpoint char_cols (framebuffer glyph : list Z) (x y color bg_color j i : Z) (n : nat)
  : option (list Z) :=
  match n with
  | O => Some framebuffer
  | S n' =>
      match array_at glyph i with
      | None => None
      | Some bits =>
          let pixel_color :=
            if Z.land bits (Z.shiftl 1 j) =? 0 then bg_color else color in
          let px := to_uint16 (x + i) in
          let py := to_uint16 (y + j) in
          match
            (if (px <? LCD_WIDTH) && (py <? LCD_HEIGHT)
             then store framebuffer (py * LCD_WIDTH + px) pixel_color
             else Some framebuffer)
          with
          | None => None
          | Some framebuffer => char_cols framebuffer glyph x y color bg_color j (i + 1) n'
          end
      end
  end.

(** The outer loop: [n] rows to go from row [j]. *)
Fixpoint char_rows (framebuffer glyph : list Z) (x y color bg_color j : Z) (n : nat)
  : option (list Z) :=
  match n with
  | O => Some framebuffer
  | S n' =>
      match char_cols framebuffer glyph x y color bg_color j 0 5 with
      | None => None
      | Some framebuffer => char_rows framebuffer glyph x y color bg_color (j + 1) n'
      end
  end.

(** [lcd_draw_char] for the character with the code [ch]. *)
Definition lcd_draw_char (framebuffer : list Z) (x y ch color bg_color : Z)
  : option (list Z) :=
  let ch := if (ch <? 32) || (ch >? 90) then 32 else ch in
  match array_at font_5x7 (ch - 32) with
  | None => None
  | Some glyph => char_rows framebuffer glyph x y color bg_color 0 7
  end.

(** The loop of [lcd_draw_string] over the characters of [str]. *)
Fixpoint draw_string_loop (framebuffer : list Z) (orig_x x y : Z) (str : String.string)
    (color bg_color : Z) : option (list Z) :=
  match str with
  | String.EmptyString => Some framebuffer
  | String.String c rest =>
      if Ascii.eqb c LF
      then draw_string_loop framebuffer orig_x orig_x (to_uint16 (y + 9)) rest color bg_color
      else
        match lcd_draw_char framebuffer x y (Z.of_N (Ascii.N_of_ascii c)) color bg_color with
        | None => None
        | Some framebuffer =>
            draw_string_loop framebuffer orig_x (to_uint16 (x + 6)) y rest color bg_color
        end
  end.

Definition lcd_draw_string (framebuffer : list Z) (x y : Z) (str : String.string)
    (color bg_color : Z) : option (list Z) :=
  draw_string_loop framebuffer x x y str color bg_color.

(** The value of an [int32_t] expression: none when it is no [int32_t],
    which the C standard leaves open. *)
Definition int32_value (v : Z) : option Z :=
  if (INT_MIN <=? v) && (v <=? INT_MAX) then Some v else None.

(** The loop of [lcd_draw_line] with [guard] passes to go: the
    framebuffer afterwards, and whether the loop was left at the end
    point ([break]) rather than by its guard. *)
Fixpoint line_loop (framebuffer : list Z) (x0 y0 x1 y1 dx dy sx sy err color : Z)
    (guard : nat) : option (list Z * bool) :=
  match guard with
  | O => Some (framebuffer, false)
  | S guard' =>
      match
        (if (x0 >=? 0) && (x0 <? LCD_WIDTH) && (y0 >=? 0) && (y0 <? LCD_HEIGHT)
         then store framebuffer (to_uint16 y0 * LCD_WIDTH + to_uint16 x0) color
         else Some framebuffer)
      with
      | None => None
      | Some framebuffer =>
          if (x0 =? x1) && (y0 =? y1) then Some (framebuffer, true)
          else
            match int32_value (2 * err) with
            | None => None
            | Some e2 =>
                match
                  (if e2 >? - dy
                   then match int32_value (err - dy) with
                        | None => None
                        | Some err => Some (err, to_int16 (x0 + sx))
                        end
                   else Some (err, x0))
                with
                | None => None
                | Some (err, x0) =>
                    match
                      (if e2 <? dx
                       then match int32_value (err + dx) with
                            | None => None
                            | Some err => Some (err, to_int16 (y0 + sy))
                            end
                       else Some (err, y0))
                    with
                    | None => None
                    | Some (err, y0) =>
                        line_loop framebuffer x0 y0 x1 y1 dx dy sx sy err color guard'
                    end
                end
            end
      end
  end.

(** [lcd_draw_line] for end points of type [int16_t]. *)
Definition lcd_draw_line (framebuffer : list Z) (x0 y0 x1 y1 color : Z)
  : option (list Z * bool) :=
  let dx := Z.abs (x1 - x0) in
  let dy := Z.abs (y1 - y0) in
  let sx := if x0 <? x1 then 1 else -1 in
  let sy := if y0 <? y1 then 1 else -1 in
  let err := dx - dy in
  let guard := LCD_WIDTH + LCD_HEIGHT + dx + dy + 8 in
  line_loop framebuffer x0 y0 x1 y1 dx dy sx sy err color (Z.to_nat guard).

(** The bytes of an array of [uint16_t] in the memory of the Pico, low
    byte first, and the array that a sequence of bytes holds. *)
Fixpoint pixel_bytes (pixels : list Z) : list Z :=
  match pixels with
  | [] => []
  | p :: rest => Z.land p 0xFF :: Z.shiftr p 8 :: pixel_bytes rest
  end.

Fixpoint bytes_pixels (bytes : list Z) : list Z :=
  match bytes with
  | lo :: hi :: rest => Z.lor lo (Z.shiftl hi 8) :: bytes_pixels rest
  | _ => []
  end.

(** The loop of [swap_bytes_region] from pixel [i] on, [n] pixels to
    go. *)
Fixpoint swap_bytes_loop (buf : list Z) (i : Z) (n : nat) : option (list Z) :=
  match n with
  | O => Some buf
  | S n' =>
      match array_at buf (i * 2), array_at buf (i * 2 + 1) with
      | Some tmp, Some other =>
          match store buf (i * 2) other with
          | None => None
          | Some buf =>
              match store buf (i * 2 + 1) tmp with
              | None => None
              | Some buf => swap_bytes_loop buf (i + 1) n'
              end
          end
      | _, _ => None
      end
  end.

Definition swap_bytes_region (buf : list Z) (pixel_count : nat) : option (list Z) :=
  swap_bytes_loop buf 0 pixel_count.

(** What goes over the SPI line to the display: a command byte or a data
    byte. *)
Inductive LcdByte :=
| LcdCommand (b : Z)
| LcdData (b : Z).

Definition lcd_set_window (x0 y0 x1 y1 : Z) : list LcdByte :=
  [ LcdCommand 0x2A;
    LcdData (to_uint8 (Z.shiftr x0 8));
    LcdData (to_uint8 (Z.land x0 0xFF));
    LcdData (to_uint8 (Z.shiftr (x1 - 1) 8));
    LcdData (to_uint8 (Z.land (x1 - 1) 0xFF));
    LcdCommand 0x2B;
    LcdData (to_uint8 (Z.shiftr y0 8));
    LcdData (to_uint8 (Z.land y0 0xFF));
    LcdData (to_uint8 (Z.shiftr (y1 - 1) 8));
    LcdData (to_uint8 (Z.land (y1 - 1) 0xFF));
    LcdCommand 0x2C ].

(** [lcd_flush]: the framebuffer afterwards and what is sent.  The DMA
    transfer sends the [LCD_WIDTH * LCD_HEIGHT * 2] bytes of the
    framebuffer from the first, [None] when it is shorter. *)
Definition lcd_flush (framebuffer : list Z) : option (list Z * list LcdByte) :=
  let window := lcd_set_window 0 0 LCD_WIDTH LCD_HEIGHT in
  match swap_bytes_region (pixel_bytes framebuffer) (Z.to_nat (LCD_WIDTH * LCD_HEIGHT)) with
  | None => None
  | Some memory =>
      if (Z.of_nat (length memory) <? LCD_WIDTH * LCD_HEIGHT * 2) then None
      else
        let sent := firstn (Z.to_nat (LCD_WIDTH * LCD_HEIGHT * 2)) memory in
        match swap_bytes_region memory (Z.to_nat (LCD_WIDTH * LCD_HEIGHT)) with
        | None => None
        | Some memory => Some (bytes_pixels memory, window ++ map LcdData sent)
        end
  end.

(** The inner loop of [lcd_flush_rect]: the bytes sent for [n] pixels
    of the row from [row_start + i] on. *)
Fixpoint flush_cols (framebuffer : list Z) (row_start i : Z) (n : nat)
  : option (list LcdByte) :=
  match n with
  | O => Some []
  | S n' =>
      match array_at framebuffer (row_start + i) with
      | None => None
      | Some val =>
          match flush_cols framebuffer row_start (i + 1) n' with
          | None => None
          | Some rest =>
              Some (LcdData (to_uint8 (Z.shiftr val 8))
                    :: LcdData (to_uint8 (Z.land val 0xFF)) :: rest)
          end
      end
  end.

Fixpoint flush_rows (framebuffer : list Z) (row x : Z) (w n : nat)
  : option (list LcdByte) :=
  match n with
  | O => Some []
  | S n' =>
      match flush_cols framebuffer (row * LCD_WIDTH + x) 0 w with
      | None => None
      | Some sent =>
          match flush_rows framebuffer (row + 1) x w n' with
          | None => None
          | Some rest => Some (sent ++ rest)
          end
      end
  end.

(** [lcd_flush_rect]: what is sent; the framebuffer is only read. *)
Definition lcd_flush_rect (framebuffer : list Z) (x y w h : Z)
  : option (list LcdByte) :=
  if (x >=? LCD_WIDTH) || (y >=? LCD_HEIGHT) then Some []
  else
    let w := if x + w >? LCD_WIDTH then to_uint16 (LCD_WIDTH - x) else w in
    let h := if y + h >? LCD_HEIGHT then to_uint16 (LCD_HEIGHT - y) else h in
    match flush_rows framebuffer y x (Z.to_nat w) (Z.to_nat h) with
    | None => None
    | Some sent => Some (lcd_set_window x y (to_uint16 (x + w)) (to_uint16 (y + h)) ++ sent)
    end.

End PicoLcd.

(* ================================================================== *)
(** * The aircraft marks of the radar (main_menu.c) *)
(* ================================================================== *)

Section PicoRadar.
Local Open Scope Z_scope.

Definition COLOR_BLACK : Z := 0x0000.

(** The body of the first loop of [update_radar_aircraft] for one stored
    position ([int16_t]): the mark of the update before is cleared.  The
    arguments of [lcd_fill_rect] are converted to [uint16_t]. *)
Definition update_radar_clear (framebuffer : list Z) (prev_x prev_y : Z)
  : option (list Z) :=
  if (prev_x >=? 0) && (prev_y >=? 0)
  then lcd_fill_rect framebuffer (to_uint16 (prev_x - 3)) (to_uint16 (prev_y - 5))
                     50 10 COLOR_BLACK
  else Some framebuffer.

(** The square that the second loop draws for an aircraft at the screen
    position that [latlon_to_radar_xy] has stored, and whether the
    position is kept for the next clear; the callsign is left out. *)
Definition update_radar_draw (framebuffer : list Z) (screen_x screen_y : Z)
  : option (list Z * bool) :=
  if (screen_x >=? 0) && (screen_x <=? 320) && (screen_y >=? 0) && (screen_y <=? 240)
  then
    match lcd_fill_rect framebuffer (to_uint16 (screen_x - 2)) (to_uint16 (screen_y - 2))
                        4 4 COLOR_RED with
    | None => None
    | Some framebuffer => Some (framebuffer, true)
    end
  else Some (framebuffer, false).

End PicoRadar.

Set Implicit Arguments.

(* ================================================================== *)
(** * Definitions used in the statements and proofs below *)
(* ================================================================== *)

(** Checking a decidable property of the integers below [n] one by one. *)
Definition below (n : nat) (f : Z -> bool) : bool :=
  forallb f (map Z.of_nat (seq 0 n)).

Section StringSupport.
Import Ascii String.
Local Open Scope string_scope.

(** Every character of [s] passes the test [p]. *)
Fixpoint all_chars (p : ascii -> bool) (s : string) : bool :=
  match s with
  | EmptyString => true
  | String c s' => p c && all_chars p s'
  end.

(** Comparing [needle] with what starts at the head of [pre] meets two
    different characters before [pre] ends. *)
Fixpoint mismatch_within (needle pre : string) : bool :=
  match needle, pre with
  | String a needle', String b pre' =>
      if Ascii.eqb a b then mismatch_within needle' pre' else true
  | _, _ => false
  end.

(** [needle] starts nowhere in [pre], whatever follows [pre]. *)
Fixpoint no_match_in (needle pre : string) : bool :=
  match pre with
  | EmptyString => true
  | String _ pre' => mismatch_within needle pre && no_match_in needle pre'
  end.

(** No line end and no NUL: a character the line buffers store and C
    strings carry. *)
Definition line_char (c : ascii) : bool :=
  negb (Ascii.eqb c LF) && negb (Ascii.eqb c CR) && negb (Ascii.eqb c NUL).

Definition not_colon (c : ascii) : bool := negb (Ascii.eqb c ":"%char).

Definition is_digit (c : ascii) : bool :=
  match digit_value c with Some _ => true | None => false end.

(** A character of a number printed with [%d]. *)
Definition number_char (c : ascii) : bool := is_digit c || Ascii.eqb c "-"%char.

End StringSupport.

Section SerialSupport.
Context {A : CArith}.
Import Ascii String.

(** The state [s] with [line] in the line buffer. *)
Definition with_line (s : RpiState) (line : string) : RpiState :=
  {| line_buffer := line; running := running s;
     pitch_offset := pitch_offset s; roll_offset := roll_offset s |}.

(** [n] calls of [process_serial_input] one after the other, as the
    loop of [main] makes them, on what the serial port holds: the state
    and what is still unread. *)
Fixpoint serial_calls (n : nat) (pending : string) (s : RpiState)
  : option (RpiState * string) :=
  match n with
  | O => Some (s, pending)
  | S n' =>
      match process_serial_input pending s with
      | None => None
      | Some (s', rest) => serial_calls n' rest s'
      end
  end.

(** The text [text], read from an idle line buffer, takes the state [s]
    to [s'] with the line buffer idle again, whatever the limit of a call
    and whatever follows. *)
Definition feeds (text : string) (s s' : RpiState) : Prop :=
  line_buffer s = EmptyString ->
  line_buffer s' = EmptyString /\
  forall (budget : nat) (rest : string),
    (length text <= budget)%nat ->
    serial_loop budget (append text rest) s = serial_loop (budget - length text) rest s'.

End SerialSupport.

Section TelemetrySupport.
Context {A : CArith}.
Import Ascii String.
Local Open Scope string_scope.

(** A character that may stand in a number of the JSON line: it ends no
    line and no string. *)
Definition json_char (c : ascii) : bool := line_char c && negb (Ascii.eqb c DQUOTE).

(** The telemetry line of [send_telemetry_to_pico] around its two numbers:
    [telemetry_head], the pitch, [telemetry_mid], the roll,
    [telemetry_tail], and the line end. *)
Definition telemetry_head : string :=
  "{" ++ quoted "own" ++ ":{" ++ quoted "lat" ++ ":0.0," ++ quoted "lon" ++ ":0.0," ++
  quoted "alt" ++ ":0.0," ++ quoted "pitch" ++ ":".

Definition telemetry_mid : string := "," ++ quoted "roll" ++ ":".

Definition telemetry_tail (wifi gps bank_w pitch_w : bool) : string :=
  "," ++ quoted "yaw" ++ ":0.0}," ++
  quoted "traffic" ++ ":[]," ++
  quoted "status" ++ ":{" ++ quoted "wifi" ++ ":" ++ json_bool wifi ++ "," ++
  quoted "gps" ++ ":" ++ json_bool gps ++ "," ++ quoted "bluetooth" ++ ":false}," ++
  quoted "warnings" ++ ":{" ++ quoted "bank" ++ ":" ++ json_bool bank_w ++ "," ++
  quoted "pitch" ++ ":" ++ json_bool pitch_w ++ "}}".

(** The line without its end, for the two numbers [P] and [R]. *)
Definition telemetry_json (P R : string) (wifi gps bank_w pitch_w : bool) : string :=
  telemetry_head ++ P ++ telemetry_mid ++ R ++ telemetry_tail wifi gps bank_w pitch_w.

(** [read_telemetry_data] called once for each character of [text]. *)
Fixpoint receive_chars (atof : string -> double) (text : string) (s : PicoTelemetry)
  : PicoTelemetry :=
  match text with
  | EmptyString => s
  | String c text' => receive_chars atof text' (read_telemetry_data atof (Some c) s)
  end.

(** The state [s] with [line] in the receive buffer. *)
Definition with_rx (s : PicoTelemetry) (line : string) : PicoTelemetry :=
  {| rx_buffer := line; latest_telemetry := latest_telemetry s;
     telemetry_received := telemetry_received s |}.

End TelemetrySupport.

Section LoopSupport.
Local Open Scope cf_scope.

(** A component of the quaternion is NaN. *)
Definition quat_has_nan (f : @Quaternion machine) : bool :=
  IEEE.is_nan (q0 f) || IEEE.is_nan (q1 f) || IEEE.is_nan (q2 f) || IEEE.is_nan (q3 f).

Definition nan_quaternion : @Quaternion machine :=
  @Build_Quaternion machine S754_nan S754_nan S754_nan S754_nan.

(** An angle the attitude indicator may hold for the display: NaN, or
    between [-MAX_DISPLAY_DEG] and [MAX_DISPLAY_DEG]. *)
Definition display_angle (x : @float machine) : Prop :=
  IEEE.is_nan x = true \/
  (@fle machine (@fneg machine (@MAX_DISPLAY_DEG machine)) x = true /\
   @fle machine x (@MAX_DISPLAY_DEG machine) = true).

(** What the C library promises of [atan2f] on every pair of arguments:
    NaN, or a binary32 angle of at most pi (rounded to binary32) in
    magnitude. *)
Definition atan2f_nan_or_angle (L : LibM machine) : Prop :=
  forall y x : spec_float,
    IEEE.is_nan (@atan2f machine L y x) = true \/
    (valid32 (@atan2f machine L y x) /\
     IEEE.is_finite (@atan2f machine L y x) = true /\
     (Rabs (F2R (@atan2f machine L y x))
      <= F2R (IEEE.convert B32.prec B32.emax B64.M_PI))%R).

(** The crudest library that follows C on zeros: [atan2f] returns pi
    with the sign of [y] when [y] is a zero and [x] is negative, [y]
    itself when [y] is a zero and [x] is not negative, and 0 elsewhere;
    [asinf x = x]. *)
Definition signed_zero_libm : LibM machine :=
  @Build_LibM machine
    (fun y x =>
       match y with
       | S754_zero s =>
           if SFltb x (S754_zero false)
           then (if s then SFopp (IEEE.convert B32.prec B32.emax B64.M_PI)
                 else IEEE.convert B32.prec B32.emax B64.M_PI)
           else y
       | _ => S754_zero false
       end)
    (fun x => x).

(** A component that is a finite binary32 value of at most 2 in
    magnitude, as a test. *)
Definition within_two (x : @float machine) : bool :=
  valid_binary B32.prec B32.emax x && @isfinite machine x
  && @fle machine (@fabsf machine x) (@lit machine 2 0).

(** What a pass of the loop of [action_test_gyro] goes on from: the
    filter, the biases and the time of the last tick. *)
Definition snapshot (L : LibM machine) (s : @GyroTest machine)
    (f : @MadgwickFilter machine)
    (gyro_bias accel_bias : @float machine * @float machine * @float machine)
    (t : Z) : Prop :=
  filter s = f /\
  (gyro_bias_x s, gyro_bias_y s, gyro_bias_z s) = gyro_bias /\
  (accel_bias_x s, accel_bias_y s, accel_bias_z s) = accel_bias /\
  last_update s = t.

End LoopSupport.

Section CommandSupport.
Import Ascii String.
Local Open Scope string_scope.

(** A character of a word: no white space and no NUL. *)
Definition word_char (c : ascii) : bool := negb (isspace c) && negb (Ascii.eqb c NUL).

(** The command structure that holds [text] both as raw string and as
    display text. *)
Definition parsed_command (t : CommandType) (text : string) : PicoCommand :=
  {| cmd_type := t; display_text := text; raw_string := text |}.

End CommandSupport.

Section InputSupport.
Import Ascii String.
Local Open Scope string_scope.

(** The eight inputs of the Pico: the four directions of the joystick, its
    switch and the three keys. *)
Inductive Input := InUp | InDown | InLeft | InRight | InPress | InKey1 | InKey2 | InKey4.

Definition all_inputs : list Input :=
  [InUp; InDown; InLeft; InRight; InPress; InKey1; InKey2; InKey4].

(** The debounced state of an input, its state at the read before and the
    time of its last change. *)
Definition held (b : Input) (s : InputHandler.InputState) : bool :=
  match b with
  | InUp => InputHandler.up s
  | InDown => InputHandler.down s
  | InLeft => InputHandler.left s
  | InRight => InputHandler.right s
  | InPress => InputHandler.press s
  | InKey1 => InputHandler.key1 s
  | InKey2 => InputHandler.key2 s
  | InKey4 => InputHandler.key4 s
  end.

Definition held_before (b : Input) (s : InputHandler.InputState) : bool :=
  match b with
  | InUp => InputHandler.up_prev s
  | InDown => InputHandler.down_prev s
  | InLeft => InputHandler.left_prev s
  | InRight => InputHandler.right_prev s
  | InPress => InputHandler.press_prev s
  | InKey1 => InputHandler.key1_prev s
  | InKey2 => InputHandler.key2_prev s
  | InKey4 => InputHandler.key4_prev s
  end.

Definition changed_at (b : Input) (s : InputHandler.InputState) : Z :=
  match b with
  | InUp => InputHandler.up_time s
  | InDown => InputHandler.down_time s
  | InLeft => InputHandler.left_time s
  | InRight => InputHandler.right_time s
  | InPress => InputHandler.press_time s
  | InKey1 => InputHandler.key1_time s
  | InKey2 => InputHandler.key2_time s
  | InKey4 => InputHandler.key4_time s
  end.

(** [input_just_pressed_*] *)
Definition just_pressed (b : Input) (s : InputHandler.InputState) : bool :=
  match b with
  | InUp => InputHandler.input_just_pressed_up s
  | InDown => InputHandler.input_just_pressed_down s
  | InLeft => InputHandler.input_just_pressed_left s
  | InRight => InputHandler.input_just_pressed_right s
  | InPress => InputHandler.input_just_pressed_press s
  | InKey1 => InputHandler.input_just_pressed_key1 s
  | InKey2 => InputHandler.input_just_pressed_key2 s
  | InKey4 => InputHandler.input_just_pressed_key4 s
  end.

(** The input was held at the read before and is no longer. *)
Definition just_released (b : Input) (s : InputHandler.InputState) : bool :=
  held_before b s && negb (held b s).

(** The flag of the release tracker for an input. *)
Definition was_pressed (b : Input) (t : ButtonReleaseTracker) : bool :=
  match b with
  | InUp => up_was_pressed t
  | InDown => down_was_pressed t
  | InLeft => left_was_pressed t
  | InRight => right_was_pressed t
  | InPress => press_was_pressed t
  | InKey1 => key1_was_pressed t
  | InKey2 => key2_was_pressed t
  | InKey4 => key4_was_pressed t
  end.

Definition when (c : bool) (text : string) : string :=
  if c then text else EmptyString.

(** The line of [input_read] with the raw values of the joystick. *)
Definition debug_line (JOYSTICK_CENTER_MIN JOYSTICK_CENTER_MAX : Z)
    (pins : InputHandler.Pins) : string :=
  "ADC: X=" ++ format_u (to_uint16 (InputHandler.adc_x pins)) ++
  " Y=" ++ format_u (to_uint16 (InputHandler.adc_y pins)) ++
  " (center range: " ++ format_u (to_uint32 JOYSTICK_CENTER_MIN) ++
  "-" ++ format_u (to_uint32 JOYSTICK_CENTER_MAX) ++ ")" ++ String LF EmptyString.

(** The lines of one pass of the main loop, told from the edges of the
    debounced inputs alone: the presses of the keys, their releases, the
    directions of the joystick. *)
Definition lines_of_edges (s : InputHandler.InputState) : string :=
  when (just_pressed InKey1 s)
       (send_button_command 1 "PRESS" ++ send_high_level_command "FLY_MODE") ++
  when (just_pressed InKey2 s)
       (send_button_command 2 "PRESS" ++ send_high_level_command "GYRO_CALIBRATION") ++
  when (just_pressed InKey4 s)
       (send_button_command 4 "PRESS" ++ send_high_level_command "BLUETOOTH") ++
  when (just_pressed InPress s) (send_button_command 5 "PRESS") ++
  when (just_released InKey1 s) (send_button_command 1 "RELEASE") ++
  when (just_released InKey2 s) (send_button_command 2 "RELEASE") ++
  when (just_released InKey4 s) (send_button_command 4 "RELEASE") ++
  when (just_released InPress s) (send_button_command 5 "RELEASE") ++
  when (just_pressed InUp s) (send_joystick_command "UP") ++
  when (just_pressed InDown s) (send_joystick_command "DOWN") ++
  when (just_pressed InLeft s) (send_joystick_command "LEFT") ++
  when (just_pressed InRight s) (send_joystick_command "RIGHT").

(** The decidable form of: after the commands the tracker holds the
    debounced state, and the text written is [lines_of_edges]. *)
Definition commands_follow_edges (s : InputHandler.InputState)
    (r : ButtonReleaseTracker * string) : bool :=
  forallb (fun b => Bool.eqb (was_pressed b (fst r)) (held b s)) all_inputs
  && String.eqb (snd r) (lines_of_edges s).

(** A test on both truth values. *)
Definition on_both (f : bool -> bool) : bool := f true && f false.

End InputSupport.

Section MenuSupport.
Local Open Scope Z_scope.

(** One step down and one step up in a menu of [count] items, from the
    selection [index] (-1: none), with the wrap at both ends. *)
Definition moved_down (count index : Z) : Z :=
  if index =? -1 then 0 else if index + 1 =? count then 0 else index + 1.

Definition moved_up (count index : Z) : Z :=
  if index =? -1 then count - 1 else if index =? 0 then count - 1 else index - 1.

End MenuSupport.

Section LcdSupport.
Local Open Scope Z_scope.

(** The pixels as the display takes them: two data bytes each, the high
    byte first. *)
Definition high_byte_first (pixels : list Z) : list LcdByte :=
  flat_map (fun p => [LcdData (p / 256); LcdData (p mod 256)]) pixels.

(** A sequence of bytes with the two bytes of each of its first [n]
    pairs in the other order. *)
Fixpoint swap_pairs (n : nat) (bytes : list Z) : list Z :=
  match n, bytes with
  | S n', a :: b :: rest => b :: a :: swap_pairs n' rest
  | _, _ => bytes
  end.

(** The pixel [(px, py)] lies in the rectangle at [(x, y)] of [w] by [h]
    pixels. *)
Definition in_rect (x y w h px py : Z) : bool :=
  (x <=? px) && (px <? x + w) && (y <=? py) && (py <? y + h).

(** A character the font has no glyph for. *)
Definition no_glyph (c : Ascii.ascii) : bool :=
  let ch := Z.of_N (Ascii.N_of_ascii c) in (ch <? 32) || (ch >? 90).

End LcdSupport.

Unset Implicit Arguments.

(* ================================================================== *)
(** * The rounding of [SpecFloat], in real numbers *)
(* ================================================================== *)

(** The Standard Library defines the operations of [SpecFloat] and states
    nothing of their values.  This part relates them to real arithmetic,
    for any precision and exponent range: each operation returns its
    exact result rounded to the format ([rounds_to]), the order of the
    floats is the order of their values, and the format is closed under
    the operations. *)

Local Open Scope Z_scope.

(** ** Binary digits *)

Lemma digits2_pos_bounds (p : positive) :
  2 ^ (Zpos (digits2_pos p) - 1) <= Zpos p < 2 ^ Zpos (digits2_pos p).
Proof.
  induction p as [p IH|p IH|]; simpl digits2_pos.
  - rewrite Pos2Z.inj_succ.
    replace (Z.succ (Zpos (digits2_pos p)) - 1) with (Z.succ (Zpos (digits2_pos p) - 1)) by lia.
    rewrite !Z.pow_succ_r by lia. lia.
  - rewrite Pos2Z.inj_succ.
    replace (Z.succ (Zpos (digits2_pos p)) - 1) with (Z.succ (Zpos (digits2_pos p) - 1)) by lia.
    rewrite !Z.pow_succ_r by lia. lia.
  - simpl. lia.
Qed.

Lemma Zdigits2_bounds (m : Z) : 0 < m ->
  2 ^ (Zdigits2 m - 1) <= m < 2 ^ Zdigits2 m.
Proof. destruct m; try lia. intros _. apply digits2_pos_bounds. Qed.

Lemma Zdigits2_nonneg m : 0 <= Zdigits2 m.
Proof. destruct m; simpl; lia. Qed.

Lemma Zdigits2_pos m : 0 < m -> 0 < Zdigits2 m.
Proof. destruct m; simpl; lia. Qed.

Lemma Zdigits2_unique (m k : Z) : 2 ^ (k - 1) <= m < 2 ^ k -> 0 < k -> Zdigits2 m = k.
Proof.
  intros H K. assert (0 < m) by (pose proof (Z.pow_pos_nonneg 2 (k-1)); lia).
  pose proof (Zdigits2_bounds m H0) as B. pose proof (Zdigits2_pos m H0) as P.
  destruct (Z.lt_trichotomy (Zdigits2 m) k) as [L|[E|G]]; [exfalso|exact E|exfalso].
  - assert (2 ^ Zdigits2 m <= 2 ^ (k - 1)) by (apply Z.pow_le_mono_r; lia). lia.
  - assert (2 ^ k <= 2 ^ (Zdigits2 m - 1)) by (apply Z.pow_le_mono_r; lia). lia.
Qed.

Lemma Zdigits2_le_iff (m k : Z) : 0 <= k -> 0 <= m -> (Zdigits2 m <= k <-> m < 2 ^ k).
Proof.
  intros K M. destruct (Z.eq_dec m 0) as [->|N].
  - simpl. pose proof (Z.pow_pos_nonneg 2 k). lia.
  - assert (P : 0 < m) by lia. pose proof (Zdigits2_bounds m P) as B. split; intros H.
    + assert (2 ^ Zdigits2 m <= 2 ^ k) by (apply Z.pow_le_mono_r; lia). lia.
    + destruct (Z.le_gt_cases (Zdigits2 m) k); [assumption|exfalso].
      assert (2 ^ k <= 2 ^ (Zdigits2 m - 1)) by (apply Z.pow_le_mono_r; lia). lia.
Qed.

(** ** Shifting a mantissa to the right *)

Lemma shr_1_m (r : shr_record) : 0 <= shr_m r -> shr_m (shr_1 r) = shr_m r / 2.
Proof.
  destruct r as [m rb sb]. simpl. intros H.
  destruct m as [|[p|p|]|p]; cbn [shr_1 shr_m]; try lia; try reflexivity.
  - apply Z.div_unique with 1; lia.
  - apply Z.div_unique with 0; lia.
Qed.

Lemma iter_pos_shr_1_m (n : positive) : forall r, 0 <= shr_m r ->
  shr_m (SpecFloat.iter_pos shr_1 n r) = shr_m r / 2 ^ Zpos n.
Proof.
  induction n as [n IH|n IH|]; intros r H; simpl SpecFloat.iter_pos.
  - assert (H1 : 0 <= shr_m (shr_1 r)) by (rewrite shr_1_m by assumption; apply Z.div_pos; lia).
    assert (H2 : 0 <= shr_m (SpecFloat.iter_pos shr_1 n (shr_1 r)))
      by (rewrite IH by assumption; apply Z.div_pos; [assumption|apply Z.pow_pos_nonneg; lia]).
    rewrite IH by assumption. rewrite IH by assumption. rewrite shr_1_m by assumption.
    rewrite !Z.div_div by (try apply Z.pow_pos_nonneg; lia).
    f_equal. rewrite (Pos2Z.inj_xI n).
    replace (2 * Zpos n + 1) with (1 + Zpos n + Zpos n) by lia.
    rewrite !Z.pow_add_r by lia. lia.
  - assert (H2 : 0 <= shr_m (SpecFloat.iter_pos shr_1 n r))
      by (rewrite IH by assumption; apply Z.div_pos; [assumption|apply Z.pow_pos_nonneg; lia]).
    rewrite IH by assumption. rewrite IH by assumption.
    rewrite !Z.div_div by (try apply Z.pow_pos_nonneg; lia).
    f_equal. rewrite (Pos2Z.inj_xO n).
    replace (2 * Zpos n) with (Zpos n + Zpos n) by lia.
    rewrite !Z.pow_add_r by lia. lia.
  - rewrite shr_1_m by assumption. reflexivity.
Qed.

(** Shifting out zero bits of an exactly known mantissa keeps it exact. *)
Lemma shr_1_exact (r : shr_record) :
  0 <= shr_m r -> shr_exact r -> shr_m r mod 2 = 0 -> shr_exact (shr_1 r).
Proof.
  destruct r as [m rb sb]. unfold shr_exact. simpl. intros H [-> ->] M.
  destruct m as [|[p|p|]|p]; simpl; auto; try lia.
  - exfalso. rewrite Pos2Z.inj_xI in M.
    replace (2 * Z.pos p + 1) with (1 + Z.pos p * 2) in M by lia.
    rewrite Z.mod_add in M by lia. discriminate.
  - exfalso. discriminate.
Qed.

Lemma iter_pos_shr_1_exact (n : positive) : forall r, 0 <= shr_m r ->
  shr_exact r -> shr_m r mod 2 ^ Zpos n = 0 ->
  shr_exact (SpecFloat.iter_pos shr_1 n r).
Proof.
  assert (DIV : forall m a b, 0 <= a -> 0 <= b -> m mod 2 ^ (a + b) = 0 ->
                  m mod 2 ^ a = 0 /\ (m / 2 ^ a) mod 2 ^ b = 0).
  { intros m a b A B M. rewrite Z.pow_add_r in M by lia.
    assert (PA : 0 < 2 ^ a) by (apply Z.pow_pos_nonneg; lia).
    assert (PB : 0 < 2 ^ b) by (apply Z.pow_pos_nonneg; lia).
    apply Z.mod_divide in M; [|lia]. destruct M as [c M]. subst m.
    split.
    - apply Z.mod_divide; [lia|]. exists (c * 2 ^ b). lia.
    - replace (c * (2 ^ a * 2 ^ b)) with (c * 2 ^ b * 2 ^ a) by lia.
      rewrite Z.div_mul by lia. apply Z.mod_mul. lia. }
  induction n as [n IH|n IH|]; intros r H X M; simpl SpecFloat.iter_pos.
  - rewrite (Pos2Z.inj_xI n) in M.
    replace (2 * Zpos n + 1) with (1 + (Zpos n + Zpos n)) in M by lia.
    apply DIV in M; [|lia|lia]. destruct M as [M1 M2].
    apply DIV in M2; [|lia|lia]. destruct M2 as [M2 M3].
    change (2 ^ 1) with 2 in *.
    assert (H1 : 0 <= shr_m (shr_1 r)) by (rewrite shr_1_m by assumption; apply Z.div_pos; lia).
    assert (H2 : 0 <= shr_m (SpecFloat.iter_pos shr_1 n (shr_1 r)))
      by (rewrite iter_pos_shr_1_m by assumption; apply Z.div_pos; [assumption|apply Z.pow_pos_nonneg; lia]).
    apply IH; [assumption| |].
    + apply IH; [assumption| |].
      * apply shr_1_exact; assumption.
      * rewrite shr_1_m by assumption. assumption.
    + rewrite iter_pos_shr_1_m by assumption. rewrite shr_1_m by assumption. assumption.
  - rewrite (Pos2Z.inj_xO n) in M.
    replace (2 * Zpos n) with (Zpos n + Zpos n) in M by lia.
    apply DIV in M; [|lia|lia]. destruct M as [M1 M2].
    assert (H2 : 0 <= shr_m (SpecFloat.iter_pos shr_1 n r))
      by (rewrite iter_pos_shr_1_m by assumption; apply Z.div_pos; [assumption|apply Z.pow_pos_nonneg; lia]).
    apply IH; [assumption| |].
    + apply IH; assumption.
    + rewrite iter_pos_shr_1_m by assumption. assumption.
  - apply shr_1_exact; assumption.
Qed.

Lemma shr_exact_loc r : shr_exact r -> loc_of_shr_record r = loc_Exact.
Proof. destruct r as [m rb sb]. intros [H1 H2]. simpl in *. subst. reflexivity. Qed.

Lemma shr_record_of_loc_m m l : shr_m (shr_record_of_loc m l) = m.
Proof. destruct l as [|[]]; reflexivity. Qed.

Lemma loc_of_shr_record_of_loc m l : loc_of_shr_record (shr_record_of_loc m l) = l.
Proof. destruct l as [|[]]; reflexivity. Qed.

Lemma round_nearest_even_cases m l :
  round_nearest_even m l = m \/ round_nearest_even m l = m + 1.
Proof. destruct l as [|[]]; simpl; auto. destruct (Z.even m); auto. Qed.

Lemma round_nearest_even_exact m : round_nearest_even m loc_Exact = m.
Proof. reflexivity. Qed.

Local Open Scope R_scope.

(** ** Powers of two *)

Lemma bpow_gt_0 e : 0 < bpow e.
Proof. apply powerRZ_lt. lra. Qed.

Lemma bpow_add a b : bpow (a + b) = bpow a * bpow b.
Proof. apply powerRZ_add. lra. Qed.

Lemma bpow_IZR e : (0 <= e)%Z -> IZR (2 ^ e) = bpow e.
Proof.
  intros H. unfold bpow. destruct e as [|p|p]; try lia.
  - reflexivity.
  - simpl powerRZ. rewrite pow_IZR, positive_nat_Z. reflexivity.
Qed.

Lemma bpow_le a b : (a <= b)%Z -> bpow a <= bpow b.
Proof.
  intros H. replace b with (a + (b - a))%Z by lia. rewrite bpow_add.
  rewrite <- (bpow_IZR (b - a)) by lia.
  assert (1 <= IZR (2 ^ (b - a))).
  { apply IZR_le. pose proof (Z.pow_pos_nonneg 2 (b - a)). lia. }
  pose proof (bpow_gt_0 a). nra.
Qed.

Lemma bpow_lt a b : (a < b)%Z -> bpow a < bpow b.
Proof.
  intros H. replace b with (a + (b - a))%Z by lia. rewrite bpow_add.
  rewrite <- (bpow_IZR (b - a)) by lia.
  assert (2 <= IZR (2 ^ (b - a))).
  { apply IZR_le. replace (b - a)%Z with (1 + (b - a - 1))%Z by lia.
    rewrite Z.pow_add_r by lia. pose proof (Z.pow_pos_nonneg 2 (b - a - 1)). lia. }
  pose proof (bpow_gt_0 a). nra.
Qed.

(** [IZR (k * 2 ^ n) * bpow e = IZR k * bpow (e + n)] *)
Lemma bpow_shift k n e : (0 <= n)%Z -> IZR (k * 2 ^ n) * bpow e = IZR k * bpow (e + n).
Proof.
  intros H. rewrite mult_IZR, bpow_IZR by assumption.
  rewrite (Z.add_comm e n), bpow_add. ring.
Qed.

Lemma F2R_finite s m e :
  F2R (S754_finite s m e) = (if s then -1 else 1) * (IZR (Zpos m) * bpow e).
Proof. unfold F2R, bpow. destruct s; ring. Qed.

Lemma F2R_abs s m e : Rabs (F2R (S754_finite s m e)) = IZR (Zpos m) * bpow e.
Proof.
  rewrite F2R_finite.
  assert (0 < IZR (Zpos m) * bpow e).
  { apply Rmult_lt_0_compat; [apply IZR_lt; lia|apply bpow_gt_0]. }
  destruct s.
  - rewrite Rabs_left; lra.
  - rewrite Rabs_right; lra.
Qed.

Lemma Pos_iter_xO (m d : positive) : Zpos (Pos.iter xO m d) = (Zpos m * 2 ^ Zpos d)%Z.
Proof.
  induction d as [|d IH] using Pos.peano_ind.
  - simpl. lia.
  - rewrite Pos.iter_succ. rewrite Pos2Z.inj_xO, IH.
    rewrite Pos2Z.inj_succ, Z.pow_succ_r by lia. lia.
Qed.

Lemma Zdigits2_shift (m k : Z) : (0 < m)%Z -> (0 <= k)%Z ->
  Zdigits2 (m * 2 ^ k) = (Zdigits2 m + k)%Z.
Proof.
  intros M K. pose proof (Zdigits2_bounds m M) as B. pose proof (Zdigits2_pos m M) as P.
  assert (P2 : (0 < 2 ^ k)%Z) by (apply Z.pow_pos_nonneg; lia).
  apply Zdigits2_unique; [|lia]. split.
  - replace (Zdigits2 m + k - 1)%Z with (Zdigits2 m - 1 + k)%Z by lia.
    rewrite Z.pow_add_r by lia. apply Z.mul_le_mono_nonneg_r; lia.
  - rewrite Z.pow_add_r by lia. apply Z.mul_lt_mono_pos_r; lia.
Qed.

Lemma Zdigits2_mul_ge (a b : Z) : (0 < a)%Z -> (0 < b)%Z ->
  (Zdigits2 a + Zdigits2 b - 1 <= Zdigits2 (a * b))%Z.
Proof.
  intros A B. pose proof (Zdigits2_bounds a A) as Ba. pose proof (Zdigits2_bounds b B) as Bb.
  pose proof (Zdigits2_pos a A). pose proof (Zdigits2_pos b B).
  assert (AB : (0 < a * b)%Z) by lia.
  pose proof (Zdigits2_bounds (a * b) AB) as Bab.
  destruct (Z_lt_le_dec (Zdigits2 (a * b)) (Zdigits2 a + Zdigits2 b - 1)) as [L|L]; [exfalso|lia].
  assert (2 ^ Zdigits2 (a * b) <= 2 ^ (Zdigits2 a - 1 + (Zdigits2 b - 1)))%Z
    by (apply Z.pow_le_mono_r; lia).
  rewrite Z.pow_add_r in H1 by lia.
  assert (2 ^ (Zdigits2 a - 1) * 2 ^ (Zdigits2 b - 1) <= a * b)%Z by (apply Z.mul_le_mono_nonneg; lia).
  lia.
Qed.

(** ** A format: [prec] bits of precision, exponents below [emax] *)

Section Format.
Variable prec emax : Z.
Hypothesis prec_gt_1 : (1 < prec)%Z.
Hypothesis prec_lt_emax : (prec < emax)%Z.
Local Set Default Proof Using "prec_gt_1 prec_lt_emax".

Local Abbreviation emin := (SpecFloat.emin prec emax).
Local Abbreviation fexp := (SpecFloat.fexp prec emax).
Local Abbreviation valid := (valid prec emax).
Local Abbreviation rounds_to := (rounds_to prec emax).

Lemma prec_pos : (0 < prec)%Z.
Proof. lia. Qed.

Local Open Scope Z_scope.

Lemma fexp_ge_emin e : emin <= fexp e.
Proof. unfold SpecFloat.fexp. lia. Qed.

Lemma fexp_mono a b : a <= b -> fexp a <= fexp b.
Proof. unfold SpecFloat.fexp. lia. Qed.

(** What [shr_fexp] computes on a non-negative mantissa. *)
Lemma shr_fexp_spec (m e : Z) (l : location) : 0 <= m ->
  if 0 <? fexp (Zdigits2 m + e) - e then
    shr_m (fst (shr_fexp prec emax m e l)) = m / 2 ^ (fexp (Zdigits2 m + e) - e) /\
    snd (shr_fexp prec emax m e l) = fexp (Zdigits2 m + e) /\
    (l = loc_Exact -> m mod 2 ^ (fexp (Zdigits2 m + e) - e) = 0 ->
     loc_of_shr_record (fst (shr_fexp prec emax m e l)) = loc_Exact)
  else shr_fexp prec emax m e l = (shr_record_of_loc m l, e).
Proof.
  intros H. unfold shr_fexp. unfold shr.
  destruct (fexp (Zdigits2 m + e) - e) as [|p|p] eqn:N; simpl.
  - reflexivity.
  - split; [|split; [lia|]].
    + rewrite iter_pos_shr_1_m by (rewrite shr_record_of_loc_m; assumption).
      rewrite shr_record_of_loc_m. reflexivity.
    + intros -> M. apply shr_exact_loc. apply iter_pos_shr_1_exact; simpl; auto.
      split; reflexivity.
  - reflexivity.
Qed.

Lemma emin_lt_emax_prec : emin < emax - prec.
Proof. unfold SpecFloat.emin. lia. Qed.

(** The truncated mantissa has at most [prec] digits, and exactly [prec]
    above the subnormal range. *)
Lemma truncated_mantissa_bounds (mx ex : Z) : 0 <= mx ->
  let E := fexp (Zdigits2 mx + ex) in
  ex <= E ->
  let m1 := mx / 2 ^ (E - ex) in
  0 <= m1 < 2 ^ prec /\ (0 < mx -> emin < E -> 2 ^ (prec - 1) <= m1).
Proof.
  intros H E HE m1.
  assert (P2 : 0 < 2 ^ (E - ex)) by (apply Z.pow_pos_nonneg; lia).
  assert (Pp : 0 < 2 ^ prec) by (apply Z.pow_pos_nonneg; lia).
  destruct (Z.eq_dec mx 0) as [->|N].
  { subst m1. rewrite Z.div_0_l by lia. split; [lia|lia]. }
  assert (P : 0 < mx) by lia.
  pose proof (Zdigits2_bounds mx P) as B. set (d := Zdigits2 mx) in *.
  assert (D : 0 < d) by (apply Zdigits2_pos; assumption).
  assert (EL : d + ex - prec <= E) by (subst E; unfold SpecFloat.fexp; lia).
  split; [split|].
  - apply Z.div_pos; lia.
  - apply Z.div_lt_upper_bound; [lia|].
    rewrite <- Z.pow_add_r by lia.
    apply Z.lt_le_trans with (1 := proj2 B). apply Z.pow_le_mono_r; lia.
  - intros _ G. assert (EE : E = d + ex - prec) by (subst E; unfold SpecFloat.fexp in *; lia).
    apply Z.div_le_lower_bound; [lia|].
    rewrite <- Z.pow_add_r by lia.
    apply Z.le_trans with (2 := proj1 B). apply Z.pow_le_mono_r; lia.
Qed.

Lemma binary_round_aux_spec (sx : bool) (mx ex : Z) (lx : location) :
  0 <= mx -> ex <= fexp (Zdigits2 mx + ex) ->
  let E := fexp (Zdigits2 mx + ex) in
  let m1 := mx / 2 ^ (E - ex) in
  exists k, (k = m1 \/ k = m1 + 1) /\
   (lx = loc_Exact -> mx mod 2 ^ (E - ex) = 0 -> k = m1) /\
   match binary_round_aux prec emax sx mx ex lx with
   | S754_zero s => s = sx /\ k = 0
   | S754_finite s m e =>
       s = sx /\ SpecFloat.bounded prec emax m e = true /\ E <= e /\ Zpos m * 2 ^ (e - E) = k
   | S754_infinity s => s = sx /\ 0 <= E /\ 2 ^ emax <= k * 2 ^ E
   | S754_nan => False
   end.
Proof.
  intros H HE E m1.
  destruct (truncated_mantissa_bounds mx ex H HE) as [M1 M1'].
  fold E in M1, M1'. fold m1 in M1, M1'.
  unfold binary_round_aux.
  pose proof (shr_fexp_spec mx ex lx H) as S1. fold E in S1.
  destruct (shr_fexp prec emax mx ex lx) as [mrs' e'].
  assert (S1' : shr_m mrs' = m1 /\ e' = E /\
                (lx = loc_Exact -> mx mod 2 ^ (E - ex) = 0 ->
                 loc_of_shr_record mrs' = loc_Exact)).
  { destruct (Z.ltb_spec 0 (E - ex)) as [L|L].
    - cbn [fst snd] in S1. destruct S1 as (S1 & -> & S1x). repeat split; assumption.
    - injection S1 as -> ->. assert (E = ex) by lia.
      rewrite shr_record_of_loc_m, loc_of_shr_record_of_loc. subst m1.
      replace (E - ex) with 0 by lia. rewrite Z.div_1_r. repeat split; [lia|].
      intros -> _. reflexivity. }
  clear S1. destruct S1' as (Sm & -> & Sl).
  set (k := round_nearest_even (shr_m mrs') (loc_of_shr_record mrs')).
  assert (K : k = m1 \/ k = m1 + 1).
  { subst k. rewrite <- Sm. apply round_nearest_even_cases. }
  assert (KX : lx = loc_Exact -> mx mod 2 ^ (E - ex) = 0 -> k = m1).
  { intros X1 X2. subst k. rewrite (Sl X1 X2). simpl. exact Sm. }
  exists k. split; [exact K|]. split; [exact KX|].
  assert (K0 : 0 <= k) by lia.
  pose proof (shr_fexp_spec k E loc_Exact K0) as S2.
  destruct (shr_fexp prec emax k E loc_Exact) as [mrs'' e''].
  assert (Pp : 0 < 2 ^ prec) by (apply Z.pow_pos_nonneg; lia).
  assert (EM : emin <= E) by (apply fexp_ge_emin).
  pose proof emin_lt_emax_prec as EMX.
  destruct (Z.eq_dec k (2 ^ prec)) as [KP|KP].
  - (* carry into a new binade *)
    assert (DK : Zdigits2 k = prec + 1).
    { apply Zdigits2_unique; [|lia]. rewrite KP.
      replace (prec + 1 - 1) with prec by lia. split; [lia|].
      apply Z.pow_lt_mono_r; lia. }
    rewrite DK in S2.
    assert (FE : fexp (prec + 1 + E) = E + 1) by (unfold SpecFloat.fexp; lia).
    rewrite FE in S2. replace (E + 1 - E) with 1 in S2 by lia.
    change (0 <? 1) with true in S2. cbv iota in S2. cbn [fst snd] in S2.
    destruct S2 as (S2 & -> & _). rewrite S2.
    assert (KH : k / 2 ^ 1 = 2 ^ (prec - 1)).
    { rewrite KP. replace prec with (prec - 1 + 1) at 1 by lia.
      rewrite Z.pow_add_r by lia. apply Z.div_mul. lia. }
    rewrite KH.
    assert (PP : 0 < 2 ^ (prec - 1)) by (apply Z.pow_pos_nonneg; lia).
    destruct (2 ^ (prec - 1)) as [|p|p] eqn:EP; try lia.
    destruct (Z.leb_spec (E + 1) (emax - prec)) as [LE|LE].
    + split; [reflexivity|]. split; [|split; [lia|]].
      * unfold SpecFloat.bounded, canonical_mantissa. apply andb_true_iff. split; [|apply Z.leb_le; lia].
        apply Z.eqb_eq.
        change (Zpos (digits2_pos p)) with (Zdigits2 (Zpos p)).
        rewrite <- EP. rewrite (Zdigits2_unique (2 ^ (prec - 1)) prec); [unfold SpecFloat.fexp; lia| |lia].
        split; [lia|]. apply Z.pow_lt_mono_r; lia.
      * rewrite <- EP. replace (E + 1 - E) with 1 by lia. rewrite KP.
        replace prec with (prec - 1 + 1) at 2 by lia. rewrite Z.pow_add_r by lia. lia.
    + split; [reflexivity|]. split; [lia|]. rewrite KP. rewrite <- Z.pow_add_r by lia.
      apply Z.pow_le_mono_r; lia.
  - assert (KL : k < 2 ^ prec) by lia.
    assert (DK : Zdigits2 k <= prec) by (apply Zdigits2_le_iff; lia).
    assert (FE : fexp (Zdigits2 k + E) <= E) by (unfold SpecFloat.fexp; lia).
    destruct (Z.ltb_spec 0 (fexp (Zdigits2 k + E) - E)) as [L|L]; [lia|].
    injection S2 as -> ->. cbn [shr_m shr_record_of_loc].
    destruct k as [|p|p] eqn:EK; try lia.
    + split; reflexivity.
    + destruct (Z.leb_spec E (emax - prec)) as [LE|LE].
      * split; [reflexivity|]. split; [|split; [lia|]].
        -- unfold SpecFloat.bounded, canonical_mantissa. apply andb_true_iff. split; [|apply Z.leb_le; lia].
           apply Z.eqb_eq. change (Zpos (digits2_pos p)) with (Zdigits2 (Zpos p)).
           destruct (Z.eq_dec E emin) as [EE|EE].
           ++ unfold SpecFloat.fexp in *. lia.
           ++ assert (G : emin < E) by lia.
              assert (MP : 0 < mx).
              { destruct (Z.eq_dec mx 0) as [Z0|Z0]; [|lia]. exfalso.
                subst E. rewrite Z0 in G, HE. simpl in G, HE.
                unfold SpecFloat.fexp in G, HE. lia. }
              specialize (M1' MP G).
              rewrite (Zdigits2_unique (Zpos p) prec); [unfold SpecFloat.fexp; lia| |lia].
              split; lia.
        -- replace (E - E) with 0 by lia. lia.
      * split; [reflexivity|]. split; [lia|].
        assert (G : emin < E) by lia.
        assert (MP : 0 < mx).
        { destruct (Z.eq_dec mx 0) as [Z0|Z0]; [|lia]. exfalso.
          subst E. rewrite Z0 in G, HE. simpl in G, HE.
          unfold SpecFloat.fexp in G, HE. lia. }
        specialize (M1' MP G).
        apply Z.le_trans with (2 ^ (prec - 1) * 2 ^ E).
        -- rewrite <- Z.pow_add_r by lia. apply Z.pow_le_mono_r; lia.
        -- apply Z.mul_le_mono_nonneg_r; [apply Z.pow_nonneg; lia|lia].
Qed.

Local Open Scope R_scope.

Lemma bounded_facts m e : SpecFloat.bounded prec emax m e = true ->
  (emin <= e <= emax - prec)%Z /\ (Zpos m < 2 ^ prec)%Z /\
  ((emin < e)%Z -> (2 ^ (prec - 1) <= Zpos m)%Z) /\
  fexp (Zdigits2 (Zpos m) + e) = e.
Proof.
  unfold SpecFloat.bounded, canonical_mantissa. intros H.
  apply andb_true_iff in H. destruct H as [C B].
  apply Z.eqb_eq in C. apply Z.leb_le in B.
  change (Zpos (digits2_pos m)) with (Zdigits2 (Zpos m)) in C.
  pose proof (Zdigits2_bounds (Zpos m) ltac:(lia)) as D.
  set (d := Zdigits2 (Zpos m)) in *.
  assert (0 < d)%Z by (apply Zdigits2_pos; lia).
  unfold SpecFloat.fexp in C.
  repeat split; try lia.
  - assert (d <= prec)%Z by lia.
    apply Z.lt_le_trans with (1 := proj2 D). apply Z.pow_le_mono_r; lia.
  - intros G. assert (d = prec) by lia. subst d. rewrite <- H0. lia.
  - exact C.
Qed.

(** Between two neighbours of the grid of a binade there is no float. *)
Lemma float_grid (mc : positive) (ec lo E : Z) :
  SpecFloat.bounded prec emax mc ec = true ->
  (emin <= E)%Z -> (0 <= lo)%Z -> ((emin < E)%Z -> (2 ^ (prec - 1) <= lo)%Z) ->
  (IZR lo * bpow E < IZR (Zpos mc) * bpow ec ->
   IZR (lo + 1) * bpow E <= IZR (Zpos mc) * bpow ec) /\
  (IZR (Zpos mc) * bpow ec < IZR (lo + 1) * bpow E ->
   IZR (Zpos mc) * bpow ec <= IZR lo * bpow E).
Proof.
  intros B HE HL HN. destruct (bounded_facts _ _ B) as (Be & Bm & Bn & _).
  pose proof (bpow_gt_0 E) as PE.
  destruct (Z_le_gt_dec E ec) as [L|G].
  - replace ec with (E + (ec - E))%Z by lia.
    rewrite <- bpow_shift by lia. set (M := (Zpos mc * 2 ^ (ec - E))%Z).
    split; intros H.
    + apply Rmult_lt_reg_r in H; [|assumption]. apply lt_IZR in H.
      apply Rmult_le_compat_r; [lra|]. apply IZR_le. lia.
    + apply Rmult_lt_reg_r in H; [|assumption]. apply lt_IZR in H.
      apply Rmult_le_compat_r; [lra|]. apply IZR_le. lia.
  - assert (N : (2 ^ (prec - 1) <= lo)%Z) by (apply HN; lia).
    assert (V : IZR (Zpos mc) * bpow ec < IZR lo * bpow E).
    { apply Rlt_le_trans with (bpow (prec + ec)).
      - rewrite bpow_add. rewrite <- (bpow_IZR (prec)) by lia.
        apply Rmult_lt_compat_r; [apply bpow_gt_0|]. apply IZR_lt. assumption.
      - apply Rle_trans with (bpow (prec - 1 + E)); [apply bpow_le; lia|].
        rewrite bpow_add. rewrite <- (bpow_IZR (prec - 1)) by lia.
        apply Rmult_le_compat_r; [lra|]. apply IZR_le. assumption. }
    split; intros H; lra.
Qed.

(** Comparison of the magnitudes of two finite floats. *)

Lemma bounded_lt_exp m1 e1 m2 e2 :
  SpecFloat.bounded prec emax m1 e1 = true -> SpecFloat.bounded prec emax m2 e2 = true ->
  (e1 < e2)%Z -> IZR (Zpos m1) * bpow e1 < IZR (Zpos m2) * bpow e2.
Proof.
  intros B1 B2 L.
  destruct (bounded_facts _ _ B1) as (Be1 & Bm1 & _).
  destruct (bounded_facts _ _ B2) as (Be2 & _ & Bn2 & _).
  assert (N : (2 ^ (prec - 1) <= Zpos m2)%Z) by (apply Bn2; lia).
  apply Rlt_le_trans with (bpow (prec + e1)).
  - rewrite bpow_add. rewrite <- (bpow_IZR (prec)) by lia.
    apply Rmult_lt_compat_r; [apply bpow_gt_0|]. apply IZR_lt. assumption.
  - apply Rle_trans with (bpow (prec - 1 + e2)); [apply bpow_le; lia|].
    rewrite bpow_add. rewrite <- (bpow_IZR (prec - 1)) by lia.
    apply Rmult_le_compat_r; [pose proof (bpow_gt_0 e2); lra|]. apply IZR_le. assumption.
Qed.

Lemma cmp_mag_spec m1 e1 m2 e2 :
  SpecFloat.bounded prec emax m1 e1 = true -> SpecFloat.bounded prec emax m2 e2 = true ->
  match cmp_mag m1 e1 m2 e2 with
  | Lt => IZR (Zpos m1) * bpow e1 < IZR (Zpos m2) * bpow e2
  | Eq => IZR (Zpos m1) * bpow e1 = IZR (Zpos m2) * bpow e2
  | Gt => IZR (Zpos m2) * bpow e2 < IZR (Zpos m1) * bpow e1
  end.
Proof.
  intros B1 B2. unfold cmp_mag.
  destruct (Z.compare_spec e1 e2) as [E|L|G].
  - subst e2. change (Pos.compare_cont Eq m1 m2) with (Pos.compare m1 m2).
    pose proof (bpow_gt_0 e1).
    destruct (Pos.compare_spec m1 m2) as [E|L|G].
    + subst. reflexivity.
    + apply Rmult_lt_compat_r; [assumption|]. apply IZR_lt. lia.
    + apply Rmult_lt_compat_r; [assumption|]. apply IZR_lt. lia.
  - apply bounded_lt_exp; assumption.
  - apply bounded_lt_exp; assumption.
Qed.

Lemma F2R_pos m e : 0 < F2R (S754_finite false m e).
Proof.
  rewrite F2R_finite. pose proof (bpow_gt_0 e).
  assert (0 < IZR (Zpos m)) by (apply IZR_lt; lia). nra.
Qed.

Lemma F2R_neg m e : F2R (S754_finite true m e) < 0.
Proof.
  rewrite F2R_finite. pose proof (bpow_gt_0 e).
  assert (0 < IZR (Zpos m)) by (apply IZR_lt; lia). nra.
Qed.

(** [SFcompare] on finite valid floats is the comparison of their values. *)
Lemma SFcompare_finite x y :
  valid x -> valid y -> IEEE.is_finite x = true -> IEEE.is_finite y = true ->
  match SFcompare x y with
  | Some Lt => F2R x < F2R y
  | Some Eq => F2R x = F2R y
  | Some Gt => F2R y < F2R x
  | None => False
  end.
Proof.
  unfold valid. intros Vx Vy Fx Fy.
  destruct x as [sx|sx| |sx mx ex]; try discriminate;
  destruct y as [sy|sy| |sy my ey]; try discriminate; simpl SFcompare.
  - reflexivity.
  - destruct sy; [apply F2R_neg|apply F2R_pos].
  - destruct sx; [apply F2R_neg|apply F2R_pos].
  - simpl in Vx, Vy. pose proof (cmp_mag_spec _ _ _ _ Vx Vy) as C. unfold cmp_mag in C.
    pose proof (F2R_pos mx ex). pose proof (F2R_pos my ey).
    pose proof (F2R_neg mx ex). pose proof (F2R_neg my ey).
    destruct sx, sy; try lra.
    + rewrite !F2R_finite.
      destruct (ex ?= ey)%Z; [destruct (Pos.compare_cont Eq mx my)| |]; simpl; lra.
    + rewrite !F2R_finite.
      destruct (ex ?= ey)%Z; [destruct (Pos.compare_cont Eq mx my)| |]; simpl; lra.
Qed.

Lemma SFltb_finite x y :
  valid x -> valid y -> IEEE.is_finite x = true -> IEEE.is_finite y = true ->
  (SFltb x y = true <-> F2R x < F2R y).
Proof.
  intros Vx Vy Fx Fy. pose proof (SFcompare_finite x y Vx Vy Fx Fy) as C.
  unfold SFltb. destruct (SFcompare x y) as [[]|]; split; intros H; try lra; try discriminate; try reflexivity; contradiction.
Qed.

Lemma SFleb_finite x y :
  valid x -> valid y -> IEEE.is_finite x = true -> IEEE.is_finite y = true ->
  (SFleb x y = true <-> F2R x <= F2R y).
Proof.
  intros Vx Vy Fx Fy. pose proof (SFcompare_finite x y Vx Vy Fx Fy) as C.
  unfold SFleb. destruct (SFcompare x y) as [[]|]; split; intros H; try lra; try discriminate; try reflexivity; contradiction.
Qed.

Lemma SFeqb_finite x y :
  valid x -> valid y -> IEEE.is_finite x = true -> IEEE.is_finite y = true ->
  (SFeqb x y = true <-> F2R x = F2R y).
Proof.
  intros Vx Vy Fx Fy. pose proof (SFcompare_finite x y Vx Vy Fx Fy) as C.
  unfold SFeqb. destruct (SFcompare x y) as [[]|]; split; intros H; try lra; try discriminate; try reflexivity; contradiction.
Qed.

(** ** Opposite *)

Lemma SFcompare_opp x y : SFcompare (SFopp x) (SFopp y) = SFcompare y x.
Proof.
  destruct x as [sx|sx| |sx mx ex], y as [sy|sy| |sy my ey]; simpl; try reflexivity;
    try (destruct sx; reflexivity); try (destruct sy; reflexivity);
    try (destruct sx, sy; reflexivity).
  pose proof (Pos.compare_cont_antisym my mx Eq) as PA. simpl in PA.
  destruct sx, sy; simpl; try reflexivity;
    destruct (Z.compare_spec ex ey), (Z.compare_spec ey ex); try lia; try reflexivity.
  - rewrite <- PA. reflexivity.
  - rewrite <- PA. destruct (Pos.compare_cont Eq my mx); reflexivity.
Qed.

Lemma SFleb_opp x y : SFleb (SFopp x) (SFopp y) = SFleb y x.
Proof. unfold SFleb. rewrite SFcompare_opp. reflexivity. Qed.

Lemma SFopp_involutive x : SFopp (SFopp x) = x.
Proof. destruct x as [s|s| |s m e]; simpl; try rewrite negb_involutive; reflexivity. Qed.

Lemma F2R_opp x : F2R (SFopp x) = - F2R x.
Proof.
  destruct x as [s|s| |s m e]; simpl; try lra. destruct s; simpl; lra.
Qed.

Lemma is_finite_opp x : IEEE.is_finite (SFopp x) = IEEE.is_finite x.
Proof. destruct x; reflexivity. Qed.

Lemma is_nan_opp x : IEEE.is_nan (SFopp x) = IEEE.is_nan x.
Proof. destruct x; reflexivity. Qed.

Lemma valid_opp x : valid (SFopp x) <-> valid x.
Proof. unfold valid. destruct x; simpl; tauto. Qed.

Lemma binary_round_aux_opp s m e l :
  binary_round_aux prec emax (negb s) m e l = SFopp (binary_round_aux prec emax s m e l).
Proof.
  unfold binary_round_aux.
  destruct (shr_fexp prec emax m e l) as [mrs' e'].
  destruct (shr_fexp prec emax _ e' loc_Exact) as [mrs'' e''].
  destruct (shr_m mrs''); try reflexivity.
  destruct (e'' <=? emax - prec)%Z; reflexivity.
Qed.

(** ** Faithful rounding *)

(** [rounds_to x r]: the float [r] is the real [x] rounded to the format,
    downwards or upwards: no float lies strictly between them. *)

Lemma valid_finite_lt_bpow_emax c :
  valid c -> IEEE.is_finite c = true -> Rabs (F2R c) < bpow emax.
Proof.
  unfold valid. intros V F. destruct c as [s|s| |s m e]; try discriminate.
  - simpl. rewrite Rabs_R0. apply bpow_gt_0.
  - rewrite F2R_abs. simpl in V. destruct (bounded_facts _ _ V) as (Be & Bm & _).
    apply Rlt_le_trans with (bpow (prec + e)).
    + rewrite bpow_add. rewrite <- (bpow_IZR prec) by lia.
      apply Rmult_lt_compat_r; [apply bpow_gt_0|]. apply IZR_lt. assumption.
    + apply bpow_le. lia.
Qed.

Lemma round_aux_pos (mx ex : Z) (lx : location) (a : R) :
  (0 <= mx)%Z -> (ex <= fexp (Zdigits2 mx + ex))%Z ->
  IZR mx * bpow ex <= a < IZR (mx + 1) * bpow ex ->
  (lx = loc_Exact -> a = IZR mx * bpow ex) ->
  (lx <> loc_Exact -> IZR mx * bpow ex < a) ->
  rounds_to a (binary_round_aux prec emax false mx ex lx).
Proof.
  intros H HE A AX AI.
  destruct (binary_round_aux_spec false mx ex lx H HE)
    as (k & K & KX & R).
  destruct (truncated_mantissa_bounds mx ex H HE) as (M1 & M1').
  set (E := fexp (Zdigits2 mx + ex)) in *.
  set (lo := (mx / 2 ^ (E - ex))%Z) in *.
  assert (EM : (emin <= E)%Z) by (apply fexp_ge_emin).
  assert (P2 : (0 < 2 ^ (E - ex))%Z) by (apply Z.pow_pos_nonneg; lia).
  pose proof (bpow_gt_0 E) as PE. pose proof (bpow_gt_0 ex) as Pex.
  (* the grid points around [a] *)
  assert (LO : IZR lo * bpow E <= IZR mx * bpow ex).
  { replace E with (ex + (E - ex))%Z at 1 by lia. rewrite <- bpow_shift by lia.
    apply Rmult_le_compat_r; [lra|]. apply IZR_le.
    rewrite Z.mul_comm. apply Z.mul_div_le. lia. }
  assert (HI : IZR (mx + 1) * bpow ex <= IZR (lo + 1) * bpow E).
  { replace E with (ex + (E - ex))%Z by lia. rewrite <- bpow_shift by lia.
    apply Rmult_le_compat_r; [lra|]. apply IZR_le.
    pose proof (Z.mul_succ_div_gt mx (2 ^ (E - ex)) P2). lia. }
  assert (KK : k = lo \/ (k = lo + 1)%Z /\ IZR lo * bpow E < a).
  { destruct K as [K|K]; [left; exact K|].
    destruct (Rle_lt_dec a (IZR lo * bpow E)) as [L|L]; [|right; split; assumption].
    left. apply KX.
    - destruct lx as [|c]; [reflexivity|]. exfalso.
      assert (IZR mx * bpow ex < a) by (apply AI; discriminate). lra.
    - assert (Q : IZR mx * bpow ex = IZR lo * bpow E) by lra.
      replace E with (ex + (E - ex))%Z in Q by lia. rewrite <- bpow_shift in Q by lia.
      apply Rmult_eq_reg_r in Q; [|lra]. apply eq_IZR in Q.
      rewrite Q. apply Z.mod_mul. lia. }
  assert (MP : (emin < E)%Z -> (0 < mx)%Z).
  { intros G. destruct (Z.eq_dec mx 0) as [Z0|Z0]; [|lia]. exfalso.
    subst E. rewrite Z0 in G, HE. simpl in G, HE. unfold SpecFloat.fexp in G, HE. lia. }
  assert (GR : forall mc ec, SpecFloat.bounded prec emax mc ec = true ->
            (IZR lo * bpow E < IZR (Zpos mc) * bpow ec ->
             IZR (lo + 1) * bpow E <= IZR (Zpos mc) * bpow ec) /\
            (IZR (Zpos mc) * bpow ec < IZR (lo + 1) * bpow E ->
             IZR (Zpos mc) * bpow ec <= IZR lo * bpow E)).
  { intros mc ec B. apply float_grid; try assumption; lia. }
  (* the value of the result *)
  remember (binary_round_aux prec emax false mx ex lx) as r eqn:Er. clear Er.
  assert (V : valid r).
  { unfold valid. destruct r as [s|s| |s m e]; try reflexivity.
    simpl. tauto. }
  assert (VAL : IEEE.is_finite r = true -> F2R r = IZR k * bpow E).
  { destruct r as [s|s| |s m e]; try discriminate; intros _.
    - destruct R as [_ ->]. simpl. ring.
    - destruct R as (-> & _ & EE & <-). rewrite F2R_finite.
      replace e with (E + (e - E))%Z at 1 by lia. rewrite <- bpow_shift by lia. ring. }
  assert (INF : IEEE.is_finite r = false -> bpow emax <= IZR k * bpow E).
  { destruct r as [s|s| |s m e]; try discriminate; intros _; [|contradiction].
    destruct R as (_ & E0 & R). rewrite <- (bpow_IZR emax) by lia.
    rewrite <- (bpow_IZR E) by lia. rewrite <- mult_IZR. apply IZR_le. exact R. }
  assert (NN : IEEE.is_nan r = false).
  { destruct r; try reflexivity. contradiction. }
  assert (Kle : IZR k * bpow E <= IZR (lo + 1) * bpow E).
  { apply Rmult_le_compat_r; [lra|]. apply IZR_le. lia. }
  assert (Kge : IZR lo * bpow E <= IZR k * bpow E).
  { apply Rmult_le_compat_r; [lra|]. apply IZR_le. lia. }
  assert (L0 : 0 <= IZR lo * bpow E).
  { apply Rmult_le_pos; [apply IZR_le; lia|lra]. }
  split; [exact V|]. split; [exact NN|]. split; [|split].
  - (* floats below [a] are below the result *)
    intros c Vc Fc Hc.
    destruct (IEEE.is_finite r) eqn:Fr.
    + apply SFleb_finite; try assumption. rewrite (VAL eq_refl).
      destruct c as [s|s| |s mc ec]; try discriminate.
      * simpl. lra.
      * destruct s; [pose proof (F2R_neg mc ec); lra|].
        rewrite F2R_finite in *. rewrite Rmult_1_l in *.
        destruct (GR mc ec Vc) as [_ G2]. apply Rle_trans with (2 := Kge).
        apply G2. lra.
    + destruct r as [s|s| |s m e]; try discriminate.
      destruct R as (-> & _). destruct c as [s|s| |s mc ec]; try discriminate; reflexivity.
  - (* floats above [a] are above the result *)
    intros c Vc Fc Hc.
    pose proof (valid_finite_lt_bpow_emax c Vc Fc) as CM.
    assert (CA : F2R c <= Rabs (F2R c)) by apply Rle_abs.
    assert (RK : IZR k * bpow E <= F2R c).
    { destruct KK as [->|[-> KK]]; [lra|].
      destruct c as [s|s| |s mc ec]; try discriminate.
      - simpl in Hc. lra.
      - destruct s; [pose proof (F2R_neg mc ec); lra|].
        rewrite F2R_finite in *. rewrite Rmult_1_l in *.
        destruct (GR mc ec Vc) as [G1 _]. apply G1. lra. }
    destruct (IEEE.is_finite r) eqn:Fr.
    + apply SFleb_finite; try assumption. rewrite (VAL eq_refl). exact RK.
    + exfalso. specialize (INF eq_refl). lra.
  - (* the error *)
    intros Fr. rewrite (VAL Fr).
    assert (A0 : 0 <= a) by lra.
    apply Rle_trans with (bpow E).
    + apply Rabs_le. replace (IZR (lo + 1)) with (IZR lo + 1) in * by (rewrite plus_IZR; reflexivity).
      split; nra.
    + destruct (Z.eq_dec E emin) as [EE|EE].
      * rewrite EE. apply Rmax_r.
      * apply Rle_trans with (2 := Rmax_l _ _).
        assert (G : (emin < E)%Z) by lia.
        specialize (M1' (MP G) G).
        rewrite (Rabs_right a) by lra.
        apply Rle_trans with (bpow (1 - prec) * (IZR lo * bpow E)).
        -- apply Rle_trans with (bpow (1 - prec) * (bpow (prec - 1) * bpow E)).
           ++ rewrite <- !bpow_add. apply bpow_le. lia.
           ++ apply Rmult_le_compat_l; [pose proof (bpow_gt_0 (1 - prec)); lra|].
              apply Rmult_le_compat_r; [lra|].
              rewrite <- bpow_IZR by lia. apply IZR_le. assumption.
        -- apply Rmult_le_compat_l; [pose proof (bpow_gt_0 (1 - prec)); lra|]. lra.
Qed.

Lemma rounds_to_opp x r : rounds_to x r -> rounds_to (- x) (SFopp r).
Proof.
  intros (V & N & Lo & Hi & Er). split; [apply valid_opp; exact V|].
  split; [rewrite is_nan_opp; exact N|]. split; [|split].
  - intros c Vc Fc Hc. rewrite <- (SFopp_involutive c). rewrite SFleb_opp.
    apply Hi; [apply valid_opp; exact Vc|rewrite is_finite_opp; exact Fc|].
    rewrite F2R_opp. lra.
  - intros c Vc Fc Hc. rewrite <- (SFopp_involutive c). rewrite SFleb_opp.
    apply Lo; [apply valid_opp; exact Vc|rewrite is_finite_opp; exact Fc|].
    rewrite F2R_opp. lra.
  - rewrite is_finite_opp. intros F. specialize (Er F).
    rewrite F2R_opp. replace (- F2R r - - x) with (- (F2R r - x)) by ring.
    rewrite !Rabs_Ropp. exact Er.
Qed.

(** Rounding of a real of either sign, given by its magnitude. *)
Lemma round_aux_signed (s : bool) (mx ex : Z) (lx : location) (a : R) :
  (0 <= mx)%Z -> (ex <= fexp (Zdigits2 mx + ex))%Z ->
  IZR mx * bpow ex <= a < IZR (mx + 1) * bpow ex ->
  (lx = loc_Exact -> a = IZR mx * bpow ex) ->
  (lx <> loc_Exact -> IZR mx * bpow ex < a) ->
  rounds_to (if s then - a else a) (binary_round_aux prec emax s mx ex lx).
Proof.
  intros. destruct s.
  - change true with (negb false). rewrite binary_round_aux_opp.
    apply rounds_to_opp. apply round_aux_pos; assumption.
  - apply round_aux_pos; assumption.
Qed.

Lemma rounds_to_self r : valid r -> IEEE.is_finite r = true -> rounds_to (F2R r) r.
Proof.
  intros V F. split; [exact V|]. split; [destruct r; try discriminate; reflexivity|].
  split; [|split].
  - intros c Vc Fc Hc. apply SFleb_finite; assumption.
  - intros c Vc Fc Hc. apply SFleb_finite; assumption.
  - intros _. replace (F2R r - F2R r) with 0 by ring. rewrite Rabs_R0.
    apply Rle_trans with (2 := Rmax_r _ _). pose proof (bpow_gt_0 emin). lra.
Qed.

Lemma rounds_to_zero s : rounds_to 0 (S754_zero s).
Proof. apply (rounds_to_self (S754_zero s)); reflexivity. Qed.

Lemma shl_align_spec (m : positive) (e e' : Z) :
  let '(m', e'') := shl_align m e e' in
  if (e' <? e)%Z then Zpos m' = (Zpos m * 2 ^ (e - e'))%Z /\ e'' = e'
  else m' = m /\ e'' = e.
Proof.
  unfold shl_align. destruct (e' - e)%Z as [|d|d] eqn:D.
  - destruct (Z.ltb_spec e' e); [lia|auto].
  - destruct (Z.ltb_spec e' e); [lia|auto].
  - destruct (Z.ltb_spec e' e); [|lia]. split; [|reflexivity].
    rewrite Pos_iter_xO. f_equal. f_equal. lia.
Qed.

Lemma binary_round_correct (s : bool) (m : positive) (e : Z) :
  rounds_to (if s then - (IZR (Zpos m) * bpow e) else IZR (Zpos m) * bpow e)
            (binary_round prec emax s m e).
Proof.
  unfold binary_round.
  pose proof (shl_align_spec m e (fexp (Zpos (digits2_pos m) + e))) as S.
  change (Zpos (digits2_pos m)) with (Zdigits2 (Zpos m)) in *.
  destruct (shl_align m e _) as [mz ez].
  assert (V : IZR (Zpos mz) * bpow ez = IZR (Zpos m) * bpow e /\
              (ez <= fexp (Zdigits2 (Zpos mz) + ez))%Z).
  { destruct (Z.ltb_spec (fexp (Zdigits2 (Zpos m) + e)) e) as [L|L].
    - destruct S as [S ->]. rewrite S. split.
      + rewrite bpow_shift by lia. f_equal. f_equal. lia.
      + rewrite Zdigits2_shift by lia.
        replace (Zdigits2 (Zpos m) + (e - fexp (Zdigits2 (Zpos m) + e)) +
                 fexp (Zdigits2 (Zpos m) + e))%Z with (Zdigits2 (Zpos m) + e)%Z by lia.
        lia.
    - destruct S as [-> ->]. split; [reflexivity|lia]. }
  destruct V as [V P]. rewrite <- V.
  apply round_aux_signed; try assumption; try lia.
  - split; [lra|]. rewrite plus_IZR. pose proof (bpow_gt_0 ez). lra.
  - reflexivity.
  - intros N. contradiction.
Qed.

Lemma binary_normalize_correct (z e : Z) (sz : bool) :
  rounds_to (IZR z * bpow e) (binary_normalize prec emax z e sz).
Proof.
  destruct z as [|m|m]; simpl binary_normalize.
  - rewrite Rmult_0_l. apply rounds_to_zero.
  - apply (binary_round_correct false).
  - replace (IZR (Zneg m) * bpow e) with (- (IZR (Zpos m) * bpow e)).
    + apply (binary_round_correct true).
    + change (Zneg m) with (- Zpos m)%Z. rewrite opp_IZR. ring.
Qed.

(** *** Multiplication *)
Lemma SFmul_correct x y :
  valid x -> valid y -> IEEE.is_finite x = true -> IEEE.is_finite y = true ->
  rounds_to (F2R x * F2R y) (SFmul prec emax x y).
Proof.
  intros Vx Vy Fx Fy.
  destruct x as [sx|sx| |sx mx ex]; try discriminate;
  destruct y as [sy|sy| |sy my ey]; try discriminate; simpl SFmul.
  - simpl F2R. rewrite Rmult_0_l. apply rounds_to_zero.
  - simpl F2R at 1. rewrite Rmult_0_l. apply rounds_to_zero.
  - simpl F2R at 2. rewrite Rmult_0_r. apply rounds_to_zero.
  - unfold valid in Vx, Vy. simpl in Vx, Vy.
    destruct (bounded_facts _ _ Vx) as (Bex & Bmx & Bnx & Cx).
    destruct (bounded_facts _ _ Vy) as (Bey & Bmy & Bny & Cy).
    replace (F2R (S754_finite sx mx ex) * F2R (S754_finite sy my ey))
      with (if xorb sx sy then - (IZR (Zpos (mx * my)) * bpow (ex + ey))
            else IZR (Zpos (mx * my)) * bpow (ex + ey)).
    2:{ rewrite !F2R_finite, Pos2Z.inj_mul, mult_IZR, bpow_add.
        destruct sx, sy; simpl; ring. }
    apply round_aux_signed; try assumption; try lia.
    + (* enough digits *)
      rewrite Pos2Z.inj_mul.
      pose proof (Zdigits2_mul_ge (Zpos mx) (Zpos my) ltac:(lia) ltac:(lia)) as D.
      pose proof (Zdigits2_pos (Zpos mx) ltac:(lia)).
      pose proof (Zdigits2_pos (Zpos my) ltac:(lia)).
      unfold SpecFloat.fexp in *. unfold SpecFloat.emin in *. lia.
    + split; [lra|]. rewrite plus_IZR. pose proof (bpow_gt_0 (ex + ey)). lra.
    + reflexivity.
    + intros N. contradiction.
Qed.

(** *** Addition and subtraction *)

Lemma shl_align_value (m : positive) (e ez : Z) : (ez <= e)%Z ->
  IZR (Zpos (fst (shl_align m e ez))) * bpow ez = IZR (Zpos m) * bpow e.
Proof.
  intros L. pose proof (shl_align_spec m e ez) as S.
  destruct (shl_align m e ez) as [m' e']. simpl fst.
  destruct (Z.ltb_spec ez e) as [L'|L'].
  - destruct S as [-> _]. rewrite bpow_shift by lia. f_equal. f_equal. lia.
  - destruct S as [-> _]. replace ez with e by lia. reflexivity.
Qed.

Lemma cond_Zopp_value (s : bool) (m : positive) (e : Z) :
  IZR (cond_Zopp s (Zpos m)) * bpow e = F2R (S754_finite s m e).
Proof.
  rewrite F2R_finite. destruct s; unfold cond_Zopp.
  - rewrite opp_IZR. ring.
  - ring.
Qed.

Lemma aligned_value (s : bool) (m : positive) (e ez : Z) : (ez <= e)%Z ->
  IZR (cond_Zopp s (Zpos (fst (shl_align m e ez)))) * bpow ez = F2R (S754_finite s m e).
Proof.
  intros L. rewrite <- cond_Zopp_value.
  destruct s; unfold cond_Zopp.
  - rewrite !opp_IZR. rewrite !Ropp_mult_distr_l_reverse. f_equal.
    apply shl_align_value. assumption.
  - apply shl_align_value. assumption.
Qed.

Lemma SFadd_correct x y :
  valid x -> valid y -> IEEE.is_finite x = true -> IEEE.is_finite y = true ->
  rounds_to (F2R x + F2R y) (SFadd prec emax x y).
Proof.
  intros Vx Vy Fx Fy.
  destruct x as [sx|sx| |sx mx ex]; try discriminate;
  destruct y as [sy|sy| |sy my ey]; try discriminate; simpl SFadd.
  - simpl F2R. rewrite Rplus_0_l. destruct sx, sy; apply rounds_to_zero.
  - simpl F2R at 1. rewrite Rplus_0_l. apply rounds_to_self; assumption.
  - simpl F2R at 2. rewrite Rplus_0_r. apply rounds_to_self; assumption.
  - rewrite <- (aligned_value sx mx ex (Z.min ex ey)) by lia.
    rewrite <- (aligned_value sy my ey (Z.min ex ey)) by lia.
    rewrite <- Rmult_plus_distr_r, <- plus_IZR.
    apply binary_normalize_correct.
Qed.

Lemma SFsub_correct x y :
  valid x -> valid y -> IEEE.is_finite x = true -> IEEE.is_finite y = true ->
  rounds_to (F2R x - F2R y) (SFsub prec emax x y).
Proof.
  intros Vx Vy Fx Fy.
  destruct x as [sx|sx| |sx mx ex]; try discriminate;
  destruct y as [sy|sy| |sy my ey]; try discriminate; simpl SFsub.
  - simpl F2R. rewrite Rminus_0_r. destruct sx, sy; apply rounds_to_zero.
  - simpl F2R at 1. rewrite Rminus_0_l.
    change (S754_finite (negb sy) my ey) with (SFopp (S754_finite sy my ey)).
    rewrite <- F2R_opp. apply rounds_to_self; [apply valid_opp|]; assumption.
  - simpl F2R at 2. rewrite Rminus_0_r. apply rounds_to_self; assumption.
  - rewrite <- (aligned_value sx mx ex (Z.min ex ey)) by lia.
    rewrite <- (aligned_value sy my ey (Z.min ex ey)) by lia.
    rewrite <- Rmult_minus_distr_r, <- minus_IZR.
    apply binary_normalize_correct.
Qed.

(** *** Division *)

Lemma new_location_exact (nb k : Z) :
  (new_location nb k = loc_Exact <-> k = 0%Z).
Proof.
  unfold new_location, new_location_even, new_location_odd.
  destruct (Z.even nb); destruct (Z.eqb_spec k 0); split; intros H;
    try reflexivity; try assumption; try discriminate; try contradiction.
Qed.

Lemma div_digits_lower (a b j : Z) : (0 < b)%Z -> (0 <= j)%Z ->
  (2 ^ j * b <= a)%Z -> (j + 1 <= Zdigits2 (a / b))%Z.
Proof.
  intros B J H.
  assert (P : (0 < 2 ^ j)%Z) by (apply Z.pow_pos_nonneg; lia).
  assert (Q : (2 ^ j <= a / b)%Z) by (apply Z.div_le_lower_bound; lia).
  assert (Q0 : (0 < a / b)%Z) by lia.
  pose proof (Zdigits2_bounds (a / b) Q0) as D.
  destruct (Z_lt_le_dec (Zdigits2 (a / b)) (j + 1)) as [L|L]; [exfalso|lia].
  assert (2 ^ Zdigits2 (a / b) <= 2 ^ j)%Z by (apply Z.pow_le_mono_r; lia).
  lia.
Qed.

Lemma shift_mantissa (m s : Z) : (0 <= s)%Z ->
  match s with Zpos _ => Z.shiftl m s | Z0 => m | Zneg _ => 0%Z end = (m * 2 ^ s)%Z.
Proof.
  intros H. destruct s as [|p|p]; try lia.
  rewrite Z.shiftl_mul_pow2 by lia. reflexivity.
Qed.

Lemma SFdiv_core_binary_spec (m1 m2 : positive) (e1 e2 : Z) :
  let '(q, e', l) := SFdiv_core_binary prec emax (Zpos m1) e1 (Zpos m2) e2 in
  let a := (IZR (Zpos m1) * bpow e1) / (IZR (Zpos m2) * bpow e2) in
  (0 <= q)%Z /\ (e' <= fexp (Zdigits2 q + e'))%Z /\
  IZR q * bpow e' <= a < IZR (q + 1) * bpow e' /\
  (l = loc_Exact -> a = IZR q * bpow e') /\
  (l <> loc_Exact -> IZR q * bpow e' < a).
Proof.
  unfold SFdiv_core_binary.
  set (d1 := Zdigits2 (Zpos m1)). set (d2 := Zdigits2 (Zpos m2)).
  set (t := (d1 + e1 - (d2 + e2))%Z).
  set (e' := Z.min (fexp t) (e1 - e2)).
  set (s := (e1 - e2 - e')%Z).
  assert (S0 : (0 <= s)%Z) by (subst s e'; lia).
  set (m' := match s with Zpos _ => Z.shiftl (Zpos m1) s | Z0 => Zpos m1 | Zneg _ => 0%Z end).
  assert (M' : m' = (Zpos m1 * 2 ^ s)%Z) by (subst m'; apply shift_mantissa; exact S0).
  clearbody m'.
  pose proof (Z_div_mod m' (Zpos m2) ltac:(lia)) as DM.
  destruct (Z.div_eucl m' (Zpos m2)) as [q r] eqn:QR. destruct DM as [DM RB].
  assert (Pm2 : 0 < IZR (Zpos m2)) by (apply IZR_lt; lia).
  assert (P2s : (0 < 2 ^ s)%Z) by (apply Z.pow_pos_nonneg; lia).
  assert (Q0 : (0 <= q)%Z).
  { assert (0 <= m')%Z by lia. nia. }
  pose proof (bpow_gt_0 e') as Pe'. pose proof (bpow_gt_0 e2) as Pe2.
  pose proof (bpow_gt_0 e1) as Pe1.
  (* the exact quotient on the grid of e' *)
  assert (A : (IZR (Zpos m1) * bpow e1) / (IZR (Zpos m2) * bpow e2)
              = (IZR q + IZR r / IZR (Zpos m2)) * bpow e').
  { assert (E1 : bpow e1 = bpow s * bpow e' * bpow e2).
    { rewrite <- !bpow_add. f_equal. subst s. lia. }
    rewrite E1. rewrite <- (bpow_IZR s) by lia.
    assert (MM : IZR (Zpos m1) * IZR (2 ^ s) = IZR (Zpos m2) * IZR q + IZR r).
    { rewrite <- !mult_IZR, <- plus_IZR. f_equal. lia. }
    field_simplify_eq; [|split; lra].
    replace (IZR (Zpos m1) * IZR (2 ^ s) * bpow e' * bpow e2)
      with ((IZR (Zpos m1) * IZR (2 ^ s)) * bpow e' * bpow e2) by ring.
    rewrite MM. ring. }
  assert (R0 : 0 <= IZR r / IZR (Zpos m2) < 1).
  { split.
    - apply Rmult_le_pos; [apply IZR_le; lia|]. apply Rlt_le, Rinv_0_lt_compat. assumption.
    - apply Rmult_lt_reg_r with (IZR (Zpos m2)); [assumption|].
      unfold Rdiv. rewrite Rmult_assoc, Rinv_l, Rmult_1_r, Rmult_1_l by lra.
      apply IZR_lt. lia. }
  split; [exact Q0|]. split; [|split; [|split]].
  - (* enough digits *)
    destruct (Z_le_gt_dec 0 (d1 - 1 + s - d2)) as [J|J].
    + assert (D : (d1 - 1 + s - d2 + 1 <= Zdigits2 q)%Z).
      { replace q with (m' / Zpos m2)%Z
          by (unfold Z.div; rewrite QR; reflexivity).
        apply div_digits_lower; [lia|lia|].
        pose proof (Zdigits2_bounds (Zpos m1) ltac:(lia)) as B1.
        pose proof (Zdigits2_bounds (Zpos m2) ltac:(lia)) as B2.
        fold d1 in B1. fold d2 in B2.
        assert (0 < d1)%Z by (apply Zdigits2_pos; lia).
        assert (0 < d2)%Z by (apply Zdigits2_pos; lia).
        rewrite M'.
        apply Z.le_trans with (2 ^ (d1 - 1 + s - d2) * 2 ^ d2)%Z.
        - apply Z.mul_le_mono_nonneg_l; [apply Z.pow_nonneg; lia|lia].
        - rewrite <- Z.pow_add_r by lia.
          replace (d1 - 1 + s - d2 + d2)%Z with (d1 - 1 + s)%Z by lia.
          rewrite Z.pow_add_r by lia. apply Z.mul_le_mono_nonneg_r; lia. }
      apply Z.le_trans with (fexp t); [subst e'; lia|].
      apply fexp_mono. subst t s. lia.
    + pose proof (Zdigits2_nonneg q).
      assert (e' <= emin)%Z.
      { subst e' s t. unfold SpecFloat.fexp in *. lia. }
      pose proof (fexp_ge_emin (Zdigits2 q + e')). lia.
  - rewrite A. rewrite plus_IZR. split; nra.
  - intros L. apply new_location_exact in L. subst r.
    rewrite A. unfold Rdiv. rewrite Rmult_0_l. ring.
  - intros L. rewrite A.
    assert (r <> 0)%Z by (intros Z0; apply L; apply new_location_exact; exact Z0).
    assert (0 < IZR r / IZR (Zpos m2)).
    { apply Rmult_lt_0_compat; [apply IZR_lt; lia|]. apply Rinv_0_lt_compat. assumption. }
    nra.
Qed.

Lemma SFdiv_correct x y :
  valid x -> valid y -> IEEE.is_finite x = true -> IEEE.is_finite y = true ->
  F2R y <> 0 ->
  rounds_to (F2R x / F2R y) (SFdiv prec emax x y).
Proof.
  intros Vx Vy Fx Fy Ny.
  destruct x as [sx|sx| |sx mx ex]; try discriminate;
  destruct y as [sy|sy| |sy my ey]; try discriminate; simpl SFdiv;
    try (exfalso; apply Ny; reflexivity).
  - simpl F2R at 1. unfold Rdiv. rewrite Rmult_0_l. apply rounds_to_zero.
  - pose proof (SFdiv_core_binary_spec mx my ex ey) as S.
    destruct (SFdiv_core_binary prec emax (Zpos mx) ex (Zpos my) ey) as [[q e'] l].
    destruct S as (Q0 & P & A & AX & AI).
    replace (F2R (S754_finite sx mx ex) / F2R (S754_finite sy my ey))
      with (if xorb sx sy
            then - ((IZR (Zpos mx) * bpow ex) / (IZR (Zpos my) * bpow ey))
            else (IZR (Zpos mx) * bpow ex) / (IZR (Zpos my) * bpow ey)).
    2:{ rewrite !F2R_finite.
        destruct sx, sy; simpl; field;
          (split; [apply Rgt_not_eq, bpow_gt_0|apply not_0_IZR; discriminate]). }
    exact (round_aux_signed (xorb sx sy) q e' l _ Q0 P A AX AI).
Qed.

(** *** Square root *)

Lemma sqrt_digits_lower (m j : Z) : (0 <= j)%Z -> (2 ^ (2 * j) <= m)%Z ->
  (j + 1 <= Zdigits2 (Z.sqrt m))%Z.
Proof.
  intros J H.
  assert (P : (0 < 2 ^ j)%Z) by (apply Z.pow_pos_nonneg; lia).
  assert (Q : (2 ^ j <= Z.sqrt m)%Z).
  { apply Z.sqrt_le_square; [lia|lia|].
    replace (2 * j)%Z with (j + j)%Z in H by lia. rewrite Z.pow_add_r in H by lia. exact H. }
  assert (Q0 : (0 < Z.sqrt m)%Z) by lia.
  pose proof (Zdigits2_bounds (Z.sqrt m) Q0) as D.
  destruct (Z_lt_le_dec (Zdigits2 (Z.sqrt m)) (j + 1)) as [L|L]; [exfalso|lia].
  assert (2 ^ Zdigits2 (Z.sqrt m) <= 2 ^ j)%Z by (apply Z.pow_le_mono_r; lia).
  lia.
Qed.

Lemma bpow_double (e : Z) : bpow (2 * e) = bpow e * bpow e.
Proof. replace (2 * e)%Z with (e + e)%Z by lia. apply bpow_add. Qed.

Lemma SFsqrt_core_binary_spec (m : positive) (e : Z) :
  let '(q, e', l) := SFsqrt_core_binary prec emax (Zpos m) e in
  let a := sqrt (IZR (Zpos m) * bpow e) in
  (0 <= q)%Z /\ (e' <= fexp (Zdigits2 q + e'))%Z /\
  IZR q * bpow e' <= a < IZR (q + 1) * bpow e' /\
  (l = loc_Exact -> a = IZR q * bpow e') /\
  (l <> loc_Exact -> IZR q * bpow e' < a).
Proof.
  unfold SFsqrt_core_binary.
  set (d := Zdigits2 (Zpos m)).
  set (e' := Z.min (fexp (Z.div2 (d + e + 1))) (Z.div2 e)).
  set (s := (e - 2 * e')%Z).
  assert (S0 : (0 <= s)%Z).
  { subst s e'. rewrite (Z.div2_div e). pose proof (Z.mul_div_le e 2 ltac:(lia)). lia. }
  set (m' := match s with Zpos _ => Z.shiftl (Zpos m) s | Z0 => Zpos m | Zneg _ => 0%Z end).
  assert (M' : m' = (Zpos m * 2 ^ s)%Z) by (subst m'; apply shift_mantissa; exact S0).
  clearbody m'.
  assert (P2s : (0 < 2 ^ s)%Z) by (apply Z.pow_pos_nonneg; lia).
  assert (Pm' : (0 < m')%Z) by lia.
  pose proof (Z.sqrtrem_spec m' ltac:(lia)) as SR.
  pose proof (Z.sqrtrem_sqrt m') as SQ.
  destruct (Z.sqrtrem m') as [q r]. simpl in SQ. destruct SR as [SR RB].
  pose proof (bpow_gt_0 e') as Pe'.
  assert (Q0 : (0 <= q)%Z) by (subst q; apply Z.sqrt_nonneg).
  assert (A : sqrt (IZR (Zpos m) * bpow e) = sqrt (IZR m') * bpow e').
  { replace (IZR (Zpos m) * bpow e) with (IZR m' * (bpow e' * bpow e')).
    - rewrite sqrt_mult; [|apply IZR_le; lia|nra].
      rewrite sqrt_square by lra. reflexivity.
    - rewrite M'. rewrite <- bpow_double. rewrite bpow_shift by lia.
      f_equal. f_equal. subst s. lia. }
  assert (SL : IZR q <= sqrt (IZR m')).
  { rewrite <- (sqrt_square (IZR q)) by (apply IZR_le; lia).
    apply sqrt_le_1_alt. rewrite <- mult_IZR. apply IZR_le. lia. }
  assert (SU : sqrt (IZR m') < IZR (q + 1)).
  { rewrite <- (sqrt_square (IZR (q + 1))) by (apply IZR_le; lia).
    apply sqrt_lt_1_alt. split; [apply IZR_le; lia|].
    rewrite <- mult_IZR. apply IZR_lt. nia. }
  split; [exact Q0|]. split; [|split; [|split]].
  - (* enough digits *)
    pose proof (Zdigits2_bounds (Zpos m) ltac:(lia)) as B. fold d in B.
    assert (D0 : (0 < d)%Z) by (apply Zdigits2_pos; lia).
    set (j := ((d - 1 + s) / 2)%Z).
    assert (J0 : (0 <= j)%Z) by (apply Z.div_pos; lia).
    assert (JJ : (2 * j <= d - 1 + s)%Z) by (apply Z.mul_div_le; lia).
    assert (D : (j + 1 <= Zdigits2 q)%Z).
    { subst q. apply sqrt_digits_lower; [exact J0|].
      rewrite M'. apply Z.le_trans with (2 ^ (d - 1 + s))%Z.
      - apply Z.pow_le_mono_r; lia.
      - rewrite Z.pow_add_r by lia. apply Z.mul_le_mono_nonneg_r; lia. }
    assert (JE : (j + e' = Z.div2 (d + e + 1) - 1)%Z \/ (j + 1 + e' = Z.div2 (d + e + 1))%Z).
    { right. subst j s. rewrite (Z.div2_div (d + e + 1)).
      replace (d - 1 + (e - 2 * e'))%Z with ((d + e + 1) + (- 1 - e') * 2)%Z by lia.
      rewrite Z.div_add by lia. lia. }
    apply Z.le_trans with (fexp (Z.div2 (d + e + 1))); [subst e'; lia|].
    apply fexp_mono. lia.
  - rewrite A. split; nra.
  - intros L. rewrite A. destruct (Z.eqb_spec r 0) as [R0|R0]; [|discriminate].
    assert (IZR m' = IZR q * IZR q) by (rewrite <- mult_IZR; f_equal; lia).
    rewrite H. rewrite sqrt_square by (apply IZR_le; lia). reflexivity.
  - intros L. rewrite A. destruct (Z.eqb_spec r 0) as [R0|R0]; [contradiction L; reflexivity|].
    apply Rmult_lt_compat_r; [exact Pe'|].
    rewrite <- (sqrt_square (IZR q)) by (apply IZR_le; lia).
    apply sqrt_lt_1_alt. split; [apply Rmult_le_pos; apply IZR_le; lia|].
    rewrite <- mult_IZR. apply IZR_lt. lia.
Qed.

Lemma SFsqrt_correct x :
  valid x -> IEEE.is_finite x = true -> 0 <= F2R x ->
  rounds_to (sqrt (F2R x)) (SFsqrt prec emax x).
Proof.
  intros Vx Fx Px.
  destruct x as [sx|sx| |sx mx ex]; try discriminate; simpl SFsqrt.
  - simpl F2R. rewrite sqrt_0. apply rounds_to_zero.
  - destruct sx; [pose proof (F2R_neg mx ex); lra|].
    pose proof (SFsqrt_core_binary_spec mx ex) as S.
    destruct (SFsqrt_core_binary prec emax (Zpos mx) ex) as [[q e'] l].
    destruct S as (Q0 & P & A & AX & AI).
    rewrite F2R_finite, Rmult_1_l.
    exact (round_aux_signed false q e' l _ Q0 P A AX AI).
Qed.

(** *** Closure of the format, and what a finite result says of the operands *)

Lemma rounds_to_valid x r : rounds_to x r -> valid r.
Proof. intros H. apply H. Qed.

Lemma valid_SFmul x y : valid x -> valid y -> valid (SFmul prec emax x y).
Proof.
  intros Vx Vy.
  destruct (IEEE.is_finite x) eqn:Fx; [destruct (IEEE.is_finite y) eqn:Fy|].
  - exact (rounds_to_valid _ _ (SFmul_correct x y Vx Vy Fx Fy)).
  - destruct x, y; try discriminate; reflexivity.
  - destruct x, y; try discriminate; reflexivity.
Qed.

Lemma valid_SFadd x y : valid x -> valid y -> valid (SFadd prec emax x y).
Proof.
  intros Vx Vy.
  destruct (IEEE.is_finite x) eqn:Fx; [destruct (IEEE.is_finite y) eqn:Fy|].
  - exact (rounds_to_valid _ _ (SFadd_correct x y Vx Vy Fx Fy)).
  - destruct x as [| | |], y as [sy|sy| |]; try discriminate; try reflexivity.
  - destruct x as [sx|sx| |], y as [sy|sy| |sy my ey]; try discriminate; try reflexivity;
      try (destruct sx, sy; reflexivity).
Qed.

Lemma valid_SFsub x y : valid x -> valid y -> valid (SFsub prec emax x y).
Proof.
  intros Vx Vy.
  destruct (IEEE.is_finite x) eqn:Fx; [destruct (IEEE.is_finite y) eqn:Fy|].
  - exact (rounds_to_valid _ _ (SFsub_correct x y Vx Vy Fx Fy)).
  - destruct x as [| | |], y as [sy|sy| |]; try discriminate; try reflexivity.
  - destruct x as [sx|sx| |], y as [sy|sy| |sy my ey]; try discriminate; try reflexivity;
      try (destruct sx, sy; reflexivity).
Qed.

Lemma F2R_zero_iff x : IEEE.is_finite x = true ->
  (F2R x = 0 <-> exists s, x = S754_zero s).
Proof.
  intros F. destruct x as [s|s| |s m e]; try discriminate.
  - split; [eauto|reflexivity].
  - split.
    + intros H. destruct s; [pose proof (F2R_neg m e)|pose proof (F2R_pos m e)]; lra.
    + intros [s' H]. discriminate.
Qed.

Lemma valid_SFdiv x y : valid x -> valid y -> valid (SFdiv prec emax x y).
Proof.
  intros Vx Vy.
  destruct x as [sx|sx| |sx mx ex], y as [sy|sy| |sy my ey]; try reflexivity.
  apply (rounds_to_valid (F2R (S754_finite sx mx ex) / F2R (S754_finite sy my ey))).
  apply SFdiv_correct; try assumption; try reflexivity.
  destruct sy; [pose proof (F2R_neg my ey)|pose proof (F2R_pos my ey)]; lra.
Qed.

Lemma valid_SFsqrt x : valid x -> valid (SFsqrt prec emax x).
Proof.
  intros Vx. destruct x as [sx|sx| |sx mx ex]; try reflexivity.
  - destruct sx; reflexivity.
  - destruct sx; [reflexivity|].
    apply (rounds_to_valid (sqrt (F2R (S754_finite false mx ex)))).
    apply SFsqrt_correct; try assumption; try reflexivity.
    pose proof (F2R_pos mx ex). lra.
Qed.

Lemma valid_SFabs x : valid x -> valid (SFabs x).
Proof. unfold valid. destruct x; simpl; tauto. Qed.

Lemma finite_SFmul x y :
  IEEE.is_finite (SFmul prec emax x y) = true ->
  IEEE.is_finite x = true /\ IEEE.is_finite y = true.
Proof. destruct x, y; simpl; intros H; try discriminate; split; reflexivity. Qed.

Lemma finite_SFadd x y :
  IEEE.is_finite (SFadd prec emax x y) = true ->
  IEEE.is_finite x = true /\ IEEE.is_finite y = true.
Proof.
  destruct x as [sx|sx| |sx mx ex], y as [sy|sy| |sy my ey]; simpl; intros H;
    try discriminate; try (split; reflexivity);
    destruct sx, sy; discriminate.
Qed.

Lemma finite_SFsub x y :
  IEEE.is_finite (SFsub prec emax x y) = true ->
  IEEE.is_finite x = true /\ IEEE.is_finite y = true.
Proof.
  destruct x as [sx|sx| |sx mx ex], y as [sy|sy| |sy my ey]; simpl; intros H;
    try discriminate; try (split; reflexivity);
    destruct sx, sy; discriminate.
Qed.

(** *** Reading [rounds_to] *)

Lemma rounds_to_between x r lo hi :
  rounds_to x r ->
  valid lo -> IEEE.is_finite lo = true -> valid hi -> IEEE.is_finite hi = true ->
  F2R lo <= x <= F2R hi ->
  IEEE.is_finite r = true /\ F2R lo <= F2R r <= F2R hi.
Proof.
  intros (V & N & Lo & Hi & _) Vl Fl Vh Fh [L H].
  specialize (Lo lo Vl Fl L). specialize (Hi hi Vh Fh H).
  assert (F : IEEE.is_finite r = true).
  { destruct r as [s|s| |s m e]; try reflexivity; try discriminate.
    destruct s.
    - destruct lo; try discriminate; simpl in Lo; discriminate.
    - destruct hi; try discriminate; simpl in Hi; discriminate. }
  split; [exact F|]. split.
  - apply SFleb_finite; assumption.
  - apply SFleb_finite; assumption.
Qed.

Lemma rounds_to_error x r :
  rounds_to x r -> IEEE.is_finite r = true ->
  Rabs (F2R r - x) <= Rmax (bpow (1 - prec) * Rabs x) (bpow emin).
Proof. intros H. apply H. Qed.

Lemma rounds_to_nonneg x r :
  rounds_to x r -> IEEE.is_finite r = true -> 0 <= x -> 0 <= F2R r.
Proof.
  intros (V & N & Lo & _) F P.
  specialize (Lo (S754_zero false) eq_refl eq_refl P).
  apply (SFleb_finite (S754_zero false) r) in Lo; try assumption; try reflexivity.
Qed.

End Format.

Local Open Scope R_scope.

(* ================================================================== *)
(** * Binary32: the operations of the C code *)
(* ================================================================== *)

(** ** The order of floats that are not NaN is total *)

Lemma SFcompare_swap x y :
  SFcompare y x = option_map CompOpp (SFcompare x y).
Proof.
  destruct x as [sx|sx| |sx mx ex], y as [sy|sy| |sy my ey]; simpl; try reflexivity;
    try (destruct sx; reflexivity); try (destruct sy; reflexivity);
    try (destruct sx, sy; reflexivity).
  pose proof (Pos.compare_cont_antisym mx my Eq) as PA. simpl in PA.
  destruct sx, sy; simpl; try reflexivity;
    destruct (Z.compare_spec ex ey), (Z.compare_spec ey ex); try lia; try reflexivity; simpl.
  - rewrite <- PA. destruct (Pos.compare_cont Eq mx my); reflexivity.
  - rewrite <- PA. reflexivity.
Qed.

Lemma SFcompare_not_nan x y :
  IEEE.is_nan x = false -> IEEE.is_nan y = false -> exists c, SFcompare x y = Some c.
Proof.
  destruct x, y; simpl; intros; try discriminate; eauto.
Qed.

Lemma SFleb_false_SFltb x y :
  IEEE.is_nan x = false -> IEEE.is_nan y = false ->
  SFleb x y = false -> SFltb y x = true.
Proof.
  intros Nx Ny. destruct (SFcompare_not_nan x y Nx Ny) as [c C].
  unfold SFleb, SFltb. rewrite (SFcompare_swap x y), C.
  destruct c; simpl; intros; try discriminate; reflexivity.
Qed.

Lemma SFltb_false_SFleb x y :
  IEEE.is_nan x = false -> IEEE.is_nan y = false ->
  SFltb x y = false -> SFleb y x = true.
Proof.
  intros Nx Ny. destruct (SFcompare_not_nan x y Nx Ny) as [c C].
  unfold SFleb, SFltb. rewrite (SFcompare_swap x y), C.
  destruct c; simpl; intros; try discriminate; reflexivity.
Qed.

Lemma SFltb_SFleb_false x y : SFltb x y = true -> SFleb y x = false.
Proof.
  unfold SFleb, SFltb. rewrite (SFcompare_swap x y).
  destruct (SFcompare x y) as [[]|]; simpl; intros; try discriminate; reflexivity.
Qed.

Lemma SFltb_SFleb x y : SFltb x y = true -> SFleb x y = true.
Proof.
  unfold SFleb, SFltb. destruct (SFcompare x y) as [[]|]; intros; try discriminate; reflexivity.
Qed.

(** ** The operations of [machine] round their exact result *)

Lemma b32_prec : (1 < B32.prec)%Z. Proof. reflexivity. Qed.
Lemma b32_emax : (B32.prec < B32.emax)%Z. Proof. reflexivity. Qed.

(** A literal is a fixed float: evaluate it. *)
Ltac eval_float_term x :=
  let v := eval vm_compute in x in
  replace x with v by (vm_compute; reflexivity).

Tactic Notation "eval_float" constr(x) := eval_float_term x.

Section Machine.
Local Existing Instance machine.

Lemma fmul_correct (x y : float) :
  valid32 x -> valid32 y -> isfinite x = true -> isfinite y = true ->
  rounds32 (F2R x * F2R y) (fmul x y).
Proof. apply (SFmul_correct _ _ b32_prec b32_emax). Qed.

Lemma fadd_correct (x y : float) :
  valid32 x -> valid32 y -> isfinite x = true -> isfinite y = true ->
  rounds32 (F2R x + F2R y) (fadd x y).
Proof. apply (SFadd_correct _ _ b32_prec b32_emax). Qed.

Lemma fsub_correct (x y : float) :
  valid32 x -> valid32 y -> isfinite x = true -> isfinite y = true ->
  rounds32 (F2R x - F2R y) (fsub x y).
Proof. apply (SFsub_correct _ _ b32_prec b32_emax). Qed.

Lemma fdiv_correct (x y : float) :
  valid32 x -> valid32 y -> isfinite x = true -> isfinite y = true -> F2R y <> 0 ->
  rounds32 (F2R x / F2R y) (fdiv x y).
Proof. apply (SFdiv_correct _ _ b32_prec b32_emax). Qed.

Lemma sqrtf_correct (x : float) :
  valid32 x -> isfinite x = true -> 0 <= F2R x ->
  rounds32 (sqrt (F2R x)) (sqrtf x).
Proof. apply (SFsqrt_correct _ _ b32_prec b32_emax). Qed.

Lemma of_int_correct (n : Z) : rounds32 (IZR n) (of_int n).
Proof.
  replace (IZR n) with (IZR n * bpow 0) by (unfold bpow; simpl; ring).
  apply (binary_normalize_correct _ _ b32_prec b32_emax).
Qed.

Lemma valid_fmul (x y : float) : valid32 x -> valid32 y -> valid32 (fmul x y).
Proof. apply (valid_SFmul _ _ b32_prec b32_emax). Qed.
Lemma valid_fadd (x y : float) : valid32 x -> valid32 y -> valid32 (fadd x y).
Proof. apply (valid_SFadd _ _ b32_prec b32_emax). Qed.
Lemma valid_fsub (x y : float) : valid32 x -> valid32 y -> valid32 (fsub x y).
Proof. apply (valid_SFsub _ _ b32_prec b32_emax). Qed.
Lemma valid_fdiv (x y : float) : valid32 x -> valid32 y -> valid32 (fdiv x y).
Proof. apply (valid_SFdiv _ _ b32_prec b32_emax). Qed.
Lemma valid_sqrtf (x : float) : valid32 x -> valid32 (sqrtf x).
Proof. apply (valid_SFsqrt _ _ b32_prec b32_emax). Qed.
Lemma valid_fneg (x : float) : valid32 x -> valid32 (fneg x).
Proof. apply (valid_opp B32.prec B32.emax b32_prec b32_emax). Qed.
Lemma valid_fabsf (x : float) : valid32 x -> valid32 (fabsf x).
Proof. apply (valid_SFabs _ _ b32_prec b32_emax). Qed.
Lemma valid_of_int (n : Z) : valid32 (of_int n).
Proof. apply (of_int_correct n). Qed.

Lemma fdiv_not_nan (x y : float) :
  IEEE.is_nan x = false -> valid32 x -> valid32 y ->
  isfinite y = true -> F2R y <> 0 -> IEEE.is_nan (fdiv x y) = false.
Proof.
  intros Nx Vx Vy Fy Ny.
  destruct (IEEE.is_finite x) eqn:Fx.
  - apply (fdiv_correct x y Vx Vy Fx Fy Ny).
  - destruct x as [s|s| |s m e]; try discriminate.
    destruct y as [sy|sy| |sy my ey]; try discriminate; try reflexivity.
Qed.

Lemma F2R_nonzero s m e : F2R (S754_finite s m e) <> 0.
Proof. destruct s; [pose proof (F2R_neg _ _ b32_prec b32_emax m e)|pose proof (F2R_pos _ _ b32_prec b32_emax m e)]; lra. Qed.

Lemma flt_finite (x y : float) :
  valid32 x -> valid32 y -> isfinite x = true -> isfinite y = true ->
  (flt x y = true <-> F2R x < F2R y).
Proof. apply (SFltb_finite _ _ b32_prec b32_emax). Qed.

Lemma fle_finite (x y : float) :
  valid32 x -> valid32 y -> isfinite x = true -> isfinite y = true ->
  (fle x y = true <-> F2R x <= F2R y).
Proof. apply (SFleb_finite _ _ b32_prec b32_emax). Qed.

Lemma fle_false_flt (x y : float) :
  IEEE.is_nan x = false -> IEEE.is_nan y = false -> fle x y = false -> flt y x = true.
Proof. apply SFleb_false_SFltb. Qed.

Lemma flt_false_fle (x y : float) :
  IEEE.is_nan x = false -> IEEE.is_nan y = false -> flt x y = false -> fle y x = true.
Proof. apply SFltb_false_SFleb. Qed.

Lemma flt_fle_false (x y : float) : flt x y = true -> fle y x = false.
Proof. apply SFltb_SFleb_false. Qed.

Lemma flt_fle (x y : float) : flt x y = true -> fle x y = true.
Proof. apply SFltb_SFleb. Qed.

Local Open Scope cf_scope.

(** ** The tick interval of the two loops *)

Lemma micros_not_nan (n : Z) : IEEE.is_nan (of_int n / lit 1000000 0) = false.
Proof.
  apply fdiv_not_nan.
  - apply (of_int_correct n).
  - apply valid_of_int.
  - reflexivity.
  - reflexivity.
  - eval_float (lit 1000000 0). apply F2R_nonzero.
Qed.

(** The interval [action_test_gyro] hands to the filter. *)
Lemma measured_dt_cases (dt_us : Z) :
  let raw := of_int dt_us / lit 1000000 0 in
  let dt := measured_dt dt_us in
  (c0 < dt) = true /\ (dt <= lit 2 (-1)) = true /\
  ((raw <= c0) = true \/ (raw > lit 2 (-1)) = true -> dt = lit 1 (-2)) /\
  ((raw <= c0) = false -> (raw > lit 2 (-1)) = false -> dt = raw).
Proof.
  intros raw dt. unfold dt, measured_dt. fold raw.
  pose proof (micros_not_nan dt_us) as N. fold raw in N.
  destruct (raw <= c0) eqn:L; cbn [orb].
  - repeat split; try reflexivity. intros H. discriminate.
  - destruct (raw > lit 2 (-1)) eqn:G.
    + repeat split; try reflexivity. intros _ H. discriminate.
    + repeat split.
      * apply fle_false_flt; [exact N|reflexivity|exact L].
      * apply flt_false_fle; [reflexivity|exact N|exact G].
      * intros [H|H]; discriminate.
Qed.


Lemma micros_valid (n : Z) : valid32 (of_int n / lit 1000000 0).
Proof. apply valid_fdiv; [apply valid_of_int|reflexivity]. Qed.



Lemma rounds32_between (x : R) (r lo hi : float) :
  rounds32 x r -> valid32 lo -> isfinite lo = true -> valid32 hi -> isfinite hi = true ->
  (F2R lo <= x <= F2R hi)%R ->
  isfinite r = true /\ (F2R lo <= F2R r <= F2R hi)%R.
Proof. apply (rounds_to_between _ _ b32_prec b32_emax). Qed.

Lemma rounds32_error (x : R) (r : float) :
  rounds32 x r -> isfinite r = true ->
  (Rabs (F2R r - x) <= Rmax (bpow (-23) * Rabs x) (bpow (-149)))%R.
Proof. apply (rounds_to_error _ _ b32_prec b32_emax). Qed.

Lemma rounds32_nonneg (x : R) (r : float) :
  rounds32 x r -> isfinite r = true -> (0 <= x)%R -> (0 <= F2R r)%R.
Proof. apply (rounds_to_nonneg _ _ b32_prec b32_emax). Qed.

(** ** [wrap360] *)

Lemma valid32_lit_360 : valid32 (lit 360 0) /\ isfinite (lit 360 0) = true.
Proof. split; reflexivity. Qed.

Lemma F2R_lit_360 : F2R (lit 360 0) = 360%R.
Proof. eval_float (lit 360 0). unfold F2R. simpl. lra. Qed.

Lemma F2R_c0 : F2R c0 = 0%R.
Proof. reflexivity. Qed.

Lemma F2R_c1 : F2R c1 = 1%R.
Proof. eval_float c1. unfold F2R. simpl. lra. Qed.

Lemma wrap_up_range (fuel : nat) (deg : float) :
  valid32 deg -> isfinite deg = true -> (-360 <= F2R deg <= 360)%R ->
  exists d, wrap_up (S fuel) deg = Some d /\
            valid32 d /\ isfinite d = true /\ (0 <= F2R d <= 360)%R.
Proof.
  intros V F [Lo Hi]. destruct valid32_lit_360 as [V360 F360].
  cbn [wrap_up]. destruct (deg < c0) eqn:Neg.
  - apply flt_finite in Neg; try assumption; try reflexivity. rewrite F2R_c0 in Neg.
    pose proof (fadd_correct deg (lit 360 0) V V360 F F360) as R.
    apply (rounds32_between _ _ c0 (lit 360 0)) in R; try reflexivity.
    2:{ rewrite F2R_c0, F2R_lit_360. lra. }
    destruct R as [Fd Bd]. rewrite F2R_c0, F2R_lit_360 in Bd.
    assert (Vd : valid32 (deg + lit 360 0)) by (apply valid_fadd; assumption).
    exists (deg + lit 360 0).
    replace (wrap_up fuel (deg + lit 360 0)) with (Some (deg + lit 360 0)).
    + repeat split; try assumption; lra.
    + destruct fuel; cbn [wrap_up];
        (destruct (deg + lit 360 0 < c0) eqn:Neg'; [|reflexivity]);
        apply flt_finite in Neg'; try assumption; try reflexivity;
        rewrite F2R_c0 in Neg'; lra.
  - exists deg. repeat split; try assumption.
    destruct (Rle_lt_dec 0 (F2R deg)) as [P|P]; [exact P|].
    apply (flt_finite deg c0) in P; try assumption; try reflexivity.
    rewrite P in Neg. discriminate.
Qed.

Lemma wrap_down_range (fuel : nat) (deg : float) :
  valid32 deg -> isfinite deg = true -> (0 <= F2R deg <= 360)%R ->
  exists d, wrap_down (S fuel) deg = Some d /\
            valid32 d /\ isfinite d = true /\ (0 <= F2R d < 360)%R.
Proof.
  intros V F [Lo Hi]. destruct valid32_lit_360 as [V360 F360].
  cbn [wrap_down]. destruct (deg >= lit 360 0) eqn:Big.
  - apply fle_finite in Big; try assumption. rewrite F2R_lit_360 in Big.
    pose proof (fsub_correct deg (lit 360 0) V V360 F F360) as R.
    apply (rounds32_between _ _ c0 c0) in R; try reflexivity.
    2:{ rewrite F2R_c0, F2R_lit_360. lra. }
    destruct R as [Fd Bd]. rewrite F2R_c0 in Bd.
    assert (Vd : valid32 (deg - lit 360 0)) by (apply valid_fsub; assumption).
    exists (deg - lit 360 0).
    replace (wrap_down fuel (deg - lit 360 0)) with (Some (deg - lit 360 0)).
    + repeat split; try assumption; lra.
    + destruct fuel; cbn [wrap_down];
        (destruct (deg - lit 360 0 >= lit 360 0) eqn:Big'; [|reflexivity]);
        apply fle_finite in Big'; try assumption;
        rewrite F2R_lit_360 in Big'; lra.
  - exists deg. repeat split; try assumption.
    destruct (Rle_lt_dec 360 (F2R deg)) as [P|P]; [|exact P].
    rewrite <- F2R_lit_360 in P.
    apply (fle_finite (lit 360 0) deg) in P; try assumption.
    rewrite P in Big. discriminate.
Qed.

Lemma wrap360_range (fuel : nat) (deg : float) :
  valid32 deg -> isfinite deg = true -> (-360 <= F2R deg <= 360)%R ->
  exists h, wrap360 (S fuel) deg = Some h /\
            valid32 h /\ isfinite h = true /\ (0 <= F2R h < 360)%R /\
            (c0 <= h) = true /\ (h < lit 360 0) = true.
Proof.
  intros V F B. destruct (wrap_up_range fuel deg V F B) as (d & E & Vd & Fd & Bd).
  destruct (wrap_down_range fuel d Vd Fd Bd) as (h & E' & Vh & Fh & Bh).
  exists h. unfold wrap360. rewrite E, E'. repeat split; try assumption; try lra.
  - apply fle_finite; try assumption; try reflexivity. rewrite F2R_c0. lra.
  - apply flt_finite; try assumption; try reflexivity. rewrite F2R_lit_360. lra.
Qed.

(** In binary32, [1e30f - 360.0f] is [1e30f]: the second loop of [wrap360]
    makes no progress. *)
Lemma wrap_down_1e30 (fuel : nat) : wrap_down fuel (lit 1 30) = None.
Proof.
  induction fuel as [|fuel IH]; [reflexivity|].
  cbn [wrap_down].
  replace (lit 1 30 >= lit 360 0) with true by (vm_compute; reflexivity).
  replace (lit 1 30 - lit 360 0) with (lit 1 30) by (vm_compute; reflexivity).
  exact IH.
Qed.

Lemma wrap360_1e30 (fuel : nat) : wrap360 fuel (lit 1 30) = None.
Proof.
  unfold wrap360.
  replace (wrap_up fuel (lit 1 30)) with (Some (lit 1 30)).
  - apply wrap_down_1e30.
  - destruct fuel; reflexivity.
Qed.

End Machine.

Local Close Scope R_scope.
Local Close Scope Z_scope.

(* ================================================================== *)
(** * The driver's read functions *)
(* ================================================================== *)

Section DriverFacts.
Variable Device : Type.
Variable spi_write : Device -> list Z -> Device.
Variable spi_read : Device -> Z -> nat -> list Z * Device.

Local Abbreviation read_accel := (icm20948_read_accel spi_write spi_read).
Local Abbreviation read_gyro := (icm20948_read_gyro spi_write spi_read).
Local Abbreviation read_accel_gyro := (icm20948_read_accel_gyro spi_write spi_read).
Local Abbreviation read_mag := (icm20948_read_mag spi_write spi_read).

Lemma read_accel_result data d :
  fst (fst (read_accel data d)) = false <-> data = None.
Proof.
  unfold icm20948_read_accel. destruct data as [old|].
  - destruct (read_registers _ _ _ _) as [buffer d']. simpl. split; discriminate.
  - simpl. tauto.
Qed.

Lemma read_gyro_result data d :
  fst (fst (read_gyro data d)) = false <-> data = None.
Proof.
  unfold icm20948_read_gyro. destruct data as [old|].
  - destruct (read_registers _ _ _ _) as [buffer d']. simpl. split; discriminate.
  - simpl. tauto.
Qed.

Lemma read_accel_gyro_result accel gyro d :
  fst (fst (fst (read_accel_gyro accel gyro d))) = false <-> accel = None \/ gyro = None.
Proof.
  unfold icm20948_read_accel_gyro. destruct accel as [a|], gyro as [g|]; simpl;
    try (split; [auto | reflexivity]).
  destruct (read_registers _ _ _ _) as [buffer d']. simpl.
  split; [discriminate | intros [H|H]; discriminate].
Qed.

Lemma read_mag_result data d :
  fst (fst (read_mag data d)) = false <->
  data = None \/
  Z.land (byte_at (fst (mag_buffer spi_write spi_read d)) 0) 1 = 0%Z \/
  Z.land (byte_at (fst (mag_buffer spi_write spi_read d)) 7) 8 <> 0%Z.
Proof.
  unfold icm20948_read_mag. destruct data as [old|]; [|simpl; tauto].
  destruct (mag_buffer _ _ _) as [buffer d']. simpl fst at 3 4.
  destruct (Z.eqb_spec (Z.land (byte_at buffer 0) 1) 0) as [E0|E0].
  - simpl. tauto.
  - destruct (Z.eqb_spec (Z.land (byte_at buffer 7) 8) 0) as [E7|E7]; simpl.
    + split; [discriminate|]. intros [H|[H|H]]; [discriminate|contradiction|contradiction].
    + tauto.
Qed.

End DriverFacts.

(* ================================================================== *)
(** * A tick whose sensor read fails *)
(* ================================================================== *)

Section LoopFacts.
Context {A : CArith} {L : LibM A}.

Lemma test_gyro_failed_read s i :
  key2 i = false ->
  accel_read i = None \/ gyro_read i = None ->
  action_test_gyro_pass s i = Continue s.
Proof.
  intros K H. unfold action_test_gyro_pass. rewrite K.
  destruct H as [H|H]; rewrite H; [reflexivity|].
  destruct (accel_read i); reflexivity.
Qed.

Lemma indicator_failed_read fuel s i :
  ai_key2 i = false ->
  accel_gyro_read i = None ->
  exists s', attitude_indicator_pass fuel s i = Some (Continue s') /\
    ai_filter s' = ai_filter s /\
    (gx_bias s', gy_bias s', gz_bias s') = (gx_bias s, gy_bias s, gz_bias s) /\
    (smooth_roll s', smooth_pitch s') = (smooth_roll s, smooth_pitch s) /\
    display_counter s' = display_counter s /\
    shown s' = shown s.
Proof.
  intros K H. unfold attitude_indicator_pass. rewrite K, H.
  destruct (_ <? _)%Z.
  - exists s. repeat split.
  - eexists. split; [reflexivity|]. simpl. repeat split.
Qed.

End LoopFacts.

(* ================================================================== *)
(** * The 9-DOF update and its degenerate magnetometer *)
(* ================================================================== *)

Section UpdateFacts.
Local Existing Instance machine.
Local Open Scope cf_scope.

Lemma feq_zero_zero (s : bool) : (S754_zero s == c0) = true.
Proof. destruct s; reflexivity. Qed.

Lemma inv_sqrt_degenerate (x : float) :
  (x <= c1e_20) = true \/ isfinite x = false -> inv_sqrt x = c0.
Proof.
  intros H. unfold inv_sqrt.
  destruct H as [H|H]; rewrite H; [reflexivity|].
  rewrite orb_true_r. reflexivity.
Qed.

End UpdateFacts.

Local Close Scope Z_scope.
Local Open Scope R_scope.

(* ================================================================== *)
(** * Rounding error of the quaternion normalisation *)
(* ================================================================== *)

(** The unit roundoff of binary32 (one unit in the last place of 1) and
    its smallest positive number. *)
Lemma bpow_neg_val (n : Z) : (0 <= n)%Z -> bpow (- n) = / IZR (2 ^ n).
Proof.
  intros H. rewrite bpow_IZR by assumption.
  apply Rmult_eq_reg_r with (bpow n); [|apply Rgt_not_eq, bpow_gt_0].
  rewrite <- bpow_add, Rinv_l by (apply Rgt_not_eq, bpow_gt_0).
  replace (- n + n)%Z with 0%Z by lia. reflexivity.
Qed.

Lemma ulp_val : bpow (-23) = / 8388608.
Proof. change (-23)%Z with (Z.opp 23). rewrite (bpow_neg_val 23) by lia. reflexivity. Qed.

Lemma eta_val : bpow (-149) = / 713623846352979940529142984724747568191373312.
Proof. change (-149)%Z with (Z.opp 149). rewrite (bpow_neg_val 149) by lia. reflexivity. Qed.

Lemma Rabs_le_inv (x y : R) : Rabs x <= y -> - y <= x <= y.
Proof.
  intros H. unfold Rabs in H. destruct (Rcase_abs x); lra.
Qed.

Section NormalisationError.

Local Abbreviation u := (/ 8388608).
Local Abbreviation eta := (/ 713623846352979940529142984724747568191373312).

(** The sum of four rounded squares, rounded after each addition. *)
Lemma sum_of_squares_error (x0 x1 x2 x3 p0 p1 p2 p3 s1 s2 S : R) :
  0 <= x0 -> 0 <= x1 -> 0 <= x2 -> 0 <= x3 ->
  0 <= p0 -> 0 <= p1 -> 0 <= p2 -> 0 <= p3 -> 0 <= s1 -> 0 <= s2 ->
  Rabs (p0 - x0) <= u * x0 + eta ->
  Rabs (p1 - x1) <= u * x1 + eta ->
  Rabs (p2 - x2) <= u * x2 + eta ->
  Rabs (p3 - x3) <= u * x3 + eta ->
  Rabs (s1 - (p0 + p1)) <= u * (p0 + p1) + eta ->
  Rabs (s2 - (s1 + p2)) <= u * (s1 + p2) + eta ->
  Rabs (S - (s2 + p3)) <= u * (s2 + p3) + eta ->
  / 147573952589676412928 <= S ->
  let T := x0 + x1 + x2 + x3 in
  (1 - 6 * u) * T <= S <= (1 + 6 * u) * T /\ / 295147905179352825856 <= T.
Proof.
  intros X0 X1 X2 X3 P0 P1 P2 P3 S1 S2 H0 H1 H2 H3 H4 H5 H6 L T. subst T.
  apply Rabs_le_inv in H0, H1, H2, H3, H4, H5, H6.
  assert (A1 : s1 <= (1 + u) * ((1 + u) * (x0 + x1) + 2 * eta) + eta) by nra.
  assert (B1 : (1 - u) * ((1 - u) * (x0 + x1) - 2 * eta) - eta <= s1) by nra.
  assert (A2 : s2 <= (1 + u) * (s1 + (1 + u) * x2 + eta) + eta) by nra.
  assert (B2 : (1 - u) * (s1 + (1 - u) * x2 - eta) - eta <= s2) by nra.
  assert (A3 : S <= (1 + u) * (s2 + (1 + u) * x3 + eta) + eta) by nra.
  assert (B3 : (1 - u) * (s2 + (1 - u) * x3 - eta) - eta <= S) by nra.
  assert (T1 : / 295147905179352825856 <= x0 + x1 + x2 + x3) by nra.
  split; [split|exact T1]; nra.
Qed.

(** The rounded reciprocal of the rounded square root. *)
Lemma recip_norm_error (T S sigma s w r : R) :
  0 < T -> (1 - 6 * u) * T <= S <= (1 + 6 * u) * T ->
  0 <= sigma -> sigma * sigma = S ->
  Rabs (s - sigma) <= u * sigma ->
  0 < s -> w * s = 1 ->
  Rabs (r - w) <= u * w ->
  1 - 14 * u <= r * r * T <= 1 + 14 * u /\ 0 < r.
Proof.
  intros PT [SL SH] PS ES Hs Ps Ew Hr.
  apply Rabs_le_inv in Hs, Hr.
  assert (Pw : 0 < w).
  { destruct (Rlt_le_dec 0 w) as [G|G]; [exact G|]. exfalso. nra. }
  assert (PSig : 0 < sigma).
  { destruct (Rlt_le_dec 0 sigma) as [G|G]; [exact G|]. exfalso.
    assert (sigma = 0) by lra. subst sigma. nra. }
  set (z := w * sigma).
  assert (Z1 : (1 - u) * z <= 1) by (unfold z; nra).
  assert (Z2 : 1 <= (1 + u) * z) by (unfold z; nra).
  set (g := r * sigma).
  assert (G1 : g <= (1 + u) * z) by (unfold g, z; nra).
  assert (G2 : (1 - u) * z <= g) by (unfold g, z; nra).
  assert (G3 : 1 - 3 * u <= g <= 1 + 3 * u) by (split; nra).
  assert (G4 : 1 - 7 * u <= g * g <= 1 + 7 * u) by (split; nra).
  assert (E : g * g = r * r * S) by (unfold g; rewrite <- ES; ring).
  rewrite E in G4.
  assert (Pr : 0 < r) by nra.
  split; [|exact Pr].
  assert (R2 : 0 < r * r) by nra.
  split; nra.
Qed.

(** One component scaled and rounded. *)
Lemma scaled_component_error (y b : R) :
  y * y <= 1 + 14 * u ->
  Rabs (b - y) <= u * Rabs y + eta ->
  Rabs (b * b - y * y) <= 2 * u * (y * y) + 2 * (u * u).
Proof.
  intros Y H. apply Rabs_le_inv in H. apply Rabs_le.
  assert (A : Rabs y <= 1 + 7 * u).
  { unfold Rabs. destruct (Rcase_abs y); nra. }
  assert (A2 : Rabs y * Rabs y = y * y).
  { unfold Rabs. destruct (Rcase_abs y); ring. }
  pose proof (Rabs_pos y) as A0.
  set (e := b - y) in *. replace b with (y + e) by (unfold e; ring).
  assert (E2 : e * e <= (u * Rabs y + eta) * (u * Rabs y + eta)) by nra.
  assert (YE : - (Rabs y * (u * Rabs y + eta)) <= y * e <= Rabs y * (u * Rabs y + eta)).
  { unfold Rabs in *. destruct (Rcase_abs y); split; nra. }
  split; nra.
Qed.

(** The squared norm of the normalised quaternion is within [2^-18] of 1. *)
Lemma normalised_norm_error (a0 a1 a2 a3 r b0 b1 b2 b3 : R) :
  1 - 14 * u <= r * r * (a0 * a0 + a1 * a1 + a2 * a2 + a3 * a3) <= 1 + 14 * u ->
  Rabs (b0 - a0 * r) <= u * Rabs (a0 * r) + eta ->
  Rabs (b1 - a1 * r) <= u * Rabs (a1 * r) + eta ->
  Rabs (b2 - a2 * r) <= u * Rabs (a2 * r) + eta ->
  Rabs (b3 - a3 * r) <= u * Rabs (a3 * r) + eta ->
  Rabs (b0 * b0 + b1 * b1 + b2 * b2 + b3 * b3 - 1) <= / 262144.
Proof.
  intros Rho H0 H1 H2 H3.
  set (y0 := a0 * r) in *. set (y1 := a1 * r) in *.
  set (y2 := a2 * r) in *. set (y3 := a3 * r) in *.
  assert (E : r * r * (a0 * a0 + a1 * a1 + a2 * a2 + a3 * a3)
              = y0 * y0 + y1 * y1 + y2 * y2 + y3 * y3) by (unfold y0, y1, y2, y3; ring).
  rewrite E in Rho. clear E.
  pose proof (Rle_0_sqr y0) as S0. pose proof (Rle_0_sqr y1) as S1.
  pose proof (Rle_0_sqr y2) as S2. pose proof (Rle_0_sqr y3) as S3.
  unfold Rsqr in S0, S1, S2, S3.
  apply scaled_component_error in H0; [|lra].
  apply scaled_component_error in H1; [|lra].
  apply scaled_component_error in H2; [|lra].
  apply scaled_component_error in H3; [|lra].
  apply Rabs_le_inv in H0, H1, H2, H3. apply Rabs_le. split; lra.
Qed.

End NormalisationError.

(** ** Numerals for powers of two *)

Lemma bpow_Zneg (p : positive) : bpow (Zneg p) = / IZR (2 ^ Zpos p).
Proof. change (Zneg p) with (Z.opp (Zpos p)). apply bpow_neg_val. lia. Qed.

Lemma bpow_Zpos (p : positive) : bpow (Zpos p) = IZR (2 ^ Zpos p).
Proof. symmetry. apply bpow_IZR. lia. Qed.

Lemma bpow_0 : bpow 0 = 1.
Proof. reflexivity. Qed.

(** Replace every power of two with a constant exponent by its numeral. *)
Ltac bpow_num :=
  repeat match goal with
  | |- context [bpow (Zneg ?p)] =>
      rewrite (bpow_Zneg p);
      let v := eval vm_compute in (2 ^ Zpos p)%Z in change (2 ^ Zpos p)%Z with v
  | |- context [bpow (Zpos ?p)] =>
      rewrite (bpow_Zpos p);
      let v := eval vm_compute in (2 ^ Zpos p)%Z in change (2 ^ Zpos p)%Z with v
  | |- context [bpow 0] => rewrite bpow_0
  | H : context [bpow (Zneg ?p)] |- _ =>
      rewrite (bpow_Zneg p) in H;
      let v := eval vm_compute in (2 ^ Zpos p)%Z in change (2 ^ Zpos p)%Z with v in H
  | H : context [bpow (Zpos ?p)] |- _ =>
      rewrite (bpow_Zpos p) in H;
      let v := eval vm_compute in (2 ^ Zpos p)%Z in change (2 ^ Zpos p)%Z with v in H
  | H : context [bpow 0] |- _ => rewrite bpow_0 in H
  end.

(** The value of a float given by its fields, as a numeral. *)
Ltac F2R_num :=
  rewrite ?F2R_finite in *; cbv iota in *; bpow_num.

Section MachineNormalisation.
Local Existing Instance machine.

Lemma finite_fadd (x y : float) :
  isfinite (fadd x y) = true -> isfinite x = true /\ isfinite y = true.
Proof. apply (finite_SFadd _ _ b32_prec b32_emax). Qed.

Lemma finite_fsub (x y : float) :
  isfinite (fsub x y) = true -> isfinite x = true /\ isfinite y = true.
Proof. apply (finite_SFsub _ _ b32_prec b32_emax). Qed.

Lemma finite_fmul (x y : float) :
  isfinite (fmul x y) = true -> isfinite x = true /\ isfinite y = true.
Proof. apply (finite_SFmul _ _ b32_prec b32_emax). Qed.

Lemma rounds32_abs_error (x : R) (r : float) :
  rounds32 x r -> isfinite r = true ->
  Rabs (F2R r - x) <= / 8388608 * Rabs x
                      + / 713623846352979940529142984724747568191373312.
Proof.
  intros H F. pose proof (rounds32_error x r H F) as E.
  rewrite ulp_val, eta_val in E. pose proof (Rabs_pos x).
  apply Rle_trans with (1 := E). apply Rmax_lub; lra.
Qed.

Lemma rounds32_abs_error_nonneg (x : R) (r : float) :
  rounds32 x r -> isfinite r = true -> 0 <= x ->
  Rabs (F2R r - x) <= / 8388608 * x
                      + / 713623846352979940529142984724747568191373312.
Proof.
  intros H F P. pose proof (rounds32_abs_error x r H F) as E.
  rewrite (Rabs_pos_eq x) in E by exact P. exact E.
Qed.

Lemma rounds32_rel_error (x : R) (r : float) :
  rounds32 x r -> isfinite r = true ->
  / 85070591730234615865843651857942052864 <= Rabs x ->
  Rabs (F2R r - x) <= / 8388608 * Rabs x.
Proof.
  intros H F N. pose proof (rounds32_error x r H F) as E.
  rewrite ulp_val, eta_val in E.
  apply Rle_trans with (1 := E). apply Rmax_lub; lra.
Qed.

End MachineNormalisation.

(** Every value computed from binary32 values by the operations of the
    C code is a binary32 value. *)
Ltac valid32_step :=
  lazymatch goal with
  | |- valid32 (fadd _ _) => apply valid_fadd
  | |- valid32 (fsub _ _) => apply valid_fsub
  | |- valid32 (fmul _ _) => apply valid_fmul
  | |- valid32 (fdiv _ _) => apply valid_fdiv
  | |- valid32 (fneg _) => apply valid_fneg
  | |- valid32 (sqrtf _) => apply valid_sqrtf
  | |- valid32 (lit _ _) => exact (eq_refl true)
  | |- valid32 _ => assumption
  end.

Ltac valid32_solve := repeat valid32_step.

Section IntegrateNorm.
Local Existing Instance machine.
Local Open Scope cf_scope.

Lemma feq_zero_refl : (c0 == c0) = true.
Proof. reflexivity. Qed.

(** [inv_sqrt] returns zero unless its argument is finite and above
    1e-20. *)
Lemma inv_sqrt_nonzero (x : float) :
  (inv_sqrt x == c0) = false ->
  (x <= c1e_20) = false /\ isfinite x = true /\ inv_sqrt x = c1 / sqrtf x.
Proof.
  unfold inv_sqrt. destruct (x <= c1e_20) eqn:L; cbn [orb].
  - rewrite feq_zero_refl. discriminate.
  - destruct (isfinite x) eqn:F; cbn [negb].
    + intros _. repeat split.
    + rewrite feq_zero_refl. discriminate.
Qed.

Lemma fle_false_finite (x y : float) :
  valid32 x -> valid32 y -> isfinite x = true -> isfinite y = true ->
  fle x y = false -> (F2R y < F2R x)%R.
Proof.
  intros Vx Vy Fx Fy H. apply flt_finite; try assumption.
  apply fle_false_flt; try assumption.
  - destruct x; try discriminate; reflexivity.
  - destruct y; try discriminate; reflexivity.
Qed.

Lemma F2R_square_nonneg (x : float) : (0 <= F2R x * F2R x)%R.
Proof. nra. Qed.

(** The reciprocal norm [1.0f / sqrtf(x)] of a finite [x] above 1e-20. *)
Lemma recip_norm_correct (x : float) :
  valid32 x -> isfinite x = true -> (x <= c1e_20) = false ->
  let r := c1 / sqrtf x in
  valid32 r /\ isfinite r = true /\
  exists sigma s w : R,
    (0 <= sigma /\ sigma * sigma = F2R x /\
     Rabs (s - sigma) <= / 8388608 * sigma /\
     0 < s /\ w * s = 1 /\
     Rabs (F2R r - w) <= / 8388608 * w)%R.
Proof.
  intros V F L r.
  apply fle_false_finite in L; try assumption; try reflexivity.
  assert (L1 : (/ 147573952589676412928 <= F2R x)%R).
  { apply Rlt_le. apply Rle_lt_trans with (2 := L).
    eval_float c1e_20. F2R_num. lra. }
  pose proof (valid_finite_lt_bpow_emax _ _ b32_prec b32_emax x V F) as U.
  change B32.emax with 128%Z in U. rewrite Rabs_pos_eq in U by lra. bpow_num.
  assert (P : (0 <= F2R x)%R) by lra.
  pose proof (sqrt_pos (F2R x)) as S0. pose proof (sqrt_sqrt (F2R x) P) as S2.
  set (sigma := sqrt (F2R x)) in *.
  assert (SL : (/ 17179869184 <= sigma)%R) by nra.
  assert (SH : (sigma <= 18446744073709551616)%R) by nra.
  pose proof (sqrtf_correct x V F P) as RS. fold sigma in RS.
  assert (Vs : valid32 (sqrtf x)) by (apply valid_sqrtf; assumption).
  destruct (rounds32_between sigma (sqrtf x)
              (S754_finite false 8388608 (-57)) (S754_finite false 8388608 41) RS)
    as [Fs Bs]; try reflexivity.
  { F2R_num. lra. }
  pose proof (rounds32_rel_error sigma (sqrtf x) RS Fs) as Es.
  rewrite Rabs_pos_eq in Es by lra. specialize (Es ltac:(lra)).
  set (s := F2R (sqrtf x)) in *. F2R_num.
  assert (Ps : (0 < s)%R) by lra.
  assert (NZ : F2R (sqrtf x) <> 0%R) by (fold s; lra).
  pose proof (fdiv_correct c1 (sqrtf x) eq_refl Vs eq_refl Fs NZ) as RD.
  fold s in RD. rewrite F2R_c1 in RD.
  set (w := (1 / s)%R) in *.
  assert (Ew : (w * s = 1)%R) by (unfold w; field; lra).
  assert (WL : (/ 18446744073709551616 <= w <= 17179869184)%R).
  { split.
    - apply Rmult_le_reg_r with s; [exact Ps|]. rewrite Ew.
      apply Rmult_le_reg_l with 18446744073709551616%R; [lra|].
      rewrite <- Rmult_assoc, Rinv_r by lra. lra.
    - apply Rmult_le_reg_r with s; [exact Ps|]. rewrite Ew. nra. }
  assert (Vr : valid32 r) by (apply valid_fdiv; [reflexivity|assumption]).
  destruct (rounds32_between w r
              (S754_finite false 8388608 (-87)) (S754_finite false 8388608 11) RD)
    as [Fr Br]; try reflexivity.
  { F2R_num. lra. }
  pose proof (rounds32_rel_error w r RD Fr) as Er.
  rewrite Rabs_pos_eq in Er by lra. specialize (Er ltac:(lra)).
  split; [exact Vr|]. split; [exact Fr|].
  exists sigma, s, w. repeat split; try assumption; lra.
Qed.

(** The normalisation at the end of both updates. *)
Lemma normalise_unit_or_identity (filter : MadgwickFilter) (a0 a1 a2 a3 : float) :
  valid32 a0 -> valid32 a1 -> valid32 a2 -> valid32 a3 ->
  let qi := {| q0 := a0; q1 := a1; q2 := a2; q3 := a3 |} in
  let recipNorm := inv_sqrt (norm_sq qi) in
  unit_or_identity
    (q (if recipNorm == c0 then reset_quaternion filter
        else set_q filter {| q0 := a0 * recipNorm; q1 := a1 * recipNorm;
                             q2 := a2 * recipNorm; q3 := a3 * recipNorm |})).
Proof.
  intros V0 V1 V2 V3 qi recipNorm.
  destruct (recipNorm == c0) eqn:Z; [left; reflexivity|right].
  apply inv_sqrt_nonzero in Z. fold recipNorm in Z. destruct Z as (L & F & E).
  unfold norm_sq in L, F, E. cbn [qi q0 q1 q2 q3] in L, F, E.
  set (p0 := a0 * a0) in *. set (p1 := a1 * a1) in *.
  set (p2 := a2 * a2) in *. set (p3 := a3 * a3) in *.
  set (s1 := p0 + p1) in *. set (s2 := s1 + p2) in *. set (S := s2 + p3) in *.
  (* everything that was summed is finite *)
  destruct (finite_fadd _ _ F) as [Fs2 Fp3]. fold s2 in Fs2.
  destruct (finite_fadd _ _ Fs2) as [Fs1 Fp2]. fold s1 in Fs1.
  destruct (finite_fadd _ _ Fs1) as [Fp0 Fp1].
  destruct (finite_fmul _ _ Fp0) as [F0 _]. destruct (finite_fmul _ _ Fp1) as [F1 _].
  destruct (finite_fmul _ _ Fp2) as [F2 _]. destruct (finite_fmul _ _ Fp3) as [F3 _].
  assert (Vp0 : valid32 p0) by (apply valid_fmul; assumption).
  assert (Vp1 : valid32 p1) by (apply valid_fmul; assumption).
  assert (Vp2 : valid32 p2) by (apply valid_fmul; assumption).
  assert (Vp3 : valid32 p3) by (apply valid_fmul; assumption).
  assert (Vs1 : valid32 s1) by (apply valid_fadd; assumption).
  assert (Vs2 : valid32 s2) by (apply valid_fadd; assumption).
  assert (VS : valid32 S) by (apply valid_fadd; assumption).
  (* the rounding of each operation *)
  pose proof (fmul_correct a0 a0 V0 V0 F0 F0) as R0.
  pose proof (fmul_correct a1 a1 V1 V1 F1 F1) as R1.
  pose proof (fmul_correct a2 a2 V2 V2 F2 F2) as R2.
  pose proof (fmul_correct a3 a3 V3 V3 F3 F3) as R3.
  pose proof (fadd_correct p0 p1 Vp0 Vp1 Fp0 Fp1) as R4.
  pose proof (fadd_correct s1 p2 Vs1 Vp2 Fs1 Fp2) as R5.
  pose proof (fadd_correct s2 p3 Vs2 Vp3 Fs2 Fp3) as R6.
  fold p0 in R0. fold p1 in R1. fold p2 in R2. fold p3 in R3.
  fold s1 in R4. fold s2 in R5. fold S in R6.
  pose proof (F2R_square_nonneg a0) as X0. pose proof (F2R_square_nonneg a1) as X1.
  pose proof (F2R_square_nonneg a2) as X2. pose proof (F2R_square_nonneg a3) as X3.
  pose proof (rounds32_nonneg _ _ R0 Fp0 X0) as P0.
  pose proof (rounds32_nonneg _ _ R1 Fp1 X1) as P1.
  pose proof (rounds32_nonneg _ _ R2 Fp2 X2) as P2.
  pose proof (rounds32_nonneg _ _ R3 Fp3 X3) as P3.
  assert (P4 : (0 <= F2R s1)%R) by (apply (rounds32_nonneg _ _ R4 Fs1); lra).
  assert (P5 : (0 <= F2R s2)%R) by (apply (rounds32_nonneg _ _ R5 Fs2); lra).
  pose proof (rounds32_abs_error_nonneg _ _ R0 Fp0 X0) as E0.
  pose proof (rounds32_abs_error_nonneg _ _ R1 Fp1 X1) as E1.
  pose proof (rounds32_abs_error_nonneg _ _ R2 Fp2 X2) as E2.
  pose proof (rounds32_abs_error_nonneg _ _ R3 Fp3 X3) as E3.
  pose proof (rounds32_abs_error_nonneg _ _ R4 Fs1 ltac:(lra)) as E4.
  pose proof (rounds32_abs_error_nonneg _ _ R5 Fs2 ltac:(lra)) as E5.
  pose proof (rounds32_abs_error_nonneg _ _ R6 F ltac:(lra)) as E6.
  destruct (recip_norm_correct S VS F L) as (Vr & Fr & sigma & s & w & Sg & Sq & Es & Ps & Ew & Er).
  rewrite <- E in Vr, Fr, Er. clear E.
  assert (L1 : (/ 147573952589676412928 <= F2R S)%R).
  { apply fle_false_finite in L; try assumption; try reflexivity.
    apply Rlt_le. apply Rle_lt_trans with (2 := L).
    eval_float c1e_20. F2R_num. lra. }
  destruct (sum_of_squares_error _ _ _ _ _ _ _ _ _ _ _
              X0 X1 X2 X3 P0 P1 P2 P3 P4 P5 E0 E1 E2 E3 E4 E5 E6 L1) as [ST TL].
  set (T := (F2R a0 * F2R a0 + F2R a1 * F2R a1 + F2R a2 * F2R a2 + F2R a3 * F2R a3)%R) in *.
  assert (PT : (0 < T)%R) by lra.
  destruct (recip_norm_error T (F2R S) sigma s w (F2R recipNorm)
              PT ST Sg Sq Es Ps Ew Er) as [Rho Pr].
  (* the four scaled components *)
  assert (Comp : forall a : float, valid32 a -> isfinite a = true ->
            (F2R a * F2R a <= T)%R ->
            isfinite (a * recipNorm) = true /\
            (Rabs (F2R (fmul a recipNorm) - F2R a * F2R recipNorm)
             <= / 8388608 * Rabs (F2R a * F2R recipNorm)
                + / 713623846352979940529142984724747568191373312)%R).
  { intros a Va Fa Ha.
    pose proof (fmul_correct a recipNorm Va Vr Fa Fr) as Rm.
    assert (B : (-2 <= F2R a * F2R recipNorm <= 2)%R).
    { assert ((F2R a * F2R recipNorm) * (F2R a * F2R recipNorm) <= 2)%R by nra.
      split; nra. }
    destruct (rounds32_between _ _ (S754_finite true 8388608 (-22))
                (S754_finite false 8388608 (-22)) Rm) as [Fm _]; try reflexivity.
    { F2R_num. lra. }
    split; [exact Fm|]. apply rounds32_abs_error; assumption. }
  destruct (Comp a0 V0 F0) as [G0 H0]; [unfold T; nra|].
  destruct (Comp a1 V1 F1) as [G1 H1]; [unfold T; nra|].
  destruct (Comp a2 V2 F2) as [G2 H2]; [unfold T; nra|].
  destruct (Comp a3 V3 F3) as [G3 H3]; [unfold T; nra|].
  cbn [set_q q]. split.
  - unfold quat_finite. cbn [q0 q1 q2 q3].
    change IEEE.is_finite with (@isfinite machine).
    rewrite G0, G1, G2, G3. reflexivity.
  - unfold exact_norm_sq, NORM_EPS. cbn [q0 q1 q2 q3].
    apply (normalised_norm_error (F2R a0) (F2R a1) (F2R a2) (F2R a3) (F2R recipNorm));
      assumption.
Qed.

Lemma integrate_unit_or_identity (filter : MadgwickFilter) (qDot : Quaternion) :
  filter_valid filter -> quat_valid qDot ->
  unit_or_identity (q (integrate filter qDot)).
Proof.
  intros ((V0 & V1 & V2 & V3) & _ & _ & Vi) (D0 & D1 & D2 & D3).
  unfold integrate, integrated. cbn [q0 q1 q2 q3].
  apply normalise_unit_or_identity; apply valid_fadd; try assumption;
    apply valid_fmul; assumption.
Qed.


(** ** Every value the updates compute is a binary32 value *)



Lemma inv_sqrt_valid (x : float) : valid32 x -> valid32 (inv_sqrt x).
Proof.
  intros V. unfold inv_sqrt.
  destruct ((x <= c1e_20) || negb (isfinite x)); valid32_solve.
Qed.

Lemma gyro_rate_valid (f : Quaternion) (gx gy gz : float) :
  quat_valid f -> valid32 gx -> valid32 gy -> valid32 gz ->
  quat_valid (gyro_rate f gx gy gz).
Proof.
  intros (V0 & V1 & V2 & V3) Vx Vy Vz.
  unfold gyro_rate, quat_valid. cbn [q0 q1 q2 q3]. repeat split; valid32_solve.
Qed.

Lemma norm_sq_valid (f : Quaternion) : quat_valid f -> valid32 (norm_sq f).
Proof.
  intros (V0 & V1 & V2 & V3). unfold norm_sq. valid32_solve.
Qed.

Lemma apply_feedback_valid (beta : float) (qDot s : Quaternion) :
  valid32 beta -> quat_valid qDot -> quat_valid s ->
  quat_valid (apply_feedback beta qDot s).
Proof.
  intros Vb D S. unfold apply_feedback.
  destruct (norm_sq s > c1e_12); [|exact D].
  pose proof (inv_sqrt_valid _ (norm_sq_valid s S)) as Vr.
  destruct D as (D0 & D1 & D2 & D3). destruct S as (S0 & S1 & S2 & S3).
  unfold quat_valid. cbn [q0 q1 q2 q3]. repeat split; valid32_solve.
Qed.

Lemma imu_gradient_valid (f : Quaternion) (ax ay az : float) :
  quat_valid f -> valid32 ax -> valid32 ay -> valid32 az ->
  quat_valid (imu_gradient f ax ay az).
Proof.
  intros (V0 & V1 & V2 & V3) Vx Vy Vz.
  unfold imu_gradient, quat_valid. cbn [q0 q1 q2 q3]. repeat split; valid32_solve.
Qed.

Lemma marg_gradient_valid (f : Quaternion) (ax ay az mx my mz : float) :
  quat_valid f -> valid32 ax -> valid32 ay -> valid32 az ->
  valid32 mx -> valid32 my -> valid32 mz ->
  quat_valid (marg_gradient f ax ay az mx my mz).
Proof.
  intros (V0 & V1 & V2 & V3) Vx Vy Vz Wx Wy Wz.
  unfold marg_gradient.
  set (hx := _ - mx * (q3 f * q3 f)).
  set (hy := _ - my * (q3 f * q3 f)).
  assert (Vhx : valid32 hx) by (unfold hx; valid32_solve).
  assert (Vhy : valid32 hy) by (unfold hy; valid32_solve).
  set (bx := sqrtf (hx * hx + hy * hy)).
  assert (Vbx : valid32 bx) by (unfold bx; valid32_solve).
  clearbody bx. clear hx hy Vhx Vhy.
  set (bz := _ + mz * (q3 f * q3 f)).
  assert (Vbz : valid32 bz) by (unfold bz; valid32_solve).
  clearbody bz.
  unfold quat_valid. cbn [q0 q1 q2 q3]. repeat split; valid32_solve.
Qed.

Lemma integrate_filter_valid (filter : MadgwickFilter) (qDot : Quaternion) :
  filter_valid filter -> quat_valid qDot ->
  filter_valid (integrate filter qDot).
Proof.
  intros ((V0 & V1 & V2 & V3) & Vb & Vf & Vi) (D0 & D1 & D2 & D3).
  assert (VI : quat_valid (integrated filter qDot)).
  { unfold integrated, quat_valid. cbn [q0 q1 q2 q3]. repeat split; valid32_solve. }
  pose proof (inv_sqrt_valid _ (norm_sq_valid _ VI)) as Vr.
  destruct VI as (I0 & I1 & I2 & I3).
  unfold integrate. cbv zeta.
  destruct (inv_sqrt _ == c0).
  - repeat split; try assumption; reflexivity.
  - repeat split; try assumption; cbn [set_q q q0 q1 q2 q3]; valid32_solve.
Qed.

Lemma integrate_degenerate (filter : MadgwickFilter) (qDot : Quaternion) :
  (norm_sq (integrated filter qDot) <= c1e_20) = true \/
  isfinite (norm_sq (integrated filter qDot)) = false ->
  q (integrate filter qDot) = identity_quaternion.
Proof.
  intros D. apply inv_sqrt_degenerate in D. unfold integrate. cbv zeta.
  rewrite D. reflexivity.
Qed.

(** Both updates end in [integrate], applied to a rate of change made of
    binary32 values. *)
Lemma update_imu_integrates (filter : MadgwickFilter) (gx gy gz ax ay az : float) :
  filter_valid filter ->
  valid32 gx -> valid32 gy -> valid32 gz -> valid32 ax -> valid32 ay -> valid32 az ->
  exists qDot, quat_valid qDot /\
               madgwick_update_imu filter gx gy gz ax ay az = integrate filter qDot.
Proof.
  intros (Vq & Vb & Vf & Vi) Gx Gy Gz Ax Ay Az.
  pose proof (gyro_rate_valid (q filter) gx gy gz Vq Gx Gy Gz) as VD.
  unfold madgwick_update_imu.
  destruct ((ax * ax + ay * ay + az * az > c1e_8) && _);
    [|exists (gyro_rate (q filter) gx gy gz); split; [exact VD|reflexivity]].
  assert (Vr : valid32 (inv_sqrt (ax * ax + ay * ay + az * az)))
    by (apply inv_sqrt_valid; valid32_solve).
  destruct (inv_sqrt _ == c0);
    [exists (gyro_rate (q filter) gx gy gz); split; [exact VD|reflexivity]|].
  eexists. split; [|reflexivity].
  apply apply_feedback_valid; [exact Vb|exact VD|].
  apply imu_gradient_valid; try assumption; valid32_solve.
Qed.

Lemma update_integrates (filter : MadgwickFilter) (gx gy gz ax ay az mx my mz : float) :
  filter_valid filter ->
  valid32 gx -> valid32 gy -> valid32 gz -> valid32 ax -> valid32 ay -> valid32 az ->
  valid32 mx -> valid32 my -> valid32 mz ->
  exists qDot, quat_valid qDot /\
               madgwick_update filter gx gy gz ax ay az mx my mz = integrate filter qDot.
Proof.
  intros FV Gx Gy Gz Ax Ay Az Mx My Mz.
  unfold madgwick_update.
  destruct ((mx == c0) && (my == c0) && (mz == c0));
    [apply update_imu_integrates; assumption|].
  destruct FV as (Vq & Vb & Vf & Vi).
  pose proof (gyro_rate_valid (q filter) gx gy gz Vq Gx Gy Gz) as VD.
  destruct ((ax * ax + ay * ay + az * az > c1e_8) && _);
    [|exists (gyro_rate (q filter) gx gy gz); split; [exact VD|reflexivity]].
  assert (Vr : valid32 (inv_sqrt (ax * ax + ay * ay + az * az)))
    by (apply inv_sqrt_valid; valid32_solve).
  destruct (inv_sqrt (ax * ax + ay * ay + az * az) == c0);
    [exists (gyro_rate (q filter) gx gy gz); split; [exact VD|reflexivity]|].
  cbv zeta.
  assert (Vm : valid32 (inv_sqrt (mx * mx + my * my + mz * mz)))
    by (apply inv_sqrt_valid; valid32_solve).
  destruct (inv_sqrt (mx * mx + my * my + mz * mz) == c0);
    [exists (gyro_rate (q filter) gx gy gz); split; [exact VD|reflexivity]|].
  eexists. split; [|reflexivity].
  apply apply_feedback_valid; [exact Vb|exact VD|].
  apply marg_gradient_valid; try assumption; valid32_solve.
Qed.

End IntegrateNorm.

Local Close Scope Z_scope.
Local Open Scope R_scope.

(* ================================================================== *)
(** * Raw-to-physical conversion *)
(* ================================================================== *)

(** An integer below [2^24] in magnitude, scaled by a power of two in the
    normal range, is a binary32 value. *)
Lemma dyadic_representable_pos (p : positive) (k : Z) :
  (Zpos p < 2 ^ 24)%Z -> (-126 <= k <= 104)%Z -> forall s : bool,
  exists c, valid32 c /\ IEEE.is_finite c = true /\
            F2R c = (if s then -1 else 1) * (IZR (Zpos p) * bpow k).
Proof.
  intros B K s.
  set (d := Zdigits2 (Zpos p)).
  assert (D1 : (0 < d)%Z) by (apply Zdigits2_pos; lia).
  assert (D2 : (d <= 24)%Z) by (apply Zdigits2_le_iff; lia).
  set (j := (24 - d)%Z).
  assert (P2 : (0 < 2 ^ j)%Z) by (apply Z.pow_pos_nonneg; lia).
  set (m := Z.to_pos (Zpos p * 2 ^ j)).
  assert (M : Zpos m = (Zpos p * 2 ^ j)%Z) by (unfold m; rewrite Z2Pos.id; lia).
  exists (S754_finite s m (k - j)). split; [|split].
  - unfold valid32, valid, valid_binary, SpecFloat.bounded, canonical_mantissa.
    change (Zpos (digits2_pos m)) with (Zdigits2 (Zpos m)).
    rewrite M, Zdigits2_shift by lia. fold d.
    unfold SpecFloat.fexp, emin, B32.prec, B32.emax.
    apply andb_true_iff. split; [apply Z.eqb_eq|apply Z.leb_le]; lia.
  - reflexivity.
  - rewrite F2R_finite, M, bpow_shift by lia.
    replace (k - j + j)%Z with k by lia. reflexivity.
Qed.

Lemma dyadic_representable (n k : Z) :
  (Z.abs n < 2 ^ 24)%Z -> (-126 <= k <= 104)%Z ->
  exists c, valid32 c /\ IEEE.is_finite c = true /\ F2R c = IZR n * bpow k.
Proof.
  intros B K. destruct n as [|p|p].
  - exists (S754_zero false). repeat split. simpl. lra.
  - destruct (dyadic_representable_pos p k B K false) as (c & V & F & E).
    exists c. repeat split; try assumption. rewrite E. ring.
  - destruct (dyadic_representable_pos p k B K true) as (c & V & F & E).
    exists c. repeat split; try assumption. rewrite E.
    change (Zneg p) with (- Zpos p)%Z. rewrite opp_IZR. ring.
Qed.

Section MachineConversion.
Local Existing Instance machine.

(** A rounding of a binary32 value is that value. *)
Lemma rounds32_exact (x : R) (r c : float) :
  rounds32 x r -> valid32 c -> isfinite c = true -> F2R c = x ->
  isfinite r = true /\ F2R r = x.
Proof.
  intros R V F E.
  destruct (rounds32_between x r c c R V F V F) as [Fr B]; [lra|].
  split; [exact Fr|lra].
Qed.

Lemma of_int_exact (n : Z) :
  (Z.abs n < 2 ^ 24)%Z -> isfinite (of_int n) = true /\ F2R (of_int n) = IZR n.
Proof.
  intros B. destruct (dyadic_representable n 0 B ltac:(lia)) as (c & V & F & E).
  apply (rounds32_exact _ _ c (of_int_correct n) V F).
  rewrite E. unfold bpow. simpl. ring.
Qed.

Lemma int16_below_2_24 (r : Z) : is_int16 r -> (Z.abs r < 2 ^ 24)%Z.
Proof. unfold is_int16, INT16_MIN, INT16_MAX. lia. Qed.

(** Division of an integer by a power of two between [2^0] and [2^126]. *)
Lemma fdiv_pow2_exact (n k : Z) (d : float) :
  (Z.abs n < 2 ^ 24)%Z -> (0 <= k <= 126)%Z ->
  valid32 d -> isfinite d = true -> F2R d = bpow k ->
  isfinite (fdiv (of_int n) d) = true /\ F2R (fdiv (of_int n) d) = IZR n / bpow k.
Proof.
  intros B K Vd Fd Ed. destruct (of_int_exact n B) as [Fn En].
  destruct (dyadic_representable n (- k) B ltac:(lia)) as (c & V & F & E).
  pose proof (bpow_gt_0 k) as Pk.
  apply (rounds32_exact _ _ c); try assumption.
  - rewrite <- En, <- Ed. apply fdiv_correct; try assumption.
    + apply valid_of_int.
    + rewrite Ed. lra.
  - rewrite E. unfold Rdiv. f_equal.
    apply Rmult_eq_reg_r with (bpow k); [|lra].
    rewrite <- bpow_add, Rinv_l by lra. replace (- k + k)%Z with 0%Z by lia. reflexivity.
Qed.

Lemma accel_to_g_exact (r : Z) :
  is_int16 r ->
  (isfinite (icm20948_accel_to_g r ACCEL_RANGE_2G) = true /\
   F2R (icm20948_accel_to_g r ACCEL_RANGE_2G) = IZR r / 16384) /\
  (isfinite (icm20948_accel_to_g r ACCEL_RANGE_4G) = true /\
   F2R (icm20948_accel_to_g r ACCEL_RANGE_4G) = IZR r / 8192) /\
  (isfinite (icm20948_accel_to_g r ACCEL_RANGE_8G) = true /\
   F2R (icm20948_accel_to_g r ACCEL_RANGE_8G) = IZR r / 4096) /\
  (isfinite (icm20948_accel_to_g r ACCEL_RANGE_16G) = true /\
   F2R (icm20948_accel_to_g r ACCEL_RANGE_16G) = IZR r / 2048).
Proof.
  intros I. apply int16_below_2_24 in I.
  unfold icm20948_accel_to_g, accel_sensitivity,
    ACCEL_RANGE_2G, ACCEL_RANGE_4G, ACCEL_RANGE_8G, ACCEL_RANGE_16G.
  pose proof (fdiv_pow2_exact r 14 (lit 16384 0) I ltac:(lia) eq_refl eq_refl) as H14.
  pose proof (fdiv_pow2_exact r 13 (lit 8192 0) I ltac:(lia) eq_refl eq_refl) as H13.
  pose proof (fdiv_pow2_exact r 12 (lit 4096 0) I ltac:(lia) eq_refl eq_refl) as H12.
  pose proof (fdiv_pow2_exact r 11 (lit 2048 0) I ltac:(lia) eq_refl eq_refl) as H11.
  bpow_num.
  repeat split.
  - apply H14. eval_float (lit 16384 0). F2R_num. lra.
  - apply H14. eval_float (lit 16384 0). F2R_num. lra.
  - apply H13. eval_float (lit 8192 0). F2R_num. lra.
  - apply H13. eval_float (lit 8192 0). F2R_num. lra.
  - apply H12. eval_float (lit 4096 0). F2R_num. lra.
  - apply H12. eval_float (lit 4096 0). F2R_num. lra.
  - apply H11. eval_float (lit 2048 0). F2R_num. lra.
  - apply H11. eval_float (lit 2048 0). F2R_num. lra.
Qed.

Lemma F2R_lit_65_5 : F2R (lit 655 (-1)) = 655 / 10.
Proof. eval_float (lit 655 (-1)). F2R_num. lra. Qed.

(** The gyroscope conversion of the 500 deg/s range is [r / 65.5] rounded
    to binary32. *)
Lemma gyro_500_rounded (r : Z) :
  is_int16 r ->
  isfinite (icm20948_gyro_to_dps r GYRO_RANGE_500DPS) = true /\
  rounds32 (IZR r / (655 / 10)) (icm20948_gyro_to_dps r GYRO_RANGE_500DPS).
Proof.
  intros I. destruct (of_int_exact r (int16_below_2_24 r I)) as [F E].
  unfold icm20948_gyro_to_dps, gyro_sensitivity, GYRO_RANGE_500DPS.
  assert (R : rounds32 (IZR r / (655 / 10)) (fdiv (of_int r) (lit 655 (-1)))).
  { rewrite <- E, <- F2R_lit_65_5. apply fdiv_correct; try reflexivity.
    - apply valid_of_int.
    - exact F.
    - rewrite F2R_lit_65_5. lra. }
  split; [|exact R].
  destruct (rounds32_between _ _ (S754_finite true 8388608 (-13))
              (S754_finite false 8388608 (-13)) R) as [Fr _]; try reflexivity.
  - F2R_num. unfold is_int16, INT16_MIN, INT16_MAX in I. destruct I as [I1 I2].
    apply IZR_le in I1, I2. lra.
  - exact Fr.
Qed.

End MachineConversion.

Section ConversionTable.
Context {A : CArith}.
Local Open Scope cf_scope.

Lemma accel_fallback (r range : Z) :
  (range < 0 \/ 3 < range)%Z ->
  icm20948_accel_to_g r range = icm20948_accel_to_g r ACCEL_RANGE_4G.
Proof.
  intros H. unfold icm20948_accel_to_g, accel_sensitivity.
  destruct range as [|[[|[]|]|[|[]|]|]|]; try reflexivity; lia.
Qed.

Lemma gyro_fallback (r range : Z) :
  (range < 0 \/ 3 < range)%Z ->
  icm20948_gyro_to_dps r range = icm20948_gyro_to_dps r GYRO_RANGE_500DPS.
Proof.
  intros H. unfold icm20948_gyro_to_dps, gyro_sensitivity.
  destruct range as [|[[|[]|]|[|[]|]|]|]; try reflexivity; lia.
Qed.

End ConversionTable.

Local Close Scope Z_scope.
Local Open Scope R_scope.

(* ================================================================== *)
(** * The adaptive bias trim *)
(* ================================================================== *)

Section BlendReal.

Local Abbreviation u := (/ 8388608).
Local Abbreviation eta := (/ 713623846352979940529142984724747568191373312).

(** A product whose factors are bounded in magnitude. *)
Lemma Rabs_mul_bound (x y X Y : R) :
  Rabs x <= X -> Rabs y <= Y -> Rabs (x * y) <= X * Y.
Proof.
  intros Hx Hy. rewrite Rabs_mult.
  pose proof (Rabs_pos x). pose proof (Rabs_pos y). nra.
Qed.

Lemma Rabs_triangle3 (a b c : R) : Rabs (a - c) <= Rabs (a - b) + Rabs (b - c).
Proof.
  replace (a - c) with ((a - b) + (b - c)) by ring. apply Rabs_triang.
Qed.

(** The exact blend is a convex combination. *)
Lemma blend_between (alpha B R : R) :
  0 <= alpha <= 1 ->
  let x := (1 - alpha) * B + alpha * R in
  Rmin B R <= x <= Rmax B R /\ Rabs (x - B) = alpha * Rabs (R - B).
Proof.
  intros [A0 A1] x. split.
  - unfold Rmin, Rmax. destruct (Rle_dec B R); unfold x; split; nra.
  - replace (x - B) with (alpha * (R - B)) by (unfold x; ring).
    rewrite Rabs_mult, (Rabs_pos_eq alpha) by exact A0. reflexivity.
Qed.

(** The four roundings of [(1 - alpha) * B + alpha * R]. *)
Lemma blend_error (alpha a1 B R t1 t2 n M : R) :
  0 <= alpha <= / 50 -> Rabs B <= M -> Rabs R <= M ->
  Rabs (a1 - (1 - alpha)) <= u * (1 - alpha) ->
  Rabs (t1 - a1 * B) <= u * Rabs (a1 * B) + eta ->
  Rabs (t2 - alpha * R) <= u * Rabs (alpha * R) + eta ->
  Rabs (n - (t1 + t2)) <= u * Rabs (t1 + t2) + eta ->
  Rabs (n - ((1 - alpha) * B + alpha * R)) <= 4 * u * M + 4 * eta.
Proof.
  intros [A0 A1] HB HR H1 H2 H3 H4.
  assert (M0 : 0 <= M) by (pose proof (Rabs_pos B); lra).
  assert (Ha1 : Rabs a1 <= 1 + u).
  { apply Rabs_le_inv in H1. apply Rabs_le. split; nra. }
  assert (P1 : Rabs (a1 * B) <= (1 + u) * M) by (apply Rabs_mul_bound; assumption).
  assert (D1 : Rabs (a1 * B - (1 - alpha) * B) <= u * M).
  { replace (a1 * B - (1 - alpha) * B) with ((a1 - (1 - alpha)) * B) by ring.
    apply Rle_trans with (u * (1 - alpha) * M); [apply Rabs_mul_bound; assumption|nra]. }
  assert (T1 : Rabs (t1 - (1 - alpha) * B) <= u * ((1 + u) * M) + eta + u * M).
  { apply Rle_trans with (1 := Rabs_triangle3 _ (a1 * B) _). nra. }
  assert (P2 : Rabs (alpha * R) <= / 50 * M).
  { apply Rabs_mul_bound; [|assumption]. rewrite Rabs_pos_eq; lra. }
  assert (T2 : Rabs (t2 - alpha * R) <= u * (/ 50 * M) + eta) by nra.
  assert (X : Rabs ((1 - alpha) * B + alpha * R) <= M).
  { apply Rabs_le_inv in HB, HR. apply Rabs_le. split; nra. }
  set (x := (1 - alpha) * B + alpha * R) in *.
  assert (D : Rabs (t1 + t2 - x)
              <= (u * ((1 + u) * M) + eta + u * M) + (u * (/ 50 * M) + eta)).
  { replace (t1 + t2 - x) with ((t1 - (1 - alpha) * B) + (t2 - alpha * R))
      by (unfold x; ring).
    apply Rle_trans with (1 := Rabs_triang _ _). lra. }
  assert (S : Rabs (t1 + t2)
              <= M + ((u * ((1 + u) * M) + eta + u * M) + (u * (/ 50 * M) + eta))).
  { replace (t1 + t2) with ((t1 + t2 - x) + x) by ring.
    apply Rle_trans with (1 := Rabs_triang _ _). lra. }
  apply Rle_trans with (1 := Rabs_triangle3 _ (t1 + t2) _). nra.
Qed.

End BlendReal.

Section BlendMachine.
Local Existing Instance machine.
Local Open Scope cf_scope.

Lemma F2R_lit_0_02 : (0 < F2R (lit 2 (-2)) <= / 50)%R.
Proof. eval_float (lit 2 (-2)). F2R_num. lra. Qed.

Lemma F2R_lit_0_08 : (0 < F2R (lit 8 (-2)) <= / 8)%R.
Proof. eval_float (lit 8 (-2)). F2R_num. lra. Qed.

(** [bias_alpha dt] is [min (dt * 0.08f) 0.02f], between 0 and 0.02. *)
Lemma bias_alpha_range (dt : float) :
  valid32 dt -> isfinite dt = true -> (0 <= F2R dt)%R ->
  valid32 (bias_alpha dt) /\ isfinite (bias_alpha dt) = true /\
  (0 <= F2R (bias_alpha dt) <= / 50)%R /\
  (bias_alpha dt <= lit 2 (-2)) = true /\
  (bias_alpha dt <= dt * lit 8 (-2)) = true.
Proof.
  intros V F P. unfold bias_alpha.
  pose proof F2R_lit_0_02 as C2. pose proof F2R_lit_0_08 as C8.
  pose proof (fmul_correct dt (lit 8 (-2)) V eq_refl F eq_refl) as R.
  assert (Vm : valid32 (dt * lit 8 (-2))) by (apply valid_fmul; [exact V|reflexivity]).
  pose proof (valid_finite_lt_bpow_emax _ _ b32_prec b32_emax dt V F) as U.
  change B32.emax with 128%Z in U. rewrite Rabs_pos_eq in U by exact P.
  destruct (rounds32_between _ _ c0 (S754_finite false 8388608 102) R) as [Fm Bm];
    try reflexivity.
  { rewrite F2R_c0. F2R_num. split; nra. }
  rewrite F2R_c0 in Bm. destruct Bm as [Bm _].
  destruct (dt * lit 8 (-2) > lit 2 (-2)) eqn:G.
  - repeat split; try reflexivity; try lra.
    apply flt_fle. exact G.
  - apply flt_false_fle in G; try reflexivity.
    2:{ destruct (dt * lit 8 (-2)); try discriminate; reflexivity. }
    repeat split; try assumption.
    + apply fle_finite in G; try assumption; try reflexivity. lra.
    + apply fle_finite; try assumption. lra.
Qed.

(** The rounding error of one blended bias. *)
Lemma blend_bias_error (a b r : float) :
  valid32 a -> valid32 b -> valid32 r ->
  isfinite a = true -> (0 <= F2R a <= / 50)%R ->
  isfinite (blend_bias a b r) = true ->
  isfinite b = true /\ isfinite r = true /\
  (Rabs (F2R (blend_bias a b r) - ((1 - F2R a) * F2R b + F2R a * F2R r))
   <= / 2097152 * Rmax (Rabs (F2R b)) (Rabs (F2R r))
      + / 178405961588244985132285746181186892047843328)%R.
Proof.
  intros Va Vb Vr Fa Ra Fn. unfold blend_bias in *.
  set (a1 := c1 - a) in *. set (t1 := a1 * b) in *. set (t2 := a * r) in *.
  destruct (finite_fadd _ _ Fn) as [Ft1 Ft2].
  destruct (finite_fmul _ _ Ft1) as [Fa1 Fb].
  destruct (finite_fmul _ _ Ft2) as [_ Fr].
  assert (Va1 : valid32 a1) by (apply valid_fsub; [reflexivity|exact Va]).
  assert (Vt1 : valid32 t1) by (apply valid_fmul; assumption).
  assert (Vt2 : valid32 t2) by (apply valid_fmul; assumption).
  pose proof (fsub_correct c1 a eq_refl Va eq_refl Fa) as R1. rewrite F2R_c1 in R1.
  pose proof (fmul_correct a1 b Va1 Vb Fa1 Fb) as R2.
  pose proof (fmul_correct a r Va Vr Fa Fr) as R3.
  pose proof (fadd_correct t1 t2 Vt1 Vt2 Ft1 Ft2) as R4.
  fold a1 in R1. fold t1 in R2. fold t2 in R3.
  pose proof (rounds32_rel_error _ _ R1 Fa1) as E1.
  rewrite Rabs_pos_eq in E1 by lra. specialize (E1 ltac:(lra)).
  pose proof (rounds32_abs_error _ _ R2 Ft1) as E2.
  pose proof (rounds32_abs_error _ _ R3 Ft2) as E3.
  pose proof (rounds32_abs_error _ _ R4 Fn) as E4.
  split; [exact Fb|]. split; [exact Fr|].
  replace (/ 2097152)%R with (4 * / 8388608)%R by lra.
  replace (/ 178405961588244985132285746181186892047843328)%R
    with (4 * / 713623846352979940529142984724747568191373312)%R by lra.
  apply (blend_error (F2R a) (F2R a1) (F2R b) (F2R r) (F2R t1) (F2R t2));
    try assumption.
  - apply Rmax_l.
  - apply Rmax_r.
Qed.

End BlendMachine.

Section TrimStructure.
Context {A : CArith}.
Local Open Scope cf_scope.

Lemma trim_bias_stationary (dt bx by_ bz rx ry rz ax ay az : float) :
  stationary ax ay az (rx - bx) (ry - by_) (rz - bz) = true ->
  trim_bias dt (bx, by_, bz) (rx, ry, rz) ax ay az
  = (blend_bias (bias_alpha dt) bx rx,
     blend_bias (bias_alpha dt) by_ ry,
     blend_bias (bias_alpha dt) bz rz).
Proof. intros H. unfold trim_bias. rewrite H. reflexivity. Qed.

Lemma trim_bias_moving (dt bx by_ bz rx ry rz ax ay az : float) :
  stationary ax ay az (rx - bx) (ry - by_) (rz - bz) = false ->
  trim_bias dt (bx, by_, bz) (rx, ry, rz) ax ay az = (bx, by_, bz).
Proof. intros H. unfold trim_bias. rewrite H. reflexivity. Qed.

End TrimStructure.

Local Close Scope Z_scope.
Local Open Scope R_scope.

(* ================================================================== *)
(** * Euler angles *)
(* ================================================================== *)

(** ** In binary32: the gimbal-lock branch *)

Section EulerMachine.
Local Existing Instance machine.
Context {L : LibM machine}.
Local Open Scope cf_scope.

(** [copysignf(M_PI / 2, sinp)] in degrees is 90 with the sign of [sinp],
    exactly. *)
Lemma rad_to_deg_half_pi (s : float) :
  rad_to_deg (copysignf half_pi s) = copysignf (lit 90 0) s.
Proof.
  change (@copysignf machine) with IEEE.copysign.
  eval_float half_pi. eval_float (lit 90 0).
  unfold IEEE.copysign. destruct (IEEE.sign_bit s); vm_compute; reflexivity.
Qed.

Lemma F2R_copysign_90 (s : float) :
  F2R (copysignf (lit 90 0) s) = (if IEEE.sign_bit s then -90 else 90)%R.
Proof.
  change (@copysignf machine) with IEEE.copysign.
  eval_float (lit 90 0). unfold IEEE.copysign.
  destruct (IEEE.sign_bit s); F2R_num; lra.
Qed.

Lemma pitch_clamped (filter : MadgwickFilter) :
  let f := q filter in
  let sinp := c2 * (q0 f * q2 f - q3 f * q1 f) in
  (fabsf sinp >= c1) = true ->
  madgwick_get_pitch_deg filter = copysignf (lit 90 0) sinp.
Proof.
  intros f sinp H. unfold madgwick_get_pitch_deg, quaternion_to_euler.
  fold f. fold sinp. rewrite H. apply rad_to_deg_half_pi.
Qed.

Lemma pitch_unclamped (filter : MadgwickFilter) :
  let f := q filter in
  let sinp := c2 * (q0 f * q2 f - q3 f * q1 f) in
  (fabsf sinp >= c1) = false ->
  madgwick_get_pitch_deg filter = rad_to_deg (asinf sinp).
Proof.
  intros f sinp H. unfold madgwick_get_pitch_deg, quaternion_to_euler.
  fold f. fold sinp. rewrite H. reflexivity.
Qed.

End EulerMachine.

(** ** In exact arithmetic: the ranges of pitch and roll *)

Section EulerIdeal.
Local Existing Instance ideal.
Local Existing Instance ideal_libm.

Lemma ideal_rad_to_deg (x : R) : rad_to_deg x = x * 180 / PI.
Proof. reflexivity. Qed.

Lemma ideal_half_pi : half_pi = PI / 2.
Proof. reflexivity. Qed.

Lemma rad_to_deg_le (x y : R) : x <= y -> x * 180 / PI <= y * 180 / PI.
Proof.
  intros H. pose proof PI_RGT_0 as P.
  apply Rmult_le_compat_r; [apply Rlt_le, Rinv_0_lt_compat; exact P|lra].
Qed.

Lemma rad_to_deg_lt (x y : R) : x < y -> x * 180 / PI < y * 180 / PI.
Proof.
  intros H. pose proof PI_RGT_0 as P.
  apply Rmult_lt_compat_r; [apply Rinv_0_lt_compat; exact P|lra].
Qed.

Lemma rad_to_deg_PI (k : R) : (k * PI) * 180 / PI = k * 180.
Proof. pose proof PI_RGT_0 as P. field. lra. Qed.

Lemma real_atan2_range (y x : R) : - PI < real_atan2 y x <= PI.
Proof.
  pose proof PI_RGT_0 as P. unfold real_atan2.
  destruct (Rlt_dec 0 x) as [Px|Nx].
  - pose proof (atan_bound (y / x)). lra.
  - destruct (Rlt_dec x 0) as [Lx|Zx].
    + pose proof (atan_bound (y / x)) as B.
      assert (Ix : / x < 0) by (apply Rinv_lt_0_compat; exact Lx).
      destruct (Rle_dec 0 y) as [Py|Ny].
      * assert (A : atan (y / x) <= 0).
        { destruct (Req_dec y 0) as [->|N].
          - unfold Rdiv. rewrite Rmult_0_l, atan_0. lra.
          - apply Rlt_le. rewrite <- atan_0. apply atan_increasing.
            unfold Rdiv. nra. }
        lra.
      * assert (A : 0 < atan (y / x)).
        { rewrite <- atan_0. apply atan_increasing. unfold Rdiv. nra. }
        lra.
    + destruct (Rlt_dec 0 y); [lra|]. destruct (Rlt_dec y 0); lra.
Qed.

Lemma deg_of_quarter_turn (p : R) :
  - (PI / 2) <= p <= PI / 2 -> -90 <= p * 180 / PI <= 90.
Proof.
  intros [B1 B2]. apply rad_to_deg_le in B1, B2.
  replace (- (PI / 2)) with ((- (1 / 2)) * PI) in B1 by lra.
  replace (PI / 2) with ((1 / 2) * PI) in B2 by lra.
  rewrite rad_to_deg_PI in B1, B2. lra.
Qed.

Lemma deg_of_half_turn (p : R) :
  - PI < p <= PI -> -180 < p * 180 / PI <= 180.
Proof.
  intros [B1 B2]. apply rad_to_deg_lt in B1. apply rad_to_deg_le in B2.
  replace (- PI) with ((- 1) * PI) in B1 by lra.
  replace PI with (1 * PI) in B2 at 2 by lra.
  rewrite rad_to_deg_PI in B1, B2. lra.
Qed.

Lemma copysign_half_pi (s : R) :
  - (PI / 2) <= RealArith.copysign (PI / 2) s <= PI / 2.
Proof.
  pose proof PI_RGT_0 as P. unfold RealArith.copysign.
  rewrite (Rabs_pos_eq (PI / 2)) by lra. destruct (Rlt_dec s 0); lra.
Qed.

Lemma ideal_pitch_range (filter : MadgwickFilter) :
  -90 <= madgwick_get_pitch_deg filter <= 90.
Proof.
  unfold madgwick_get_pitch_deg, quaternion_to_euler.
  rewrite ideal_rad_to_deg. apply deg_of_quarter_turn.
  destruct (fle c1 (fabsf _)).
  - apply copysign_half_pi.
  - apply asin_bound.
Qed.

Lemma ideal_roll_range (filter : MadgwickFilter) :
  -180 < madgwick_get_roll_deg filter <= 180.
Proof.
  unfold madgwick_get_roll_deg, quaternion_to_euler.
  rewrite ideal_rad_to_deg. apply deg_of_half_turn. apply real_atan2_range.
Qed.

(** At the gimbal lock the pitch is 90 degrees with the sign of [sinp]. *)
Lemma ideal_pitch_clamped (filter : MadgwickFilter) :
  let f := q filter in
  let sinp := fmul c2 (fsub (fmul (q0 f) (q2 f)) (fmul (q3 f) (q1 f))) in
  1 <= Rabs sinp ->
  @eq R (madgwick_get_pitch_deg filter) (if Rlt_dec sinp 0 then -90 else 90).
Proof.
  intros f sinp H. pose proof PI_RGT_0 as P.
  unfold madgwick_get_pitch_deg, quaternion_to_euler. fold f. fold sinp.
  rewrite ideal_rad_to_deg.
  replace (fle c1 (fabsf sinp)) with true.
  - change (@copysignf ideal) with RealArith.copysign. rewrite ideal_half_pi.
    unfold RealArith.copysign. rewrite (Rabs_pos_eq (PI / 2)) by lra.
    destruct (Rlt_dec sinp 0); field; lra.
  - change (@fle ideal) with RealArith.leb. unfold RealArith.leb.
    destruct (Rle_dec _ _) as [T|T]; [reflexivity|]. exfalso. apply T. exact H.
Qed.

End EulerIdeal.

Local Close Scope Z_scope.
Local Open Scope R_scope.

(* ================================================================== *)
(** * Euler angles in binary32: the range of the degrees *)
(* ================================================================== *)

Lemma b64_prec : (1 < B64.prec)%Z. Proof. reflexivity. Qed.
Lemma b64_emax : (B64.prec < B64.emax)%Z. Proof. reflexivity. Qed.

(** Two floats of a format with the same value are the same float. *)
Lemma bounded_value_inj (m1 m2 : positive) (e1 e2 : Z) :
  SpecFloat.bounded B32.prec B32.emax m1 e1 = true ->
  SpecFloat.bounded B32.prec B32.emax m2 e2 = true ->
  IZR (Zpos m1) * bpow e1 = IZR (Zpos m2) * bpow e2 ->
  m1 = m2 /\ e1 = e2.
Proof.
  intros B1 B2 E.
  pose proof (cmp_mag_spec _ _ b32_prec b32_emax m1 e1 m2 e2 B1 B2) as C.
  unfold cmp_mag in C. destruct (Z.compare_spec e1 e2) as [Ee|L|G]; try lra.
  split; [|exact Ee].
  change (Pos.compare_cont Eq m1 m2) with (Pos.compare m1 m2) in C.
  destruct (Pos.compare_spec m1 m2) as [Em|L|G]; try lra. exact Em.
Qed.

(** Between a float and the next one of its binade there is no float. *)
Lemma float_above_pred (x : spec_float) (m : positive) (e : Z) :
  valid32 x -> IEEE.is_finite x = true ->
  valid32 (S754_finite false m e) -> valid32 (S754_finite false (m + 1) e) ->
  F2R (S754_finite false m e) < F2R x <= F2R (S754_finite false (m + 1) e) ->
  x = S754_finite false (m + 1) e.
Proof.
  intros Vx Fx Vp Vh [Lo Hi].
  pose proof (F2R_pos _ _ b32_prec b32_emax m e) as Pp.
  destruct x as [s|s| |s mc ec]; try discriminate.
  - change (F2R (S754_zero s)) with 0 in Lo. lra.
  - destruct s.
    + pose proof (F2R_neg _ _ b32_prec b32_emax mc ec). lra.
    + rewrite !F2R_finite in Lo, Hi. rewrite !Rmult_1_l in Lo, Hi.
      destruct (bounded_facts _ _ b32_prec b32_emax m e Vp) as ((Be & _) & _ & Bn & _).
      destruct (float_grid _ _ b32_prec b32_emax mc ec (Zpos m) e Vx Be ltac:(lia) Bn)
        as [G _].
      specialize (G Lo). change (Zpos m + 1)%Z with (Zpos (m + 1)) in G.
      destruct (bounded_value_inj mc (m + 1) ec e Vx Vh) as [-> ->]; [lra|reflexivity].
Qed.

Section EulerRange.
Local Existing Instance machine.

Lemma rounds64_between (x : R) (r lo hi : double) :
  rounds64 x r -> valid64 lo -> IEEE.is_finite lo = true ->
  valid64 hi -> IEEE.is_finite hi = true ->
  F2R lo <= x <= F2R hi ->
  IEEE.is_finite r = true /\ F2R lo <= F2R r <= F2R hi.
Proof. apply (rounds_to_between _ _ b64_prec b64_emax). Qed.

Lemma ddiv_correct (x y : double) :
  valid64 x -> valid64 y -> IEEE.is_finite x = true -> IEEE.is_finite y = true ->
  F2R y <> 0 -> rounds64 (F2R x / F2R y) (ddiv x y).
Proof. apply (SFdiv_correct _ _ b64_prec b64_emax). Qed.

(** [(double) x] and [(float) y] round the value of their argument. *)
Lemma f2d_correct (x : float) : isfinite x = true -> rounds64 (F2R x) (f2d x).
Proof.
  intros F. destruct x as [s|s| |s m e]; try discriminate.
  - apply (rounds_to_zero _ _ b64_prec b64_emax).
  - rewrite F2R_finite.
    replace ((if s then -1 else 1) * (IZR (Zpos m) * bpow e))
      with (if s then - (IZR (Zpos m) * bpow e) else IZR (Zpos m) * bpow e)
      by (destruct s; ring).
    apply (binary_round_correct _ _ b64_prec b64_emax).
Qed.

Lemma d2f_correct (y : double) : IEEE.is_finite y = true -> rounds32 (F2R y) (d2f y).
Proof.
  intros F. destruct y as [s|s| |s m e]; try discriminate.
  - apply (rounds_to_zero _ _ b32_prec b32_emax).
  - rewrite F2R_finite.
    replace ((if s then -1 else 1) * (IZR (Zpos m) * bpow e))
      with (if s then - (IZR (Zpos m) * bpow e) else IZR (Zpos m) * bpow e)
      by (destruct s; ring).
    apply (binary_round_correct _ _ b32_prec b32_emax).
Qed.

Lemma F2R_fneg (x : float) : F2R (fneg x) = - F2R x.
Proof. apply (F2R_opp _ _ b32_prec b32_emax). Qed.

Lemma F2R_c180 : F2R c180 = 180.
Proof. eval_float c180. F2R_num. lra. Qed.

(** A radian value [x] with [|x| <= hi]: the degrees [rad_to_deg x] are at
    most [D] in magnitude.  The product [x * 180.0f] is at most [T], the
    float after [predT]; at [T] the degrees are [D] by computation, and
    below [T] the quotient by [M_PI] is below [D]. *)
Lemma rad_to_deg_range (hi : float) (m m1 : positive) (e : Z)
    (D32 : float) (P64 D64 : double) (D : R) :
  let predT : float := S754_finite false m e in
  let T : float := S754_finite false m1 e in
  m1 = (m + 1)%positive ->
  valid32 predT -> valid32 T -> F2R hi * 180 <= F2R T ->
  d2f (ddiv (f2d T) M_PI) = D32 ->
  d2f (ddiv (f2d (fneg T)) M_PI) = fneg D32 ->
  valid64 P64 -> IEEE.is_finite P64 = true -> F2R P64 = F2R predT ->
  valid64 D64 -> IEEE.is_finite D64 = true -> F2R D64 = D ->
  valid32 D32 -> isfinite D32 = true -> F2R D32 = D ->
  F2R predT <= D * F2R (@M_PI machine) ->
  forall x : float,
    valid32 x -> isfinite x = true -> Rabs (F2R x) <= F2R hi ->
    isfinite (rad_to_deg x) = true /\ - D <= F2R (rad_to_deg x) <= D.
Proof.
  intros predT T -> Vp VT HT ET ENT VP64 FP64 EP64 VD64 FD64 ED64 VD32 FD32 ED32 PD
    x Vx Fx Bx.
  apply Rabs_le_inv in Bx.
  assert (Pi : 0 < F2R (@M_PI machine)).
  { change (@M_PI machine) with B64.M_PI. eval_float B64.M_PI.
    apply (F2R_pos _ _ b64_prec b64_emax). }
  pose proof (F2R_pos _ _ b32_prec b32_emax m e) as PpT. fold predT in PpT.
  assert (PD0 : 0 <= D) by nra.
  assert (FnD : isfinite (fneg D32) = true).
  { change (IEEE.is_finite (SFopp D32) = true).
    rewrite (is_finite_opp _ _ b32_prec b32_emax). exact FD32. }
  (* the product in binary32 *)
  pose proof (fmul_correct x c180 Vx eq_refl Fx eq_refl) as R1.
  rewrite F2R_c180 in R1.
  assert (VP : valid32 (fmul x c180)) by apply R1.
  destruct (rounds32_between _ _ (fneg T) T R1) as [F1 B1]; try reflexivity;
    try assumption.
  { rewrite F2R_fneg. lra. }
  rewrite F2R_fneg in B1. unfold rad_to_deg.
  set (P := fmul x c180) in *.
  destruct (Rle_lt_dec (F2R P) (F2R predT)) as [U|U];
    [destruct (Rle_lt_dec (- F2R predT) (F2R P)) as [W|W]|].
  - (* below [T]: widened, divided by M_PI, narrowed *)
    pose proof (f2d_correct P F1) as R2.
    destruct (rounds64_between _ _ (SFopp P64) P64 R2) as [F2 B2]; try assumption.
    { apply (valid_opp _ _ b64_prec b64_emax). exact VP64. }
    { rewrite (is_finite_opp _ _ b64_prec b64_emax). exact FP64. }
    { rewrite (F2R_opp _ _ b64_prec b64_emax), EP64. lra. }
    rewrite (F2R_opp _ _ b64_prec b64_emax), EP64 in B2.
    assert (V2 : valid64 (f2d P)) by apply R2.
    set (Q := f2d P) in *.
    pose proof (ddiv_correct Q M_PI V2 eq_refl F2 eq_refl ltac:(lra)) as R3.
    assert (B3 : - D <= F2R Q / F2R (@M_PI machine) <= D).
    { split.
      - apply Rmult_le_reg_r with (F2R (@M_PI machine)); [exact Pi|].
        unfold Rdiv. rewrite Rmult_assoc, Rinv_l by lra. lra.
      - apply Rmult_le_reg_r with (F2R (@M_PI machine)); [exact Pi|].
        unfold Rdiv. rewrite Rmult_assoc, Rinv_l by lra. lra. }
    destruct (rounds64_between _ _ (SFopp D64) D64 R3) as [F3 B4]; try assumption.
    { apply (valid_opp _ _ b64_prec b64_emax). exact VD64. }
    { rewrite (is_finite_opp _ _ b64_prec b64_emax). exact FD64. }
    { rewrite (F2R_opp _ _ b64_prec b64_emax), ED64. exact B3. }
    rewrite (F2R_opp _ _ b64_prec b64_emax), ED64 in B4.
    pose proof (d2f_correct _ F3) as R4.
    destruct (rounds32_between _ _ (fneg D32) D32 R4) as [F4 B5]; try assumption.
    { apply valid_fneg. exact VD32. }
    { rewrite F2R_fneg, ED32. exact B4. }
    rewrite F2R_fneg, ED32 in B5. split; assumption.
  - (* at [- T] *)
    assert (E : fneg P = T).
    { apply float_above_pred; try assumption.
      - apply valid_fneg. exact VP.
      - change (IEEE.is_finite (SFopp P) = true).
        rewrite (is_finite_opp _ _ b32_prec b32_emax). exact F1.
      - rewrite F2R_fneg. fold predT T. lra. }
    assert (E' : P = fneg T).
    { rewrite <- E. symmetry. apply (SFopp_involutive _ _ b32_prec b32_emax). }
    rewrite E', ENT, F2R_fneg, ED32. split; [exact FnD|lra].
  - (* at [T] *)
    assert (E : P = T) by (apply float_above_pred; try assumption; fold predT T; lra).
    rewrite E, ET, ED32. split; [exact FD32|lra].
Qed.

Lemma half_pi_value : half_pi = S754_finite false 13176795 (-23).
Proof. vm_compute. reflexivity. Qed.

Lemma pi_f_value : d2f M_PI = S754_finite false 13176795 (-22).
Proof. vm_compute. reflexivity. Qed.

(** The pitch in degrees of an angle between [-M_PI/2] and [M_PI/2]. *)
Lemma pitch_deg_range (a : float) :
  valid32 a -> isfinite a = true -> Rabs (F2R a) <= F2R half_pi ->
  isfinite (rad_to_deg a) = true /\ -90 <= F2R (rad_to_deg a) <= 90.
Proof.
  rewrite half_pi_value. revert a.
  apply (rad_to_deg_range (S754_finite false 13176795 (-23)) 9264933 9264934 (-15)
           (S754_finite false 11796480 (-17))
           (S754_finite false 4974073029328896 (-44))
           (S754_finite false 6333186975989760 (-46)) 90);
    try (vm_compute; reflexivity).
  - F2R_num. lra.
  - F2R_num. lra.
  - F2R_num. lra.
  - F2R_num. lra.
  - change (@M_PI machine) with B64.M_PI. eval_float B64.M_PI. F2R_num. lra.
Qed.

(** The roll in degrees of an angle between [-M_PI] and [M_PI]. *)
Lemma roll_deg_range (a : float) :
  valid32 a -> isfinite a = true -> Rabs (F2R a) <= F2R (d2f M_PI) ->
  isfinite (rad_to_deg a) = true /\ -180 <= F2R (rad_to_deg a) <= 180.
Proof.
  rewrite pi_f_value. revert a.
  apply (rad_to_deg_range (S754_finite false 13176795 (-22)) 9264933 9264934 (-14)
           (S754_finite false 11796480 (-16))
           (S754_finite false 4974073029328896 (-43))
           (S754_finite false 6333186975989760 (-45)) 180);
    try (vm_compute; reflexivity).
  - F2R_num. lra.
  - F2R_num. lra.
  - F2R_num. lra.
  - F2R_num. lra.
  - change (@M_PI machine) with B64.M_PI. eval_float B64.M_PI. F2R_num. lra.
Qed.

End EulerRange.

Local Close Scope Z_scope.
Local Open Scope R_scope.

(* ================================================================== *)
(** * Euler angles in binary32: pitch, roll and heading *)
(* ================================================================== *)

Section BoundedArithmetic.
Local Existing Instance machine.

(** A float whose magnitude is bounded by a float is finite. *)
Lemma rounds32_within (x : R) (r B : float) :
  rounds32 x r -> valid32 B -> isfinite B = true -> Rabs x <= F2R B ->
  isfinite r = true /\ Rabs (F2R r) <= F2R B.
Proof.
  intros R VB FB H. apply Rabs_le_inv in H.
  destruct (rounds32_between x r (fneg B) B R) as [F E]; try assumption.
  - apply valid_fneg. exact VB.
  - change (IEEE.is_finite (SFopp B) = true).
    rewrite (is_finite_opp _ _ b32_prec b32_emax). exact FB.
  - rewrite F2R_fneg. exact H.
  - rewrite F2R_fneg in E. split; [exact F|]. apply Rabs_le. exact E.
Qed.

Lemma fmul_within (x y B : float) (bx by_ : R) :
  valid32 x -> valid32 y -> isfinite x = true -> isfinite y = true ->
  Rabs (F2R x) <= bx -> Rabs (F2R y) <= by_ ->
  valid32 B -> isfinite B = true -> bx * by_ <= F2R B ->
  valid32 (fmul x y) /\ isfinite (fmul x y) = true /\ Rabs (F2R (fmul x y)) <= F2R B.
Proof.
  intros Vx Vy Fx Fy Hx Hy VB FB HB.
  split; [apply valid_fmul; assumption|].
  apply (rounds32_within (F2R x * F2R y)); try assumption.
  - apply fmul_correct; assumption.
  - apply Rle_trans with (2 := HB). apply Rabs_mul_bound; assumption.
Qed.

Lemma fadd_within (x y B : float) (bx by_ : R) :
  valid32 x -> valid32 y -> isfinite x = true -> isfinite y = true ->
  Rabs (F2R x) <= bx -> Rabs (F2R y) <= by_ ->
  valid32 B -> isfinite B = true -> bx + by_ <= F2R B ->
  valid32 (fadd x y) /\ isfinite (fadd x y) = true /\ Rabs (F2R (fadd x y)) <= F2R B.
Proof.
  intros Vx Vy Fx Fy Hx Hy VB FB HB.
  split; [apply valid_fadd; assumption|].
  apply (rounds32_within (F2R x + F2R y)); try assumption.
  - apply fadd_correct; assumption.
  - apply Rle_trans with (2 := HB).
    apply Rle_trans with (1 := Rabs_triang _ _). lra.
Qed.

Lemma fsub_within (x y B : float) (bx by_ : R) :
  valid32 x -> valid32 y -> isfinite x = true -> isfinite y = true ->
  Rabs (F2R x) <= bx -> Rabs (F2R y) <= by_ ->
  valid32 B -> isfinite B = true -> bx + by_ <= F2R B ->
  valid32 (fsub x y) /\ isfinite (fsub x y) = true /\ Rabs (F2R (fsub x y)) <= F2R B.
Proof.
  intros Vx Vy Fx Fy Hx Hy VB FB HB.
  split; [apply valid_fsub; assumption|].
  apply (rounds32_within (F2R x - F2R y)); try assumption.
  - apply fsub_correct; assumption.
  - apply Rle_trans with (2 := HB).
    replace (F2R x - F2R y) with (F2R x + - F2R y) by ring.
    apply Rle_trans with (1 := Rabs_triang _ _). rewrite Rabs_Ropp. lra.
Qed.

Lemma finite_not_nan (x : float) : isfinite x = true -> IEEE.is_nan x = false.
Proof. destruct x; try discriminate; reflexivity. Qed.

Local Open Scope cf_scope.

(** [2 * (a * b + c * d)], [2 * (a * b - c * d)] and [1 - 2 * (a * a + b * b)]
    on components at most 2 in magnitude are finite. *)
Lemma twice_sum_finite (a b c d : float) :
  valid32 a -> valid32 b -> valid32 c -> valid32 d ->
  isfinite a = true -> isfinite b = true -> isfinite c = true -> isfinite d = true ->
  (Rabs (F2R a) <= 2)%R -> (Rabs (F2R b) <= 2)%R ->
  (Rabs (F2R c) <= 2)%R -> (Rabs (F2R d) <= 2)%R ->
  isfinite (c2 * (a * b + c * d)) = true /\
  isfinite (c2 * (a * b - c * d)) = true /\
  isfinite (c1 - c2 * (a * b + c * d)) = true.
Proof.
  intros Va Vb Vc Vd Fa Fb Fc Fd Ha Hb Hc Hd.
  pose (B4 := S754_finite false 8388608 (-21) : float).
  pose (B8 := S754_finite false 8388608 (-20) : float).
  pose (B16 := S754_finite false 8388608 (-19) : float).
  pose (B32_ := S754_finite false 8388608 (-18) : float).
  assert (E4 : F2R B4 = 4%R) by (unfold B4; F2R_num; lra).
  assert (E8 : F2R B8 = 8%R) by (unfold B8; F2R_num; lra).
  assert (E16 : F2R B16 = 16%R) by (unfold B16; F2R_num; lra).
  assert (E32 : F2R B32_ = 32%R) by (unfold B32_; F2R_num; lra).
  assert (E2 : (Rabs (F2R c2) <= 2)%R).
  { eval_float c2. F2R_num. rewrite Rabs_pos_eq; lra. }
  assert (E1 : (Rabs (F2R c1) <= 1)%R).
  { rewrite F2R_c1, Rabs_pos_eq; lra. }
  destruct (fmul_within a b B4 2 2 Va Vb Fa Fb Ha Hb eq_refl eq_refl)
    as (V1 & F1 & H1); [lra|].
  destruct (fmul_within c d B4 2 2 Vc Vd Fc Fd Hc Hd eq_refl eq_refl)
    as (V2 & F2 & H2); [lra|].
  rewrite E4 in H1, H2.
  destruct (fadd_within _ _ B8 4 4 V1 V2 F1 F2 H1 H2 eq_refl eq_refl)
    as (V3 & F3 & H3); [lra|].
  destruct (fsub_within _ _ B8 4 4 V1 V2 F1 F2 H1 H2 eq_refl eq_refl)
    as (V4 & F4 & H4); [lra|].
  rewrite E8 in H3, H4.
  destruct (fmul_within c2 _ B16 2 8 eq_refl V3 eq_refl F3 E2 H3 eq_refl eq_refl)
    as (V5 & F5 & H5); [lra|].
  destruct (fmul_within c2 _ B16 2 8 eq_refl V4 eq_refl F4 E2 H4 eq_refl eq_refl)
    as (V6 & F6 & H6); [lra|].
  rewrite E16 in H5.
  destruct (fsub_within c1 _ B32_ 1 16 eq_refl V5 eq_refl F5 E1 H5 eq_refl eq_refl)
    as (V7 & F7 & H7); [lra|].
  repeat split; assumption.
Qed.

End BoundedArithmetic.

Section EulerAngles.
Local Existing Instance machine.
Context {L : LibM machine}.
Local Open Scope cf_scope.

Lemma is_nan_fabsf (x : float) : IEEE.is_nan (fabsf x) = IEEE.is_nan x.
Proof. destruct x; reflexivity. Qed.

Lemma finite_copysign_90 (s : float) : isfinite (copysignf (lit 90 0) s) = true.
Proof.
  change (@copysignf machine) with IEEE.copysign. eval_float (lit 90 0). reflexivity.
Qed.

(** Pitch: the gimbal-lock branch gives 90 degrees exactly, the other one
    the degrees of what [asinf] returns. *)
Lemma pitch_in_range (filter : MadgwickFilter) :
  libm_in_range L -> quat_valid (q filter) ->
  let f := q filter in
  let sinp := c2 * (q0 f * q2 f - q3 f * q1 f) in
  IEEE.is_nan sinp = false ->
  isfinite (madgwick_get_pitch_deg filter) = true /\
  (-90 <= F2R (madgwick_get_pitch_deg filter) <= 90)%R.
Proof.
  intros [HA _] (V0 & V1 & V2 & V3) f sinp N.
  assert (Vs : valid32 sinp) by (unfold sinp, f; valid32_solve).
  destruct (fabsf sinp >= c1) eqn:C.
  - rewrite (pitch_clamped filter C). fold f. fold sinp.
    rewrite F2R_copysign_90. split; [apply finite_copysign_90|].
    destruct (IEEE.sign_bit sinp); lra.
  - rewrite (pitch_unclamped filter C). fold f. fold sinp.
    apply fle_false_flt in C; [|reflexivity|rewrite is_nan_fabsf; exact N].
    destruct (HA sinp Vs C) as (Va & Fa & Ba).
    apply pitch_deg_range; assumption.
Qed.

Lemma roll_in_range (filter : MadgwickFilter) :
  libm_in_range L -> quat_valid (q filter) ->
  let f := q filter in
  let sinr_cosp := c2 * (q0 f * q1 f + q2 f * q3 f) in
  let cosr_cosp := c1 - c2 * (q1 f * q1 f + q2 f * q2 f) in
  IEEE.is_nan sinr_cosp = false -> IEEE.is_nan cosr_cosp = false ->
  isfinite (madgwick_get_roll_deg filter) = true /\
  (-180 <= F2R (madgwick_get_roll_deg filter) <= 180)%R.
Proof.
  intros [_ HT] (V0 & V1 & V2 & V3) f sinr_cosp cosr_cosp Ns Nc.
  assert (Vs : valid32 sinr_cosp) by (unfold sinr_cosp, f; valid32_solve).
  assert (Vc : valid32 cosr_cosp) by (unfold cosr_cosp, f; valid32_solve).
  unfold madgwick_get_roll_deg, quaternion_to_euler. fold f. fold sinr_cosp cosr_cosp.
  destruct (HT sinr_cosp cosr_cosp Vs Vc Ns Nc) as (Vt & Ft & Bt).
  apply roll_deg_range; assumption.
Qed.

(** The quaternion a filter holds after an update has components at most
    2 in magnitude. *)
Lemma unit_or_identity_bounded (f : Quaternion) :
  quat_valid f -> unit_or_identity f -> quat_bounded f.
Proof.
  intros V [E|[F N]].
  - subst f. split; [exact V|]. split; [reflexivity|].
    cbn [identity_quaternion q0 q1 q2 q3]. rewrite F2R_c1, F2R_c0.
    rewrite Rabs_R0, Rabs_pos_eq by lra. repeat split; lra.
  - split; [exact V|]. split; [exact F|].
    unfold exact_norm_sq, NORM_EPS in N. apply Rabs_le_inv in N.
    repeat split; apply Rabs_le; split; nra.
Qed.

Lemma euler_of_bounded (filter : MadgwickFilter) :
  libm_in_range L -> quat_bounded (q filter) ->
  (isfinite (madgwick_get_pitch_deg filter) = true /\
   (-90 <= F2R (madgwick_get_pitch_deg filter) <= 90)%R) /\
  (isfinite (madgwick_get_roll_deg filter) = true /\
   (-180 <= F2R (madgwick_get_roll_deg filter) <= 180)%R).
Proof.
  intros HL ((V0 & V1 & V2 & V3) & F & (B0 & B1 & B2 & B3)).
  unfold quat_finite in F.
  apply andb_true_iff in F. destruct F as [F F3].
  apply andb_true_iff in F. destruct F as [F F2].
  apply andb_true_iff in F. destruct F as [F0 F1].
  split.
  - apply pitch_in_range; [exact HL|repeat split; assumption|]. apply finite_not_nan.
    apply (twice_sum_finite (q0 (q filter)) (q2 (q filter)) (q3 (q filter)) (q1 (q filter)));
      assumption.
  - apply roll_in_range; [exact HL|repeat split; assumption| |]; apply finite_not_nan.
    + apply (twice_sum_finite (q0 (q filter)) (q1 (q filter)) (q2 (q filter)) (q3 (q filter)));
        assumption.
    + apply (twice_sum_finite (q1 (q filter)) (q1 (q filter)) (q2 (q filter)) (q2 (q filter)));
        assumption.
Qed.

(** The heading of the attitude indicator: the yaw [madgwick_get_euler]
    reports is within 360 degrees of zero, and [wrap360] brings it into
    [0, 360). *)
Lemma indicator_heading (filter : MadgwickFilter) (fuel : nat) :
  libm_in_range L -> quat_valid (q filter) ->
  let f := q filter in
  let siny_cosp := c2 * (q0 f * q3 f + q1 f * q2 f) in
  let cosy_cosp := c1 - c2 * (q2 f * q2 f + q3 f * q3 f) in
  IEEE.is_nan siny_cosp = false -> IEEE.is_nan cosy_cosp = false ->
  exists h, wrap360 (S fuel) (snd (BasicGyro.madgwick_get_euler filter)) = Some h /\
            (c0 <= h) = true /\ (h < lit 360 0) = true /\ (0 <= F2R h < 360)%R.
Proof.
  intros [_ HT] (V0 & V1 & V2 & V3) f siny_cosp cosy_cosp Ns Nc.
  assert (Vs : valid32 siny_cosp) by (unfold siny_cosp, f; valid32_solve).
  assert (Vc : valid32 cosy_cosp) by (unfold cosy_cosp, f; valid32_solve).
  unfold BasicGyro.madgwick_get_euler. fold f. fold siny_cosp cosy_cosp. cbn [snd].
  destruct (HT siny_cosp cosy_cosp Vs Vc Ns Nc) as (Vt & Ft & Bt).
  set (t := atan2f siny_cosp cosy_cosp) in *.
  assert (Bn : (Rabs (F2R (fneg t)) <= 4)%R).
  { rewrite F2R_fneg, Rabs_Ropp. apply Rle_trans with (1 := Bt).
    change (IEEE.convert B32.prec B32.emax B64.M_PI) with (@d2f machine M_PI).
    rewrite pi_f_value. F2R_num. lra. }
  assert (Br : (Rabs (F2R BasicGyro.RAD_TO_DEG) <= 58)%R).
  { eval_float (@BasicGyro.RAD_TO_DEG machine). F2R_num. rewrite Rabs_pos_eq; lra. }
  destruct (fmul_within (- t) BasicGyro.RAD_TO_DEG (lit 360 0) 4 58) as (Vy & Fy & By_);
    try assumption; try reflexivity.
  - apply valid_fneg. exact Vt.
  - change (IEEE.is_finite (SFopp t) = true).
    rewrite (is_finite_opp _ _ b32_prec b32_emax). exact Ft.
  - rewrite F2R_lit_360. lra.
  - rewrite F2R_lit_360 in By_. apply Rabs_le_inv in By_.
    destruct (wrap360_range fuel _ Vy Fy By_) as (h & E & _ & _ & R & Lo & Hi).
    exists h. repeat split; try assumption; apply R.
Qed.

End EulerAngles.


(** The range condition on the C library is consistent: the crudest
    approximations meet it. *)
Lemma crude_libm_in_range : libm_in_range crude_libm.
Proof.
  split.
  - intros x V H. cbn [asinf crude_libm].
    assert (F : IEEE.is_finite x = true).
    { destruct x as [s|s| |s m e]; try reflexivity; discriminate. }
    split; [exact V|]. split; [exact F|].
    assert (Va : valid32 (SFabs x)) by (apply valid_fabsf; exact V).
    assert (Fa : IEEE.is_finite (SFabs x) = true) by (destruct x; try discriminate; reflexivity).
    apply (flt_finite (SFabs x) (B32.decimal 1 0) Va eq_refl Fa eq_refl) in H.
    replace (F2R (B32.decimal 1 0)) with 1 in H by (symmetry; apply F2R_c1).
    replace (F2R (SFabs x)) with (Rabs (F2R x)) in H.
    + rewrite half_pi_value. F2R_num. lra.
    + destruct x as [s|s| |s m e]; try discriminate.
      * simpl. apply Rabs_R0.
      * rewrite F2R_abs. simpl SFabs. rewrite F2R_finite. lra.
  - intros y x _ _ _ _. cbn [atan2f crude_libm].
    split; [reflexivity|]. split; [reflexivity|].
    change (F2R (S754_zero false)) with 0%R. rewrite Rabs_R0.
    change (IEEE.convert B32.prec B32.emax B64.M_PI) with (@d2f machine M_PI).
    rewrite pi_f_value. F2R_num. lra.
Qed.

Local Close Scope Z_scope.
Local Open Scope R_scope.

(* ================================================================== *)
(** * The bias trim on the readings of the driver *)
(* ================================================================== *)

Section TrimOnReadings.
Local Existing Instance machine.
Local Open Scope cf_scope.

Lemma F2R_fabsf (x : float) : isfinite x = true -> F2R (fabsf x) = Rabs (F2R x).
Proof.
  destruct x as [s|s| |s m e]; try discriminate; intros _.
  - simpl. symmetry. apply Rabs_R0.
  - change (F2R (S754_finite false m e) = Rabs (F2R (S754_finite s m e))).
    rewrite F2R_abs, F2R_finite. lra.
Qed.

Lemma F2R_lit_512 : F2R (lit 512 0) = 512%R.
Proof. eval_float (lit 512 0). unfold F2R. simpl. lra. Qed.

Lemma F2R_lit_2 : F2R (lit 2 0) = 2%R.
Proof. eval_float (lit 2 0). unfold F2R. simpl. lra. Qed.

Lemma F2R_lit_1024 : F2R (lit 1024 0) = 1024%R.
Proof. eval_float (lit 1024 0). unfold F2R. simpl. lra. Qed.

Lemma F2R_lit_32 : F2R (lit 32 0) = 32%R.
Proof. eval_float (lit 32 0). unfold F2R. simpl. lra. Qed.

(** What the driver returns at 500 deg/s is below 512 deg/s in
    magnitude. *)
Lemma gyro_reading_bound (w : Z) :
  is_int16 w ->
  let r := icm20948_gyro_to_dps w GYRO_RANGE_500DPS in
  valid32 r /\ isfinite r = true /\ (Rabs (F2R r) <= 512)%R.
Proof.
  intros I r. destruct (gyro_500_rounded w I) as [F R]. fold r in F, R.
  assert (V : valid32 r).
  { unfold r, icm20948_gyro_to_dps. apply valid_fdiv; [apply valid_of_int|reflexivity]. }
  split; [exact V|]. split; [exact F|].
  destruct (rounds32_within _ _ (lit 512 0) R) as [_ B]; try reflexivity.
  - rewrite F2R_lit_512.
    unfold is_int16, INT16_MIN, INT16_MAX in I. destruct I as [I1 I2].
    apply IZR_le in I1, I2. apply Rabs_le. lra.
  - rewrite F2R_lit_512 in B. exact B.
Qed.

(** A bias-corrected rate below 1.2 deg/s in magnitude: the bias is
    finite and within 2 deg/s of the reading. *)
Lemma stationary_axis (r b : float) :
  valid32 r -> valid32 b -> isfinite r = true ->
  (fabsf (r - b) < lit 12 (-1)) = true ->
  isfinite b = true /\ (Rabs (F2R r - F2R b) <= 2)%R.
Proof.
  intros Vr Vb Fr H.
  assert (Vd : valid32 (r - b)) by (apply valid_fsub; assumption).
  assert (Fd : isfinite (r - b) = true).
  { destruct (r - b) as [s|[]| |s m e]; try reflexivity; discriminate. }
  destruct (finite_fsub _ _ Fd) as [_ Fb]. split; [exact Fb|].
  pose proof (fsub_correct r b Vr Vb Fr Fb) as R.
  pose proof (rounds32_abs_error _ _ R Fd) as E.
  apply flt_finite in H; try reflexivity.
  2:{ apply valid_fabsf. exact Vd. }
  2:{ destruct (r - b) as [s|[]| |s m e]; try reflexivity; discriminate. }
  rewrite (F2R_fabsf _ Fd) in H.
  assert (C : (F2R (lit 12 (-1)) <= 13 / 10)%R).
  { eval_float (lit 12 (-1)). F2R_num. lra. }
  set (x := (F2R r - F2R b)%R) in *. set (d := F2R (r - b)) in *.
  assert (T : (Rabs x <= Rabs d + Rabs (d - x))%R).
  { replace x with (d - (d - x))%R at 1 by ring.
    apply Rle_trans with (1 := Rabs_triang _ _). rewrite Rabs_Ropp. lra. }
  pose proof (Rabs_pos x). lra.
Qed.

(** The blend of a bias and a reading below 1024 in magnitude is
    finite. *)
Lemma blend_finite (a b r : float) :
  valid32 a -> valid32 b -> valid32 r ->
  isfinite a = true -> isfinite b = true -> isfinite r = true ->
  (0 <= F2R a <= / 50)%R -> (Rabs (F2R b) <= 1024)%R -> (Rabs (F2R r) <= 1024)%R ->
  isfinite (blend_bias a b r) = true.
Proof.
  intros Va Vb Vr Fa Fb Fr Ra Bb Br. unfold blend_bias.
  destruct (fsub_within c1 a (lit 2 0) 1 1) as (V1 & F1 & B1);
    try assumption; try reflexivity.
  { rewrite F2R_c1, Rabs_pos_eq; lra. }
  { rewrite Rabs_pos_eq; lra. }
  { rewrite F2R_lit_2. lra. }
  rewrite F2R_lit_2 in B1.
  destruct (fmul_within (c1 - a) b (lit 2048 0) 2 1024) as (V2 & F2 & B2);
    try assumption; try reflexivity.
  { eval_float (lit 2048 0). F2R_num. lra. }
  destruct (fmul_within a r (lit 32 0) (/ 50) 1024) as (V3 & F3 & B3);
    try assumption; try reflexivity.
  { rewrite Rabs_pos_eq; lra. }
  { rewrite F2R_lit_32. lra. }
  rewrite F2R_lit_32 in B3.
  destruct (fadd_within ((c1 - a) * b) (a * r) (lit 4096 0) 2048 32) as (_ & F4 & _);
    try assumption; try reflexivity.
  { revert B2. eval_float (lit 2048 0). F2R_num. intros B2. lra. }
  { eval_float (lit 4096 0). F2R_num. lra. }
Qed.

(** On a stationary tick the blend of one axis, made of the bias and of
    what the driver returns, is finite and within rounding error of the
    exact blend. *)
Lemma trim_axis_on_reading (a b : float) (w : Z) :
  valid32 a -> isfinite a = true -> (0 <= F2R a <= / 50)%R ->
  valid32 b -> is_int16 w ->
  let r := icm20948_gyro_to_dps w GYRO_RANGE_500DPS in
  (fabsf (r - b) < lit 12 (-1)) = true ->
  isfinite b = true /\ isfinite r = true /\ isfinite (blend_bias a b r) = true /\
  (Rabs (F2R (blend_bias a b r) - ((1 - F2R a) * F2R b + F2R a * F2R r))
   <= / 2097152 * Rmax (Rabs (F2R b)) (Rabs (F2R r))
      + / 178405961588244985132285746181186892047843328)%R.
Proof.
  intros Va Fa Ra Vb I r H.
  destruct (gyro_reading_bound w I) as (Vr & Fr & Br). fold r in Vr, Fr, Br.
  destruct (stationary_axis r b Vr Vb Fr H) as (Fb & D).
  assert (Bb : (Rabs (F2R b) <= 1024)%R).
  { replace (F2R b) with (F2R r - (F2R r - F2R b))%R by ring.
    apply Rle_trans with (1 := Rabs_triang _ _). rewrite Rabs_Ropp. lra. }
  assert (Fn : isfinite (blend_bias a b r) = true).
  { apply blend_finite; try assumption. lra. }
  destruct (blend_bias_error a b r Va Vb Vr Fa Ra Fn) as (_ & _ & E).
  repeat split; assumption.
Qed.

(** The interval [action_test_gyro] hands on is a positive binary32
    number. *)
Lemma measured_dt_finite (dt_us : Z) :
  valid32 (measured_dt dt_us) /\ isfinite (measured_dt dt_us) = true /\
  (0 < F2R (measured_dt dt_us))%R.
Proof.
  destruct (measured_dt_cases dt_us) as (Lo & Hi & _).
  assert (V : valid32 (measured_dt dt_us)).
  { unfold measured_dt. destruct ((_ <= c0) || _); [reflexivity|apply micros_valid]. }
  assert (F : isfinite (measured_dt dt_us) = true).
  { destruct (measured_dt dt_us) as [s|[]| |s m e]; try reflexivity; discriminate. }
  split; [exact V|]. split; [exact F|].
  apply flt_finite in Lo; try assumption; reflexivity.
Qed.

End TrimOnReadings.

Section TrimInLoop.
Context {A : CArith} {L : LibM A}.
Local Open Scope cf_scope.

(** The three gyroscope biases after a pass of the loop of
    [action_test_gyro] that reads both sensors: those of [trim_bias],
    unless a bias-corrected rate is not finite or above 2000 deg/s, which
    leaves the biases alone. *)
Lemma pass_trims_bias (s : GyroTest) (i : GyroTestInput) (accel gyro : SensorData) :
  key2 i = false -> accel_read i = Some accel -> gyro_read i = Some gyro ->
  let dt := measured_dt (to_int64 (now i - last_update s)) in
  let ax := icm20948_accel_to_g (sx accel) ACCEL_RANGE_4G - accel_bias_x s in
  let ay := icm20948_accel_to_g (sy accel) ACCEL_RANGE_4G - accel_bias_y s in
  let az := icm20948_accel_to_g (sz accel) ACCEL_RANGE_4G - accel_bias_z s in
  let rx := icm20948_gyro_to_dps (sx gyro) GYRO_RANGE_500DPS in
  let ry := icm20948_gyro_to_dps (sy gyro) GYRO_RANGE_500DPS in
  let rz := icm20948_gyro_to_dps (sz gyro) GYRO_RANGE_500DPS in
  let gx := rx - gyro_bias_x s in
  let gy := ry - gyro_bias_y s in
  let gz := rz - gyro_bias_z s in
  let s' := state_of (action_test_gyro_pass s i) in
  (gyro_bias_x s', gyro_bias_y s', gyro_bias_z s') =
  if negb (isfinite gx) || negb (isfinite gy) || negb (isfinite gz)
     || ((fabsf gx > lit 2000 0) || (fabsf gy > lit 2000 0) || (fabsf gz > lit 2000 0))
  then (gyro_bias_x s, gyro_bias_y s, gyro_bias_z s)
  else trim_bias dt (gyro_bias_x s, gyro_bias_y s, gyro_bias_z s) (rx, ry, rz) ax ay az.
Proof.
  intros K Ra Rg dt ax ay az rx ry rz gx gy gz s'.
  unfold s', action_test_gyro_pass. rewrite K, Ra, Rg. cbv zeta.
  fold dt ax ay az rx ry rz. fold gx gy gz.
  destruct (negb (isfinite gx) || negb (isfinite gy) || negb (isfinite gz)).
  { reflexivity. }
  cbn [orb].
  destruct ((fabsf gx > lit 2000 0) || (fabsf gy > lit 2000 0) || (fabsf gz > lit 2000 0)).
  { reflexivity. }
  destruct (trim_bias dt _ _ ax ay az) as [[bx by_] bz].
  destruct (negb _ || negb _); reflexivity.
Qed.

End TrimInLoop.

Local Close Scope Z_scope.
Local Open Scope R_scope.

(* ================================================================== *)
(** * [wrap360] on every yaw *)
(* ================================================================== *)

Section IdealHeading.
Local Existing Instance ideal.

Lemma ideal_lit_360 : @lit ideal 360 0 = 360.
Proof. reflexivity. Qed.

(** In exact arithmetic the first loop ends once enough turns are
    allowed. *)
Lemma ideal_wrap_up (n : nat) : forall deg : R,
  - (360 * INR n) <= deg ->
  exists d, @wrap_up ideal n deg = Some d /\ 0 <= d /\ (deg < 0 -> d < 360) /\
            (0 <= deg -> d = deg).
Proof.
  induction n as [|n IH]; intros deg H.
  - simpl in H. exists deg. cbn [wrap_up].
    change (@flt ideal deg c0) with (RealArith.ltb deg 0). unfold RealArith.ltb.
    destruct (Rlt_dec deg 0) as [N|N]; [lra|].
    repeat split; try lra.
  - cbn [wrap_up].
    change (@flt ideal deg c0) with (RealArith.ltb deg 0). unfold RealArith.ltb.
    destruct (Rlt_dec deg 0) as [N|N].
    + rewrite S_INR in H.
      destruct (IH (@fadd ideal deg (lit 360 0))) as (d & E & P & Q & S).
      { change (@fadd ideal deg (lit 360 0)) with (deg + 360). lra. }
      change (@fadd ideal deg (lit 360 0)) with (deg + 360) in *.
      exists d. split; [exact E|]. split; [exact P|]. split; [|lra].
      intros _. destruct (Rlt_dec (deg + 360) 0) as [M|M]; [apply Q; exact M|].
      rewrite S by lra. lra.
    + exists deg. repeat split; try lra.
Qed.

Lemma ideal_wrap_down (n : nat) : forall deg : R,
  0 <= deg < 360 * INR n + 360 ->
  exists h, @wrap_down ideal n deg = Some h /\ 0 <= h < 360.
Proof.
  induction n as [|n IH]; intros deg H.
  - simpl in H. exists deg. cbn [wrap_down].
    change (@fle ideal (lit 360 0) deg) with (RealArith.leb 360 deg). unfold RealArith.leb.
    destruct (Rle_dec 360 deg) as [N|N]; [lra|]. split; [reflexivity|lra].
  - cbn [wrap_down].
    change (@fle ideal (lit 360 0) deg) with (RealArith.leb 360 deg). unfold RealArith.leb.
    destruct (Rle_dec 360 deg) as [N|N].
    + rewrite S_INR in H.
      destruct (IH (@fsub ideal deg (lit 360 0))) as (h & E & P).
      { change (@fsub ideal deg (lit 360 0)) with (deg - 360). lra. }
      exists h. split; [exact E|exact P].
    + exists deg. split; [reflexivity|lra].
Qed.

(** In exact arithmetic [wrap360] returns a heading in [0, 360) for
    every yaw, given turns enough. *)
Lemma ideal_wrap360 (yaw : R) :
  exists (fuel : nat) (h : R), @wrap360 ideal fuel yaw = Some h /\ 0 <= h < 360.
Proof.
  set (k := up (Rabs yaw / 360)).
  destruct (archimed (Rabs yaw / 360)) as [K _]. fold k in K.
  pose proof (Rabs_pos yaw) as P.
  assert (K0 : (0 <= k)%Z).
  { apply le_IZR. apply Rlt_le. apply Rle_lt_trans with (2 := K).
    apply Rmult_le_pos; lra. }
  assert (N : INR (Z.to_nat k) = IZR k) by (rewrite INR_IZR_INZ, Z2Nat.id; auto).
  assert (B : Rabs yaw < 360 * INR (Z.to_nat k)).
  { rewrite N. apply Rmult_lt_compat_l with (r := 360) in K; [|lra].
    replace (360 * (Rabs yaw / 360)) with (Rabs yaw) in K by (field). exact K. }
  exists (Z.to_nat k).
  destruct (ideal_wrap_up (Z.to_nat k) yaw) as (d & E & D0 & Dn & Dp).
  { apply Rabs_def2 in B. lra. }
  destruct (ideal_wrap_down (Z.to_nat k) d) as (h & E' & H).
  { split; [exact D0|].
    destruct (Rlt_dec yaw 0) as [M|M].
    - specialize (Dn M). pose proof (pos_INR (Z.to_nat k)). lra.
    - rewrite Dp by lra. apply Rabs_def2 in B. lra. }
  exists h. unfold wrap360. rewrite E. split; [exact E'|exact H].
Qed.

End IdealHeading.

Section MachineHeading.
Local Existing Instance machine.
Local Open Scope cf_scope.

Lemma F2R_lit_2_31 : F2R (S754_finite false 8388608 8) = 2147483648%R.
Proof. F2R_num. lra. Qed.

(** A NaN leaves both loops of [wrap360] at once. *)
Lemma wrap360_nan (fuel : nat) : @wrap360 machine fuel S754_nan = Some S754_nan.
Proof. destruct fuel; reflexivity. Qed.

(** Below [2^31] in magnitude a turn of either loop changes its argument
    by at least 100: the rounding of the sum is below 256. *)
Lemma turn_down (deg : float) :
  valid32 deg -> isfinite deg = true -> (360 <= F2R deg <= 2147483648)%R ->
  valid32 (deg - lit 360 0) /\ isfinite (deg - lit 360 0) = true /\
  (0 <= F2R (deg - lit 360 0)%cf <= F2R deg - 100)%R.
Proof.
  intros V F [Lo Hi]. destruct valid32_lit_360 as [V360 F360].
  pose proof (fsub_correct deg (lit 360 0) V V360 F F360) as R.
  rewrite F2R_lit_360 in R.
  assert (Vd : valid32 (deg - lit 360 0)) by (apply valid_fsub; assumption).
  destruct (rounds32_between _ _ c0 deg R) as [Fd Bd]; try assumption; try reflexivity.
  { rewrite F2R_c0. lra. }
  rewrite F2R_c0 in Bd.
  pose proof (rounds32_abs_error_nonneg _ _ R Fd) as E.
  specialize (E ltac:(lra)). apply Rabs_le_inv in E.
  split; [exact Vd|]. split; [exact Fd|]. lra.
Qed.

Lemma turn_up (deg : float) :
  valid32 deg -> isfinite deg = true -> (-2147483648 <= F2R deg < 0)%R ->
  valid32 (deg + lit 360 0) /\ isfinite (deg + lit 360 0) = true /\
  (F2R deg + 100 <= F2R (deg + lit 360 0)%cf <= 360)%R.
Proof.
  intros V F [Lo Hi]. destruct valid32_lit_360 as [V360 F360].
  pose proof (fadd_correct deg (lit 360 0) V V360 F F360) as R.
  rewrite F2R_lit_360 in R.
  assert (Vd : valid32 (deg + lit 360 0)) by (apply valid_fadd; assumption).
  destruct (rounds32_between _ _ deg (lit 360 0) R) as [Fd Bd];
    try assumption; try reflexivity.
  { rewrite F2R_lit_360. lra. }
  rewrite F2R_lit_360 in Bd.
  pose proof (rounds32_abs_error _ _ R Fd) as E.
  assert (A : (Rabs (F2R deg + 360) <= 2147483648)%R) by (apply Rabs_le; lra).
  apply Rabs_le_inv in E.
  split; [exact Vd|]. split; [exact Fd|]. lra.
Qed.

Lemma wrap_up_far (n : nat) : forall deg : float,
  valid32 deg -> isfinite deg = true ->
  (-2147483648 <= F2R deg <= 2147483648)%R -> (- (100 * INR n) <= F2R deg)%R ->
  exists d, wrap_up n deg = Some d /\ valid32 d /\ isfinite d = true /\
            (0 <= F2R d <= 2147483648)%R.
Proof.
  induction n as [|n IH]; intros deg V F B H.
  - simpl in H. cbn [wrap_up]. destruct (deg < c0) eqn:N.
    + apply flt_finite in N; try assumption; try reflexivity.
      rewrite F2R_c0 in N. lra.
    + exists deg. repeat split; try assumption; lra.
  - cbn [wrap_up]. destruct (deg < c0) eqn:N.
    + apply flt_finite in N; try assumption; try reflexivity.
      rewrite F2R_c0 in N. rewrite S_INR in H.
      destruct (turn_up deg V F) as (Vd & Fd & Bd); [lra|].
      apply IH; try assumption; lra.
    + exists deg.
      apply flt_false_fle in N; [|apply finite_not_nan; exact F|reflexivity].
      apply fle_finite in N; try assumption; try reflexivity.
      rewrite F2R_c0 in N. repeat split; try assumption; lra.
Qed.

Lemma wrap_down_far (n : nat) : forall deg : float,
  valid32 deg -> isfinite deg = true ->
  (0 <= F2R deg <= 2147483648)%R -> (F2R deg < 360 + 100 * INR n)%R ->
  exists h, wrap_down n deg = Some h /\ valid32 h /\ isfinite h = true /\
            (0 <= F2R h < 360)%R.
Proof.
  induction n as [|n IH]; intros deg V F B H.
  - simpl in H. cbn [wrap_down]. destruct (deg >= lit 360 0) eqn:N.
    + apply fle_finite in N; try assumption; try reflexivity.
      rewrite F2R_lit_360 in N. lra.
    + exists deg. repeat split; try assumption; lra.
  - cbn [wrap_down]. destruct (deg >= lit 360 0) eqn:N.
    + apply fle_finite in N; try assumption; try reflexivity.
      rewrite F2R_lit_360 in N. rewrite S_INR in H.
      destruct (turn_down deg V F) as (Vd & Fd & Bd); [lra|].
      apply IH; try assumption; lra.
    + exists deg.
      apply fle_false_flt in N; [|reflexivity|apply finite_not_nan; exact F].
      apply flt_finite in N; try assumption; try reflexivity.
      rewrite F2R_lit_360 in N. repeat split; try assumption; lra.
Qed.

(** For every finite yaw of at most [2^31] in magnitude [wrap360]
    returns a heading in [0, 360), given turns enough. *)
Lemma wrap360_far (deg : float) :
  valid32 deg -> isfinite deg = true ->
  (-2147483648 <= F2R deg <= 2147483648)%R ->
  exists (fuel : nat) (h : float),
    wrap360 fuel deg = Some h /\ valid32 h /\ isfinite h = true /\
    (0 <= F2R h < 360)%R /\ (c0 <= h) = true /\ (h < lit 360 0) = true.
Proof.
  intros V F B.
  set (n := Z.to_nat 21474837).
  assert (N : INR n = 21474837%R).
  { unfold n. rewrite INR_IZR_INZ, Z2Nat.id by lia. reflexivity. }
  destruct (wrap_up_far n deg V F B) as (d & E & Vd & Fd & Bd); [rewrite N; lra|].
  destruct (wrap_down_far n d Vd Fd Bd) as (h & E' & Vh & Fh & Bh); [rewrite N; lra|].
  exists n, h. unfold wrap360. rewrite E, E'.
  repeat split; try assumption; try lra.
  - apply fle_finite; try assumption; try reflexivity. rewrite F2R_c0. lra.
  - apply flt_finite; try assumption; try reflexivity. rewrite F2R_lit_360. lra.
Qed.

End MachineHeading.

(* ================================================================== *)
(** * A run of [action_test_gyro] that pitches over *)
(* ================================================================== *)

Section PitchOver.
Local Existing Instance machine.
Local Open Scope cf_scope.

Lemma within_two_spec (x : float) :
  within_two x = true -> valid32 x /\ isfinite x = true /\ (Rabs (F2R x) <= 2)%R.
Proof.
  unfold within_two. intros H.
  apply andb_prop in H. destruct H as (H & B).
  apply andb_prop in H. destruct H as (V & F).
  split; [exact V|]. split; [exact F|].
  apply fle_finite in B; try reflexivity.
  - rewrite (F2R_fabsf _ F) in B. rewrite F2R_lit_2 in B. exact B.
  - apply valid_fabsf. exact V.
  - destruct x; try discriminate; reflexivity.
Qed.

Lemma quat_bounded_of_tests (f : Quaternion) :
  within_two (q0 f) && within_two (q1 f) && within_two (q2 f) && within_two (q3 f) = true ->
  quat_bounded f.
Proof.
  intros H.
  apply andb_prop in H. destruct H as (H & H3).
  apply andb_prop in H. destruct H as (H & H2).
  apply andb_prop in H. destruct H as (H0 & H1).
  destruct (within_two_spec _ H0) as (V0 & F0 & B0).
  destruct (within_two_spec _ H1) as (V1 & F1 & B1).
  destruct (within_two_spec _ H2) as (V2 & F2 & B2).
  destruct (within_two_spec _ H3) as (V3 & F3 & B3).
  split; [repeat split; assumption|]. split.
  - unfold quat_finite.
    change (@isfinite machine) with IEEE.is_finite in F0, F1, F2, F3.
    rewrite F0, F1, F2, F3. reflexivity.
  - repeat split; assumption.
Qed.

(** A pass that reads both sensors away from rest, with rates the loop
    accepts: the filter is updated with the rates and the biases stay.
    The angles of the new quaternion are finite whatever the C library
    returns within its ranges, so the filter is not reset. *)
Lemma pass_off_rest (L : LibM machine) (s : GyroTest) (i : GyroTestInput)
    (accel gyro : SensorData) (f : MadgwickFilter)
    (bx by_ bz abx aby abz : float) (t : Z) :
  libm_in_range L ->
  snapshot L s f (bx, by_, bz) (abx, aby, abz) t ->
  key2 i = false -> accel_read i = Some accel -> gyro_read i = Some gyro ->
  let dt := measured_dt (to_int64 (now i - t)) in
  let ax := icm20948_accel_to_g (sx accel) ACCEL_RANGE_4G - abx in
  let ay := icm20948_accel_to_g (sy accel) ACCEL_RANGE_4G - aby in
  let az := icm20948_accel_to_g (sz accel) ACCEL_RANGE_4G - abz in
  let gx_dps := icm20948_gyro_to_dps (sx gyro) GYRO_RANGE_500DPS - bx in
  let gy_dps := icm20948_gyro_to_dps (sy gyro) GYRO_RANGE_500DPS - by_ in
  let gz_dps := icm20948_gyro_to_dps (sz gyro) GYRO_RANGE_500DPS - bz in
  negb (isfinite gx_dps) || negb (isfinite gy_dps) || negb (isfinite gz_dps) = false ->
  (fabsf gx_dps > lit 2000 0) || (fabsf gy_dps > lit 2000 0)
    || (fabsf gz_dps > lit 2000 0) = false ->
  stationary ax ay az gx_dps gy_dps gz_dps = false ->
  let f' :=
    madgwick_update_imu
      {| q := q f; beta := beta f; sample_freq := c1 / dt; inv_sample_freq := dt |}
      (deg_to_rad gx_dps) (deg_to_rad gy_dps)
      (deg_to_rad (if fabsf gz_dps < lit 15 (-2) then c0 else gz_dps)) ax ay az in
  quat_bounded (q f') ->
  snapshot L (state_of (action_test_gyro_pass s i)) f' (bx, by_, bz) (abx, aby, abz) (now i).
Proof.
  intros HL (Hf & Hg & Ha & Ht) K Ra Rg dt ax ay az gx_dps gy_dps gz_dps C1 C2 St f' B.
  injection Hg as Hx Hy Hz. injection Ha as Hax Hay Haz.
  unfold action_test_gyro_pass. rewrite K, Ra, Rg. cbv zeta.
  rewrite Hf, Hx, Hy, Hz, Hax, Hay, Haz, Ht.
  fold dt ax ay az gx_dps gy_dps gz_dps.
  rewrite C1, C2.
  rewrite (trim_bias_moving dt bx by_ bz _ _ _ ax ay az St).
  fold gx_dps gy_dps gz_dps. fold f'.
  destruct (euler_of_bounded (L := L) f' HL B) as ((Fp & _) & (Fr & _)).
  assert (Fn : isfinite (- madgwick_get_roll_deg f') = true).
  { change (IEEE.is_finite (SFopp (madgwick_get_roll_deg f')) = true).
    rewrite (is_finite_opp _ _ b32_prec b32_emax). exact Fr. }
  rewrite Fn, Fp. cbn [negb orb]. cbn [state_of].
  unfold snapshot, with_filter.
  cbn [filter gyro_bias_x gyro_bias_y gyro_bias_z accel_bias_x accel_bias_y accel_bias_z
       last_update].
  rewrite Hax, Hay, Haz. repeat split.
Qed.

End PitchOver.

Section PitchOverRun.
Local Existing Instance machine.
Local Open Scope cf_scope.

(** The library of [signed_zero_libm] stays in the ranges. *)
Lemma signed_zero_libm_in_range : libm_in_range signed_zero_libm.
Proof.
  split.
  - apply (proj1 crude_libm_in_range).
  - intros y x _ _ _ _. cbn [atan2f signed_zero_libm].
    assert (P : (F2R (IEEE.convert B32.prec B32.emax B64.M_PI)
                 = F2R (S754_finite false 13176795 (-22)))%R).
    { change (IEEE.convert B32.prec B32.emax B64.M_PI) with (@d2f machine M_PI).
      rewrite pi_f_value. reflexivity. }
    destruct y as [s|s| |s m e].
    + destruct (SFltb x (S754_zero false)).
      * destruct s.
        -- split; [reflexivity|]. split; [reflexivity|].
           change (SFopp (IEEE.convert B32.prec B32.emax B64.M_PI))
             with (@fneg machine (IEEE.convert B32.prec B32.emax B64.M_PI)).
           rewrite F2R_fneg, Rabs_Ropp, P. F2R_num. rewrite Rabs_pos_eq; lra.
        -- split; [reflexivity|]. split; [reflexivity|].
           rewrite P. F2R_num. rewrite Rabs_pos_eq; lra.
      * split; [reflexivity|]. split; [reflexivity|].
        change (F2R (S754_zero s)) with 0%R. rewrite Rabs_R0, P. F2R_num. lra.
    + split; [reflexivity|]. split; [reflexivity|].
      change (F2R (S754_zero false)) with 0%R. rewrite Rabs_R0, P. F2R_num. lra.
    + split; [reflexivity|]. split; [reflexivity|].
      change (F2R (S754_zero false)) with 0%R. rewrite Rabs_R0, P. F2R_num. lra.
    + split; [reflexivity|]. split; [reflexivity|].
      change (F2R (S754_zero false)) with 0%R. rewrite Rabs_R0, P. F2R_num. lra.
Qed.

(** The start of the loop after a calibration at rest and level, then
    three ticks of 0.2 s in which the gyroscope reads -500 deg/s about
    the y axis and the accelerometer reads zero.  Whatever the C library
    returns within its ranges, the filter then holds a quaternion whose
    [q0] and [q2] are negative and whose [q1] and [q3] are +0. *)
Lemma pitch_over_run (L : LibM machine) :
  libm_in_range L ->
  let rest := {| sx := 0; sy := 0; sz := 0 |} in
  let level := {| sx := 0; sy := 0; sz := 8192 |} in
  let turn (t : Z) :=
    {| key2 := false; accel_read := Some rest;
       gyro_read := Some {| sx := 0; sy := -32768; sz := 0 |}; now := t |} in
  let s0 := action_test_gyro_start (fun _ : nat => (Some rest, Some level)) 0 in
  let s1 := state_of (action_test_gyro_pass s0 (turn 200000%Z)) in
  let s2 := state_of (action_test_gyro_pass s1 (turn 400000%Z)) in
  let s3 := state_of (action_test_gyro_pass s2 (turn 600000%Z)) in
  q0 (q (filter s3)) = S754_finite true 9229899 (-24) /\
  q1 (q (filter s3)) = S754_zero false /\
  q2 (q (filter s3)) = S754_finite true 14010136 (-24) /\
  q3 (q (filter s3)) = S754_zero false.
Proof.
  intros HL rest level turn s0 s1 s2 s3.
  assert (S0 : snapshot L s0 (madgwick_init (lit 100 0) (lit 10 (-2)))
                 (c0, c0, c0) (c0, c0, c0) 0).
  { unfold s0, action_test_gyro_start.
    replace (calibrate (fun _ : nat => (Some rest, Some level)))
      with ((c0, c0, c0, (c0, c0, c0)) : (float * float * float) * (float * float * float))
      by (vm_compute; reflexivity).
    cbv iota beta. repeat split. }
  eassert (S1 : snapshot L s1 _ _ _ _).
  { unfold s1. eapply pass_off_rest;
      [exact HL|exact S0|reflexivity|reflexivity|reflexivity
      |vm_compute; reflexivity|vm_compute; reflexivity|vm_compute; reflexivity
      |apply quat_bounded_of_tests; vm_compute; reflexivity]. }
  eassert (S2 : snapshot L s2 _ _ _ _).
  { unfold s2. eapply pass_off_rest;
      [exact HL|exact S1|reflexivity|reflexivity|reflexivity
      |vm_compute; reflexivity|vm_compute; reflexivity|vm_compute; reflexivity
      |apply quat_bounded_of_tests; vm_compute; reflexivity]. }
  eassert (S3 : snapshot L s3 _ _ _ _).
  { unfold s3. eapply pass_off_rest;
      [exact HL|exact S2|reflexivity|reflexivity|reflexivity
      |vm_compute; reflexivity|vm_compute; reflexivity|vm_compute; reflexivity
      |apply quat_bounded_of_tests; vm_compute; reflexivity]. }
  destruct S3 as (Hf & _). rewrite Hf.
  repeat split; vm_compute; reflexivity.
Qed.

End PitchOverRun.

Local Close Scope R_scope.
Local Close Scope Z_scope.

(* ================================================================== *)
(** * The claims of the specification *)
(* ================================================================== *)

Section MachineClaims.
Local Existing Instance machine.
Local Open Scope cf_scope.

(** C1: after [madgwick_update] and after [madgwick_update_imu], on a
    filter and inputs that are binary32 values (finite, infinite or NaN),
    the quaternion of the filter is the identity (1,0,0,0) or is finite
    with a squared norm within [NORM_EPS = 2^-18] of 1; the filter is again
    made of binary32 values, so this holds after every further update; and
    when the squared norm after the integration is at most 1e-20 or not
    finite, the quaternion is the identity. *)
Theorem madgwick_quaternion_unit_or_identity
    (filter : MadgwickFilter) (gx gy gz ax ay az mx my mz : float) :
  filter_valid filter ->
  Forall valid32 [gx; gy; gz; ax; ay; az; mx; my; mz] ->
  let f9 := madgwick_update filter gx gy gz ax ay az mx my mz in
  let f6 := madgwick_update_imu filter gx gy gz ax ay az in
  (unit_or_identity (q f9) /\ filter_valid f9) /\
  (unit_or_identity (q f6) /\ filter_valid f6) /\
  (forall qDot : Quaternion,
      (norm_sq (integrated filter qDot) <= c1e_20) = true \/
      isfinite (norm_sq (integrated filter qDot)) = false ->
      q (integrate filter qDot) = identity_quaternion).
Proof.
  intros FV IV f9 f6.
  repeat match goal with
         | H : Forall _ (_ :: _) |- _ =>
             let V := fresh "V" in
             apply Forall_cons_iff in H; destruct H as [V H]
         end.
  split; [|split].
  - destruct (update_integrates filter gx gy gz ax ay az mx my mz) as (qDot & VD & E);
      try assumption.
    unfold f9. rewrite E. split.
    + apply integrate_unit_or_identity; assumption.
    + apply integrate_filter_valid; assumption.
  - destruct (update_imu_integrates filter gx gy gz ax ay az) as (qDot & VD & E);
      try assumption.
    unfold f6. rewrite E. split.
    + apply integrate_unit_or_identity; assumption.
    + apply integrate_filter_valid; assumption.
  - intros qDot. apply integrate_degenerate.
Qed.

(** A filter at rest (100 Hz, gain 0.1) updated with a small rotation, one
    g on the z axis and a magnetometer reading. *)
Lemma madgwick_quaternion_witness :
  let filter := madgwick_init (lit 100 0) (lit 1 (-1)) in
  let f9 := madgwick_update filter (lit 1 (-2)) (- lit 2 (-2)) (lit 3 (-2))
              c0 c0 c1 (lit 3 (-1)) c0 (lit 4 (-1)) in
  unit_or_identity (q f9) /\ filter_valid f9.
Proof.
  intros filter f9.
  apply (madgwick_quaternion_unit_or_identity filter
           (lit 1 (-2)) (- lit 2 (-2)) (lit 3 (-2)) c0 c0 c1 (lit 3 (-1)) c0 (lit 4 (-1))).
  - repeat split.
  - repeat constructor.
Defined.

(** C2: the bank warning is [|roll| > bank_limit speed], where the limit is
    20 degrees when [speed <= 85] knots and 30 degrees when [speed > 85];
    the pitch warning is [|pitch| > 20]; both comparisons are strict.  At
    speed 80 and roll 25 the bank warning is raised, at speed 100 and roll
    25 it is not; pitch 21 raises the pitch warning and pitch 19 does
    not. *)
Theorem warning_thresholds :
  (forall speed : float, (speed <= lit 85 0) = true -> bank_limit speed = lit 20 0) /\
  (forall speed : float, (speed > lit 85 0) = true -> bank_limit speed = lit 30 0) /\
  (forall roll speed : float,
      bank_warning roll speed = (fabsf roll > bank_limit speed)) /\
  (forall pitch : float, pitch_warning pitch = (fabsf pitch > lit 20 0)) /\
  (forall speed : float, bank_warning (bank_limit speed) speed = false) /\
  pitch_warning (lit 20 0) = false /\
  bank_warning (lit 25 0) (lit 80 0) = true /\
  bank_warning (lit 25 0) (lit 100 0) = false /\
  pitch_warning (lit 21 0) = true /\
  pitch_warning (lit 19 0) = false.
Proof.
  repeat split; try reflexivity.
  - intros speed H. unfold bank_limit. rewrite H. reflexivity.
  - intros speed H. unfold bank_limit.
    rewrite (flt_fle_false _ _ H). reflexivity.
  - intros speed. unfold bank_warning, bank_limit.
    destruct (speed <= lit 85 0); reflexivity.
Qed.

(** C4: with a magnetometer vector whose three components are zero (of
    either sign), the 9-DOF update [madgwick_update] returns the filter
    that the 6-DOF update [madgwick_update_imu] returns on the same
    gyroscope and accelerometer input; and a tick of the attitude
    indicator whose magnetometer read failed is not skipped: its filter
    is the one the IMU-only update returns. *)
Theorem zero_magnetometer_is_imu_update :
  (forall (filter : MadgwickFilter) (gx gy gz ax ay az : float) (s1 s2 s3 : bool),
      madgwick_update filter gx gy gz ax ay az
        (S754_zero s1) (S754_zero s2) (S754_zero s3)
      = madgwick_update_imu filter gx gy gz ax ay az) /\
  (forall (filter : MadgwickFilter) (gx gy gz ax ay az : float),
      madgwick_update filter gx gy gz ax ay az c0 c0 c0
      = madgwick_update_imu filter gx gy gz ax ay az) /\
  (forall (L : LibM machine) (f : MadgwickFilter)
          (dt gx gy gz ax ay az : float) (accel_valid : bool),
      fuse f dt gx gy gz ax ay az accel_valid None
      = BasicGyro.madgwick_update_imu
          {| q := q f; beta := beta f; sample_freq := c1 / dt; inv_sample_freq := dt |}
          gx gy gz
          (if accel_valid then ax else c0)
          (if accel_valid then ay else c0)
          (if accel_valid then az else c0)) /\
  (forall (L : LibM machine) (fuel : nat) (s s' : Indicator)
          (accel gyro : SensorData) (t : Z),
      (to_int64 (t - next_tick_us s) <? 0)%Z = false ->
      attitude_indicator_pass fuel s
        {| ai_key2 := false; now_us := t;
           accel_gyro_read := Some (accel, gyro); mag_read := None |}
      = Some (Continue s') ->
      let ax := icm20948_accel_to_g (sx accel) ACCEL_RANGE_4G in
      let ay := icm20948_accel_to_g (sy accel) ACCEL_RANGE_4G in
      let az := icm20948_accel_to_g (sz accel) ACCEL_RANGE_4G in
      let gx := icm20948_gyro_to_dps (sx gyro) GYRO_RANGE_500DPS - gx_bias s in
      let gy := icm20948_gyro_to_dps (sy gyro) GYRO_RANGE_500DPS - gy_bias s in
      let gz := icm20948_gyro_to_dps (sz gyro) GYRO_RANGE_500DPS - gz_bias s in
      let anorm2 := ax * ax + ay * ay + az * az in
      let accel_valid := (anorm2 > lit 8 (-1)) && (anorm2 < lit 12 (-1)) in
      let dt := tick_dt (last_update_us s) t in
      ai_filter s'
      = BasicGyro.madgwick_update_imu
          {| q := q (ai_filter s); beta := beta (ai_filter s);
             sample_freq := c1 / dt; inv_sample_freq := dt |}
          gx gy gz
          (if accel_valid then ax else c0)
          (if accel_valid then ay else c0)
          (if accel_valid then az else c0)).
Proof.
  split; [|split; [|split]].
  - intros. unfold madgwick_update. rewrite !feq_zero_zero. reflexivity.
  - intros. reflexivity.
  - intros. reflexivity.
  - intros L fuel s s' accel gyro t Due H.
    unfold attitude_indicator_pass in H. cbn [ai_key2 now_us accel_gyro_read mag_read] in H.
    rewrite Due in H. cbv zeta in H.
    destruct (BasicGyro.madgwick_get_euler _) as [[roll pitch] yaw].
    destruct (wrap360 fuel yaw) as [heading|]; [|discriminate].
    injection H as <-. reflexivity.
Qed.



(** C3 (amended).  In exact arithmetic, with [asin] and [atan2] at their
    mathematical values, the claim holds as stated: for every quaternion
    [quaternion_to_euler] gives a pitch in [-90, 90] degrees, 90 degrees
    with the sign of [sinp] when [|sinp| >= 1], and a roll in (-180, 180]
    degrees, and [wrap360] returns a heading in [0, 360) for every yaw.
    In binary32, [|sinp| >= 1] gives exactly 90.0f with the sign of
    [sinp] whatever [asinf] does (it is not called), and the pitch is
    [asinf sinp] in degrees otherwise.  With a C library whose [asinf]
    and [atan2f] stay in their ranges, the pitch is finite and in
    [-90, 90] for every quaternion of binary32 values whose [sinp] is not
    NaN, and the roll is finite and in [-180, 180], -180 included, for
    every one whose [sinr_cosp] and [cosr_cosp] are not NaN; the
    quaternion a filter holds after an update (the identity, or finite
    with a squared norm within [NORM_EPS] of 1) is such a quaternion.
    For every finite binary32 yaw of at most [2^31] in magnitude
    [wrap360] returns a heading in [0, 360), within one turn of each of
    its loops when the yaw is between -360 and 360, as is the yaw that
    [madgwick_get_euler] reports to the attitude indicator when its
    [siny_cosp] and [cosy_cosp] are not NaN; on a NaN yaw [wrap360]
    returns NaN. *)
Theorem euler_ranges_and_heading_wrap :
  (forall filter : @MadgwickFilter ideal,
      (-90 <= @madgwick_get_pitch_deg ideal ideal_libm filter <= 90)%R /\
      (-180 < @madgwick_get_roll_deg ideal ideal_libm filter <= 180)%R) /\
  (forall filter : @MadgwickFilter ideal,
      let f := q filter in
      let sinp := (2 * (q0 f * q2 f - q3 f * q1 f))%R in
      (1 <= Rabs sinp)%R ->
      @madgwick_get_pitch_deg ideal ideal_libm filter
      = if Rlt_dec sinp 0 then (-90)%R else 90%R) /\
  (forall yaw : R,
      exists (fuel : nat) (h : R),
        @wrap360 ideal fuel yaw = Some h /\ (0 <= h < 360)%R) /\
  (forall (L : LibM machine) (filter : MadgwickFilter),
      let f := q filter in
      let sinp := c2 * (q0 f * q2 f - q3 f * q1 f) in
      ((fabsf sinp >= c1) = true ->
       madgwick_get_pitch_deg filter = copysignf (lit 90 0) sinp /\
       F2R (madgwick_get_pitch_deg filter)
       = if IEEE.sign_bit sinp then (-90)%R else 90%R) /\
      ((fabsf sinp >= c1) = false ->
       madgwick_get_pitch_deg filter = rad_to_deg (asinf sinp))) /\
  (forall (L : LibM machine) (filter : MadgwickFilter),
      libm_in_range L -> quat_valid (q filter) ->
      let f := q filter in
      (IEEE.is_nan (c2 * (q0 f * q2 f - q3 f * q1 f)) = false ->
       isfinite (madgwick_get_pitch_deg filter) = true /\
       (-90 <= F2R (madgwick_get_pitch_deg filter) <= 90)%R) /\
      (IEEE.is_nan (c2 * (q0 f * q1 f + q2 f * q3 f)) = false ->
       IEEE.is_nan (c1 - c2 * (q1 f * q1 f + q2 f * q2 f)) = false ->
       isfinite (madgwick_get_roll_deg filter) = true /\
       (-180 <= F2R (madgwick_get_roll_deg filter) <= 180)%R)) /\
  (forall (L : LibM machine) (filter : MadgwickFilter),
      libm_in_range L -> quat_valid (q filter) -> unit_or_identity (q filter) ->
      (isfinite (madgwick_get_pitch_deg filter) = true /\
       (-90 <= F2R (madgwick_get_pitch_deg filter) <= 90)%R) /\
      (isfinite (madgwick_get_roll_deg filter) = true /\
       (-180 <= F2R (madgwick_get_roll_deg filter) <= 180)%R)) /\
  (forall deg : float,
      valid32 deg -> isfinite deg = true ->
      (-2147483648 <= F2R deg <= 2147483648)%R ->
      exists (fuel : nat) (h : float),
        wrap360 fuel deg = Some h /\
        (c0 <= h) = true /\ (h < lit 360 0) = true /\ (0 <= F2R h < 360)%R) /\
  (forall (fuel : nat) (deg : float),
      valid32 deg -> isfinite deg = true -> (-360 <= F2R deg <= 360)%R ->
      exists h, wrap360 (S fuel) deg = Some h /\
                (c0 <= h) = true /\ (h < lit 360 0) = true /\
                (0 <= F2R h < 360)%R) /\
  (forall fuel : nat, wrap360 fuel S754_nan = Some S754_nan) /\
  (forall (L : LibM machine) (filter : MadgwickFilter) (fuel : nat),
      libm_in_range L -> quat_valid (q filter) ->
      let f := q filter in
      IEEE.is_nan (c2 * (q0 f * q3 f + q1 f * q2 f)) = false ->
      IEEE.is_nan (c1 - c2 * (q2 f * q2 f + q3 f * q3 f)) = false ->
      exists h,
        wrap360 (S fuel) (snd (BasicGyro.madgwick_get_euler filter)) = Some h /\
        (c0 <= h) = true /\ (h < lit 360 0) = true /\ (0 <= F2R h < 360)%R).
Proof.
  split; [|split; [|split; [|split; [|split; [|split; [|split; [|split; [|split]]]]]]]].
  - intros filter. split; [apply ideal_pitch_range|apply ideal_roll_range].
  - intros filter f sinp H. apply (ideal_pitch_clamped filter H).
  - apply ideal_wrap360.
  - intros L filter f sinp. split.
    + intros H. pose proof (pitch_clamped filter H) as E. split; [exact E|].
      rewrite E. apply F2R_copysign_90.
    + intros H. apply (pitch_unclamped filter H).
  - intros L filter HL V f. split.
    + intros N. apply pitch_in_range; assumption.
    + intros Ns Nc. apply roll_in_range; assumption.
  - intros L filter HL V U. apply euler_of_bounded; [exact HL|].
    apply unit_or_identity_bounded; assumption.
  - intros deg V F B.
    destruct (wrap360_far deg V F B) as (fuel & h & E & _ & _ & R & Lo & Hi).
    exists fuel, h. repeat split; try assumption; apply R.
  - intros fuel deg V F B.
    destruct (wrap360_range fuel deg V F B) as (h & E & _ & _ & R & Lo & Hi).
    exists h. repeat split; try assumption; apply R.
  - apply wrap360_nan.
  - intros L filter fuel HL V f Ns Nc. apply indicator_heading; assumption.
Qed.

(** C3, as stated, fails on a run of [action_test_gyro].  The
    calibration reads a sensor at rest and level; in the next three
    ticks, 0.2 s apart, the gyroscope reads -500 deg/s about the y axis
    and the accelerometer reads zero.  The filter then holds a
    quaternion with [q0] and [q2] negative and [q1] and [q3] zero: its
    [sinr_cosp] is -0 and its [cosr_cosp] is negative.  C has [atan2f]
    return -pi for the arguments -0 and [x < 0], and then
    [madgwick_get_roll_deg] returns -180.0f, which is not in
    (-180, 180].  This holds for every C library that stays in its
    ranges and returns -pi (rounded to binary32) there, and there is
    such a library.  Further, [wrap360] never returns on the finite yaw
    1e30f, where [1e30f - 360.0f] is [1e30f], and where [asinf] returns
    NaN on NaN the pitch of a quaternion of NaN is NaN. *)
Theorem roll_reaches_minus_180 :
  let rest := {| sx := 0; sy := 0; sz := 0 |} in
  let level := {| sx := 0; sy := 0; sz := 8192 |} in
  let turn (t : Z) :=
    {| key2 := false; accel_read := Some rest;
       gyro_read := Some {| sx := 0; sy := -32768; sz := 0 |}; now := t |} in
  let sinr_cosp := S754_zero true in
  let cosr_cosp := S754_finite true 13243300 (-25) in
  (cosr_cosp < c0) = true /\
  (forall L : LibM machine,
      libm_in_range L ->
      atan2f sinr_cosp cosr_cosp = - d2f M_PI ->
      let s0 := action_test_gyro_start (fun _ : nat => (Some rest, Some level)) 0 in
      let s1 := state_of (action_test_gyro_pass s0 (turn 200000%Z)) in
      let s2 := state_of (action_test_gyro_pass s1 (turn 400000%Z)) in
      let s3 := state_of (action_test_gyro_pass s2 (turn 600000%Z)) in
      let f := q (filter s3) in
      c2 * (q0 f * q1 f + q2 f * q3 f) = sinr_cosp /\
      c1 - c2 * (q1 f * q1 f + q2 f * q2 f) = cosr_cosp /\
      madgwick_get_roll_deg (filter s3) = - lit 180 0 /\
      F2R (madgwick_get_roll_deg (filter s3)) = (-180)%R /\
      (- lit 180 0 < madgwick_get_roll_deg (filter s3)) = false) /\
  (libm_in_range signed_zero_libm /\
   @atan2f machine signed_zero_libm sinr_cosp cosr_cosp = - d2f M_PI) /\
  (isfinite (lit 1 30) = true /\ (lit 1 30 - lit 360 0) = lit 1 30 /\
   never_returns (lit 1 30)) /\
  (forall (L : LibM machine) (filter : MadgwickFilter),
      q filter = nan_quaternion -> asinf S754_nan = S754_nan ->
      madgwick_get_pitch_deg filter = S754_nan).
Proof.
  intros rest level turn sinr_cosp cosr_cosp.
  split; [reflexivity|]. split; [|split; [|split]].
  - intros L HL HA s0 s1 s2 s3 f.
    assert (P : q0 f = S754_finite true 9229899 (-24) /\ q1 f = S754_zero false /\
                q2 f = S754_finite true 14010136 (-24) /\ q3 f = S754_zero false)
      by exact (pitch_over_run L HL).
    destruct P as (E0 & E1 & E2 & E3).
    assert (Es : c2 * (q0 f * q1 f + q2 f * q3 f) = sinr_cosp).
    { rewrite E0, E1, E2, E3. vm_compute. reflexivity. }
    assert (Ec : c1 - c2 * (q1 f * q1 f + q2 f * q2 f) = cosr_cosp).
    { rewrite E1, E2. vm_compute. reflexivity. }
    assert (Er : madgwick_get_roll_deg (filter s3) = - lit 180 0).
    { unfold madgwick_get_roll_deg, quaternion_to_euler. cbv zeta. fold f.
      rewrite Es, Ec, HA. vm_compute. reflexivity. }
    split; [exact Es|]. split; [exact Ec|]. split; [exact Er|].
    rewrite Er. split; [|vm_compute; reflexivity].
    rewrite F2R_fneg. eval_float (lit 180 0). F2R_num. lra.
  - split; [apply signed_zero_libm_in_range|vm_compute; reflexivity].
  - split; [reflexivity|]. split; [vm_compute; reflexivity|].
    intros fuel. apply wrap360_1e30.
  - intros L filter Q A.
    unfold madgwick_get_pitch_deg, quaternion_to_euler. rewrite Q. cbv zeta.
    cbn [nan_quaternion q0 q1 q2 q3].
    assert (Ns : @fmul machine (@lit machine 2 0)
                   (@fsub machine (@fmul machine S754_nan S754_nan)
                      (@fmul machine S754_nan S754_nan)) = S754_nan) by reflexivity.
    rewrite Ns.
    assert (Nc : @fle machine (@lit machine 1 0) (@fabsf machine S754_nan) = false)
      by reflexivity.
    rewrite Nc, A. reflexivity.
Qed.

(** C5 (amended): on a tick of [action_test_gyro] that reaches the trim,
    the three gyroscope biases stay as they are unless the stationary
    condition holds (accelerometer norm finite and within 0.08 of 1 g,
    the three bias-corrected rates below 1.2 deg/s in magnitude); when
    it holds each bias becomes [(1 - alpha) * old + alpha * raw] with
    [alpha = min (dt * 0.08) 0.02], each operation rounded to binary32.
    The exact blend lies between the old bias and the raw reading, at
    most 2% of their difference away from the old bias; the new bias is
    finite and within [2^-21 * max |old| |raw| + 2^-147] of the exact
    blend.  [dt] is the interval of the tick, the readings are what the
    driver returns at 500 deg/s, the biases any binary32 values. *)
Theorem bias_trim_blend (dt_us : Z) (bx by_ bz : float) (wx wy wz : Z)
    (ax ay az : float) :
  valid32 bx -> valid32 by_ -> valid32 bz ->
  is_int16 wx -> is_int16 wy -> is_int16 wz ->
  let dt := measured_dt dt_us in
  let rx := icm20948_gyro_to_dps wx GYRO_RANGE_500DPS in
  let ry := icm20948_gyro_to_dps wy GYRO_RANGE_500DPS in
  let rz := icm20948_gyro_to_dps wz GYRO_RANGE_500DPS in
  let alpha := bias_alpha dt in
  let still := stationary ax ay az (rx - bx) (ry - by_) (rz - bz) in
  let new := trim_bias dt (bx, by_, bz) (rx, ry, rz) ax ay az in
  let exact (old raw : float) := ((1 - F2R alpha) * F2R old + F2R alpha * F2R raw)%R in
  (still = (let acc_norm := sqrtf (ax * ax + ay * ay + az * az) in
            isfinite acc_norm && (fabsf (acc_norm - c1) < lit 8 (-2)) &&
            (fabsf (rx - bx) < lit 12 (-1)) && (fabsf (ry - by_) < lit 12 (-1)) &&
            (fabsf (rz - bz) < lit 12 (-1)))) /\
  (still = false -> new = (bx, by_, bz)) /\
  (still = true ->
   new = (blend_bias alpha bx rx, blend_bias alpha by_ ry, blend_bias alpha bz rz)) /\
  (alpha = (if dt * lit 8 (-2) > lit 2 (-2) then lit 2 (-2) else dt * lit 8 (-2)) /\
   (alpha <= lit 2 (-2)) = true /\ (alpha <= dt * lit 8 (-2)) = true /\
   (0 <= F2R alpha <= / 50)%R) /\
  (forall old raw : float,
      blend_bias alpha old raw = (c1 - alpha) * old + alpha * raw /\
      (Rmin (F2R old) (F2R raw) <= exact old raw <= Rmax (F2R old) (F2R raw))%R /\
      (Rabs (exact old raw - F2R old) <= / 50 * Rabs (F2R raw - F2R old))%R) /\
  (still = true ->
   forall old raw : float,
     (old, raw) = (bx, rx) \/ (old, raw) = (by_, ry) \/ (old, raw) = (bz, rz) ->
     isfinite old = true /\ isfinite raw = true /\
     isfinite (blend_bias alpha old raw) = true /\
     (Rabs (F2R (blend_bias alpha old raw) - exact old raw)
      <= / 2097152 * Rmax (Rabs (F2R old)) (Rabs (F2R raw))
         + / 178405961588244985132285746181186892047843328)%R) /\
  (forall (L : LibM machine) (s : GyroTest) (i : GyroTestInput) (accel gyro : SensorData),
      key2 i = false -> accel_read i = Some accel -> gyro_read i = Some gyro ->
      let qx := icm20948_gyro_to_dps (sx gyro) GYRO_RANGE_500DPS in
      let qy := icm20948_gyro_to_dps (sy gyro) GYRO_RANGE_500DPS in
      let qz := icm20948_gyro_to_dps (sz gyro) GYRO_RANGE_500DPS in
      let gx := qx - gyro_bias_x s in
      let gy := qy - gyro_bias_y s in
      let gz := qz - gyro_bias_z s in
      let s' := state_of (action_test_gyro_pass s i) in
      (gyro_bias_x s', gyro_bias_y s', gyro_bias_z s') =
      if negb (isfinite gx) || negb (isfinite gy) || negb (isfinite gz)
         || ((fabsf gx > lit 2000 0) || (fabsf gy > lit 2000 0) || (fabsf gz > lit 2000 0))
      then (gyro_bias_x s, gyro_bias_y s, gyro_bias_z s)
      else trim_bias (measured_dt (to_int64 (now i - last_update s)))
             (gyro_bias_x s, gyro_bias_y s, gyro_bias_z s) (qx, qy, qz)
             (icm20948_accel_to_g (sx accel) ACCEL_RANGE_4G - accel_bias_x s)
             (icm20948_accel_to_g (sy accel) ACCEL_RANGE_4G - accel_bias_y s)
             (icm20948_accel_to_g (sz accel) ACCEL_RANGE_4G - accel_bias_z s)).
Proof.
  intros Vx Vy Vz Ix Iy Iz dt rx ry rz alpha still new exact.
  destruct (measured_dt_finite dt_us) as (V & F & P). fold dt in V, F, P.
  destruct (bias_alpha_range dt V F (Rlt_le _ _ P)) as (Va & Fa & Ra & A1 & A2).
  fold alpha in Va, Fa, Ra, A1, A2.
  split; [reflexivity|]. split; [|split; [|split; [|split; [|split]]]].
  - intros H. apply trim_bias_moving. exact H.
  - intros H. apply trim_bias_stationary. exact H.
  - repeat split; try assumption; apply Ra.
  - intros old raw. split; [reflexivity|].
    destruct (blend_between (F2R alpha) (F2R old) (F2R raw)) as [B D]; [lra|].
    split; [exact B|].
    unfold exact. rewrite D. pose proof (Rabs_pos (F2R raw - F2R old)). nra.
  - intros H old raw E.
    unfold still, stationary in H.
    apply andb_prop in H. destruct H as (H & Hz).
    apply andb_prop in H. destruct H as (H & Hy).
    apply andb_prop in H. destruct H as (_ & Hx).
    destruct E as [E|[E|E]]; injection E as -> ->.
    + exact (trim_axis_on_reading alpha bx wx Va Fa Ra Vx Ix Hx).
    + exact (trim_axis_on_reading alpha by_ wy Va Fa Ra Vy Iy Hy).
    + exact (trim_axis_on_reading alpha bz wz Va Fa Ra Vz Iz Hz).
  - intros L s i accel gyro K Ha Hg.
    exact (pass_trims_bias (L := L) s i accel gyro K Ha Hg).
Qed.

(** A tick of 10 ms with biases of 0.1 deg/s, the gyroscope words 20
    (0.305 deg/s) and one g on the z axis. *)
Lemma bias_trim_witness :
  let alpha := bias_alpha (measured_dt 10000) in
  let b := lit 1 (-1) in
  let r := icm20948_gyro_to_dps 20 GYRO_RANGE_500DPS in
  trim_bias (measured_dt 10000) (b, b, b) (r, r, r) c0 c0 c1
  = (blend_bias alpha b r, blend_bias alpha b r, blend_bias alpha b r) /\
  isfinite (blend_bias alpha b r) = true /\
  (Rabs (F2R (blend_bias alpha b r) - ((1 - F2R alpha) * F2R b + F2R alpha * F2R r))
   <= / 2097152 * Rmax (Rabs (F2R b)) (Rabs (F2R r))
      + / 178405961588244985132285746181186892047843328)%R.
Proof.
  intros alpha b r.
  assert (I : is_int16 20) by (unfold is_int16, INT16_MIN, INT16_MAX; lia).
  destruct (bias_trim_blend 10000 b b b 20 20 20 c0 c0 c1 eq_refl eq_refl eq_refl I I I)
    as (_ & _ & T & _ & _ & B & _).
  assert (S : stationary c0 c0 c1 (r - b) (r - b) (r - b) = true)
    by (vm_compute; reflexivity).
  split; [exact (T S)|].
  destruct (B S b r (or_introl eq_refl)) as (_ & _ & Fn & E).
  split; [exact Fn|exact E].
Defined.

(** C5, as stated, fails in binary32 on a tick the program makes.  The
    calibration of [action_test_gyro] reads the gyroscope word 1 on
    every axis 100 times, and one g on the z axis: the bias it computes
    is just below the reading.  On the next tick, 10 ms later and with
    the same readings, the sensor is stationary and the new bias is
    below the old bias, so it does not lie between the old bias and the
    reading. *)
Theorem bias_blend_leaves_interval :
  let word := {| sx := 1; sy := 1; sz := 1 |} in
  let level := {| sx := 0; sy := 0; sz := 8192 |} in
  let s := action_test_gyro_start (fun _ : nat => (Some word, Some level)) 0 in
  let i := {| key2 := false; accel_read := Some level; gyro_read := Some word;
              now := 10000 |} in
  let old := gyro_bias_x s in
  let raw := icm20948_gyro_to_dps 1 GYRO_RANGE_500DPS in
  let new := blend_bias (bias_alpha (measured_dt 10000)) old raw in
  old = S754_finite false 16392995 (-30) /\
  raw = S754_finite false 16393005 (-30) /\
  new = S754_finite false 16392994 (-30) /\
  (new < old) = true /\ (old < raw) = true /\
  stationary (icm20948_accel_to_g 0 ACCEL_RANGE_4G - accel_bias_x s)
             (icm20948_accel_to_g 0 ACCEL_RANGE_4G - accel_bias_y s)
             (icm20948_accel_to_g 8192 ACCEL_RANGE_4G - accel_bias_z s)
             (raw - old) (raw - old) (raw - old) = true /\
  forall L : LibM machine,
    let s' := state_of (action_test_gyro_pass (L := L) s i) in
    (gyro_bias_x s', gyro_bias_y s', gyro_bias_z s') = (new, new, new).
Proof.
  intros word level s i old raw new.
  split; [vm_compute; reflexivity|].
  split; [vm_compute; reflexivity|].
  split; [vm_compute; reflexivity|].
  split; [vm_compute; reflexivity|].
  split; [vm_compute; reflexivity|].
  split; [vm_compute; reflexivity|].
  intros L s'.
  pose proof (pass_trims_bias (L := L) s i level word eq_refl eq_refl eq_refl) as H.
  cbv zeta in H. fold s' in H. rewrite H. clear H.
  vm_compute. reflexivity.
Qed.

(** C8: for every raw [int16_t] value [r], the conversions divide
    [(float) r] by the divisor of the range: 16384, 8192, 4096, 2048 LSB
    per g and 131, 65.5, 32.8, 16.4 LSB per deg/s; a range that is none of
    the four converts as the 4 g and the 500 deg/s range do.  In binary32
    the accelerometer result is exactly [r / divisor] and the 500 deg/s
    result is [r / 65.5] rounded; in exact arithmetic they are [r / 8192]
    and [r / 65.5]. *)
Theorem raw_conversion_divisors (r : Z) :
  is_int16 r ->
  (forall A : CArith,
      @icm20948_accel_to_g A r ACCEL_RANGE_2G = (of_int r / lit 16384 0) /\
      @icm20948_accel_to_g A r ACCEL_RANGE_4G = (of_int r / lit 8192 0) /\
      @icm20948_accel_to_g A r ACCEL_RANGE_8G = (of_int r / lit 4096 0) /\
      @icm20948_accel_to_g A r ACCEL_RANGE_16G = (of_int r / lit 2048 0) /\
      @icm20948_gyro_to_dps A r GYRO_RANGE_250DPS = (of_int r / lit 131 0) /\
      @icm20948_gyro_to_dps A r GYRO_RANGE_500DPS = (of_int r / lit 655 (-1)) /\
      @icm20948_gyro_to_dps A r GYRO_RANGE_1000DPS = (of_int r / lit 328 (-1)) /\
      @icm20948_gyro_to_dps A r GYRO_RANGE_2000DPS = (of_int r / lit 164 (-1))) /\
  (forall (A : CArith) (range : Z),
      (range < 0 \/ 3 < range)%Z ->
      @icm20948_accel_to_g A r range = @icm20948_accel_to_g A r ACCEL_RANGE_4G /\
      @icm20948_gyro_to_dps A r range = @icm20948_gyro_to_dps A r GYRO_RANGE_500DPS) /\
  (F2R (icm20948_accel_to_g r ACCEL_RANGE_2G) = (IZR r / 16384)%R /\
   F2R (icm20948_accel_to_g r ACCEL_RANGE_4G) = (IZR r / 8192)%R /\
   F2R (icm20948_accel_to_g r ACCEL_RANGE_8G) = (IZR r / 4096)%R /\
   F2R (icm20948_accel_to_g r ACCEL_RANGE_16G) = (IZR r / 2048)%R /\
   isfinite (icm20948_accel_to_g r ACCEL_RANGE_4G) = true /\
   isfinite (icm20948_gyro_to_dps r GYRO_RANGE_500DPS) = true /\
   rounds32 (IZR r / (655 / 10)) (icm20948_gyro_to_dps r GYRO_RANGE_500DPS)) /\
  (@icm20948_accel_to_g ideal r ACCEL_RANGE_4G = (IZR r / 8192)%R /\
   @icm20948_gyro_to_dps ideal r GYRO_RANGE_500DPS = (IZR r / (655 / 10))%R).
Proof.
  intros I. split; [|split; [|split]].
  - intros A. repeat split.
  - intros A range H. split; [apply accel_fallback|apply gyro_fallback]; exact H.
  - destruct (accel_to_g_exact r I) as ((_ & E2) & (F4 & E4) & (_ & E8) & (_ & E16)).
    destruct (gyro_500_rounded r I) as [Fg Rg].
    split; [exact E2|]. split; [exact E4|]. split; [exact E8|]. split; [exact E16|].
    split; [exact F4|]. split; [exact Fg|exact Rg].
  - split.
    + reflexivity.
    + unfold icm20948_gyro_to_dps, gyro_sensitivity, GYRO_RANGE_500DPS.
      change (@fdiv ideal) with Rdiv. change (@of_int ideal) with IZR.
      change (@lit ideal 655 (-1)) with (655 / 10)%R. reflexivity.
Qed.

Lemma raw_conversion_witness :
  F2R (icm20948_accel_to_g (-12345) ACCEL_RANGE_4G) = (IZR (-12345) / 8192)%R /\
  rounds32 (IZR (-12345) / (655 / 10)) (icm20948_gyro_to_dps (-12345) GYRO_RANGE_500DPS).
Proof.
  destruct (raw_conversion_divisors (-12345)) as (_ & _ & (_ & E & _ & _ & _ & _ & G) & _).
  - unfold is_int16, INT16_MIN, INT16_MAX. lia.
  - split; [exact E|exact G].
Defined.



End MachineClaims.

Section LoopClaims.
Context {A : CArith} {L : LibM A}.

(** C7: a pass whose accelerometer or gyroscope read reports failure
    changes nothing in [action_test_gyro] (filter, biases, clock and the
    frame on the display stay as they were) and, in
    [attitude_indicator_run], only moves the tick clock: the filter, the
    gyroscope biases, the smoothed attitude and what the display shows
    are those of the previous pass, and the loop goes on. *)
Theorem failed_imu_read_skips_tick :
  (forall (s : GyroTest) (gyro : option SensorData) (t : Z),
      action_test_gyro_pass s
        {| key2 := false; accel_read := None; gyro_read := gyro; now := t |}
      = Continue s) /\
  (forall (s : GyroTest) (accel : option SensorData) (t : Z),
      action_test_gyro_pass s
        {| key2 := false; accel_read := accel; gyro_read := None; now := t |}
      = Continue s) /\
  (forall (fuel : nat) (s : Indicator) (mag : option SensorData) (t : Z),
      exists s',
        attitude_indicator_pass fuel s
          {| ai_key2 := false; now_us := t; accel_gyro_read := None; mag_read := mag |}
        = Some (Continue s') /\
        ai_filter s' = ai_filter s /\
        (gx_bias s', gy_bias s', gz_bias s') = (gx_bias s, gy_bias s, gz_bias s) /\
        (smooth_roll s', smooth_pitch s') = (smooth_roll s, smooth_pitch s) /\
        display_counter s' = display_counter s /\
        shown s' = shown s).
Proof.
  split; [|split].
  - intros. apply test_gyro_failed_read; [reflexivity|left; reflexivity].
  - intros. apply test_gyro_failed_read; [reflexivity|right; reflexivity].
  - intros. apply indicator_failed_read; reflexivity.
Qed.

End LoopClaims.

Section DriverClaims.
Variable Device : Type.
Variable spi_write : Device -> list Z -> Device.
Variable spi_read : Device -> Z -> nat -> list Z * Device.

(** C9: [icm20948_read_accel], [icm20948_read_gyro] and
    [icm20948_read_accel_gyro] return false exactly when an output pointer
    is NULL, whatever the SPI bus answers; [icm20948_read_mag] with a
    non-NULL pointer returns false exactly when the data-ready bit of ST1
    is clear or the overflow bit of ST2 is set. *)
Theorem accel_gyro_reads_fail_only_on_null :
  (forall data d,
      fst (fst (icm20948_read_accel spi_write spi_read data d)) = false
      <-> data = None) /\
  (forall data d,
      fst (fst (icm20948_read_gyro spi_write spi_read data d)) = false
      <-> data = None) /\
  (forall accel gyro d,
      fst (fst (fst (icm20948_read_accel_gyro spi_write spi_read accel gyro d))) = false
      <-> accel = None \/ gyro = None) /\
  (forall old d,
      fst (fst (icm20948_read_mag spi_write spi_read (Some old) d)) = false
      <-> Z.land (byte_at (fst (mag_buffer spi_write spi_read d)) 0) 1 = 0%Z \/
          Z.land (byte_at (fst (mag_buffer spi_write spi_read d)) 7) 8 <> 0%Z).
Proof.
  split; [|split; [|split]].
  - apply read_accel_result.
  - apply read_gyro_result.
  - apply read_accel_gyro_result.
  - intros old d. rewrite read_mag_result. split.
    + intros [H|H]; [discriminate|exact H].
    + intros H. right. exact H.
Qed.

End DriverClaims.

(* ================================================================== *)
(** * Further properties of the loops *)
(* ================================================================== *)

Section LoopProperties.
Local Existing Instance machine.
Local Open Scope cf_scope.

(** X1: in [action_test_gyro] the cap of [bias_alpha] at 0.02 is never
    reached: the interval handed on by the validation is at most 0.2 s,
    so [bias_alpha] is [dt * 0.08f], at most 0.018. *)
Theorem bias_alpha_cap_not_reached (dt_us : Z) :
  let dt := measured_dt dt_us in
  bias_alpha dt = dt * lit 8 (-2) /\
  (bias_alpha dt <= lit 18 (-3)) = true.
Proof.
  intros dt.
  destruct (measured_dt_cases dt_us) as (Lo & Hi & Sub & Keep). fold dt in Lo, Hi, Sub, Keep.
  assert (V : valid32 dt).
  { unfold dt, measured_dt.
    destruct ((_ <= c0) || _); [reflexivity|apply micros_valid]. }
  assert (F : isfinite dt = true).
  { destruct dt as [s|[]| |s m e]; try reflexivity; discriminate. }
  apply flt_finite in Lo; try assumption; try reflexivity. rewrite F2R_c0 in Lo.
  apply fle_finite in Hi; try assumption; try reflexivity.
  assert (H2 : (F2R (lit 2 (-1)) <= 21 / 100)%R).
  { eval_float (lit 2 (-1)). F2R_num. lra. }
  assert (H8 : (Rabs (F2R (lit 8 (-2))) <= 81 / 1000)%R).
  { eval_float (lit 8 (-2)). F2R_num. rewrite Rabs_pos_eq; lra. }
  assert (Hd : (Rabs (F2R dt) <= 21 / 100)%R) by (rewrite Rabs_pos_eq; lra).
  destruct (fmul_within dt (lit 8 (-2)) (lit 18 (-3)) (21 / 100) (81 / 1000))
    as (Vm & Fm & Bm); try assumption; try reflexivity.
  { eval_float (lit 18 (-3)). F2R_num. lra. }
  apply Rabs_le_inv in Bm.
  assert (C : (dt * lit 8 (-2) > lit 2 (-2)) = false).
  { destruct (dt * lit 8 (-2) > lit 2 (-2)) eqn:G; [|reflexivity]. exfalso.
    apply flt_finite in G; try assumption; try reflexivity.
    assert ((F2R (lit 18 (-3)) < F2R (lit 2 (-2)))%R).
    { eval_float (lit 18 (-3)). eval_float (lit 2 (-2)). F2R_num. lra. }
    lra. }
  unfold bias_alpha. rewrite C. split; [reflexivity|].
  apply fle_finite; try assumption; try reflexivity. lra.
Qed.

(** X2: a pass of [action_test_gyro] leaves the frame on the display as it
    was or draws a finite roll and a finite pitch between -60 and 60
    degrees. *)
Theorem displayed_pitch_clamped (L : LibM machine) (s : GyroTest) (i : GyroTestInput) :
  let s' := state_of (action_test_gyro_pass s i) in
  frame s' = frame s \/
  exists roll pitch : float,
    frame s' = Some (roll, pitch) /\
    isfinite roll = true /\ isfinite pitch = true /\
    (- lit 60 0 <= pitch) = true /\ (pitch <= lit 60 0) = true.
Proof.
  intros s'. unfold s', action_test_gyro_pass.
  destruct (key2 i); [left; reflexivity|].
  destruct (accel_read i) as [accel|]; [|left; reflexivity].
  destruct (gyro_read i) as [gyro|]; [|left; reflexivity].
  cbv zeta.
  destruct (negb _ || negb _ || negb _); [left; reflexivity|].
  destruct ((_ > lit 2000 0) || _ || _); [left; reflexivity|].
  destruct (trim_bias _ _ _ _ _ _) as [[bx by_] bz].
  set (f := madgwick_update_imu _ _ _ _ _ _ _).
  destruct (isfinite (- madgwick_get_roll_deg f)) eqn:Fr; cbn [negb orb];
    [|left; reflexivity].
  destruct (isfinite (madgwick_get_pitch_deg f)) eqn:Fp; cbn [negb];
    [|left; reflexivity].
  right. set (pitch := madgwick_get_pitch_deg f) in *.
  assert (N : IEEE.is_nan pitch = false) by (apply finite_not_nan; exact Fp).
  eexists. eexists. split; [reflexivity|]. split; [exact Fr|].
  destruct (pitch > lit 60 0) eqn:Hi.
  - replace (lit 60 0 < - lit 60 0) with false by (vm_compute; reflexivity).
    repeat split; vm_compute; reflexivity.
  - apply flt_false_fle in Hi; [|reflexivity|exact N].
    destruct (pitch < - lit 60 0) eqn:Lo.
    + repeat split; vm_compute; reflexivity.
    + apply flt_false_fle in Lo; [|exact N|reflexivity].
      repeat split; assumption.
Qed.

Lemma valid_d2f (y : double) : valid32 (d2f y).
Proof.
  destruct y as [s|s| |s m e]; try reflexivity.
  apply (d2f_correct (S754_finite s m e) eq_refl).
Qed.

Lemma valid_measured_dt (dt_us : Z) : valid32 (measured_dt dt_us).
Proof.
  unfold measured_dt. destruct ((_ <= c0) || _); [reflexivity|apply micros_valid].
Qed.

Lemma valid_bias_alpha (dt : float) : valid32 dt -> valid32 (bias_alpha dt).
Proof.
  intros V. unfold bias_alpha. destruct (_ > lit 2 (-2)); valid32_solve.
Qed.

Lemma valid_gyro_to_dps (r range : Z) : valid32 (icm20948_gyro_to_dps r range).
Proof.
  unfold icm20948_gyro_to_dps. apply valid_fdiv; [apply valid_of_int|].
  unfold gyro_sensitivity. destruct range as [|[[|[]|]|[|[]|]|]|]; reflexivity.
Qed.

Lemma valid_accel_to_g (r range : Z) : valid32 (icm20948_accel_to_g r range).
Proof.
  unfold icm20948_accel_to_g. apply valid_fdiv; [apply valid_of_int|].
  unfold accel_sensitivity. destruct range as [|[[|[]|]|[|[]|]|]|]; reflexivity.
Qed.

(** X3: the loop of [action_test_gyro] keeps its filter well formed over
    any number of passes: if the filter and the biases are binary32 values
    and the quaternion is the identity or of unit norm (within
    [NORM_EPS]) before a pass, they are so after it, whatever the sensors
    read. *)
Theorem gyro_test_keeps_unit_quaternion
    (L : LibM machine) (s : GyroTest) (i : GyroTestInput) :
  gyro_test_invariant s ->
  gyro_test_invariant (state_of (action_test_gyro_pass s i)).
Proof.
  intros I. pose proof I as (FV & U & (Gx & Gy & Gz) & (Ax & Ay & Az)).
  unfold action_test_gyro_pass.
  destruct (key2 i); [exact I|].
  destruct (accel_read i) as [accel|]; [|exact I].
  destruct (gyro_read i) as [gyro|]; [|exact I].
  cbv zeta.
  destruct (negb _ || negb _ || negb _); [exact I|].
  destruct ((_ > lit 2000 0) || _ || _); [exact I|].
  set (dt := measured_dt _).
  assert (Vdt : valid32 dt) by apply valid_measured_dt.
  pose proof (valid_bias_alpha dt Vdt) as Va.
  pose proof (valid_gyro_to_dps (sx gyro) GYRO_RANGE_500DPS) as Rx.
  pose proof (valid_gyro_to_dps (sy gyro) GYRO_RANGE_500DPS) as Ry.
  pose proof (valid_gyro_to_dps (sz gyro) GYRO_RANGE_500DPS) as Rz.
  pose proof (valid_accel_to_g (sx accel) ACCEL_RANGE_4G) as Cx.
  pose proof (valid_accel_to_g (sy accel) ACCEL_RANGE_4G) as Cy.
  pose proof (valid_accel_to_g (sz accel) ACCEL_RANGE_4G) as Cz.
  assert (VB : let '(bx, by_, bz) :=
                 trim_bias dt (gyro_bias_x s, gyro_bias_y s, gyro_bias_z s)
                   (icm20948_gyro_to_dps (sx gyro) GYRO_RANGE_500DPS,
                    icm20948_gyro_to_dps (sy gyro) GYRO_RANGE_500DPS,
                    icm20948_gyro_to_dps (sz gyro) GYRO_RANGE_500DPS)
                   (icm20948_accel_to_g (sx accel) ACCEL_RANGE_4G - accel_bias_x s)
                   (icm20948_accel_to_g (sy accel) ACCEL_RANGE_4G - accel_bias_y s)
                   (icm20948_accel_to_g (sz accel) ACCEL_RANGE_4G - accel_bias_z s) in
               valid32 bx /\ valid32 by_ /\ valid32 bz).
  { unfold trim_bias. destruct (stationary _ _ _ _ _ _).
    - unfold blend_bias. repeat split; valid32_solve.
    - repeat split; assumption. }
  destruct (trim_bias _ _ _ _ _ _) as [[bx by_] bz]. destruct VB as (Bx & By_ & Bz).
  set (f0 := {| q := q (filter s); beta := beta (filter s);
                sample_freq := c1 / dt; inv_sample_freq := dt |}).
  assert (FV0 : filter_valid f0).
  { destruct FV as (Vq & Vb & _ & _). unfold f0, filter_valid. cbn [q beta sample_freq inv_sample_freq].
    repeat split; try assumption; try apply Vq. valid32_solve. }
  match goal with
  | |- context [madgwick_update_imu f0 ?gx ?gy ?gz ?ax ?ay ?az] =>
      destruct (update_imu_integrates f0 gx gy gz ax ay az FV0) as (qDot & VD & E);
        [unfold deg_to_rad; apply valid_d2f
        |unfold deg_to_rad; apply valid_d2f
        |unfold deg_to_rad; apply valid_d2f
        |valid32_solve|valid32_solve|valid32_solve|];
      rewrite E
  end.
  pose proof (integrate_unit_or_identity f0 qDot FV0 VD) as U'.
  pose proof (integrate_filter_valid f0 qDot FV0 VD) as FV'.
  destruct (negb _ || negb _).
  - cbn [state_of with_filter]. unfold gyro_test_invariant.
    cbn [filter gyro_bias_x gyro_bias_y gyro_bias_z accel_bias_x accel_bias_y accel_bias_z].
    split; [repeat split|].
    split; [left; reflexivity|]. repeat split; assumption.
  - cbn [state_of with_filter]. unfold gyro_test_invariant.
    cbn [filter gyro_bias_x gyro_bias_y gyro_bias_z accel_bias_x accel_bias_y accel_bias_z].
    split; [exact FV'|]. split; [exact U'|]. repeat split; assumption.
Qed.

(** A filter at rest with zero biases is in the invariant. *)
Lemma gyro_test_invariant_witness :
  gyro_test_invariant
    (state_of (@action_test_gyro_pass machine crude_libm
       {| filter := madgwick_init (lit 100 0) (lit 10 (-2));
          gyro_bias_x := c0; gyro_bias_y := c0; gyro_bias_z := c0;
          accel_bias_x := c0; accel_bias_y := c0; accel_bias_z := c0;
          last_update := 0; frame := None |}
       {| key2 := false;
          accel_read := Some {| sx := 0; sy := 0; sz := 8192 |};
          gyro_read := Some {| sx := 10; sy := -20; sz := 5 |};
          now := 10000 |})).
Proof.
  apply (gyro_test_keeps_unit_quaternion crude_libm).
  unfold gyro_test_invariant.
  cbn [filter gyro_bias_x gyro_bias_y gyro_bias_z accel_bias_x accel_bias_y accel_bias_z].
  split; [repeat split|]. split; [left; reflexivity|]. repeat split.
Defined.

Lemma quaternion_ext (a b : @Quaternion machine) :
  q0 a = q0 b -> q1 a = q1 b -> q2 a = q2 b -> q3 a = q3 b -> a = b.
Proof. destruct a, b; simpl; intros; subst; reflexivity. Qed.

(** X4: the filter of BasicGyro/madgwick.c, which
    [attitude_indicator_run] runs, normalises the gradient step without a
    guard: from the initial filter, a level sensor at rest (raw
    accelerometer (0, 0, 8192), raw gyroscope (0, 0, 0)) on a tick without
    magnetometer gives a zero step, [1.0f / sqrtf(0.0f)] is infinite and
    the quaternion becomes NaN.  The guarded update of madgwick_filter.c
    returns the identity on the same input. *)
Theorem unguarded_filter_propagates_nan :
  let f0 := madgwick_init (of_int LOOP_HZ) (lit 15 (-2)) in
  let ax := icm20948_accel_to_g 0 ACCEL_RANGE_4G in
  let az := icm20948_accel_to_g 8192 ACCEL_RANGE_4G in
  let g := icm20948_gyro_to_dps 0 GYRO_RANGE_500DPS - c0 in
  let anorm2 := ax * ax + ax * ax + az * az in
  let f1 := fuse f0 (tick_dt 0 0) g g g ax ax az
              ((anorm2 > lit 8 (-1)) && (anorm2 < lit 12 (-1))) None in
  q f1 = {| q0 := S754_nan; q1 := S754_nan; q2 := S754_nan; q3 := S754_nan |} /\
  quat_finite (q f1) = false /\
  q (madgwick_update_imu f0 g g g ax ax az) = identity_quaternion.
Proof.
  intros f0 ax az g anorm2 f1.
  split; [|split].
  - apply quaternion_ext; vm_compute; reflexivity.
  - vm_compute; reflexivity.
  - apply quaternion_ext; vm_compute; reflexivity.
Qed.

End LoopProperties.

Local Close Scope R_scope.
Local Close Scope Z_scope.

(* ================================================================== *)
(** * Integer code: pixel conversion, frame reads, register access *)
(* ================================================================== *)

Section BitFields.
Local Open Scope Z_scope.

(** A value below [2 ^ k] or-ed under a value shifted left by [k] adds. *)
Lemma lor_shiftl_small (x y k : Z) :
  0 <= k -> 0 <= y < 2 ^ k -> Z.lor (Z.shiftl x k) y = x * 2 ^ k + y.
Proof.
  intros Hk Hy.
  rewrite Z.shiftl_mul_pow2 by assumption.
  rewrite <- Z.lxor_lor, <- Z.add_nocarry_lxor; try reflexivity.
  - rewrite <- Z.shiftl_mul_pow2 by assumption.
    apply Z.bits_inj'. intros n Hn.
    rewrite Z.land_spec, Z.bits_0.
    destruct (Z_lt_le_dec n k) as [L|L].
    + rewrite Z.shiftl_spec_low by assumption. reflexivity.
    + destruct (Z.eq_dec y 0) as [->|Ny].
      * rewrite Z.bits_0. apply andb_false_r.
      * rewrite (Z.bits_above_log2 y n); [apply andb_false_r|lia|].
        apply Z.log2_lt_pow2; [lia|].
        apply Z.lt_le_trans with (2 ^ k); [lia|].
        apply Z.pow_le_mono_r; lia.
  - rewrite <- Z.shiftl_mul_pow2 by assumption.
    apply Z.bits_inj'. intros n Hn.
    rewrite Z.land_spec, Z.bits_0.
    destruct (Z_lt_le_dec n k) as [L|L].
    + rewrite Z.shiftl_spec_low by assumption. reflexivity.
    + destruct (Z.eq_dec y 0) as [->|Ny].
      * rewrite Z.bits_0. apply andb_false_r.
      * rewrite (Z.bits_above_log2 y n); [apply andb_false_r|lia|].
        apply Z.log2_lt_pow2; [lia|].
        apply Z.lt_le_trans with (2 ^ k); [lia|].
        apply Z.pow_le_mono_r; lia.
Qed.

Lemma below_spec (n : nat) (f : Z -> bool) :
  below n f = true -> forall z, 0 <= z < Z.of_nat n -> f z = true.
Proof.
  unfold below. rewrite forallb_forall. intros H z Hz.
  apply H. apply in_map_iff. exists (Z.to_nat z). split; [lia|].
  apply in_seq. lia.
Qed.

Lemma clamp_channel_range (r : Z) : 0 <= clamp_channel r <= 255.
Proof.
  unfold clamp_channel.
  destruct (r <? 0) eqn:E1; [lia|].
  destruct (r >? 255) eqn:E2; [lia|].
  apply Z.ltb_ge in E1. rewrite Z.gtb_ltb in E2. apply Z.ltb_ge in E2. lia.
Qed.

Lemma clamp_channel_mono (r s : Z) : r <= s -> clamp_channel r <= clamp_channel s.
Proof.
  unfold clamp_channel. intros H.
  rewrite !Z.gtb_ltb.
  destruct (r <? 0) eqn:E1; destruct (s <? 0) eqn:E2;
  destruct (255 <? r) eqn:E3; destruct (255 <? s) eqn:E4;
  try apply Z.ltb_lt in E1; try apply Z.ltb_ge in E1;
  try apply Z.ltb_lt in E2; try apply Z.ltb_ge in E2;
  try apply Z.ltb_lt in E3; try apply Z.ltb_ge in E3;
  try apply Z.ltb_lt in E4; try apply Z.ltb_ge in E4; lia.
Qed.

Lemma mask_red (r : Z) : 0 <= r <= 255 -> Z.land r 0xF8 = 8 * (r / 8).
Proof.
  intros H.
  apply Z.eqb_eq.
  apply (below_spec 256 (fun r => Z.land r 0xF8 =? 8 * (r / 8))); [vm_compute; reflexivity|lia].
Qed.

Lemma mask_green (g : Z) : 0 <= g <= 255 -> Z.land g 0xFC = 4 * (g / 4).
Proof.
  intros H.
  apply Z.eqb_eq.
  apply (below_spec 256 (fun g => Z.land g 0xFC =? 4 * (g / 4))); [vm_compute; reflexivity|lia].
Qed.

(** The packed pixel as a sum of its three fields. *)
Lemma rgb565_sum (y u v : Z) :
  yuv_to_rgb565 y u v =
  2048 * (yuv_red y u v / 8) + 32 * (yuv_green y u v / 4) + yuv_blue y u v / 8.
Proof.
  unfold yuv_to_rgb565.
  pose proof (clamp_channel_range (Z.shiftr (298 * (y - 16) + 409 * (v - 128) + 128) 8)) as Hr.
  pose proof (clamp_channel_range
                (Z.shiftr (298 * (y - 16) - 100 * (u - 128) - 208 * (v - 128) + 128) 8)) as Hg.
  pose proof (clamp_channel_range (Z.shiftr (298 * (y - 16) + 516 * (u - 128) + 128) 8)) as Hb.
  fold (yuv_red y u v) in Hr. fold (yuv_green y u v) in Hg. fold (yuv_blue y u v) in Hb.
  cbv zeta.
  set (r := yuv_red y u v) in *. set (g := yuv_green y u v) in *. set (b := yuv_blue y u v) in *.
  rewrite mask_red, mask_green by assumption.
  rewrite (Z.shiftr_div_pow2 b 3) by lia.
  change (2 ^ 3) with 8.
  assert (Hr8 : 0 <= r / 8 <= 31).
  { split; [apply Z.div_pos; lia|]. apply Z.lt_succ_r, Z.div_lt_upper_bound; lia. }
  assert (Hg4 : 0 <= g / 4 <= 63).
  { split; [apply Z.div_pos; lia|]. apply Z.lt_succ_r, Z.div_lt_upper_bound; lia. }
  assert (Hb8 : 0 <= b / 8 <= 31).
  { split; [apply Z.div_pos; lia|]. apply Z.lt_succ_r, Z.div_lt_upper_bound; lia. }
  replace (Z.shiftl (8 * (r / 8)) 8) with (Z.shiftl (r / 8) 11)
    by (rewrite !Z.shiftl_mul_pow2 by lia; change (2 ^ 11) with 2048; change (2 ^ 8) with 256; lia).
  replace (Z.shiftl (4 * (g / 4)) 3) with (32 * (g / 4))
    by (rewrite Z.shiftl_mul_pow2 by lia; change (2 ^ 3) with 8; lia).
  rewrite (lor_shiftl_small (r / 8) (32 * (g / 4)) 11) by (change (2 ^ 11) with 2048; lia).
  change (2 ^ 11) with 2048.
  replace (r / 8 * 2048 + 32 * (g / 4)) with (Z.shiftl (64 * (r / 8) + g / 4) 5)
    by (rewrite Z.shiftl_mul_pow2 by lia; change (2 ^ 5) with 32; lia).
  rewrite (lor_shiftl_small _ (b / 8) 5) by (change (2 ^ 5) with 32; lia).
  change (2 ^ 5) with 32.
  unfold to_uint16. rewrite Z.mod_small by lia. lia.
Qed.

End BitFields.

Section CameraProperties.
Local Open Scope Z_scope.

Lemma yuv_red_range (y u v : Z) : 0 <= yuv_red y u v <= 255.
Proof. apply clamp_channel_range. Qed.

Lemma yuv_green_range (y u v : Z) : 0 <= yuv_green y u v <= 255.
Proof. apply clamp_channel_range. Qed.

Lemma yuv_blue_range (y u v : Z) : 0 <= yuv_blue y u v <= 255.
Proof. apply clamp_channel_range. Qed.

Lemma div_range (a b hi : Z) : 0 < b -> 0 <= a < b * hi -> 0 <= a / b < hi.
Proof.
  intros Hb Ha. split; [apply Z.div_pos; lia|apply Z.div_lt_upper_bound; lia].
Qed.

(** X5: [yuv_to_rgb565] returns a 16-bit pixel whose three bit fields are
    the top five, six and five bits of the clamped red, green and blue
    channels: the fields do not overlap and nothing is lost but the low
    bits of each channel, whatever the arguments. *)
Theorem rgb565_fields (y u v : Z) :
  let p := yuv_to_rgb565 y u v in
  0 <= p < 65536 /\
  Z.shiftr p 11 = Z.shiftr (yuv_red y u v) 3 /\
  Z.land (Z.shiftr p 5) 0x3F = Z.shiftr (yuv_green y u v) 2 /\
  Z.land p 0x1F = Z.shiftr (yuv_blue y u v) 3.
Proof.
  intros p. unfold p. rewrite rgb565_sum.
  pose proof (yuv_red_range y u v) as Hr.
  pose proof (yuv_green_range y u v) as Hg.
  pose proof (yuv_blue_range y u v) as Hb.
  set (r := yuv_red y u v) in *. set (g := yuv_green y u v) in *. set (b := yuv_blue y u v) in *.
  assert (Hr8 : 0 <= r / 8 < 32) by (apply div_range; lia).
  assert (Hg4 : 0 <= g / 4 < 64) by (apply div_range; lia).
  assert (Hb8 : 0 <= b / 8 < 32) by (apply div_range; lia).
  rewrite !Z.shiftr_div_pow2 by lia.
  change (2 ^ 11) with 2048. change (2 ^ 5) with 32.
  change (2 ^ 3) with 8. change (2 ^ 2) with 4.
  change 0x3F with (Z.ones 6). change 0x1F with (Z.ones 5).
  rewrite !Z.land_ones by lia.
  change (2 ^ 6) with 64. change (2 ^ 5) with 32.
  set (R := r / 8) in *. set (G := g / 4) in *. set (B := b / 8) in *.
  split; [lia|].
  split.
  { symmetry. apply (Z.div_unique _ _ _ (32 * G + B)); lia. }
  split.
  { assert (E : (2048 * R + 32 * G + B) / 32 = 64 * R + G).
    { symmetry. apply (Z.div_unique _ _ _ B); lia. }
    rewrite E. symmetry. apply (Z.mod_unique _ _ R); lia. }
  symmetry. apply (Z.mod_unique _ _ (64 * R + G)); lia.
Qed.

Lemma shiftr8_mono (a b : Z) : a <= b -> Z.shiftr a 8 <= Z.shiftr b 8.
Proof.
  intros H. rewrite !Z.shiftr_div_pow2 by lia. apply Z.div_le_mono; lia.
Qed.

(** X6: with neutral chroma ([u = v = 128]) the three channels are equal
    (a grey); luma 16 and below gives the black pixel [0x0000], luma 235
    and above the white pixel [0xFFFF], and a brighter luma never gives a
    smaller pixel value.  For any chroma each channel grows with the
    luma. *)
Theorem rgb565_grey_axis :
  (forall y, yuv_red y 128 128 = yuv_green y 128 128 /\
             yuv_green y 128 128 = yuv_blue y 128 128) /\
  (forall y, y <= 16 -> yuv_to_rgb565 y 128 128 = 0) /\
  (forall y, 235 <= y -> yuv_to_rgb565 y 128 128 = 0xFFFF) /\
  (forall y1 y2, y1 <= y2 -> yuv_to_rgb565 y1 128 128 <= yuv_to_rgb565 y2 128 128) /\
  (forall y1 y2 u v, y1 <= y2 ->
     yuv_red y1 u v <= yuv_red y2 u v /\
     yuv_green y1 u v <= yuv_green y2 u v /\
     yuv_blue y1 u v <= yuv_blue y2 u v).
Proof.
  assert (Grey : forall y, yuv_red y 128 128 = clamp_channel (Z.shiftr (298 * (y - 16) + 128) 8) /\
                           yuv_green y 128 128 = clamp_channel (Z.shiftr (298 * (y - 16) + 128) 8) /\
                           yuv_blue y 128 128 = clamp_channel (Z.shiftr (298 * (y - 16) + 128) 8)).
  { intros y. unfold yuv_red, yuv_green, yuv_blue. cbv zeta.
    repeat split; f_equal; f_equal; lia. }
  assert (Mono : forall y1 y2 u v, y1 <= y2 ->
     yuv_red y1 u v <= yuv_red y2 u v /\
     yuv_green y1 u v <= yuv_green y2 u v /\
     yuv_blue y1 u v <= yuv_blue y2 u v).
  { intros y1 y2 u v H. unfold yuv_red, yuv_green, yuv_blue. cbv zeta.
    repeat split; apply clamp_channel_mono, shiftr8_mono; lia. }
  split; [|split; [|split; [|split]]].
  - intros y. destruct (Grey y) as (-> & -> & ->). split; reflexivity.
  - intros y H. rewrite rgb565_sum. destruct (Grey y) as (-> & -> & ->).
    assert (E : clamp_channel (Z.shiftr (298 * (y - 16) + 128) 8) = 0).
    { unfold clamp_channel.
      assert (Z.shiftr (298 * (y - 16) + 128) 8 <= 0).
      { apply Z.le_trans with (Z.shiftr 128 8); [apply shiftr8_mono; lia|discriminate]. }
      destruct (_ <? 0) eqn:E1; [reflexivity|]. apply Z.ltb_ge in E1.
      destruct (_ >? 255) eqn:E2; [rewrite Z.gtb_ltb in E2; apply Z.ltb_lt in E2; lia|lia]. }
    rewrite E. reflexivity.
  - intros y H. rewrite rgb565_sum. destruct (Grey y) as (-> & -> & ->).
    assert (E : clamp_channel (Z.shiftr (298 * (y - 16) + 128) 8) = 255).
    { unfold clamp_channel.
      assert (255 <= Z.shiftr (298 * (y - 16) + 128) 8).
      { apply Z.le_trans with (Z.shiftr (298 * (235 - 16) + 128) 8);
          [discriminate|apply shiftr8_mono; lia]. }
      destruct (_ <? 0) eqn:E1; [apply Z.ltb_lt in E1; lia|].
      destruct (_ >? 255) eqn:E2; [reflexivity|].
      rewrite Z.gtb_ltb in E2. apply Z.ltb_ge in E2. lia. }
    rewrite E. reflexivity.
  - intros y1 y2 H. rewrite !rgb565_sum.
    destruct (Mono y1 y2 128 128 H) as (Hr & Hg & Hb).
    pose proof (yuv_red_range y1 128 128). pose proof (yuv_green_range y1 128 128).
    pose proof (yuv_blue_range y1 128 128).
    assert (yuv_red y1 128 128 / 8 <= yuv_red y2 128 128 / 8) by (apply Z.div_le_mono; lia).
    assert (yuv_green y1 128 128 / 4 <= yuv_green y2 128 128 / 4) by (apply Z.div_le_mono; lia).
    assert (yuv_blue y1 128 128 / 8 <= yuv_blue y2 128 128 / 8) by (apply Z.div_le_mono; lia).
    lia.
  - exact Mono.
Qed.

(** Reads and the rows of the frame. *)

Lemma plane_byte_some (data : list Z) (i : Z) :
  0 <= i < Z.of_nat (length data) -> exists b, plane_byte data i = Some b.
Proof.
  intros H. unfold plane_byte.
  destruct (i <? 0) eqn:E; [apply Z.ltb_lt in E; lia|].
  destruct (nth_error data (Z.to_nat i)) eqn:N; [eexists; reflexivity|].
  apply nth_error_None in N. lia.
Qed.

Lemma collect_some (f : Z -> option (list Z)) (k : nat) (n : nat) (i : Z) :
  (forall j, i <= j < i + Z.of_nat n -> exists row, f j = Some row /\ length row = k) ->
  exists l, collect f i n = Some l /\ length l = (n * k)%nat /\
    forall (a b : nat), (a < n)%nat -> (b < k)%nat ->
      nth_error l (a * k + b) =
      match f (i + Z.of_nat a) with Some row => nth_error row b | None => None end.
Proof.
  revert i. induction n as [|n IH]; intros i H.
  - exists []. split; [reflexivity|]. split; [reflexivity|]. intros a b Ha. lia.
  - destruct (H i) as (row & Fi & Lrow); [lia|].
    destruct (IH (i + 1)) as (l & Cl & Ll & Nl).
    { intros j Hj. apply H. lia. }
    exists (row ++ l). simpl. rewrite Fi, Cl.
    split; [reflexivity|]. split.
    { rewrite length_app, Ll, Lrow. reflexivity. }
    intros a b Ha Hb. destruct a as [|a].
    + simpl. rewrite Z.add_0_r, Fi. apply nth_error_app1. lia.
    + replace (S a * k + b)%nat with (length row + (a * k + b))%nat by (rewrite Lrow; simpl; lia).
      rewrite nth_error_app2 by lia.
      replace (length row + (a * k + b) - length row)%nat with (a * k + b)%nat by lia.
      rewrite Nl by lia.
      replace (i + 1 + Z.of_nat a) with (i + Z.of_nat (S a)) by lia. reflexivity.
Qed.

Lemma frame_pixel_inside (data : list Z) (width height lcd_x lcd_y : Z) :
  LCD_DISPLAY_WIDTH <= width <= 32768 -> LCD_DISPLAY_HEIGHT <= height <= 32768 ->
  Z.even width = true -> Z.even height = true ->
  width * height * 3 / 2 <= Z.of_nat (length data) ->
  0 <= lcd_x < LCD_DISPLAY_WIDTH -> 0 <= lcd_y < LCD_DISPLAY_HEIGHT ->
  exists p, frame_pixel data width height lcd_x lcd_y = Some p.
Proof.
  unfold LCD_DISPLAY_WIDTH, LCD_DISPLAY_HEIGHT.
  intros Hw Hh Ew Eh Hlen Hx Hy.
  apply Z.even_spec in Ew. destruct Ew as (w' & Ew).
  apply Z.even_spec in Eh. destruct Eh as (h' & Eh).
  assert (Lw : width * height * 3 / 2 = 6 * (w' * h')).
  { subst. replace (2 * w' * (2 * h') * 3) with (6 * (w' * h') * 2) by ring.
    apply Z.div_mul. lia. }
  rewrite Lw in Hlen. clear Lw.
  assert (Q : width * height / 4 = w' * h').
  { subst. replace (2 * w' * (2 * h')) with (w' * h' * 4) by ring. apply Z.div_mul. lia. }
  assert (W2 : width / 2 = w').
  { subst. rewrite Z.mul_comm. apply Z.div_mul. lia. }
  set (xs := width / 320). set (ys := height / 240).
  assert (Hxs : 1 <= xs /\ 320 * xs <= width).
  { split; [apply Z.div_le_lower_bound; lia|apply Z.mul_div_le; lia]. }
  assert (Hys : 1 <= ys /\ 240 * ys <= height).
  { split; [apply Z.div_le_lower_bound; lia|apply Z.mul_div_le; lia]. }
  assert (Sx : 0 <= lcd_x * xs <= width - 1) by nia.
  assert (Sy : 0 <= lcd_y * ys <= height - 1) by nia.
  assert (WH : 0 <= width * height <= 1073741824) by nia.
  assert (P32 : 2 ^ 32 = 4294967296) by reflexivity.
  assert (P31 : 2 ^ 31 = 2147483648) by reflexivity.
  unfold frame_pixel. unfold LCD_DISPLAY_WIDTH, LCD_DISPLAY_HEIGHT. fold xs ys.
  assert (Ixs : to_int32 xs = xs).
  { unfold to_int32. rewrite P31, P32. rewrite Z.mod_small by lia. lia. }
  assert (Iys : to_int32 ys = ys).
  { unfold to_int32. rewrite P31, P32. rewrite Z.mod_small by lia. lia. }
  rewrite Ixs, Iys.
  set (src_x := lcd_x * xs) in *. set (src_y := lcd_y * ys) in *.
  assert (Uwh : to_uint32 (width * height) = width * height).
  { unfold to_uint32. rewrite P32. apply Z.mod_small. lia. }
  rewrite Uwh, Q.
  assert (Ux : to_uint32 src_x = src_x).
  { unfold to_uint32. rewrite P32. apply Z.mod_small. lia. }
  assert (Uy : to_uint32 src_y = src_y).
  { unfold to_uint32. rewrite P32. apply Z.mod_small. lia. }
  rewrite Ux, Uy.
  assert (Yi : 0 <= src_y * width + src_x < width * height) by nia.
  assert (Uyi : to_uint32 (src_y * width + src_x) = src_y * width + src_x).
  { unfold to_uint32. rewrite P32. apply Z.mod_small. lia. }
  rewrite Uyi.
  assert (WHq : width * height = 4 * (w' * h')) by (subst; ring).
  destruct (plane_byte_some data (0 + (src_y * width + src_x))) as (yv & ->); [lia|].
  rewrite W2.
  assert (Qx : 0 <= Z.quot src_x 2 <= w' - 1).
  { rewrite Z.quot_div_nonneg by lia. split; [apply Z.div_pos; lia|].
    apply Z.lt_succ_r. apply Z.div_lt_upper_bound; lia. }
  assert (Qy : 0 <= Z.quot src_y 2 <= h' - 1).
  { rewrite Z.quot_div_nonneg by lia. split; [apply Z.div_pos; lia|].
    apply Z.lt_succ_r. apply Z.div_lt_upper_bound; lia. }
  set (uv_x := Z.quot src_x 2) in *. set (uv_y := Z.quot src_y 2) in *.
  assert (Uux : to_uint32 uv_x = uv_x).
  { unfold to_uint32. rewrite P32. apply Z.mod_small. lia. }
  assert (Uuy : to_uint32 uv_y = uv_y).
  { unfold to_uint32. rewrite P32. apply Z.mod_small. lia. }
  rewrite Uux, Uuy.
  assert (UV : 0 <= uv_y * w' + uv_x < w' * h') by nia.
  assert (Uuv : to_int32 (to_uint32 (uv_y * w' + uv_x)) = uv_y * w' + uv_x).
  { unfold to_int32, to_uint32. rewrite P31, P32.
    rewrite (Z.mod_small (uv_y * w' + uv_x)) by lia. rewrite Z.mod_small by lia. lia. }
  rewrite Uuv.
  destruct (plane_byte_some data (0 + width * height + w' * h' + (uv_y * w' + uv_x))) as (uv & ->); [lia|].
  destruct (plane_byte_some data (0 + width * height + (uv_y * w' + uv_x))) as (vv & ->); [lia|].
  eexists. reflexivity.
Qed.

(** X7: [display_frame_fast] never reads outside a YUV420 frame: for even
    capture sizes of at least 320 x 240 (and at most 32768 each way) and a
    buffer holding [width * height * 3 / 2] bytes, every read of the three
    planes is inside the buffer, and the function fills all 320 x 240
    pixels of the RGB565 buffer, pixel [(lcd_x, lcd_y)] at index
    [lcd_y * 320 + lcd_x]. *)
Theorem display_frame_reads_inside (data : list Z) (width height : Z) :
  LCD_DISPLAY_WIDTH <= width <= 32768 -> LCD_DISPLAY_HEIGHT <= height <= 32768 ->
  Z.even width = true -> Z.even height = true ->
  width * height * 3 / 2 <= Z.of_nat (length data) ->
  exists frame,
    display_frame_fast data width height = Some frame /\
    Z.of_nat (length frame) = LCD_DISPLAY_WIDTH * LCD_DISPLAY_HEIGHT /\
    forall lcd_x lcd_y,
      0 <= lcd_x < LCD_DISPLAY_WIDTH -> 0 <= lcd_y < LCD_DISPLAY_HEIGHT ->
      nth_error frame (Z.to_nat (lcd_y * LCD_DISPLAY_WIDTH + lcd_x)) =
      frame_pixel data width height lcd_x lcd_y /\
      frame_pixel data width height lcd_x lcd_y <> None.
Proof.
  intros Hw Hh Ew Eh Hlen.
  set (row := fun lcd_y =>
         collect (fun lcd_x => match frame_pixel data width height lcd_x lcd_y with
                               | None => None | Some p => Some [p] end)
                 0 (Z.to_nat LCD_DISPLAY_WIDTH)).
  assert (Row : forall lcd_y, 0 <= lcd_y < LCD_DISPLAY_HEIGHT ->
            exists l, row lcd_y = Some l /\ length l = Z.to_nat LCD_DISPLAY_WIDTH /\
              forall a, (a < Z.to_nat LCD_DISPLAY_WIDTH)%nat ->
                nth_error l a = frame_pixel data width height (Z.of_nat a) lcd_y).
  { intros lcd_y Hy. unfold row.
    destruct (collect_some
                (fun lcd_x => match frame_pixel data width height lcd_x lcd_y with
                              | None => None | Some p => Some [p] end)
                1 (Z.to_nat LCD_DISPLAY_WIDTH) 0) as (l & Cl & Ll & Nl).
    { intros j Hj.
      destruct (frame_pixel_inside data width height j lcd_y) as (p & ->); try assumption.
      exists [p]. split; reflexivity. }
    exists l. split; [exact Cl|]. split; [lia|].
    intros a Ha. specialize (Nl a 0%nat Ha ltac:(lia)).
    replace (a * 1 + 0)%nat with a in Nl by lia. rewrite Nl. simpl.
    destruct (frame_pixel data width height (Z.of_nat a) lcd_y); reflexivity. }
  destruct (collect_some row (Z.to_nat LCD_DISPLAY_WIDTH) (Z.to_nat LCD_DISPLAY_HEIGHT) 0)
    as (frame & Cf & Lf & Nf).
  { intros j Hj. destruct (Row j) as (l & Rl & Ll & _).
    - unfold LCD_DISPLAY_HEIGHT in *. lia.
    - exists l. split; assumption. }
  exists frame. split; [exact Cf|]. split.
  { rewrite Lf, Nat2Z.inj_mul, !Z2Nat.id by (unfold LCD_DISPLAY_WIDTH, LCD_DISPLAY_HEIGHT; lia).
    apply Z.mul_comm. }
  intros lcd_x lcd_y Hx Hy.
  assert (Inside : frame_pixel data width height lcd_x lcd_y <> None).
  { destruct (frame_pixel_inside data width height lcd_x lcd_y) as (p & ->);
      try assumption. discriminate. }
  split; [|exact Inside].
  specialize (Nf (Z.to_nat lcd_y) (Z.to_nat lcd_x)).
  replace (Z.to_nat (lcd_y * LCD_DISPLAY_WIDTH + lcd_x))
    with (Z.to_nat lcd_y * Z.to_nat LCD_DISPLAY_WIDTH + Z.to_nat lcd_x)%nat
    by (unfold LCD_DISPLAY_WIDTH in *; lia).
  rewrite Nf by (unfold LCD_DISPLAY_WIDTH, LCD_DISPLAY_HEIGHT in *; lia).
  rewrite Z.add_0_l, Z2Nat.id by lia.
  destruct (Row lcd_y Hy) as (l & Rl & Ll & Nl). rewrite Rl.
  rewrite Nl by (unfold LCD_DISPLAY_WIDTH in *; lia).
  rewrite Z2Nat.id by lia. reflexivity.
Qed.

(** The capture size of the program, 640 x 480, on a frame of zeros. *)
Lemma display_frame_reads_inside_witness :
  exists frame,
    display_frame_fast (repeat 0 (Z.to_nat 460800)) 640 480 = Some frame /\
    Z.of_nat (length frame) = LCD_DISPLAY_WIDTH * LCD_DISPLAY_HEIGHT /\
    forall lcd_x lcd_y,
      0 <= lcd_x < LCD_DISPLAY_WIDTH -> 0 <= lcd_y < LCD_DISPLAY_HEIGHT ->
      nth_error frame (Z.to_nat (lcd_y * LCD_DISPLAY_WIDTH + lcd_x)) =
      frame_pixel (repeat 0 (Z.to_nat 460800)) 640 480 lcd_x lcd_y /\
      frame_pixel (repeat 0 (Z.to_nat 460800)) 640 480 lcd_x lcd_y <> None.
Proof.
  apply display_frame_reads_inside.
  - unfold LCD_DISPLAY_WIDTH. lia.
  - unfold LCD_DISPLAY_HEIGHT. lia.
  - reflexivity.
  - reflexivity.
  - rewrite repeat_length. rewrite Z2Nat.id by lia. reflexivity.
Defined.

End CameraProperties.

(* ================================================================== *)
(** * Register access of the ICM-20948 driver *)
(* ================================================================== *)

Section DriverProperties.
Variable Device : Type.
Variable spi_write : Device -> list Z -> Device.
Variable spi_read : Device -> Z -> nat -> list Z * Device.
Local Open Scope Z_scope.

Lemma to_uint8_range (n : Z) : 0 <= to_uint8 n <= 255.
Proof. unfold to_uint8. pose proof (Z.mod_pos_bound n 256). lia. Qed.

Lemma to_int16_range (n : Z) : is_int16 (to_int16 n).
Proof.
  unfold is_int16, to_int16, INT16_MIN, INT16_MAX.
  pose proof (Z.mod_pos_bound (n + 32768) 65536). lia.
Qed.

Lemma combine_int16 (hi lo : Z) : is_int16 (combine hi lo).
Proof. apply to_int16_range. Qed.

(** [(int16_t)((hi << 8) | lo)] on two bytes is the two's-complement
    reading of the 16-bit word [hi:lo]. *)
Lemma combine_value (hi lo : Z) :
  0 <= hi <= 255 -> 0 <= lo <= 255 ->
  combine hi lo = if hi <? 128 then 256 * hi + lo else 256 * hi + lo - 65536.
Proof.
  intros Hh Hl. unfold combine.
  rewrite (lor_shiftl_small hi lo 8) by (change (2 ^ 8) with 256; lia).
  change (2 ^ 8) with 256. unfold to_int16.
  destruct (hi <? 128) eqn:E.
  - apply Z.ltb_lt in E. rewrite Z.mod_small by lia. lia.
  - apply Z.ltb_ge in E.
    replace (hi * 256 + lo + 32768) with (hi * 256 + lo - 32768 + 1 * 65536) by lia.
    rewrite Z.mod_add by lia. rewrite Z.mod_small by lia. lia.
Qed.

Lemma byte_at_map_to_uint8 (l : list Z) (i : nat) :
  0 <= byte_at (map to_uint8 l) i <= 255.
Proof.
  unfold byte_at. destruct (Nat.lt_ge_cases i (length (map to_uint8 l))) as [L|L].
  - rewrite length_map in L.
    rewrite (nth_indep _ 0 (to_uint8 0)) by (rewrite length_map; exact L).
    rewrite map_nth. apply to_uint8_range.
  - rewrite nth_overflow by exact L. lia.
Qed.

Lemma read_registers_bytes (reg : Z) (len : nat) (d : Driver Device) (i : nat) :
  0 <= byte_at (fst (read_registers spi_read reg len d)) i <= 255.
Proof.
  unfold read_registers. destruct (spi_read _ _ _) as (buffer, dev). simpl.
  apply byte_at_map_to_uint8.
Qed.

Lemma select_bank_current (bank : Z) (d : Driver Device) :
  current_bank (select_bank spi_write bank d) = bank.
Proof.
  unfold select_bank. destruct (bank =? current_bank d) eqn:E; [|reflexivity].
  apply Z.eqb_eq in E. congruence.
Qed.

Lemma select_bank_same (d : Driver Device) :
  select_bank spi_write (current_bank d) d = d.
Proof. unfold select_bank. rewrite Z.eqb_refl. reflexivity. Qed.

Lemma read_registers_bank (reg : Z) (len : nat) (d : Driver Device) :
  current_bank (snd (read_registers spi_read reg len d)) = current_bank d.
Proof. unfold read_registers. destruct (spi_read _ _ _). reflexivity. Qed.

Lemma read_register_bank (reg : Z) (d : Driver Device) :
  current_bank (snd (read_register spi_read reg d)) = current_bank d.
Proof. unfold read_register. destruct (spi_read _ _ _). reflexivity. Qed.

Lemma write_register_bank (reg value : Z) (d : Driver Device) :
  current_bank (write_register spi_write reg value d) = current_bank d.
Proof. reflexivity. Qed.

(** X8: the sensor words.  Two bytes are read as the two's-complement
    16-bit word with the first argument as high byte, and both bytes can
    be recovered from the word; every word a successful read stores is in
    the [int16_t] range that the conversions to g, deg/s and microtesla
    take, whatever the SPI bus answers. *)
Theorem sensor_words_two_complement :
  (forall hi lo, 0 <= hi <= 255 -> 0 <= lo <= 255 ->
     combine hi lo = (if hi <? 128 then 256 * hi + lo else 256 * hi + lo - 65536) /\
     to_uint8 (Z.shiftr (combine hi lo) 8) = hi /\
     to_uint8 (combine hi lo) = lo) /\
  (forall old d w,
     snd (fst (icm20948_read_accel spi_write spi_read (Some old) d)) = Some w ->
     is_int16 (sx w) /\ is_int16 (sy w) /\ is_int16 (sz w)) /\
  (forall old d w,
     snd (fst (icm20948_read_gyro spi_write spi_read (Some old) d)) = Some w ->
     is_int16 (sx w) /\ is_int16 (sy w) /\ is_int16 (sz w)) /\
  (forall olda oldg d a g,
     fst (icm20948_read_accel_gyro spi_write spi_read (Some olda) (Some oldg) d)
       = (true, Some a, Some g) ->
     (is_int16 (sx a) /\ is_int16 (sy a) /\ is_int16 (sz a)) /\
     (is_int16 (sx g) /\ is_int16 (sy g) /\ is_int16 (sz g))) /\
  (forall old d w,
     fst (icm20948_read_mag spi_write spi_read (Some old) d) = (true, Some w) ->
     is_int16 (sx w) /\ is_int16 (sy w) /\ is_int16 (sz w)) /\
  (forall old d w,
     snd (fst (icm20948_read_temp spi_write spi_read (Some old) d)) = Some w ->
     is_int16 w).
Proof.
  split; [|split; [|split; [|split; [|split]]]].
  - intros hi lo Hh Hl. rewrite (combine_value hi lo Hh Hl).
    rewrite Z.shiftr_div_pow2 by lia. change (2 ^ 8) with 256. unfold to_uint8.
    destruct (hi <? 128) eqn:E; (split; [reflexivity|]).
    + apply Z.ltb_lt in E. split.
      * replace ((256 * hi + lo) / 256) with hi
          by (apply (Z.div_unique _ _ _ lo); lia).
        apply Z.mod_small. lia.
      * symmetry. apply (Z.mod_unique _ _ hi); lia.
    + apply Z.ltb_ge in E. split.
      * replace ((256 * hi + lo - 65536) / 256) with (hi - 256)
          by (apply (Z.div_unique _ _ _ lo); lia).
        symmetry. apply (Z.mod_unique _ _ (-1)); lia.
      * symmetry. apply (Z.mod_unique _ _ (hi - 256)); lia.
  - intros old d w. unfold icm20948_read_accel.
    destruct (read_registers _ _ _ _) as (buffer, d'). simpl.
    intros H. injection H as <-. simpl. repeat split; apply combine_int16.
  - intros old d w. unfold icm20948_read_gyro.
    destruct (read_registers _ _ _ _) as (buffer, d'). simpl.
    intros H. injection H as <-. simpl. repeat split; apply combine_int16.
  - intros olda oldg d a g. unfold icm20948_read_accel_gyro.
    destruct (read_registers _ _ _ _) as (buffer, d'). simpl.
    intros H. injection H as <- <-. simpl. repeat split; apply combine_int16.
  - intros old d w. unfold icm20948_read_mag.
    destruct (mag_buffer _ _ _) as (buffer, d').
    destruct (_ =? 0); [discriminate|].
    destruct (negb _); [discriminate|]. simpl.
    intros H. injection H as <-. simpl. repeat split; apply combine_int16.
  - intros old d w. unfold icm20948_read_temp.
    destruct (read_registers _ _ _ _) as (buffer, d'). simpl.
    intros H. injection H as <-. apply combine_int16.
Qed.

(** X9: the register bank is selected over SPI only when it changes.
    Every driver call that returns leaves bank 0 selected, whether it
    succeeds or not; and from a driver on bank 0 a read of the
    accelerometer, gyroscope, magnetometer or thermometer is one SPI read
    transaction and no write. *)
Theorem bank_select_cached :
  (forall d, select_bank spi_write (current_bank d) d = d) /\
  (forall bank d, current_bank (select_bank spi_write bank d) = bank) /\
  (forall d, current_bank (snd (icm20948_init spi_write spi_read d)) = ICM20948_BANK_0) /\
  (forall d, current_bank (snd (icm20948_init_magnetometer spi_write spi_read d))
             = ICM20948_BANK_0) /\
  (forall olda oldg d, current_bank d = ICM20948_BANK_0 ->
     snd (icm20948_read_accel_gyro spi_write spi_read (Some olda) (Some oldg) d) =
     {| device := snd (spi_read (device d) (Z.lor ICM20948_ACCEL_XOUT_H 0x80) 12);
        current_bank := ICM20948_BANK_0 |}) /\
  (forall old d, current_bank d = ICM20948_BANK_0 ->
     snd (icm20948_read_accel spi_write spi_read (Some old) d) =
     {| device := snd (spi_read (device d) (Z.lor ICM20948_ACCEL_XOUT_H 0x80) 6);
        current_bank := ICM20948_BANK_0 |}) /\
  (forall old d, current_bank d = ICM20948_BANK_0 ->
     snd (icm20948_read_gyro spi_write spi_read (Some old) d) =
     {| device := snd (spi_read (device d) (Z.lor ICM20948_GYRO_XOUT_H 0x80) 6);
        current_bank := ICM20948_BANK_0 |}) /\
  (forall old d, current_bank d = ICM20948_BANK_0 ->
     snd (icm20948_read_mag spi_write spi_read (Some old) d) =
     {| device := snd (spi_read (device d) (Z.lor ICM20948_EXT_SLV_SENS_DATA_00 0x80) 8);
        current_bank := ICM20948_BANK_0 |}) /\
  (forall old d, current_bank d = ICM20948_BANK_0 ->
     snd (icm20948_read_temp spi_write spi_read (Some old) d) =
     {| device := snd (spi_read (device d) (Z.lor ICM20948_TEMP_OUT_H 0x80) 2);
        current_bank := ICM20948_BANK_0 |}).
Proof.
  split; [exact select_bank_same|].
  split; [exact select_bank_current|].
  split.
  { intros d. unfold icm20948_init.
    destruct (read_register _ _ _) as (who, d1) eqn:R.
    assert (B1 : current_bank d1 = ICM20948_BANK_0).
    { change d1 with (snd (who, d1)). rewrite <- R.
      rewrite read_register_bank. apply select_bank_current. }
    destruct (negb _); simpl; [exact B1|].
    apply select_bank_current. }
  split.
  { intros d. unfold icm20948_init_magnetometer.
    destruct (read_register _ _ _) as (user_ctrl, d1).
    destruct (read_ak09916_register _ _ _ _) as (who, d2) eqn:R.
    assert (B2 : current_bank d2 = ICM20948_BANK_0).
    { change d2 with (snd (who, d2)). rewrite <- R.
      unfold read_ak09916_register. rewrite read_register_bank.
      apply select_bank_current. }
    destruct (negb _); simpl; [exact B2|].
    apply select_bank_current. }
  assert (Same : forall d, current_bank d = ICM20948_BANK_0 ->
                   select_bank spi_write ICM20948_BANK_0 d = d).
  { intros d <-. apply select_bank_same. }
  split.
  { intros olda oldg d B. unfold icm20948_read_accel_gyro. rewrite (Same d B).
    unfold read_registers. destruct (spi_read _ _ _) as (buffer, dev). simpl.
    rewrite B. reflexivity. }
  split.
  { intros old d B. unfold icm20948_read_accel. rewrite (Same d B).
    unfold read_registers. destruct (spi_read _ _ _) as (buffer, dev). simpl.
    rewrite B. reflexivity. }
  split.
  { intros old d B. unfold icm20948_read_gyro. rewrite (Same d B).
    unfold read_registers. destruct (spi_read _ _ _) as (buffer, dev). simpl.
    rewrite B. reflexivity. }
  split.
  { intros old d B. unfold icm20948_read_mag, mag_buffer. rewrite (Same d B).
    unfold read_registers. destruct (spi_read _ _ _) as (buffer, dev). simpl.
    destruct (_ =? 0); [simpl; rewrite B; reflexivity|].
    destruct (negb _); simpl; rewrite B; reflexivity. }
  intros old d B. unfold icm20948_read_temp. rewrite (Same d B).
  unfold read_registers. destruct (spi_read _ _ _) as (buffer, dev). simpl.
  rewrite B. reflexivity.
Qed.

End DriverProperties.

Local Close Scope R_scope.
Local Close Scope Z_scope.

(* ================================================================== *)
(** * C strings: searching, formatting and reading numbers *)
(* ================================================================== *)

Section StringTheory.
Import Ascii String.
Local Open Scope string_scope.

Lemma append_nil_r (s : string) : s ++ EmptyString = s.
Proof. induction s as [|c s IH]; simpl; [reflexivity|rewrite IH; reflexivity]. Qed.

Lemma append_assoc (a b c : string) : (a ++ b) ++ c = a ++ (b ++ c).
Proof. induction a as [|x a IH]; simpl; [reflexivity|rewrite IH; reflexivity]. Qed.

Lemma length_append (a b : string) : length (a ++ b) = (length a + length b)%nat.
Proof. induction a as [|x a IH]; simpl; [reflexivity|rewrite IH; reflexivity]. Qed.

Lemma advance_append (a b : string) : advance (a ++ b) (length a) = b.
Proof. induction a as [|x a IH]; simpl; [destruct b; reflexivity|exact IH]. Qed.

Lemma substring_prefix (a b : string) : substring 0 (length a) (a ++ b) = a.
Proof.
  induction a as [|x a IH]; simpl.
  - destruct b; reflexivity.
  - rewrite IH. reflexivity.
Qed.

Lemma substring_short (n : nat) (s : string) : (length s <= n)%nat -> substring 0 n s = s.
Proof.
  revert n. induction s as [|c s IH]; intros n H; simpl in *.
  - destruct n; reflexivity.
  - destruct n as [|n]; [lia|]. rewrite IH by lia. reflexivity.
Qed.

Lemma all_chars_append (p : ascii -> bool) (a b : string) :
  all_chars p (a ++ b) = all_chars p a && all_chars p b.
Proof.
  induction a as [|x a IH]; simpl; [reflexivity|].
  rewrite IH. apply andb_assoc.
Qed.

Lemma all_chars_weaken (p q : ascii -> bool) (s : string) :
  (forall c, p c = true -> q c = true) -> all_chars p s = true -> all_chars q s = true.
Proof.
  intros H. induction s as [|c s IH]; simpl; [reflexivity|].
  intros E. apply andb_prop in E. destruct E as (E1 & E2).
  rewrite (H c E1), (IH E2). reflexivity.
Qed.

Lemma c_str_line (s : string) : all_chars line_char s = true -> c_str s = s.
Proof.
  induction s as [|c s IH]; simpl; [reflexivity|].
  intros E. apply andb_prop in E. destruct E as (E1 & E2).
  unfold line_char in E1. apply andb_prop in E1. destruct E1 as (_ & E1).
  apply negb_true_iff in E1. rewrite E1, (IH E2). reflexivity.
Qed.

(** Searching. *)

Lemma starts_with_append (needle s : string) : starts_with needle (needle ++ s) = true.
Proof.
  induction needle as [|x needle IH]; simpl; [reflexivity|].
  rewrite Ascii.eqb_refl, IH. reflexivity.
Qed.

Lemma starts_with_split (needle s : string) :
  starts_with needle s = true -> s = needle ++ advance s (length needle).
Proof.
  revert s. induction needle as [|x needle IH]; intros s H; simpl in *.
  - destruct s; reflexivity.
  - destruct s as [|y s]; [discriminate|].
    apply andb_prop in H. destruct H as (E & H).
    apply Ascii.eqb_eq in E. subst y. simpl. rewrite <- (IH s H). reflexivity.
Qed.

Lemma strncmp_eq_split (a b : string) :
  strncmp_eq a b (length b) = true -> a = b ++ advance a (length b).
Proof.
  revert a. induction b as [|y b IH]; intros a H; simpl in *.
  - destruct a; reflexivity.
  - destruct a as [|x a]; [discriminate|].
    apply andb_prop in H. destruct H as (E & H).
    apply Ascii.eqb_eq in E. subst y. simpl. rewrite <- (IH a H). reflexivity.
Qed.

Lemma strncmp_eq_append (b s : string) : strncmp_eq (b ++ s) b (length b) = true.
Proof.
  induction b as [|y b IH]; simpl; [destruct s; reflexivity|].
  rewrite Ascii.eqb_refl, IH. reflexivity.
Qed.

Lemma strstr_here (needle s : string) :
  starts_with needle s = true -> strstr s needle = Some s.
Proof. intros H. destruct s; simpl; rewrite H; reflexivity. Qed.

Lemma strstr_found (haystack needle e : string) :
  strstr haystack needle = Some e ->
  exists pre, haystack = pre ++ e /\ starts_with needle e = true.
Proof.
  induction haystack as [|c h IH]; simpl.
  - destruct (starts_with needle EmptyString) eqn:E; [|discriminate].
    intros H. injection H as <-. exists EmptyString. split; [reflexivity|exact E].
  - destruct (starts_with needle (String c h)) eqn:E.
    + intros H. injection H as <-. exists EmptyString. split; [reflexivity|exact E].
    + intros H. destruct (IH H) as (pre & -> & S).
      exists (String c pre). split; [reflexivity|exact S].
Qed.

Lemma mismatch_within_no_start (needle pre rest : string) :
  mismatch_within needle pre = true -> starts_with needle (pre ++ rest) = false.
Proof.
  revert pre. induction needle as [|a needle IH]; intros pre H.
  - destruct pre; discriminate.
  - destruct pre as [|b pre]; [discriminate|]. simpl in *.
    destruct (Ascii.eqb a b); [|reflexivity].
    rewrite (IH pre H). reflexivity.
Qed.

Lemma strstr_skip (needle pre rest : string) :
  no_match_in needle pre = true -> strstr (pre ++ rest) needle = strstr rest needle.
Proof.
  induction pre as [|c pre IH]; intros H; [reflexivity|].
  simpl in H. apply andb_prop in H. destruct H as (M & H).
  change (String c pre ++ rest) with (String c (pre ++ rest)).
  change (strstr (String c (pre ++ rest)) needle)
    with (if starts_with needle (String c (pre ++ rest)) then Some (String c (pre ++ rest))
          else strstr (pre ++ rest) needle).
  change (String c (pre ++ rest)) with (String c pre ++ rest).
  rewrite (mismatch_within_no_start needle (String c pre) rest M).
  exact (IH H).
Qed.

Lemma strstr_none (needle s : string) :
  no_match_in needle s = true -> needle <> EmptyString -> strstr s needle = None.
Proof.
  intros H N. rewrite <- (append_nil_r s). rewrite (strstr_skip needle s EmptyString H).
  destruct needle; [congruence|reflexivity].
Qed.

Lemma no_match_in_append (needle a b : string) :
  no_match_in needle a = true -> no_match_in needle b = true ->
  no_match_in needle (a ++ b) = true.
Proof.
  intros Ha Hb. induction a as [|c a IH]; [exact Hb|].
  simpl in Ha. apply andb_prop in Ha. destruct Ha as (M & Ha).
  change (String c a ++ b) with (String c (a ++ b)).
  change (no_match_in needle (String c (a ++ b)))
    with (mismatch_within needle (String c (a ++ b)) && no_match_in needle (a ++ b)).
  rewrite (IH Ha), andb_true_r.
  clear - M. change (String c (a ++ b)) with (String c a ++ b).
  revert M. generalize (String c a). clear.
  induction needle as [|x needle IH]; intros pre M.
  - destruct pre; discriminate.
  - destruct pre as [|y pre]; [discriminate|]. simpl in *.
    destruct (Ascii.eqb x y); [exact (IH pre M)|reflexivity].
Qed.

(** A needle whose first character is nowhere in [pre] starts nowhere in
    [pre]. *)
Lemma no_match_first (a : ascii) (needle pre : string) :
  all_chars (fun c => negb (Ascii.eqb a c)) pre = true ->
  no_match_in (String a needle) pre = true.
Proof.
  induction pre as [|c pre IH]; intros H; [reflexivity|].
  simpl in H. apply andb_prop in H. destruct H as (E & H).
  apply negb_true_iff in E.
  change (no_match_in (String a needle) (String c pre))
    with (mismatch_within (String a needle) (String c pre) && no_match_in (String a needle) pre).
  rewrite (IH H), andb_true_r. simpl. rewrite E. reflexivity.
Qed.

End StringTheory.

Section Numbers.
Import Ascii String.
Local Open Scope string_scope.

Lemma digit_cases (d : Z) :
  (0 <= d <= 9)%Z ->
  d = 0%Z \/ d = 1%Z \/ d = 2%Z \/ d = 3%Z \/ d = 4%Z \/
  d = 5%Z \/ d = 6%Z \/ d = 7%Z \/ d = 8%Z \/ d = 9%Z.
Proof. lia. Qed.

Lemma digit_value_char (d : Z) : (0 <= d <= 9)%Z -> digit_value (digit_char d) = Some d.
Proof.
  intros H. destruct (digit_cases d H) as [E|[E|[E|[E|[E|[E|[E|[E|[E|E]]]]]]]]];
    subst d; reflexivity.
Qed.

Lemma is_digit_char (d : Z) : (0 <= d <= 9)%Z -> is_digit (digit_char d) = true.
Proof. intros H. unfold is_digit. rewrite (digit_value_char d H). reflexivity. Qed.

Lemma mod10_digit (n : Z) : (0 <= n mod 10 <= 9)%Z.
Proof. pose proof (Z.mod_pos_bound n 10). lia. Qed.

Lemma format_unsigned_chars (fuel : nat) (n : Z) (acc : string) :
  all_chars is_digit acc = true -> all_chars is_digit (format_unsigned fuel n acc) = true.
Proof.
  revert n acc. induction fuel as [|fuel IH]; intros n acc H; simpl.
  - rewrite (is_digit_char _ (mod10_digit n)), H. reflexivity.
  - destruct (n <? 10)%Z.
    + simpl. rewrite (is_digit_char _ (mod10_digit n)), H. reflexivity.
    + apply IH. simpl. rewrite (is_digit_char _ (mod10_digit n)), H. reflexivity.
Qed.

Lemma format_unsigned_head (fuel : nat) (n : Z) (acc : string) :
  exists c rest, format_unsigned fuel n acc = String c rest.
Proof.
  revert n acc. induction fuel as [|fuel IH]; intros n acc; simpl.
  - eexists. eexists. reflexivity.
  - destruct (n <? 10)%Z; [eexists; eexists; reflexivity|apply IH].
Qed.

Lemma format_unsigned_value (fuel : nat) (n : Z) (acc : string) :
  (0 <= n < 10 ^ (Z.of_nat fuel + 1))%Z ->
  digits_value (format_unsigned fuel n acc) 0 = digits_value acc n.
Proof.
  revert n acc. induction fuel as [|fuel IH]; intros n acc H.
  - change (10 ^ (Z.of_nat 0 + 1))%Z with 10%Z in H.
    simpl. rewrite Z.mod_small by lia.
    rewrite (digit_value_char n) by lia. f_equal.
  - simpl format_unsigned. destruct (n <? 10)%Z eqn:E.
    + apply Z.ltb_lt in E. simpl. rewrite Z.mod_small by lia.
      rewrite (digit_value_char n) by lia. f_equal.
    + apply Z.ltb_ge in E. rewrite IH.
      * simpl. rewrite (digit_value_char _ (mod10_digit n)). f_equal.
        rewrite (Z.div_mod n 10) at 3 by lia. reflexivity.
      * split; [apply Z.div_pos; lia|].
        apply Z.div_lt_upper_bound; [lia|].
        replace (Z.of_nat (S fuel) + 1)%Z with (Z.succ (Z.of_nat fuel + 1)) in H by lia.
        rewrite Z.pow_succ_r in H by lia. lia.
Qed.

Lemma format_unsigned_length (fuel : nat) (k : nat) (n : Z) (acc : string) :
  (k <= fuel)%nat -> (0 <= n < 10 ^ (Z.of_nat k + 1))%Z ->
  (length (format_unsigned fuel n acc) <= k + 1 + length acc)%nat.
Proof.
  revert k n acc. induction fuel as [|fuel IH]; intros k n acc Hk H.
  - simpl. lia.
  - simpl format_unsigned. destruct (n <? 10)%Z eqn:E; [simpl; lia|].
    apply Z.ltb_ge in E. destruct k as [|k].
    + change (10 ^ (Z.of_nat 0 + 1))%Z with 10%Z in H. lia.
    + eapply Nat.le_trans.
      * apply (IH k); [lia|].
        split; [apply Z.div_pos; lia|].
        apply Z.div_lt_upper_bound; [lia|].
        replace (Z.of_nat (S k) + 1)%Z with (Z.succ (Z.of_nat k + 1)) in H by lia.
        rewrite Z.pow_succ_r in H by lia. lia.
      * simpl. lia.
Qed.

Lemma is_digit_plain (c : ascii) :
  is_digit c = true ->
  isspace c = false /\ line_char c = true /\ not_colon c = true /\
  Ascii.eqb DQUOTE c = false.
Proof.
  destruct c as [[] [] [] [] [] [] [] []]; intros H; try discriminate H;
    repeat split; reflexivity.
Qed.

Lemma atoi_unsigned (c : ascii) (s : string) :
  is_digit c = true ->
  atoi (String c s) =
  (let v := digits_value (String c s) 0 in
   if ((INT_MIN <=? v) && (v <=? INT_MAX))%Z then Some v else None).
Proof.
  destruct c as [[] [] [] [] [] [] [] []]; intros H; try discriminate H; reflexivity.
Qed.

Lemma atoi_negative (c : ascii) (s : string) :
  is_digit c = true ->
  atoi (String "-"%char (String c s)) =
  (let v := (- digits_value (String c s) 0)%Z in
   if ((INT_MIN <=? v) && (v <=? INT_MAX))%Z then Some v else None).
Proof. intros H. reflexivity. Qed.

Lemma int_below_pow (n : Z) :
  (INT_MIN <= n <= INT_MAX)%Z -> (Z.abs n < 10 ^ (Z.of_nat 9 + 1))%Z.
Proof.
  unfold INT_MIN, INT_MAX. change (10 ^ (Z.of_nat 9 + 1))%Z with 10000000000%Z.
  change (2 ^ 31)%Z with 2147483648%Z. lia.
Qed.

Lemma pow10_21 : (10 ^ (Z.of_nat 20 + 1) = 1000000000000000000000)%Z.
Proof. reflexivity. Qed.

(** [atoi] reads back what [%d] prints. *)
Lemma atoi_format_d (n : Z) :
  (INT_MIN <= n <= INT_MAX)%Z -> atoi (format_d n) = Some n.
Proof.
  intros H. pose proof (int_below_pow n H) as B.
  change (10 ^ (Z.of_nat 9 + 1))%Z with 10000000000%Z in B.
  unfold format_d. destruct (n <? 0)%Z eqn:E.
  - apply Z.ltb_lt in E.
    destruct (format_unsigned_head 20 (- n) EmptyString) as (c & rest & F).
    pose proof (format_unsigned_chars 20 (- n) EmptyString eq_refl) as D.
    pose proof (format_unsigned_value 20 (- n) EmptyString) as V.
    rewrite F in *. simpl in D. apply andb_prop in D. destruct D as (D & _).
    rewrite (atoi_negative c rest D). cbv zeta. rewrite V by (rewrite pow10_21; lia).
    simpl digits_value. rewrite Z.opp_involutive.
    destruct H as (H1 & H2). apply Z.leb_le in H1, H2. rewrite H1, H2. reflexivity.
  - apply Z.ltb_ge in E.
    destruct (format_unsigned_head 20 n EmptyString) as (c & rest & F).
    pose proof (format_unsigned_chars 20 n EmptyString eq_refl) as D.
    pose proof (format_unsigned_value 20 n EmptyString) as V.
    rewrite F in *. simpl in D. apply andb_prop in D. destruct D as (D & _).
    rewrite (atoi_unsigned c rest D). cbv zeta. rewrite V by (rewrite pow10_21; lia).
    simpl digits_value.
    destruct H as (H1 & H2). apply Z.leb_le in H1, H2. rewrite H1, H2. reflexivity.
Qed.

Lemma format_d_length (n : Z) :
  (INT_MIN <= n <= INT_MAX)%Z -> (length (format_d n) <= 11)%nat.
Proof.
  intros H. pose proof (int_below_pow n H) as B.
  unfold format_d. destruct (n <? 0)%Z eqn:E.
  - apply Z.ltb_lt in E.
    change (S (length (format_unsigned 20 (- n) EmptyString)) <= 11)%nat.
    assert (L : (length (format_unsigned 20 (- n) EmptyString) <= 9 + 1 + 0)%nat).
    { apply (format_unsigned_length 20 9 (- n) EmptyString); lia. }
    lia.
  - apply Z.ltb_ge in E.
    assert (L : (length (format_unsigned 20 n EmptyString) <= 9 + 1 + 0)%nat).
    { apply (format_unsigned_length 20 9 n EmptyString); lia. }
    lia.
Qed.

Lemma format_d_chars (n : Z) : all_chars number_char (format_d n) = true.
Proof.
  assert (W : forall s, all_chars is_digit s = true -> all_chars number_char s = true).
  { intros s. apply all_chars_weaken. intros c E. unfold number_char. rewrite E. reflexivity. }
  unfold format_d. destruct (n <? 0)%Z.
  - change (number_char "-"%char && all_chars number_char (format_unsigned 20 (- n) EmptyString) = true).
    rewrite W by (apply format_unsigned_chars; reflexivity). reflexivity.
  - apply W. apply format_unsigned_chars. reflexivity.
Qed.

Lemma number_char_plain (c : ascii) :
  number_char c = true ->
  line_char c = true /\ not_colon c = true /\ Ascii.eqb DQUOTE c = false.
Proof.
  destruct c as [[] [] [] [] [] [] [] []]; intros H; try discriminate H;
    repeat split; reflexivity.
Qed.

End Numbers.

(* ================================================================== *)
(** * The serial protocol between the Pico menu and the Raspberry Pi *)
(* ================================================================== *)

Section SerialProtocol.
Context {A : CArith}.
Import Ascii String.
Local Open Scope string_scope.

Lemma with_line_same (s : RpiState) : with_line s (line_buffer s) = s.
Proof. destruct s; reflexivity. Qed.

Lemma serial_char_store (c : ascii) (s : RpiState) :
  line_char c = true -> (length (line_buffer s) < 255)%nat ->
  serial_char c s = Some (with_line s (line_buffer s ++ String c EmptyString)).
Proof.
  intros L B. unfold serial_char.
  unfold line_char in L. apply andb_prop in L. destruct L as (L & _).
  apply andb_prop in L. destruct L as (L1 & L2).
  apply negb_true_iff in L1, L2. rewrite L1, L2. simpl orb. cbv iota.
  assert (E : (length (line_buffer s) <? BUFFER_SIZE - 1)%nat = true).
  { apply Nat.ltb_lt. unfold BUFFER_SIZE. simpl. exact B. }
  rewrite E. reflexivity.
Qed.

(** Characters that end no line are stored one after the other. *)
Lemma serial_loop_store (w : string) (budget : nat) (rest : string) (s : RpiState) :
  all_chars line_char w = true ->
  (length (line_buffer s) + length w <= 255)%nat ->
  (length w <= budget)%nat ->
  serial_loop budget (w ++ rest) s =
  serial_loop (budget - length w) rest (with_line s (line_buffer s ++ w)).
Proof.
  revert budget s. induction w as [|c w IH]; intros budget s L B K.
  - simpl. rewrite Nat.sub_0_r, append_nil_r, with_line_same. reflexivity.
  - simpl in L. apply andb_prop in L. destruct L as (Lc & L).
    simpl in B, K. destruct budget as [|budget]; [lia|].
    change (serial_loop (S budget) (String c w ++ rest) s)
      with (match serial_char c s with
            | None => None
            | Some s => serial_loop budget (w ++ rest) s
            end).
    rewrite (serial_char_store c s Lc) by lia.
    rewrite IH; try assumption.
    + simpl. rewrite append_assoc. reflexivity.
    + simpl. rewrite length_append. simpl. lia.
    + lia.
Qed.

(** The end of a line hands the stored characters to the two parsers. *)
Lemma serial_char_line (s : RpiState) :
  (0 < length (line_buffer s))%nat ->
  serial_char LF s =
  match parse_cmd_message (c_str (line_buffer s)) s with
  | None => None
  | Some s' =>
      Some {| line_buffer := EmptyString;
              running :=
                if match parse_button_press (c_str (line_buffer s)) with
                   | Some button => strcmp_eq button "key4"
                   | None => false
                   end
                then false else running s';
              pitch_offset := pitch_offset s'; roll_offset := roll_offset s' |}
  end.
Proof.
  intros H. unfold serial_char.
  change (Ascii.eqb LF LF || Ascii.eqb LF CR) with true. cbv iota.
  apply Nat.ltb_lt in H. rewrite H. reflexivity.
Qed.

(** A whole line of at most 31 characters, sent to a state with an empty
    line buffer, is parsed in one call. *)
Lemma process_line (w : string) (s : RpiState) :
  all_chars line_char w = true -> (0 < length w <= 31)%nat ->
  line_buffer s = EmptyString ->
  process_serial_input (w ++ String LF EmptyString) s =
  match parse_cmd_message w (with_line s w) with
  | None => None
  | Some s' =>
      Some ({| line_buffer := EmptyString;
               running :=
                 if match parse_button_press w with
                    | Some button => strcmp_eq button "key4"
                    | None => false
                    end
                 then false else running s';
               pitch_offset := pitch_offset s'; roll_offset := roll_offset s' |},
            EmptyString)
  end.
Proof.
  intros L (K0 & K) B. unfold process_serial_input, MAX_CHARS_PER_CALL.
  rewrite serial_loop_store; try assumption; [|rewrite B; simpl; lia|lia].
  rewrite B. change (EmptyString ++ w) with w.
  destruct (32 - length w)%nat as [|budget] eqn:E; [lia|].
  change (serial_loop (S budget) (String LF EmptyString) (with_line s w))
    with (match serial_char LF (with_line s w) with
          | None => None
          | Some s => serial_loop budget EmptyString s
          end).
  rewrite serial_char_line by (simpl; lia).
  simpl line_buffer. rewrite (c_str_line w L).
  destruct (parse_cmd_message w (with_line s w)) as [s'|]; [|reflexivity].
  destruct budget; reflexivity.
Qed.

(** The limit of a call only cuts the reading into pieces. *)
Lemma serial_loop_add (a b : nat) (pending : string) (s : RpiState) :
  serial_loop (a + b) pending s =
  match serial_loop a pending s with
  | None => None
  | Some (s', rest) => serial_loop b rest s'
  end.
Proof.
  revert pending s. induction a as [|a IH]; intros pending s.
  - reflexivity.
  - destruct pending as [|c pending].
    + simpl. destruct b; reflexivity.
    + simpl. destruct (serial_char c s) as [s1|]; [apply IH|reflexivity].
Qed.

Lemma serial_calls_loop (n : nat) (pending : string) (s : RpiState) :
  serial_calls n pending s = serial_loop (32 * n) pending s.
Proof.
  revert pending s. induction n as [|n IH]; intros pending s.
  - reflexivity.
  - replace (32 * S n)%nat with (32 + 32 * n)%nat by lia.
    rewrite serial_loop_add.
    change (serial_calls (S n) pending s)
      with (match process_serial_input pending s with
            | None => None
            | Some (s', rest) => serial_calls n rest s'
            end).
    unfold process_serial_input, MAX_CHARS_PER_CALL.
    destruct (serial_loop 32 pending s) as [[s' rest]|]; [apply IH|reflexivity].
Qed.

Lemma serial_loop_done (budget : nat) (s : RpiState) :
  serial_loop budget EmptyString s = Some (s, EmptyString).
Proof. destruct budget; reflexivity. Qed.

(** A whole line of at most 255 characters, read from an idle line
    buffer, is handed to the two parsers. *)
Lemma serial_loop_line (w : string) (budget : nat) (rest : string) (s : RpiState) :
  all_chars line_char w = true -> (0 < length w <= 255)%nat ->
  line_buffer s = EmptyString -> (length w < budget)%nat ->
  serial_loop budget ((w ++ String LF EmptyString) ++ rest) s =
  match parse_cmd_message w (with_line s w) with
  | None => None
  | Some s' =>
      serial_loop (budget - S (length w)) rest
        {| line_buffer := EmptyString;
           running :=
             if match parse_button_press w with
                | Some button => strcmp_eq button "key4"
                | None => false
                end
             then false else running s';
           pitch_offset := pitch_offset s'; roll_offset := roll_offset s' |}
  end.
Proof.
  intros L (K0 & K) B G. rewrite append_assoc.
  rewrite serial_loop_store; try assumption; [|rewrite B; simpl; lia|lia].
  rewrite B. change (EmptyString ++ w) with w.
  destruct (budget - length w)%nat as [|k] eqn:E; [lia|].
  change (serial_loop (S k) (String LF EmptyString ++ rest) (with_line s w))
    with (match serial_char LF (with_line s w) with
          | None => None
          | Some s => serial_loop k rest s
          end).
  rewrite serial_char_line by (simpl; lia).
  simpl line_buffer. rewrite (c_str_line w L).
  destruct (parse_cmd_message w (with_line s w)) as [s'|]; [|reflexivity].
  replace (budget - S (length w))%nat with k by lia. reflexivity.
Qed.

Lemma feeds_nil (s : RpiState) : feeds EmptyString s s.
Proof.
  intros B. split; [exact B|]. intros budget rest _.
  simpl. rewrite Nat.sub_0_r. reflexivity.
Qed.

Lemma feeds_app (a b : string) (s s' s'' : RpiState) :
  feeds a s s' -> feeds b s' s'' -> feeds (a ++ b) s s''.
Proof.
  intros Fa Fb B. destruct (Fa B) as (B' & Ha). destruct (Fb B') as (B'' & Hb).
  split; [exact B''|]. intros budget rest K. rewrite length_append in K.
  rewrite append_assoc, Ha by lia. rewrite Hb by lia.
  rewrite length_append. f_equal. lia.
Qed.

Lemma feeds_final (text : string) (s s1 s2 : RpiState) :
  feeds text s s1 -> (line_buffer s = EmptyString -> s1 = s2) -> feeds text s s2.
Proof. intros F E B. rewrite <- (E B). exact (F B). Qed.

(** What is fed is read by any number of calls that cover the text. *)
Lemma feeds_calls (text : string) (s s' : RpiState) (n : nat) :
  feeds text s s' -> line_buffer s = EmptyString -> (length text <= 32 * n)%nat ->
  serial_calls n text s = Some (s', EmptyString).
Proof.
  intros F B K. destruct (F B) as (_ & H).
  rewrite serial_calls_loop. rewrite <- (append_nil_r text) at 1.
  rewrite H by exact K. apply serial_loop_done.
Qed.

(** A line that is neither a command nor a button message changes
    nothing. *)
Lemma feeds_idle_line (w : string) (s : RpiState) :
  all_chars line_char w = true -> (0 < length w <= 255)%nat ->
  strncmp_eq w "CMD:" 4 = false -> strncmp_eq w "BTN:" 4 = false ->
  feeds (w ++ String LF EmptyString) s s.
Proof.
  intros L K C T B. split; [exact B|]. intros budget rest G.
  rewrite length_append in G. simpl length in G.
  rewrite serial_loop_line; try assumption; [|lia].
  unfold parse_cmd_message, parse_button_press. rewrite C, T. simpl negb. cbv iota.
  rewrite length_append. simpl length.
  replace (budget - (length w + 1))%nat with (budget - S (length w))%nat by lia.
  f_equal. destruct s as [lb rn po ro]. simpl in B. subst lb. reflexivity.
Qed.

End SerialProtocol.

Section ButtonMessages.
Context {A : CArith}.
Import Ascii String.
Local Open Scope string_scope.

Lemma strstr_cons (c : ascii) (h needle : string) :
  strstr (String c h) needle =
  if starts_with needle (String c h) then Some (String c h) else strstr h needle.
Proof. reflexivity. Qed.

Lemma append_split (a b c d : string) :
  a ++ b = c ++ d -> (length a <= length c)%nat -> exists x, c = a ++ x /\ b = x ++ d.
Proof.
  revert c. induction a as [|y a IH]; intros c H L.
  - exists c. split; [reflexivity|exact H].
  - destruct c as [|z c]; [simpl in L; lia|].
    simpl in H. injection H as -> H. simpl in L.
    destruct (IH c H) as (x & -> & ->); [lia|].
    exists x. split; reflexivity.
Qed.

(** A needle without colon is compared with a colon-free name followed
    by a colon as with the name alone. *)
Lemma starts_with_before_colon (needle name tail : string) :
  all_chars not_colon needle = true ->
  starts_with needle (name ++ String ":"%char tail) = starts_with needle name.
Proof.
  revert name. induction needle as [|a needle IH]; intros name H; [reflexivity|].
  simpl in H. apply andb_prop in H. destruct H as (Ha & H).
  destruct name as [|b name].
  - simpl. unfold not_colon in Ha. apply negb_true_iff in Ha. rewrite Ha. reflexivity.
  - simpl. rewrite (IH name H). reflexivity.
Qed.

Lemma not_colon_first (s : string) :
  all_chars not_colon s = true ->
  all_chars (fun c => negb (Ascii.eqb ":"%char c)) s = true.
Proof.
  apply all_chars_weaken. intros c. unfold not_colon.
  rewrite (Ascii.eqb_sym c). exact (fun H => H).
Qed.

(** X10: what [parse_button_press] accepts.  A returned name is the text
    between the prefix BTN: and the first :PRESSED of the message, and
    has 1 to 31 characters; a name of that length without colon is
    returned, whatever follows :PRESSED, unless it starts with PRESSED;
    the button name PRESSED itself and every RELEASED message give
    NULL. *)
Theorem parse_button_press_accepts :
  (forall message name,
     parse_button_press message = Some name ->
     (exists rest, message = "BTN:" ++ name ++ ":PRESSED" ++ rest) /\
     (0 < length name < 32)%nat) /\
  (forall name rest,
     all_chars not_colon name = true -> (0 < length name < 32)%nat ->
     starts_with "PRESSED" name = false ->
     parse_button_press ("BTN:" ++ name ++ ":PRESSED" ++ rest) = Some name) /\
  (forall rest, parse_button_press ("BTN:PRESSED:PRESSED" ++ rest) = None) /\
  (forall name,
     all_chars not_colon name = true ->
     parse_button_press ("BTN:" ++ name ++ ":RELEASED") = None).
Proof.
  split; [|split; [|split]].
  - intros message name. unfold parse_button_press.
    destruct (strncmp_eq message "BTN:" 4) eqn:E4; [|discriminate].
    apply (strncmp_eq_split message "BTN:") in E4.
    change (length "BTN:") with 4%nat in E4.
    set (m4 := advance message 4) in *. simpl negb. cbv iota.
    destruct (strstr message ":PRESSED") as [e|] eqn:S; [|discriminate].
    destruct (strstr_found _ _ _ S) as (pre & Hm & St).
    unfold ptr_diff.
    destruct (_ || _) eqn:R; [discriminate|].
    apply orb_false_elim in R. destruct R as (R1 & R2).
    apply Z.leb_gt in R1. rewrite Z.geb_leb in R2. apply Z.leb_gt in R2.
    intros H. injection H as <-.
    assert (Lm : (length message = 4 + length m4)%nat).
    { rewrite E4 at 1. rewrite length_append. reflexivity. }
    assert (Lp : (length message = length pre + length e)%nat).
    { rewrite Hm at 1. apply length_append. }
    destruct (append_split "BTN:" m4 pre e) as (x & Hpre & Hm4).
    { rewrite <- E4. exact Hm. }
    { simpl. lia. }
    assert (Lx : (length m4 = length x + length e)%nat).
    { rewrite Hm4 at 1. apply length_append. }
    replace (Z.to_nat (Z.of_nat (length m4) - Z.of_nat (length e))) with (length x) by lia.
    assert (Sx : substring 0 (length x) m4 = x) by (rewrite Hm4; apply substring_prefix).
    rewrite !Sx.
    split; [|lia].
    exists (advance e (length ":PRESSED")).
    rewrite <- (starts_with_split ":PRESSED" e St).
    rewrite E4 at 1. rewrite Hm4. reflexivity.
  - intros name rest Hc Hl Hp. unfold parse_button_press.
    rewrite (strncmp_eq_append "BTN:"). simpl negb. cbv iota.
    change (advance ("BTN:" ++ (name ++ ":PRESSED" ++ rest)) 4)
      with (name ++ ":PRESSED" ++ rest).
    assert (S : strstr ("BTN:" ++ (name ++ ":PRESSED" ++ rest)) ":PRESSED"
                = Some (":PRESSED" ++ rest)).
    { change ("BTN:" ++ (name ++ ":PRESSED" ++ rest))
        with (String "B" (String "T" (String "N" (String ":" (name ++ ":PRESSED" ++ rest))))).
      rewrite !strstr_cons.
      change (starts_with ":PRESSED" (String "B" _)) with false.
      change (starts_with ":PRESSED" (String "T" _)) with false.
      change (starts_with ":PRESSED" (String "N" _)) with false.
      cbv iota.
      change (starts_with ":PRESSED" (String ":" (name ++ ":PRESSED" ++ rest)))
        with (starts_with "PRESSED" (name ++ String ":"%char ("PRESSED" ++ rest))).
      rewrite starts_with_before_colon by reflexivity.
      rewrite Hp.
      rewrite (strstr_skip ":PRESSED" name (":PRESSED" ++ rest))
        by (apply no_match_first, not_colon_first, Hc).
      apply strstr_here. apply starts_with_append. }
    rewrite S. unfold ptr_diff. rewrite length_append.
    replace (Z.of_nat (length name + length (":PRESSED" ++ rest)) -
             Z.of_nat (length (":PRESSED" ++ rest)))%Z with (Z.of_nat (length name)) by lia.
    assert (R : ((Z.of_nat (length name) <=? 0) || (Z.of_nat (length name) >=? 32))%Z = false).
    { apply orb_false_intro; [apply Z.leb_gt; lia|].
      rewrite Z.geb_leb. apply Z.leb_gt. lia. }
    rewrite R, Nat2Z.id, substring_prefix. reflexivity.
  - intros rest. unfold parse_button_press.
    change (strncmp_eq ("BTN:PRESSED:PRESSED" ++ rest) "BTN:" 4) with true.
    simpl negb. cbv iota.
    change ("BTN:PRESSED:PRESSED" ++ rest)
      with (String "B" (String "T" (String "N" (":PRESSED" ++ (":PRESSED" ++ rest))))).
    rewrite !strstr_cons.
    change (starts_with ":PRESSED" (String "B" _)) with false.
    change (starts_with ":PRESSED" (String "T" _)) with false.
    change (starts_with ":PRESSED" (String "N" _)) with false.
    cbv iota. rewrite (strstr_here ":PRESSED") by apply starts_with_append.
    change (advance (String "B" (String "T" (String "N" (":PRESSED" ++ (":PRESSED" ++ rest))))) 4)
      with ("PRESSED" ++ (":PRESSED" ++ rest)).
    unfold ptr_diff. rewrite !length_append. simpl length.
    destruct (_ || _) eqn:R; [reflexivity|].
    apply orb_false_elim in R. destruct R as (R1 & _). apply Z.leb_gt in R1. lia.
  - intros name Hc. unfold parse_button_press.
    rewrite (strncmp_eq_append "BTN:"). simpl negb. cbv iota.
    change (advance ("BTN:" ++ (name ++ ":RELEASED")) 4) with (name ++ ":RELEASED").
    change ("BTN:" ++ (name ++ ":RELEASED"))
      with (String "B" (String "T" (String "N" (String ":" (name ++ ":RELEASED"))))).
    rewrite !strstr_cons.
    change (starts_with ":PRESSED" (String "B" _)) with false.
    change (starts_with ":PRESSED" (String "T" _)) with false.
    change (starts_with ":PRESSED" (String "N" _)) with false.
    cbv iota.
    destruct (starts_with ":PRESSED" (String ":" (name ++ ":RELEASED"))) eqn:S3.
    + unfold ptr_diff. simpl length.
      destruct (_ || _) eqn:R; [reflexivity|].
      apply orb_false_elim in R. destruct R as (R1 & _). apply Z.leb_gt in R1. lia.
    + rewrite (strstr_skip ":PRESSED" name ":RELEASED")
        by (apply no_match_first, not_colon_first, Hc).
      reflexivity.
Qed.

(** The button name used for leaving the application. *)
Lemma parse_button_press_witness :
  all_chars not_colon "key4" = true /\ (0 < length "key4" < 32)%nat /\
  starts_with "PRESSED" "key4" = false /\
  parse_button_press ("BTN:" ++ "key4" ++ ":PRESSED" ++ EmptyString) = Some "key4".
Proof.
  split; [reflexivity|]. split; [simpl; lia|]. split; [reflexivity|].
  apply (proj1 (proj2 parse_button_press_accepts)); [reflexivity|simpl; lia|reflexivity].
Defined.

End ButtonMessages.

Section PicoToRpi.
Context {A : CArith}.
Import Ascii String.
Local Open Scope string_scope.

Lemma to_uint8_int (n : Z) : (INT_MIN <= to_uint8 n <= INT_MAX)%Z.
Proof.
  unfold to_uint8, INT_MIN, INT_MAX. change (2 ^ 31)%Z with 2147483648%Z.
  pose proof (Z.mod_pos_bound n 256). lia.
Qed.

Lemma format_d_line (n : Z) : all_chars line_char (format_d n) = true.
Proof.
  apply (all_chars_weaken number_char); [|apply format_d_chars].
  intros c H. apply (number_char_plain c H).
Qed.

Lemma button_line_unparsed (b : Z) :
  parse_button_press ("BTN:" ++ format_d (to_uint8 b) ++ "," ++ "PRESS") = None /\
  parse_button_press ("BTN:" ++ format_d (to_uint8 b) ++ "," ++ "RELEASE") = None.
Proof.
  assert (R : (0 <= to_uint8 b < Z.of_nat 256)%Z).
  { unfold to_uint8. pose proof (Z.mod_pos_bound b 256). lia. }
  pose proof (below_spec 256
    (fun b => match parse_button_press ("BTN:" ++ format_d b ++ "," ++ "PRESS") with
              | None => true | Some _ => false end) ltac:(vm_compute; reflexivity)
    (to_uint8 b) R) as P.
  pose proof (below_spec 256
    (fun b => match parse_button_press ("BTN:" ++ format_d b ++ "," ++ "RELEASE") with
              | None => true | Some _ => false end) ltac:(vm_compute; reflexivity)
    (to_uint8 b) R) as Q.
  cbv beta in P, Q.
  destruct (parse_button_press ("BTN:" ++ format_d (to_uint8 b) ++ "," ++ "PRESS"));
    [discriminate|].
  destruct (parse_button_press ("BTN:" ++ format_d (to_uint8 b) ++ "," ++ "RELEASE"));
    [discriminate|].
  split; reflexivity.
Qed.

(** X11: the button messages of the Pico menu ([BTN:<number>,PRESS] and
    [BTN:<number>,RELEASE], sent by [send_button_command]) are never
    taken as a button press by the Raspberry Pi application:
    [parse_button_press] returns NULL on them and [process_serial_input]
    leaves the state as it was, so no button of the menu ends the
    application. *)
Theorem pico_button_lines_ignored (button_id : Z) (s : RpiState) :
  line_buffer s = EmptyString ->
  forall action, action = "PRESS" \/ action = "RELEASE" ->
    parse_button_press ("BTN:" ++ format_d (to_uint8 button_id) ++ "," ++ action) = None /\
    process_serial_input (send_button_command button_id action) s = Some (s, EmptyString).
Proof.
  intros B action Ha.
  destruct (button_line_unparsed button_id) as (P & R).
  assert (N : parse_button_press ("BTN:" ++ format_d (to_uint8 button_id) ++ "," ++ action)
              = None) by (destruct Ha; subst action; assumption).
  split; [exact N|].
  unfold send_button_command.
  set (w := "BTN:" ++ format_d (to_uint8 button_id) ++ "," ++ action) in *.
  replace ("BTN:" ++ format_d (to_uint8 button_id) ++ "," ++ action ++ String LF EmptyString)
    with (w ++ String LF EmptyString)
    by (unfold w; rewrite !append_assoc; reflexivity).
  assert (La : all_chars line_char action = true /\ (length action <= 7)%nat).
  { destruct Ha; subst action; split; try reflexivity; simpl; lia. }
  destruct La as (La & Ka).
  rewrite process_line; try assumption.
  - rewrite N. unfold w at 1.
    change (parse_cmd_message ("BTN:" ++ _) (with_line s w)) with (Some (with_line s w)).
    cbv iota. simpl running. simpl pitch_offset. simpl roll_offset.
    rewrite <- B. destruct s; reflexivity.
  - unfold w. rewrite !all_chars_append, format_d_line, La. reflexivity.
  - unfold w. rewrite !length_append.
    pose proof (format_d_length (to_uint8 button_id) (to_uint8_int button_id)).
    simpl length. lia.
Qed.

Lemma offset_line (prefix : string) (n : Z) :
  (length prefix <= 13)%nat -> all_chars line_char prefix = true ->
  (INT_MIN <= n <= INT_MAX)%Z ->
  snprintf 32 (prefix ++ format_d n) = prefix ++ format_d n /\
  all_chars line_char ("CMD:" ++ prefix ++ format_d n) = true /\
  (0 < length ("CMD:" ++ prefix ++ format_d n) <= 31)%nat.
Proof.
  intros Lp Cp R. pose proof (format_d_length n R) as Ln.
  split; [|split].
  - unfold snprintf. apply substring_short. rewrite length_append. simpl. lia.
  - change ("CMD:" ++ prefix ++ format_d n) with ("CMD:" ++ (prefix ++ format_d n)).
    rewrite !all_chars_append, Cp, format_d_line. reflexivity.
  - change ("CMD:" ++ prefix ++ format_d n) with ("CMD:" ++ (prefix ++ format_d n)).
    rewrite !length_append. simpl length. lia.
Qed.

Lemma format_unsigned_line (n : Z) :
  all_chars line_char (format_unsigned 20 n EmptyString) = true.
Proof.
  apply (all_chars_weaken is_digit); [|apply format_unsigned_chars; reflexivity].
  intros c H. apply (is_digit_plain c H).
Qed.

Lemma format_plus_d_line (n : Z) : all_chars line_char (format_plus_d n) = true.
Proof.
  unfold format_plus_d. destruct (n <? 0)%Z; [apply format_d_line|].
  change (line_char "+"%char && all_chars line_char (format_d n) = true).
  rewrite format_d_line. reflexivity.
Qed.

Lemma format_plus_d_length (n : Z) :
  (INT_MIN <= n <= INT_MAX)%Z -> (length (format_plus_d n) <= 12)%nat.
Proof.
  intros H. pose proof (format_d_length n H) as L.
  unfold format_plus_d. destruct (n <? 0)%Z; [lia|]. simpl length. lia.
Qed.

Lemma format_u_length (n : Z) :
  (0 <= n < 2 ^ 32)%Z -> (length (format_u n) <= 10)%nat.
Proof.
  intros H. unfold format_u.
  assert (L : (length (format_unsigned 20 n EmptyString) <= 9 + 1 + 0)%nat).
  { apply (format_unsigned_length 20 9 n EmptyString); [lia|].
    change (10 ^ (Z.of_nat 9 + 1))%Z with 10000000000%Z.
    change (2 ^ 32)%Z with 4294967296%Z in H. lia. }
  lia.
Qed.

(** The command line of an offset sets that offset. *)
Lemma feeds_pitch_command (n : Z) (s : RpiState) :
  (INT_MIN <= n <= INT_MAX)%Z ->
  feeds (send_high_level_command (snprintf 32 ("OFFSET:PITCH:" ++ format_d n))) s
    {| line_buffer := EmptyString; running := running s;
       pitch_offset := of_int n; roll_offset := roll_offset s |}.
Proof.
  intros R B. split; [reflexivity|]. intros budget rest G.
  destruct (offset_line "OFFSET:PITCH:" n) as (Sn & Lc & Ll);
    [simpl; lia|reflexivity|exact R|].
  rewrite Sn in G |- *. unfold send_high_level_command in G |- *.
  assert (E : "CMD:" ++ ("OFFSET:PITCH:" ++ format_d n) ++ String LF EmptyString
              = ("CMD:" ++ "OFFSET:PITCH:" ++ format_d n) ++ String LF EmptyString)
    by (rewrite !append_assoc; reflexivity).
  rewrite E in G |- *. clear E.
  rewrite length_append in G |- *.
  change (length (String LF EmptyString)) with 1%nat in G |- *.
  rewrite serial_loop_line; [|exact Lc|lia|exact B|lia].
  change (parse_button_press ("CMD:" ++ "OFFSET:PITCH:" ++ format_d n)) with (@None string).
  unfold parse_cmd_message.
  change (strncmp_eq ("CMD:" ++ "OFFSET:PITCH:" ++ format_d n) "CMD:" 4) with true.
  simpl negb. cbv iota.
  change (advance ("CMD:" ++ "OFFSET:PITCH:" ++ format_d n) 4)
    with ("OFFSET:PITCH:" ++ format_d n).
  change (strncmp_eq ("OFFSET:PITCH:" ++ format_d n) "OFFSET:PITCH:" 13) with true.
  cbv iota.
  change (advance ("OFFSET:PITCH:" ++ format_d n) 13) with (format_d n).
  rewrite (atoi_format_d n R).
  replace (length ("CMD:" ++ "OFFSET:PITCH:" ++ format_d n) + 1)%nat
    with (S (length ("CMD:" ++ "OFFSET:PITCH:" ++ format_d n))) by lia.
  reflexivity.
Qed.

Lemma feeds_roll_command (n : Z) (s : RpiState) :
  (INT_MIN <= n <= INT_MAX)%Z ->
  feeds (send_high_level_command (snprintf 32 ("OFFSET:ROLL:" ++ format_d n))) s
    {| line_buffer := EmptyString; running := running s;
       pitch_offset := pitch_offset s; roll_offset := of_int n |}.
Proof.
  intros R B. split; [reflexivity|]. intros budget rest G.
  destruct (offset_line "OFFSET:ROLL:" n) as (Sn & Lc & Ll);
    [simpl; lia|reflexivity|exact R|].
  rewrite Sn in G |- *. unfold send_high_level_command in G |- *.
  assert (E : "CMD:" ++ ("OFFSET:ROLL:" ++ format_d n) ++ String LF EmptyString
              = ("CMD:" ++ "OFFSET:ROLL:" ++ format_d n) ++ String LF EmptyString)
    by (rewrite !append_assoc; reflexivity).
  rewrite E in G |- *. clear E.
  rewrite length_append in G |- *.
  change (length (String LF EmptyString)) with 1%nat in G |- *.
  rewrite serial_loop_line; [|exact Lc|lia|exact B|lia].
  change (parse_button_press ("CMD:" ++ "OFFSET:ROLL:" ++ format_d n)) with (@None string).
  unfold parse_cmd_message.
  change (strncmp_eq ("CMD:" ++ "OFFSET:ROLL:" ++ format_d n) "CMD:" 4) with true.
  simpl negb. cbv iota.
  change (advance ("CMD:" ++ "OFFSET:ROLL:" ++ format_d n) 4)
    with ("OFFSET:ROLL:" ++ format_d n).
  change (strncmp_eq ("OFFSET:ROLL:" ++ format_d n) "OFFSET:PITCH:" 13) with false.
  change (strncmp_eq ("OFFSET:ROLL:" ++ format_d n) "OFFSET:ROLL:" 12) with true.
  cbv iota.
  change (advance ("OFFSET:ROLL:" ++ format_d n) 12) with (format_d n).
  rewrite (atoi_format_d n R).
  replace (length ("CMD:" ++ "OFFSET:ROLL:" ++ format_d n) + 1)%nat
    with (S (length ("CMD:" ++ "OFFSET:ROLL:" ++ format_d n))) by lia.
  reflexivity.
Qed.

(** The line for the terminal that follows a command line is no
    command. *)
Lemma feeds_offset_note (label : string) (n : Z) (s : RpiState) :
  label = "Pitch offset: " \/ label = "Roll offset: " ->
  (INT_MIN <= n <= INT_MAX)%Z ->
  feeds (label ++ format_plus_d n ++ String LF EmptyString) s s.
Proof.
  intros E R.
  replace (label ++ format_plus_d n ++ String LF EmptyString)
    with ((label ++ format_plus_d n) ++ String LF EmptyString)
    by (rewrite append_assoc; reflexivity).
  pose proof (format_plus_d_length n R) as K.
  apply feeds_idle_line.
  - rewrite all_chars_append, format_plus_d_line.
    destruct E; subst label; reflexivity.
  - rewrite length_append. destruct E; subst label; simpl length; lia.
  - destruct E; subst label; reflexivity.
  - destruct E; subst label; reflexivity.
Qed.

Lemma feeds_exit_lines (s : RpiState) :
  feeds ("Returning to menu (KEY2 pressed)" ++ String LF EmptyString
         ++ send_high_level_command "OFFSET_EXIT") s s.
Proof.
  change ("Returning to menu (KEY2 pressed)" ++ String LF EmptyString
          ++ send_high_level_command "OFFSET_EXIT")
    with (("Returning to menu (KEY2 pressed)" ++ String LF EmptyString)
          ++ ("CMD:OFFSET_EXIT" ++ String LF EmptyString)).
  apply feeds_app with (s' := s).
  - apply feeds_idle_line; try reflexivity. simpl. lia.
  - intros B. split; [exact B|]. intros budget rest G. simpl length in G.
    rewrite serial_loop_line; [|reflexivity|simpl; lia|exact B|simpl; lia].
    change (parse_cmd_message "CMD:OFFSET_EXIT" (with_line s "CMD:OFFSET_EXIT"))
      with (Some (with_line s "CMD:OFFSET_EXIT")).
    change (parse_button_press "CMD:OFFSET_EXIT") with (@None string).
    cbv iota. simpl length. f_equal.
    destruct s as [lb rn po ro]. simpl in B. subst lb. reflexivity.
Qed.

(** The line of [input_read] is no command either. *)
Lemma feeds_debug_line (lo hi : Z) (pins : InputHandler.Pins) (s : RpiState) :
  feeds (debug_line lo hi pins) s s.
Proof.
  unfold debug_line.
  set (x := format_u (to_uint16 (InputHandler.adc_x pins))).
  set (y := format_u (to_uint16 (InputHandler.adc_y pins))).
  set (a := format_u (to_uint32 lo)).
  set (b := format_u (to_uint32 hi)).
  replace ("ADC: X=" ++ x ++ " Y=" ++ y ++ " (center range: " ++ a ++ "-" ++ b ++ ")"
           ++ String LF EmptyString)
    with (("ADC: X=" ++ x ++ " Y=" ++ y ++ " (center range: " ++ a ++ "-" ++ b ++ ")")
          ++ String LF EmptyString)
    by (rewrite !append_assoc; reflexivity).
  assert (Kx : (length x <= 10)%nat).
  { apply format_u_length. unfold to_uint16.
    pose proof (Z.mod_pos_bound (InputHandler.adc_x pins) 65536).
    change (2 ^ 32)%Z with 4294967296%Z. lia. }
  assert (Ky : (length y <= 10)%nat).
  { apply format_u_length. unfold to_uint16.
    pose proof (Z.mod_pos_bound (InputHandler.adc_y pins) 65536).
    change (2 ^ 32)%Z with 4294967296%Z. lia. }
  assert (Ka : (length a <= 10)%nat).
  { apply format_u_length. unfold to_uint32. apply Z.mod_pos_bound. reflexivity. }
  assert (Kb : (length b <= 10)%nat).
  { apply format_u_length. unfold to_uint32. apply Z.mod_pos_bound. reflexivity. }
  apply feeds_idle_line.
  - rewrite !all_chars_append. unfold x, y, a, b, format_u.
    rewrite !format_unsigned_line. reflexivity.
  - rewrite !length_append. simpl length. lia.
  - reflexivity.
  - reflexivity.
Qed.

Ltac feed_lines :=
  lazymatch goal with
  | |- feeds EmptyString _ _ => apply feeds_nil
  | |- feeds (send_high_level_command (snprintf 32 ("OFFSET:PITCH:" ++ _))) _ _ =>
      apply feeds_pitch_command; lia
  | |- feeds (send_high_level_command (snprintf 32 ("OFFSET:ROLL:" ++ _))) _ _ =>
      apply feeds_roll_command; lia
  | |- feeds ("Pitch offset: " ++ _) _ _ =>
      apply (feeds_offset_note "Pitch offset: "); [left; reflexivity|lia]
  | |- feeds ("Roll offset: " ++ _) _ _ =>
      apply (feeds_offset_note "Roll offset: "); [right; reflexivity|lia]
  | |- feeds ("Returning to menu (KEY2 pressed)" ++ _) _ _ => apply feeds_exit_lines
  | |- feeds (_ ++ _) _ _ => eapply feeds_app; [feed_lines|feed_lines]
  end.

(** The commands of one pass after its read, as the Raspberry Pi reads
    them. *)
Lemma offset_commands_feed (st : OffsetState) (i : OffsetInput) (s : RpiState) :
  (INT_MIN < pico_pitch_offset st < INT_MAX)%Z ->
  (INT_MIN < pico_roll_offset st < INT_MAX)%Z ->
  let pitch := (pico_pitch_offset st + (if offset_up i then 1 else 0)
                - (if offset_down i then 1 else 0))%Z in
  let roll := (pico_roll_offset st - (if offset_left i then 1 else 0)
               + (if offset_right i then 1 else 0))%Z in
  exists r out,
    action_gyro_offset_commands st i = (r, out) /\
    r = (if offset_key2 i then @Exit OffsetState else @Continue OffsetState)
          {| pico_pitch_offset := pitch; pico_roll_offset := roll |} /\
    feeds out s
      {| line_buffer := EmptyString; running := running s;
         pitch_offset := if offset_up i || offset_down i then of_int pitch
                         else pitch_offset s;
         roll_offset := if offset_left i || offset_right i then of_int roll
                        else roll_offset s |}.
Proof.
  intros Rp Rr pitch roll. subst pitch roll. destruct st as [p r].
  cbn [pico_pitch_offset pico_roll_offset] in *.
  destruct i as [u d l g k].
  cbn [offset_up offset_down offset_left offset_right offset_key2].
  destruct u, d, l, g, k;
    cbv beta iota zeta delta [action_gyro_offset_commands offset_up offset_down
      offset_left offset_right offset_key2 pico_pitch_offset pico_roll_offset];
    (eexists; eexists; split; [reflexivity|]; split;
     [f_equal; f_equal; lia|]);
    (eapply feeds_final;
     [feed_lines
     |intros B; destruct s as [lb rn po ro];
      cbn [orb line_buffer running pitch_offset roll_offset] in *; subst lb;
      f_equal; first [reflexivity|f_equal; lia]]).
Qed.

(** X12: the offset commands survive the serial line.  In one pass of
    the loop of [action_gyro_offset] the Pico reads its inputs, changes
    its pitch or roll offset by one for every direction of the joystick
    newly held, and writes for each a CMD:OFFSET line followed by a line
    for the terminal, after the line of [input_read] that comes with
    every 1000th read.  Once the Raspberry Pi has read this text from an
    idle line buffer, in calls of [process_serial_input] of 32 characters
    each, every offset the pass has changed is the number the Pico holds
    (converted to float), and the other offset, the run flag and the idle
    line buffer are as before. *)
Theorem offset_commands_round_trip
    (DEBOUNCE_MS JOYSTICK_CENTER_MIN JOYSTICK_CENTER_MAX debug_counter : Z)
    (input_state : InputHandler.InputState) (st : OffsetState)
    (pins : InputHandler.Pins) (now : Z) (s : RpiState) :
  line_buffer s = EmptyString ->
  (INT_MIN < pico_pitch_offset st < INT_MAX)%Z ->
  (INT_MIN < pico_roll_offset st < INT_MAX)%Z ->
  (0 <= debug_counter < INT_MAX)%Z ->
  let read := InputHandler.input_read DEBOUNCE_MS JOYSTICK_CENTER_MIN JOYSTICK_CENTER_MAX
                input_state pins now in
  let up := InputHandler.input_just_pressed_up read in
  let down := InputHandler.input_just_pressed_down read in
  let left := InputHandler.input_just_pressed_left read in
  let right := InputHandler.input_just_pressed_right read in
  let pitch := (pico_pitch_offset st + (if up then 1 else 0) - (if down then 1 else 0))%Z in
  let roll := (pico_roll_offset st - (if left then 1 else 0) + (if right then 1 else 0))%Z in
  exists out,
    action_gyro_offset_pass DEBOUNCE_MS JOYSTICK_CENTER_MIN JOYSTICK_CENTER_MAX
      debug_counter input_state st pins now =
    Some ((debug_counter + 1)%Z, read,
          (if InputHandler.input_just_pressed_key2 read
           then @Exit OffsetState else @Continue OffsetState)
            {| pico_pitch_offset := pitch; pico_roll_offset := roll |},
          out) /\
    forall n : nat, (length out <= 32 * n)%nat ->
      serial_calls n out s =
      Some ({| line_buffer := EmptyString; running := running s;
               pitch_offset := if up || down then of_int pitch else pitch_offset s;
               roll_offset := if left || right then of_int roll else roll_offset s |},
            EmptyString).
Proof.
  intros B Rp Rr C read up down left right pitch roll.
  unfold action_gyro_offset_pass, InputHandler.input_read_debug.
  assert (N : (debug_counter =? INT_MAX)%Z = false) by (apply Z.eqb_neq; lia).
  rewrite N. fold read.
  destruct (offset_commands_feed st
              {| offset_up := up; offset_down := down; offset_left := left;
                 offset_right := right;
                 offset_key2 := InputHandler.input_just_pressed_key2 read |} s Rp Rr)
    as (r & out & E & Er & F).
  cbn [offset_up offset_down offset_left offset_right offset_key2] in Er, F.
  fold up down left right. rewrite E. subst r.
  eexists. split; [reflexivity|].
  intros n K. apply feeds_calls; [|exact B|exact K].
  apply feeds_app with (s' := s); [|exact F].
  destruct (Z.rem debug_counter 1000 =? 0)%Z; [|apply feeds_nil].
  apply (feeds_debug_line JOYSTICK_CENTER_MIN JOYSTICK_CENTER_MAX pins s).
Qed.

End PicoToRpi.

Section PicoToRpiWitnesses.
Import Ascii String.
Local Open Scope string_scope.

(** Key 4 of the menu pressed, on an idle line (binary32 instance). *)
Lemma pico_button_lines_witness :
  parse_button_press ("BTN:" ++ format_d (to_uint8 4) ++ "," ++ "PRESS") = None /\
  process_serial_input (send_button_command 4 "PRESS")
    (@Build_RpiState machine EmptyString true (B32.of_Z 0) (B32.of_Z 0)) =
  Some (@Build_RpiState machine EmptyString true (B32.of_Z 0) (B32.of_Z 0), EmptyString).
Proof.
  apply (pico_button_lines_ignored (A := machine) 4
           (@Build_RpiState machine EmptyString true (B32.of_Z 0) (B32.of_Z 0)) eq_refl).
  left. reflexivity.
Defined.

(** The first pass of the loop with the joystick up (binary32
    instance): three lines, of which the Raspberry Pi takes the
    second. *)
Lemma offset_commands_witness :
  let pins :=
    {| InputHandler.pin_key1 := true; InputHandler.pin_key2 := true;
       InputHandler.pin_key4 := true; InputHandler.pin_joy_sw := true;
       InputHandler.adc_x := 2048; InputHandler.adc_y := 100 |} in
  exists read out,
    action_gyro_offset_pass 50 1000 3000 0 InputHandler.zero_state
      {| pico_pitch_offset := 0; pico_roll_offset := 0 |} pins 100 =
    Some (1%Z, read, Continue {| pico_pitch_offset := 1; pico_roll_offset := 0 |}, out) /\
    out = "ADC: X=2048 Y=100 (center range: 1000-3000)" ++ String LF EmptyString ++
          "CMD:OFFSET:PITCH:1" ++ String LF EmptyString ++
          "Pitch offset: +1" ++ String LF EmptyString /\
    serial_calls 3 out
      (@Build_RpiState machine EmptyString true (B32.of_Z 0) (B32.of_Z 0)) =
    Some (@Build_RpiState machine EmptyString true (B32.of_Z 1) (B32.of_Z 0), EmptyString).
Proof.
  intros pins.
  destruct (offset_commands_round_trip (A := machine) 50 1000 3000 0
              InputHandler.zero_state
              {| pico_pitch_offset := 0; pico_roll_offset := 0 |} pins 100
              (@Build_RpiState machine EmptyString true (B32.of_Z 0) (B32.of_Z 0)))
    as (out & P & R).
  - reflexivity.
  - split; reflexivity.
  - split; reflexivity.
  - split; [discriminate|reflexivity].
  - exists (InputHandler.input_read 50 1000 3000 InputHandler.zero_state pins 100), out.
    assert (E : out = "ADC: X=2048 Y=100 (center range: 1000-3000)" ++ String LF EmptyString ++
                      "CMD:OFFSET:PITCH:1" ++ String LF EmptyString ++
                      "Pitch offset: +1" ++ String LF EmptyString).
    { vm_compute in P. injection P as <-. reflexivity. }
    split; [exact P|]. split; [exact E|].
    apply R. rewrite E. simpl. lia.
Defined.

End PicoToRpiWitnesses.

Section SerialInput.
Context {A : CArith}.
Import Ascii String.
Local Open Scope string_scope.

Lemma parse_cmd_message_keeps (message : string) (s s' : RpiState) :
  parse_cmd_message message s = Some s' ->
  line_buffer s' = line_buffer s /\ running s' = running s.
Proof.
  unfold parse_cmd_message.
  destruct (negb _); [intros H; injection H as <-; split; reflexivity|].
  destruct (strncmp_eq _ "OFFSET:PITCH:" 13).
  { destruct (atoi _); [|discriminate]. intros H; injection H as <-; split; reflexivity. }
  destruct (strncmp_eq _ "OFFSET:ROLL:" 12).
  { destruct (atoi _); [|discriminate]. intros H; injection H as <-; split; reflexivity. }
  intros H; injection H as <-; split; reflexivity.
Qed.

Lemma serial_char_bounded (c : ascii) (s s' : RpiState) :
  (length (line_buffer s) <= 255)%nat -> serial_char c s = Some s' ->
  (length (line_buffer s') <= 255)%nat /\ (running s = false -> running s' = false).
Proof.
  intros B. unfold serial_char.
  destruct (_ || _).
  - destruct (0 <? _)%nat.
    + destruct (parse_cmd_message _ s) as [s1|] eqn:P; [|discriminate].
      destruct (parse_cmd_message_keeps _ _ _ P) as (_ & R).
      intros H. injection H as <-. simpl. split; [lia|].
      intros F. rewrite R, F. destruct (match _ with Some _ => _ | None => _ end); reflexivity.
    + intros H. injection H as <-. split; [exact B|exact (fun F => F)].
  - destruct (_ <? _)%nat eqn:E.
    + apply Nat.ltb_lt in E. unfold BUFFER_SIZE in E.
      intros H. injection H as <-. simpl. rewrite length_append. simpl.
      split; [lia|exact (fun F => F)].
    + intros H. injection H as <-. simpl. split; [lia|exact (fun F => F)].
Qed.

Lemma serial_loop_bounded (budget : nat) (pending rest : string) (s s' : RpiState) :
  (length (line_buffer s) <= 255)%nat ->
  serial_loop budget pending s = Some (s', rest) ->
  (length (line_buffer s') <= 255)%nat /\
  (running s = false -> running s' = false) /\
  exists taken, pending = taken ++ rest /\ length taken = Nat.min budget (length pending).
Proof.
  revert pending s. induction budget as [|budget IH]; intros pending s B H.
  - destruct pending; simpl in H; injection H as <- <-;
      (split; [exact B|split; [exact (fun F => F)|exists EmptyString; split; reflexivity]]).
  - destruct pending as [|c pending].
    + simpl in H. injection H as <- <-.
      split; [exact B|split; [exact (fun F => F)|exists EmptyString; split; reflexivity]].
    + simpl in H. destruct (serial_char c s) as [s1|] eqn:C; [|discriminate].
      destruct (serial_char_bounded c s s1 B C) as (B1 & R1).
      destruct (IH pending s1 B1 H) as (B' & R' & taken & -> & L).
      split; [exact B'|]. split; [intros F; apply R', R1, F|].
      exists (String c taken). split; [reflexivity|].
      simpl. rewrite length_append in *. lia.
Qed.

(** X13: [process_serial_input] keeps its line buffer inside the 256-byte
    array (at most 255 characters stored, so the terminator fits), takes
    at most 32 characters of what is pending in one call, leaving the
    rest unread, and never sets the run flag again once it is cleared;
    the line BTN:key4:PRESSED on an idle line buffer clears the run
    flag. *)
Theorem serial_input_bounded :
  (forall pending rest (s s' : RpiState),
     (length (line_buffer s) <= 255)%nat ->
     process_serial_input pending s = Some (s', rest) ->
     (length (line_buffer s') <= 255)%nat /\
     (running s = false -> running s' = false) /\
     exists taken, pending = taken ++ rest /\
                   length taken = Nat.min 32 (length pending)) /\
  (forall s : RpiState,
     line_buffer s = EmptyString ->
     process_serial_input ("BTN:key4:PRESSED" ++ String LF EmptyString) s =
     Some ({| line_buffer := EmptyString; running := false;
              pitch_offset := pitch_offset s; roll_offset := roll_offset s |},
           EmptyString)).
Proof.
  split.
  - intros pending rest s s' B H. exact (serial_loop_bounded _ _ _ _ _ B H).
  - intros s B. rewrite process_line; [|reflexivity|simpl; lia|exact B].
    reflexivity.
Qed.

End SerialInput.

Local Close Scope R_scope.
Local Close Scope Z_scope.

(* ================================================================== *)
(** * Telemetry from the Raspberry Pi to the Pico *)
(* ================================================================== *)

Section TelemetryLine.
Context {A : CArith}.
Import Ascii String.
Local Open Scope string_scope.
Variable atof : string -> double.
Variable format_1f : float -> string.

Lemma telemetry_text_split (pitch roll : float) (wifi gps bank_w pitch_w : bool) :
  telemetry_text format_1f pitch roll wifi gps bank_w pitch_w =
  telemetry_head ++ format_1f pitch ++ telemetry_mid ++ format_1f roll ++
  telemetry_tail wifi gps bank_w pitch_w ++ String LF EmptyString.
Proof.
  unfold telemetry_text, telemetry_head, telemetry_mid, telemetry_tail.
  rewrite !append_assoc. reflexivity.
Qed.

Lemma telemetry_tail_facts (wifi gps bank_w pitch_w : bool) :
  all_chars line_char (telemetry_tail wifi gps bank_w pitch_w) = true /\
  (length (telemetry_tail wifi gps bank_w pitch_w) <= 125)%nat.
Proof.
  destruct wifi, gps, bank_w, pitch_w; split; try reflexivity; vm_compute; lia.
Qed.

Lemma json_char_line (s : string) :
  all_chars json_char s = true -> all_chars line_char s = true.
Proof.
  apply all_chars_weaken. intros c H. unfold json_char in H.
  apply andb_prop in H. exact (proj1 H).
Qed.

Lemma json_char_no_quote (s : string) :
  all_chars json_char s = true ->
  all_chars (fun c => negb (Ascii.eqb DQUOTE c)) s = true.
Proof.
  apply all_chars_weaken. intros c H. unfold json_char in H.
  apply andb_prop in H. rewrite Ascii.eqb_sym. exact (proj2 H).
Qed.


(** ** Searching the line *)

Lemma json_no_match (needle P : string) :
  all_chars json_char P = true ->
  no_match_in (String DQUOTE needle) P = true.
Proof. intros H. apply no_match_first, json_char_no_quote, H. Qed.

(** A quoted key that occurs neither in the head nor in the middle of
    the line is searched in the tail. *)
Lemma strstr_json_tail (needle P R : string) (wifi gps bank_w pitch_w : bool) :
  no_match_in (String DQUOTE needle) telemetry_head = true ->
  no_match_in (String DQUOTE needle) telemetry_mid = true ->
  all_chars json_char P = true -> all_chars json_char R = true ->
  strstr (telemetry_json P R wifi gps bank_w pitch_w) (String DQUOTE needle) =
  strstr (telemetry_tail wifi gps bank_w pitch_w) (String DQUOTE needle).
Proof.
  intros Hh Hm HP HR. unfold telemetry_json.
  replace (telemetry_head ++ P ++ telemetry_mid ++ R ++ telemetry_tail wifi gps bank_w pitch_w)
    with ((telemetry_head ++ P ++ telemetry_mid ++ R) ++ telemetry_tail wifi gps bank_w pitch_w)
    by (rewrite !append_assoc; reflexivity).
  apply strstr_skip.
  apply no_match_in_append; [exact Hh|].
  apply no_match_in_append; [apply json_no_match, HP|].
  apply no_match_in_append; [exact Hm|].
  apply json_no_match, HR.
Qed.

Lemma strstr_json_own (P R : string) (wifi gps bank_w pitch_w : bool) :
  exists own_section,
    strstr (telemetry_json P R wifi gps bank_w pitch_w) (quoted "own") = Some own_section.
Proof.
  exists (advance (telemetry_json P R wifi gps bank_w pitch_w) 1).
  change (telemetry_json P R wifi gps bank_w pitch_w)
    with (String "{" (advance (telemetry_json P R wifi gps bank_w pitch_w) 1)) at 1.
  rewrite strstr_cons.
  change (starts_with (quoted "own")
            (String "{" (advance (telemetry_json P R wifi gps bank_w pitch_w) 1)))
    with false.
  cbv iota. apply strstr_here. reflexivity.
Qed.

Lemma parse_telemetry_fields (json own_section : string) :
  strstr json (quoted "own") = Some own_section ->
  fst (parse_telemetry atof json) = true /\
  tele_valid (snd (parse_telemetry atof json)) = true /\
  tele_traffic (snd (parse_telemetry atof json)) =
    match strstr json (quoted "traffic") with
    | None => []
    | Some traffic_section =>
        match strchr traffic_section "["%char with
        | None => []
        | Some traffic_start => parse_traffic atof MAX_TRAFFIC (advance traffic_start 1) []
        end
    end /\
  tele_status (snd (parse_telemetry atof json)) =
    match strstr json (quoted "status") with
    | Some status_section =>
        {| status_wifi := extract_bool status_section "wifi";
           status_gps := extract_bool status_section "gps";
           status_bluetooth := extract_bool status_section "bluetooth" |}
    | None => {| status_wifi := false; status_gps := false; status_bluetooth := false |}
    end /\
  tele_warnings (snd (parse_telemetry atof json)) =
    match strstr json (quoted "warnings") with
    | Some warnings_section =>
        {| warning_bank := extract_bool warnings_section "bank";
           warning_pitch := extract_bool warnings_section "pitch" |}
    | None => {| warning_bank := false; warning_pitch := false |}
    end.
Proof.
  intros H. unfold parse_telemetry. rewrite H. repeat split; reflexivity.
Qed.

Lemma head_mid_clear :
  (no_match_in (quoted "traffic") telemetry_head = true /\
   no_match_in (quoted "traffic") telemetry_mid = true) /\
  (no_match_in (quoted "status") telemetry_head = true /\
   no_match_in (quoted "status") telemetry_mid = true) /\
  (no_match_in (quoted "warnings") telemetry_head = true /\
   no_match_in (quoted "warnings") telemetry_mid = true).
Proof. repeat split; vm_compute; reflexivity. Qed.

(** What the parser finds in the line of the Raspberry Pi. *)
Lemma parse_telemetry_json (P R : string) (wifi gps bank_w pitch_w : bool) :
  all_chars json_char P = true -> all_chars json_char R = true ->
  let t := snd (parse_telemetry atof (telemetry_json P R wifi gps bank_w pitch_w)) in
  fst (parse_telemetry atof (telemetry_json P R wifi gps bank_w pitch_w)) = true /\
  tele_valid t = true /\
  tele_traffic t =
    [{| traffic_id := EmptyString; traffic_lat := dzero; traffic_lon := dzero;
        traffic_alt := dzero |}] /\
  tele_status t =
    {| status_wifi := wifi; status_gps := gps; status_bluetooth := false |} /\
  tele_warnings t = {| warning_bank := bank_w; warning_pitch := pitch_w |}.
Proof.
  intros HP HR t. unfold t. clear t.
  destruct (strstr_json_own P R wifi gps bank_w pitch_w) as (own_section & Hown).
  destruct (parse_telemetry_fields _ _ Hown) as (F & V & T & S & W).
  destruct head_mid_clear as ((T1 & T2) & (S1 & S2) & (W1 & W2)).
  split; [exact F|]. split; [exact V|].
  split; [|split].
  - rewrite T. unfold quoted at 1.
    rewrite (strstr_json_tail _ P R wifi gps bank_w pitch_w T1 T2 HP HR).
    destruct wifi, gps, bank_w, pitch_w; reflexivity.
  - rewrite S. unfold quoted at 1.
    rewrite (strstr_json_tail _ P R wifi gps bank_w pitch_w S1 S2 HP HR).
    destruct wifi, gps, bank_w, pitch_w; reflexivity.
  - rewrite W. unfold quoted at 1.
    rewrite (strstr_json_tail _ P R wifi gps bank_w pitch_w W1 W2 HP HR).
    destruct wifi, gps, bank_w, pitch_w; reflexivity.
Qed.

(** ** Receiving the line *)

Lemma with_rx_same (s : PicoTelemetry) : with_rx s (rx_buffer s) = s.
Proof. destruct s; reflexivity. Qed.

Lemma read_store (c : ascii) (s : PicoTelemetry) :
  line_char c = true -> (length (rx_buffer s) < 1023)%nat ->
  read_telemetry_data atof (Some c) s = with_rx s (rx_buffer s ++ String c EmptyString).
Proof.
  intros L B. unfold read_telemetry_data.
  unfold line_char in L. apply andb_prop in L. destruct L as (L & _).
  apply andb_prop in L. destruct L as (L1 & L2).
  apply negb_true_iff in L1, L2. rewrite L1, L2. simpl orb. cbv iota.
  assert (E : (length (rx_buffer s) <? RX_BUFFER_SIZE - 1)%nat = true).
  { apply Nat.ltb_lt. unfold RX_BUFFER_SIZE. simpl. exact B. }
  rewrite E. reflexivity.
Qed.

Lemma receive_store (w : string) (s : PicoTelemetry) :
  all_chars line_char w = true -> (length (rx_buffer s) + length w <= 1023)%nat ->
  receive_chars atof w s = with_rx s (rx_buffer s ++ w).
Proof.
  revert s. induction w as [|c w IH]; intros s L B.
  - simpl. rewrite append_nil_r, with_rx_same. reflexivity.
  - simpl in L. apply andb_prop in L. destruct L as (Lc & L). simpl in B.
    change (receive_chars atof (String c w) s)
      with (receive_chars atof w (read_telemetry_data atof (Some c) s)).
    rewrite (read_store c s Lc) by lia.
    rewrite IH; [|exact L|simpl; rewrite length_append; simpl; lia].
    simpl. rewrite append_assoc. reflexivity.
Qed.

Lemma receive_append (a b : string) (s : PicoTelemetry) :
  receive_chars atof (a ++ b) s = receive_chars atof b (receive_chars atof a s).
Proof.
  revert s. induction a as [|c a IH]; intros s; [reflexivity|].
  simpl. apply IH.
Qed.

Lemma read_line_end (s : PicoTelemetry) :
  (0 < length (rx_buffer s))%nat ->
  read_telemetry_data atof (Some LF) s =
  {| rx_buffer := EmptyString;
     latest_telemetry := snd (parse_telemetry atof (c_str (rx_buffer s)));
     telemetry_received :=
       if fst (parse_telemetry atof (c_str (rx_buffer s))) then true
       else telemetry_received s |}.
Proof.
  intros H. unfold read_telemetry_data.
  change (Ascii.eqb LF LF || Ascii.eqb LF CR) with true. cbv iota.
  apply Nat.ltb_lt in H. rewrite H.
  destruct (parse_telemetry atof (c_str (rx_buffer s))); reflexivity.
Qed.

Hypothesis format_1f_plain :
  forall x, all_chars json_char (format_1f x) = true /\ (length (format_1f x) <= 64)%nat.

Lemma telemetry_json_facts (pitch roll : float) (wifi gps bank_w pitch_w : bool) :
  let json := telemetry_json (format_1f pitch) (format_1f roll) wifi gps bank_w pitch_w in
  all_chars line_char json = true /\ (0 < length json <= 307)%nat.
Proof.
  intros json. unfold json, telemetry_json.
  destruct (format_1f_plain pitch) as (CP & LP).
  destruct (format_1f_plain roll) as (CR_ & LR).
  destruct (telemetry_tail_facts wifi gps bank_w pitch_w) as (CT & LT).
  split.
  - rewrite !all_chars_append, (json_char_line _ CP), (json_char_line _ CR_), CT.
    reflexivity.
  - rewrite !length_append.
    change (length telemetry_head) with 46%nat. change (length telemetry_mid) with 8%nat.
    lia.
Qed.

Lemma send_telemetry_text (serial_fd : Z) (speed_knots pitch roll : float)
    (has_fix wifi_connected : bool) :
  (0 <= serial_fd)%Z ->
  send_telemetry_to_pico format_1f serial_fd speed_knots pitch roll has_fix wifi_connected =
  Some (telemetry_json (format_1f pitch) (format_1f roll) wifi_connected has_fix
          (bank_warning roll speed_knots) (pitch_warning pitch) ++ String LF EmptyString).
Proof.
  intros H. unfold send_telemetry_to_pico.
  apply Z.ltb_ge in H. rewrite H. cbv zeta. f_equal.
  rewrite telemetry_text_split.
  destruct (telemetry_json_facts pitch roll wifi_connected has_fix
              (bank_warning roll speed_knots) (pitch_warning pitch)) as (_ & L).
  unfold telemetry_json in *.
  set (tail := telemetry_tail wifi_connected has_fix
                 (bank_warning roll speed_knots) (pitch_warning pitch)) in *.
  replace (telemetry_head ++ format_1f pitch ++ telemetry_mid ++ format_1f roll ++
           tail ++ String LF EmptyString)
    with ((telemetry_head ++ format_1f pitch ++ telemetry_mid ++ format_1f roll ++ tail)
          ++ String LF EmptyString)
    by (rewrite !append_assoc; reflexivity).
  unfold snprintf. apply substring_short. rewrite length_append.
  change (length (String LF EmptyString)) with 1%nat. lia.
Qed.

(** X14: what the Raspberry Pi reports arrives.  The line written by
    [send_telemetry_to_pico], read character by character by
    [read_telemetry_data] on an empty receive buffer, is parsed as valid
    telemetry whose WiFi and GPS flags are the ones of the Raspberry Pi,
    whose Bluetooth flag is false and whose bank and pitch warnings are
    the ones computed from roll, speed and pitch; the ribbon then shows a
    warning exactly when one of the two is raised.  The two numbers of
    the line are printed by the C library: any text of at most 64
    characters without double quote, line end or NUL. *)
Theorem telemetry_flags_arrive (serial_fd : Z) (speed_knots pitch roll : float)
    (has_fix wifi_connected : bool) (s : PicoTelemetry) :
  (0 <= serial_fd)%Z -> rx_buffer s = EmptyString ->
  exists text,
    send_telemetry_to_pico format_1f serial_fd speed_knots pitch roll
      has_fix wifi_connected = Some text /\
    let s' := receive_chars atof text s in
    rx_buffer s' = EmptyString /\
    telemetry_received s' = true /\
    tele_valid (latest_telemetry s') = true /\
    tele_status (latest_telemetry s') =
      {| status_wifi := wifi_connected; status_gps := has_fix;
         status_bluetooth := false |} /\
    tele_warnings (latest_telemetry s') =
      {| warning_bank := bank_warning roll speed_knots;
         warning_pitch := pitch_warning pitch |} /\
    ribbon_any_warning (current_ribbon s') =
      bank_warning roll speed_knots || pitch_warning pitch.
Proof.
  intros Hfd B. eexists. split; [apply send_telemetry_text, Hfd|].
  set (json := telemetry_json (format_1f pitch) (format_1f roll) wifi_connected has_fix
                 (bank_warning roll speed_knots) (pitch_warning pitch)).
  destruct (telemetry_json_facts pitch roll wifi_connected has_fix
              (bank_warning roll speed_knots) (pitch_warning pitch)) as (C & L).
  fold json in C, L.
  rewrite receive_append.
  rewrite (receive_store json s C)
    by (rewrite B; change (length EmptyString) with 0%nat; lia).
  rewrite B. change (EmptyString ++ json) with json.
  change (receive_chars atof (String LF EmptyString) (with_rx s json))
    with (read_telemetry_data atof (Some LF) (with_rx s json)).
  rewrite read_line_end by (change (rx_buffer (with_rx s json)) with json; lia).
  change (rx_buffer (with_rx s json)) with json. rewrite (c_str_line json C).
  destruct (format_1f_plain pitch) as (CP & _).
  destruct (format_1f_plain roll) as (CR_ & _).
  destruct (parse_telemetry_json (format_1f pitch) (format_1f roll) wifi_connected has_fix
              (bank_warning roll speed_knots) (pitch_warning pitch) CP CR_)
    as (F & V & T & S & W).
  fold json in F, V, T, S, W.
  set (r := parse_telemetry atof json) in *. clearbody r. clearbody json.
  destruct r as (ok, t). simpl fst in F. simpl snd in V, T, S, W. subst ok.
  cbv zeta. unfold current_ribbon.
  change (telemetry_received {| rx_buffer := EmptyString;
                                latest_telemetry := snd (true, t);
                                telemetry_received :=
                                  if fst (true, t) then true
                                  else telemetry_received (with_rx s json) |}) with true.
  change (latest_telemetry {| rx_buffer := EmptyString;
                              latest_telemetry := snd (true, t);
                              telemetry_received :=
                                if fst (true, t) then true
                                else telemetry_received (with_rx s json) |}) with t.
  cbv iota. rewrite V, S, W.
  repeat split; reflexivity.
Qed.

(** X15: the empty traffic array of the Raspberry Pi is read as one
    aircraft.  After the same line, [traffic_count] is 1: the search for
    the first object of the array runs past its end into the status
    object, and the entry stored has an empty id and latitude, longitude
    and altitude 0.0. *)
Theorem empty_traffic_array_read_as_one (serial_fd : Z) (speed_knots pitch roll : float)
    (has_fix wifi_connected : bool) (s : PicoTelemetry) :
  (0 <= serial_fd)%Z -> rx_buffer s = EmptyString ->
  exists text,
    send_telemetry_to_pico format_1f serial_fd speed_knots pitch roll
      has_fix wifi_connected = Some text /\
    tele_traffic (latest_telemetry (receive_chars atof text s)) =
      [{| traffic_id := EmptyString; traffic_lat := dzero; traffic_lon := dzero;
          traffic_alt := dzero |}].
Proof.
  intros Hfd B. eexists. split; [apply send_telemetry_text, Hfd|].
  set (json := telemetry_json (format_1f pitch) (format_1f roll) wifi_connected has_fix
                 (bank_warning roll speed_knots) (pitch_warning pitch)).
  destruct (telemetry_json_facts pitch roll wifi_connected has_fix
              (bank_warning roll speed_knots) (pitch_warning pitch)) as (C & L).
  fold json in C, L.
  rewrite receive_append.
  rewrite (receive_store json s C)
    by (rewrite B; change (length EmptyString) with 0%nat; lia).
  rewrite B. change (EmptyString ++ json) with json.
  change (receive_chars atof (String LF EmptyString) (with_rx s json))
    with (read_telemetry_data atof (Some LF) (with_rx s json)).
  rewrite read_line_end by (change (rx_buffer (with_rx s json)) with json; lia).
  change (rx_buffer (with_rx s json)) with json. rewrite (c_str_line json C).
  destruct (format_1f_plain pitch) as (CP & _).
  destruct (format_1f_plain roll) as (CR_ & _).
  destruct (parse_telemetry_json (format_1f pitch) (format_1f roll) wifi_connected has_fix
              (bank_warning roll speed_knots) (pitch_warning pitch) CP CR_)
    as (F & V & T & S & W).
  fold json in T. exact T.
Qed.

End TelemetryLine.

Section TelemetryWitnesses.
Import Ascii String.
Local Open Scope string_scope.

Lemma plain_number_text :
  forall x : @float machine,
    all_chars json_char ((fun _ => "0.0") x) = true /\
    (length ((fun _ : @float machine => "0.0") x) <= 64)%nat.
Proof. intros x. split; [reflexivity|simpl; lia]. Qed.

(** A level attitude at rest, sent over file descriptor 3 to a Pico that
    has received nothing yet (binary32 instance; every number printed as
    0.0 and read as zero). *)
Lemma telemetry_flags_witness :
  exists text,
    send_telemetry_to_pico (A := machine) (fun _ => "0.0") 3
      (B32.of_Z 0) (B32.of_Z 0) (B32.of_Z 0) true true = Some text /\
    let s' := receive_chars (A := machine) (fun _ => S754_zero false) text
                {| rx_buffer := EmptyString;
                   latest_telemetry := zero_telemetry;
                   telemetry_received := false |} in
    rx_buffer s' = EmptyString /\
    telemetry_received s' = true /\
    tele_valid (latest_telemetry s') = true /\
    tele_status (latest_telemetry s') =
      {| status_wifi := true; status_gps := true; status_bluetooth := false |} /\
    tele_warnings (latest_telemetry s') =
      {| warning_bank := @bank_warning machine (B32.of_Z 0) (B32.of_Z 0);
         warning_pitch := @pitch_warning machine (B32.of_Z 0) |} /\
    ribbon_any_warning (current_ribbon s') =
      @bank_warning machine (B32.of_Z 0) (B32.of_Z 0) || @pitch_warning machine (B32.of_Z 0).
Proof.
  apply (telemetry_flags_arrive (A := machine) (fun _ => S754_zero false) (fun _ => "0.0")
           plain_number_text 3 (B32.of_Z 0) (B32.of_Z 0) (B32.of_Z 0) true true
           {| rx_buffer := EmptyString; latest_telemetry := zero_telemetry;
              telemetry_received := false |}).
  - discriminate.
  - reflexivity.
Defined.

Lemma empty_traffic_array_witness :
  exists text,
    send_telemetry_to_pico (A := machine) (fun _ => "0.0") 3
      (B32.of_Z 0) (B32.of_Z 0) (B32.of_Z 0) true true = Some text /\
    tele_traffic
      (latest_telemetry
         (receive_chars (A := machine) (fun _ => S754_zero false) text
            {| rx_buffer := EmptyString;
               latest_telemetry := zero_telemetry;
               telemetry_received := false |})) =
      [{| traffic_id := EmptyString; traffic_lat := dzero; traffic_lon := dzero;
          traffic_alt := dzero |}].
Proof.
  apply (empty_traffic_array_read_as_one (A := machine) (fun _ => S754_zero false)
           (fun _ => "0.0") plain_number_text 3 (B32.of_Z 0) (B32.of_Z 0) (B32.of_Z 0)
           true true
           {| rx_buffer := EmptyString; latest_telemetry := zero_telemetry;
              telemetry_received := false |}).
  - discriminate.
  - reflexivity.
Defined.

End TelemetryWitnesses.

(* ================================================================== *)
(** * The receive buffer and the status ribbon of the Pico menu *)
(* ================================================================== *)

Section PicoRibbon.
Context {A : CArith}.
Import Ascii String.
Local Open Scope string_scope.
Variable atof : string -> double.

(** X16: the status ribbon is redrawn exactly when what it shows has
    changed.  [draw_status_icons] draws nothing when the state built from
    the telemetry equals the one last drawn, and otherwise draws and
    remembers it: a second call on the same telemetry draws nothing.  The
    ribbon is red with the text WARNING exactly when telemetry has been
    received and its bank or pitch warning is set; without telemetry all
    three icons are off. *)
Theorem status_ribbon_redrawn_on_change (last : RibbonState) (s : PicoTelemetry) :
  let result := draw_status_icons last s in
  (snd result = None <-> last = current_ribbon s) /\
  fst result = current_ribbon s /\
  snd (draw_status_icons (fst result) s) = None /\
  (forall r, snd result = Some r ->
     ribbon_color r =
       (if telemetry_received s &&
           (warning_bank (tele_warnings (latest_telemetry s)) ||
            warning_pitch (tele_warnings (latest_telemetry s)))
        then COLOR_RED else RIBBON_GREY) /\
     ribbon_warning_text r =
       telemetry_received s &&
       (warning_bank (tele_warnings (latest_telemetry s)) ||
        warning_pitch (tele_warnings (latest_telemetry s))) /\
     icon_wifi r = telemetry_received s && status_wifi (tele_status (latest_telemetry s)) /\
     icon_gps r = telemetry_received s && status_gps (tele_status (latest_telemetry s)) /\
     icon_bluetooth r =
       telemetry_received s && status_bluetooth (tele_status (latest_telemetry s))).
Proof.
  intros result. unfold result. clear result.
  assert (Cur : current_ribbon s =
    {| ribbon_telemetry_received := telemetry_received s;
       ribbon_wifi_ok := telemetry_received s && status_wifi (tele_status (latest_telemetry s));
       ribbon_gps_ok := telemetry_received s && status_gps (tele_status (latest_telemetry s));
       ribbon_bt_ok :=
         telemetry_received s && status_bluetooth (tele_status (latest_telemetry s));
       ribbon_any_warning :=
         telemetry_received s &&
         (warning_bank (tele_warnings (latest_telemetry s)) ||
          warning_pitch (tele_warnings (latest_telemetry s))) |}).
  { unfold current_ribbon. destruct (telemetry_received s); reflexivity. }
  unfold draw_status_icons, draw_ribbon_internal. rewrite Cur. clear Cur.
  set (a := telemetry_received s &&
            (warning_bank (tele_warnings (latest_telemetry s)) ||
             warning_pitch (tele_warnings (latest_telemetry s)))).
  set (b := telemetry_received s && status_bluetooth (tele_status (latest_telemetry s))).
  set (g := telemetry_received s && status_gps (tele_status (latest_telemetry s))).
  set (w := telemetry_received s && status_wifi (tele_status (latest_telemetry s))).
  set (rcv := telemetry_received s).
  clearbody a b g w rcv.
  destruct last as [l1 l2 l3 l4 l5].
  destruct a, b, g, w, rcv, l1, l2, l3, l4, l5; simpl;
    (split; [split; [intros H; try discriminate H; reflexivity
                    |intros H; try discriminate H; reflexivity]|]);
    (split; [reflexivity|]); (split; [reflexivity|]);
    intros r H; try discriminate H; injection H as <-; repeat split; reflexivity.
Qed.

(** X17: the receive buffer of [read_telemetry_data].  A timeout changes
    nothing; the buffer never holds more than 1023 characters, so the
    terminator fits into the 1024 bytes; [telemetry_received] is never
    cleared; and a line that does not contain the key own in double quotes
    replaces the stored telemetry by zeros (no status, no warning, no
    traffic) while [telemetry_received] stays as it was. *)
Theorem receive_buffer_bounded :
  (forall s, read_telemetry_data atof None s = s) /\
  (forall c s,
     (length (rx_buffer s) <= 1023)%nat ->
     (length (rx_buffer (read_telemetry_data atof c s)) <= 1023)%nat) /\
  (forall c s,
     telemetry_received s = true ->
     telemetry_received (read_telemetry_data atof c s) = true) /\
  (forall s,
     (0 < length (rx_buffer s))%nat ->
     strstr (c_str (rx_buffer s)) (quoted "own") = None ->
     read_telemetry_data atof (Some LF) s =
     {| rx_buffer := EmptyString; latest_telemetry := zero_telemetry;
        telemetry_received := telemetry_received s |}).
Proof.
  split; [reflexivity|]. split; [|split].
  - intros c s B. unfold read_telemetry_data.
    destruct c as [ch|]; [|exact B].
    destruct (_ || _).
    + destruct (0 <? _)%nat; [|exact B].
      destruct (parse_telemetry atof _). simpl. lia.
    + destruct (_ <? _)%nat eqn:E.
      * apply Nat.ltb_lt in E. unfold RX_BUFFER_SIZE in E. simpl.
        rewrite length_append. simpl. lia.
      * simpl. lia.
  - intros c s R. unfold read_telemetry_data.
    destruct c as [ch|]; [|exact R].
    destruct (_ || _).
    + destruct (0 <? _)%nat; [|exact R].
      destruct (parse_telemetry atof _) as (ok, t). simpl. rewrite R.
      destruct ok; reflexivity.
    + destruct (_ <? _)%nat; exact R.
  - intros s B N. unfold read_telemetry_data.
    change (Ascii.eqb LF LF || Ascii.eqb LF CR) with true. cbv iota.
    apply Nat.ltb_lt in B. rewrite B.
    unfold parse_telemetry. rewrite N. reflexivity.
Qed.

End PicoRibbon.

Local Close Scope R_scope.
Local Close Scope Z_scope.

(* ================================================================== *)
(** * The loop of the attitude indicator and its filter *)
(* ================================================================== *)

Section IndicatorLoop.
Local Existing Instance machine.
Local Open Scope cf_scope.

(** NaN through the operations of binary32. *)

Lemma fmul_nan_l (y : float) : S754_nan * y = S754_nan.
Proof. reflexivity. Qed.

Lemma fmul_nan_r (x : float) : x * S754_nan = S754_nan.
Proof. destruct x; reflexivity. Qed.

Lemma fadd_nan_l (y : float) : S754_nan + y = S754_nan.
Proof. reflexivity. Qed.

Lemma fadd_nan_r (x : float) : x + S754_nan = S754_nan.
Proof. destruct x; reflexivity. Qed.

Lemma is_nan_eq (x : float) : IEEE.is_nan x = true -> x = S754_nan.
Proof. destruct x; try discriminate; reflexivity. Qed.

Lemma inv_sqrt_nan : BasicGyro.inv_sqrt S754_nan = S754_nan.
Proof. reflexivity. Qed.

Lemma norm_sq_nan (f : Quaternion) : quat_has_nan f = true -> norm_sq f = S754_nan.
Proof.
  unfold quat_has_nan, norm_sq. intros H.
  apply orb_prop in H. destruct H as [H|H3].
  - apply orb_prop in H. destruct H as [H|H2].
    + apply orb_prop in H. destruct H as [H0|H1].
      * rewrite (is_nan_eq _ H0). reflexivity.
      * rewrite (is_nan_eq _ H1). rewrite fmul_nan_l, fadd_nan_r. reflexivity.
    + rewrite (is_nan_eq _ H2). rewrite fmul_nan_l, fadd_nan_r. reflexivity.
  - rewrite (is_nan_eq _ H3). rewrite fmul_nan_l, fadd_nan_r. reflexivity.
Qed.

(** The integration step of the unguarded filter keeps a NaN. *)
Lemma integrate_nan (filter : MadgwickFilter) (qDot : Quaternion) :
  quat_has_nan (q filter) = true -> q (BasicGyro.integrate filter qDot) = nan_quaternion.
Proof.
  intros H. unfold BasicGyro.integrate. cbv zeta.
  set (qi := {| q0 := q0 (q filter) + q0 qDot * inv_sample_freq filter;
                q1 := q1 (q filter) + q1 qDot * inv_sample_freq filter;
                q2 := q2 (q filter) + q2 qDot * inv_sample_freq filter;
                q3 := q3 (q filter) + q3 qDot * inv_sample_freq filter |}).
  assert (Hq : quat_has_nan qi = true).
  { unfold quat_has_nan in *. unfold qi. simpl q0. simpl q1. simpl q2. simpl q3.
    apply orb_prop in H. destruct H as [H|H3].
    - apply orb_prop in H. destruct H as [H|H2].
      + apply orb_prop in H. destruct H as [H0|H1].
        * rewrite (is_nan_eq _ H0), fadd_nan_l. reflexivity.
        * rewrite (is_nan_eq _ H1), fadd_nan_l.
          change (IEEE.is_nan S754_nan) with true. rewrite ?orb_true_r. reflexivity.
      + rewrite (is_nan_eq _ H2), fadd_nan_l.
        change (IEEE.is_nan S754_nan) with true. rewrite ?orb_true_r. reflexivity.
    - rewrite (is_nan_eq _ H3), fadd_nan_l.
      change (IEEE.is_nan S754_nan) with true. rewrite ?orb_true_r. reflexivity. }
  rewrite (norm_sq_nan qi Hq), inv_sqrt_nan.
  unfold set_q. simpl q. rewrite !fmul_nan_r. reflexivity.
Qed.

(** X18: the filter the attitude indicator runs never leaves NaN.  Once a
    component of its quaternion is NaN, every update of
    BasicGyro/madgwick.c, with or without magnetometer and whatever the
    sensors read, leaves all four components NaN; so does the update of
    one tick of [attitude_indicator_run]. *)
Theorem unguarded_filter_keeps_nan (filter : MadgwickFilter) :
  quat_has_nan (q filter) = true ->
  (forall gx gy gz ax ay az,
     q (BasicGyro.madgwick_update_imu filter gx gy gz ax ay az) = nan_quaternion) /\
  (forall gx gy gz ax ay az mx my mz,
     q (BasicGyro.madgwick_update_marg filter gx gy gz ax ay az mx my mz) = nan_quaternion) /\
  (forall dt gx gy gz ax ay az accel_valid mag,
     q (fuse filter dt gx gy gz ax ay az accel_valid mag) = nan_quaternion /\
     quat_has_nan (q (fuse filter dt gx gy gz ax ay az accel_valid mag)) = true).
Proof.
  intros H.
  assert (I : forall gx gy gz ax ay az,
            q (BasicGyro.madgwick_update_imu filter gx gy gz ax ay az) = nan_quaternion).
  { intros. unfold BasicGyro.madgwick_update_imu. cbv zeta.
    destruct (negb _); apply integrate_nan; exact H. }
  assert (M : forall gx gy gz ax ay az mx my mz,
            q (BasicGyro.madgwick_update_marg filter gx gy gz ax ay az mx my mz)
            = nan_quaternion).
  { intros. unfold BasicGyro.madgwick_update_marg. cbv zeta.
    destruct (negb _); apply integrate_nan; exact H. }
  split; [exact I|]. split; [exact M|].
  intros dt gx gy gz ax ay az accel_valid mag.
  assert (F : q (fuse filter dt gx gy gz ax ay az accel_valid mag) = nan_quaternion).
  { unfold fuse. cbv zeta. destruct mag as [mag|].
    - unfold BasicGyro.madgwick_update_marg. cbv zeta.
      destruct (negb _); apply integrate_nan; exact H.
    - unfold BasicGyro.madgwick_update_imu. cbv zeta.
      destruct (negb _); apply integrate_nan; exact H. }
  split; [exact F|]. rewrite F. reflexivity.
Qed.

(** The filter after the level tick of X4. *)
Lemma unguarded_filter_keeps_nan_witness :
  let filter := {| q := nan_quaternion; beta := lit 15 (-2);
                   sample_freq := lit 100 0; inv_sample_freq := lit 1 (-2) |} in
  q (fuse filter (lit 1 (-2)) c0 c0 c0 c0 c0 c1 true None) = nan_quaternion.
Proof.
  intros filter.
  destruct (unguarded_filter_keeps_nan filter eq_refl) as (_ & _ & F).
  exact (proj1 (F (lit 1 (-2)) c0 c0 c0 c0 c0 c1 true None)).
Defined.

(** ** What the loop shows *)

Lemma clampf_display (x : float) :
  display_angle (clampf x (- MAX_DISPLAY_DEG) MAX_DISPLAY_DEG).
Proof.
  unfold clampf, display_angle.
  destruct (x < - MAX_DISPLAY_DEG) eqn:Lo.
  { right. split; vm_compute; reflexivity. }
  destruct (x > MAX_DISPLAY_DEG) eqn:Hi.
  { right. split; vm_compute; reflexivity. }
  destruct (IEEE.is_nan x) eqn:N; [left; reflexivity|right].
  split.
  - apply flt_false_fle; [exact N|reflexivity|exact Lo].
  - apply flt_false_fle; [reflexivity|exact N|exact Hi].
Qed.

(** The yaw of [madgwick_get_euler], made from what [atan2f] returns,
    leaves [wrap360] after at most one turn of each loop. *)
Lemma yaw_wraps (t : float) (fuel : nat) :
  IEEE.is_nan t = true \/
  (valid32 t /\ IEEE.is_finite t = true /\
   (Rabs (F2R t) <= F2R (IEEE.convert B32.prec B32.emax B64.M_PI))%R) ->
  exists h, wrap360 (S fuel) (- t * BasicGyro.RAD_TO_DEG) = Some h.
Proof.
  intros [N|(Vt & Ft & Bt)].
  - apply is_nan_eq in N. subst t. exists S754_nan.
    change (@fneg machine S754_nan * BasicGyro.RAD_TO_DEG) with (S754_nan : @float machine).
    apply wrap360_nan.
  - assert (Bn : (Rabs (F2R (fneg t)) <= 4)%R).
    { rewrite F2R_fneg, Rabs_Ropp. apply Rle_trans with (1 := Bt).
      change (IEEE.convert B32.prec B32.emax B64.M_PI) with (@d2f machine M_PI).
      rewrite pi_f_value. F2R_num. lra. }
    assert (Br : (Rabs (F2R BasicGyro.RAD_TO_DEG) <= 58)%R).
    { eval_float (@BasicGyro.RAD_TO_DEG machine). F2R_num. rewrite Rabs_pos_eq; lra. }
    destruct (fmul_within (- t) BasicGyro.RAD_TO_DEG (lit 360 0) 4 58) as (Vy & Fy & By_);
      try assumption; try reflexivity.
    + apply valid_fneg. exact Vt.
    + change (IEEE.is_finite (SFopp t) = true).
      rewrite (is_finite_opp _ _ b32_prec b32_emax). exact Ft.
    + rewrite F2R_lit_360. lra.
    + rewrite F2R_lit_360 in By_. apply Rabs_le_inv in By_.
      destruct (wrap360_range fuel _ Vy Fy By_) as (h & E & _).
      exists h. exact E.
Qed.

(** X19: what [attitude_indicator_run] holds for the display.  Provided
    [atan2f] returns NaN or an angle of at most pi in magnitude, every
    pass of the loop returns, [wrap360] taking at most one turn of each
    of its loops, and after the pass either the smoothed roll and pitch
    and the frame on the display are as before, or both smoothed angles
    are NaN or between -80 and 80 degrees, and the frame is as before or
    shows exactly these two angles with the heading of this tick.  The
    display counter stays 0 or 1, and a frame is drawn on every second
    tick that reaches the filter: when the counter was 1. *)
Theorem indicator_display_clamped (L : LibM machine) (fuel : nat)
    (s : Indicator) (i : IndicatorInput) :
  atan2f_nan_or_angle L ->
  exists r : LoopStep Indicator,
    attitude_indicator_pass (S fuel) s i = Some r /\
    let s' := state_of r in
    (smooth_roll s' = smooth_roll s /\ smooth_pitch s' = smooth_pitch s /\
     shown s' = shown s /\ display_counter s' = display_counter s) \/
    (display_angle (smooth_roll s') /\ display_angle (smooth_pitch s') /\
     ((display_counter s = 0%Z -> display_counter s' = 1%Z /\ shown s' = shown s) /\
      (display_counter s = 1%Z ->
         display_counter s' = 0%Z /\
         exists heading, shown s' = Some (smooth_roll s', smooth_pitch s', heading)))).
Proof.
  intros HL. unfold attitude_indicator_pass.
  destruct (ai_key2 i).
  { eexists. split; [reflexivity|]. left. repeat split; reflexivity. }
  destruct (_ <? 0)%Z.
  { eexists. split; [reflexivity|]. left. repeat split; reflexivity. }
  cbv zeta.
  destruct (accel_gyro_read i) as [[accel gyro]|].
  2:{ eexists. split; [reflexivity|]. left. repeat split; reflexivity. }
  unfold BasicGyro.madgwick_get_euler. cbv zeta.
  match goal with
  | |- context [wrap360 (S fuel) (- atan2f ?y ?x * BasicGyro.RAD_TO_DEG)] =>
      destruct (yaw_wraps (atan2f y x) fuel (HL y x)) as (heading & W)
  end.
  rewrite W. eexists. split; [reflexivity|].
  right. cbv zeta. cbn [state_of smooth_roll smooth_pitch shown display_counter].
  split; [apply clampf_display|]. split; [apply clampf_display|].
  split.
  - intros C. rewrite C. split; reflexivity.
  - intros C. rewrite C. split; [reflexivity|]. eexists. reflexivity.
Qed.

(** ** The heading *)

Lemma wrap_up_exit (fuel : nat) (deg d : float) :
  valid32 deg -> wrap_up fuel deg = Some d -> valid32 d /\ (d < c0) = false.
Proof.
  revert deg. induction fuel as [|fuel IH]; intros deg V; cbn [wrap_up].
  - destruct (deg < c0) eqn:E; [discriminate|].
    intros H. injection H as <-. split; assumption.
  - destruct (deg < c0) eqn:E.
    + apply IH. apply valid_fadd; [exact V|apply valid32_lit_360].
    + intros H. injection H as <-. split; assumption.
Qed.

Lemma wrap_down_exit (fuel : nat) (deg h : float) :
  valid32 deg -> IEEE.is_nan deg = true \/ (c0 <= deg) = true ->
  wrap_down fuel deg = Some h ->
  IEEE.is_nan h = true \/ ((c0 <= h) = true /\ (h < lit 360 0) = true).
Proof.
  destruct valid32_lit_360 as [V360 F360].
  assert (Exit : forall d : float,
            IEEE.is_nan d = true \/ (c0 <= d) = true -> (d >= lit 360 0) = false ->
            IEEE.is_nan d = true \/ ((c0 <= d) = true /\ (d < lit 360 0) = true)).
  { intros d I E. destruct (IEEE.is_nan d) eqn:N; [left; reflexivity|right].
    destruct I as [I|I]; [discriminate|].
    split; [exact I|]. apply fle_false_flt; [reflexivity|exact N|exact E]. }
  revert deg. induction fuel as [|fuel IH]; intros deg V I; cbn [wrap_down].
  - destruct (deg >= lit 360 0) eqn:E; [discriminate|].
    intros H. injection H as <-. apply Exit; assumption.
  - destruct (deg >= lit 360 0) eqn:E.
    + apply IH; [apply valid_fsub; assumption|].
      destruct deg as [sd|sd| |sd md ed].
      * discriminate E.
      * destruct sd; [discriminate E|]. right. reflexivity.
      * discriminate E.
      * right.
        assert (Fd : isfinite (S754_finite sd md ed) = true) by reflexivity.
        pose proof E as E'.
        apply fle_finite in E'; try assumption.
        rewrite F2R_lit_360 in E'.
        pose proof (fsub_correct (S754_finite sd md ed) (lit 360 0) V V360 Fd F360) as R.
        apply (rounds32_between _ _ c0 (S754_finite sd md ed)) in R;
          try assumption; try reflexivity.
        2:{ rewrite F2R_c0, F2R_lit_360. lra. }
        destruct R as [Fr Br]. rewrite F2R_c0 in Br.
        apply fle_finite; try assumption; try reflexivity.
        -- apply valid_fsub; assumption.
        -- rewrite F2R_c0. lra.
    + intros H. injection H as <-. apply Exit; assumption.
Qed.

(** X20: when [wrap360] returns, the heading is in range.  For every
    binary32 argument, if the two loops come to an end the result is NaN
    (for a NaN argument) or at least 0 and below 360. *)
Theorem wrap360_result_in_range (fuel : nat) (deg h : float) :
  valid32 deg -> wrap360 fuel deg = Some h ->
  IEEE.is_nan h = true \/ ((c0 <= h) = true /\ (h < lit 360 0) = true).
Proof.
  intros V. unfold wrap360.
  destruct (wrap_up fuel deg) as [d|] eqn:U; [|discriminate].
  destruct (wrap_up_exit fuel deg d V U) as (Vd & Ed).
  apply wrap_down_exit; [exact Vd|].
  destruct (IEEE.is_nan d) eqn:N; [left; reflexivity|right].
  apply flt_false_fle; [exact N|reflexivity|exact Ed].
Qed.

End IndicatorLoop.

Section IndicatorWitnesses.
Local Existing Instance machine.
Local Open Scope cf_scope.

(** The crudest library, whose [atan2f] is 0 everywhere, returns an
    angle. *)
Lemma crude_atan2f_angle : atan2f_nan_or_angle crude_libm.
Proof.
  intros y x. right. cbn [atan2f crude_libm].
  split; [reflexivity|]. split; [reflexivity|].
  change (F2R (S754_zero false)) with 0%R. rewrite Rabs_R0.
  change (IEEE.convert B32.prec B32.emax B64.M_PI) with (@d2f machine M_PI).
  rewrite pi_f_value. F2R_num. lra.
Qed.

(** The second tick of a sensor at rest, tilted a little: it reaches the
    filter and draws. *)
Lemma indicator_display_witness :
  let s := {| ai_filter := madgwick_init (lit 100 0) (lit 15 (-2));
              gx_bias := c0; gy_bias := c0; gz_bias := c0;
              smooth_roll := c0; smooth_pitch := c0;
              next_tick_us := 20000; last_update_us := 10000;
              display_counter := 1; shown := None |} in
  let i := {| ai_key2 := false; now_us := 20000;
              accel_gyro_read := Some ({| sx := 100; sy := 0; sz := 8192 |},
                                       {| sx := 0; sy := 0; sz := 0 |});
              mag_read := None |} in
  atan2f_nan_or_angle crude_libm /\
  exists r,
    attitude_indicator_pass (L := crude_libm) 1 s i = Some r /\
    let s' := state_of r in
    (smooth_roll s' = smooth_roll s /\ smooth_pitch s' = smooth_pitch s /\
     shown s' = shown s /\ display_counter s' = display_counter s) \/
    (display_angle (smooth_roll s') /\ display_angle (smooth_pitch s') /\
     ((display_counter s = 0%Z -> display_counter s' = 1%Z /\ shown s' = shown s) /\
      (display_counter s = 1%Z ->
         display_counter s' = 0%Z /\
         exists heading, shown s' = Some (smooth_roll s', smooth_pitch s', heading)))).
Proof.
  intros s i. split; [exact crude_atan2f_angle|].
  exact (indicator_display_clamped crude_libm 0 s i crude_atan2f_angle).
Defined.

(** 725 degrees: two turns of the second loop. *)
Lemma wrap360_result_witness :
  IEEE.is_nan (lit 5 0) = true \/ ((c0 <= lit 5 0) = true /\ (lit 5 0 < lit 360 0) = true).
Proof.
  apply (wrap360_result_in_range 4 (lit 725 0) (lit 5 0)).
  - vm_compute. repeat split; try reflexivity; intros; discriminate.
  - vm_compute. reflexivity.
Defined.

End IndicatorWitnesses.

Local Close Scope R_scope.
Local Close Scope Z_scope.

(* ================================================================== *)
(** * The command lines of the Pico, as pico_commands.c reads them *)
(* ================================================================== *)

Section CommandLines.
Import Ascii String.
Local Open Scope string_scope.

Lemma word_char_space (c : ascii) : word_char c = true -> isspace c = false.
Proof.
  unfold word_char. intros H. apply andb_prop in H. destruct H as (H & _).
  apply negb_true_iff in H. exact H.
Qed.

Lemma skip_spaces_word (c : ascii) (s : string) :
  word_char c = true -> skip_spaces (String c s) = String c s.
Proof. intros H. simpl. rewrite (word_char_space _ H). reflexivity. Qed.

Lemma char_at_append (a : string) (c : ascii) (b : string) :
  char_at (a ++ String c b) (length a) = c.
Proof.
  unfold char_at. induction a as [|x a IH]; simpl; [reflexivity|exact IH].
Qed.

Lemma last_char (p : ascii -> bool) (c : ascii) (s : string) :
  all_chars p (String c s) = true ->
  exists pre d, String c s = pre ++ String d EmptyString /\ p d = true.
Proof.
  revert c. induction s as [|x s IH]; intros c H.
  - exists EmptyString, c. split; [reflexivity|].
    simpl in H. apply andb_prop in H. apply H.
  - simpl in H. apply andb_prop in H. destruct H as (H1 & H2).
    destruct (IH x H2) as (pre & d & E & P).
    exists (String c pre), d. split; [|exact P].
    simpl. rewrite <- E. reflexivity.
Qed.

(** [trim_whitespace] takes the line end off a line of words. *)
Lemma trim_whitespace_line (text : string) :
  text <> EmptyString -> all_chars word_char text = true ->
  trim_whitespace (text ++ String LF EmptyString) = text.
Proof.
  intros N W. unfold trim_whitespace.
  destruct text as [|x t]; [contradiction N; reflexivity|].
  pose proof W as W'. simpl in W'. apply andb_prop in W'. destruct W' as (X & T).
  change (String x t ++ String LF EmptyString)
    with (String x (t ++ String LF EmptyString)).
  rewrite (skip_spaces_word x _ X).
  change (length (String x (t ++ String LF EmptyString)))
    with (S (length (t ++ String LF EmptyString))).
  cbv iota beta.
  rewrite length_append. change (length (String LF EmptyString)) with 1%nat.
  replace (length t + 1)%nat with (S (length t)) by lia.
  assert (E : trim_end (String x (t ++ String LF EmptyString)) (S (length t)) = length t).
  { change (trim_end (String x (t ++ String LF EmptyString)) (S (length t)))
      with (if isspace (char_at (String x (t ++ String LF EmptyString)) (S (length t)))
            then trim_end (String x (t ++ String LF EmptyString)) (length t)
            else S (length t)).
    change (char_at (String x (t ++ String LF EmptyString)) (S (length t)))
      with (char_at (t ++ String LF EmptyString) (length t)).
    rewrite char_at_append. change (isspace LF) with true. cbv iota.
    destruct t as [|y t']; [reflexivity|].
    destruct (last_char word_char y t' T) as (pre & d & Et & D).
    rewrite Et. rewrite length_append. change (length (String d EmptyString)) with 1%nat.
    replace (length pre + 1)%nat with (S (length pre)) by lia.
    change (trim_end (String x ((pre ++ String d EmptyString) ++ String LF EmptyString))
              (S (length pre)))
      with (if isspace (char_at (String x ((pre ++ String d EmptyString)
                                           ++ String LF EmptyString)) (S (length pre)))
            then trim_end (String x ((pre ++ String d EmptyString)
                                     ++ String LF EmptyString)) (length pre)
            else S (length pre)).
    change (char_at (String x ((pre ++ String d EmptyString) ++ String LF EmptyString))
              (S (length pre)))
      with (char_at ((pre ++ String d EmptyString) ++ String LF EmptyString) (length pre)).
    rewrite append_assoc.
    change (String d EmptyString ++ String LF EmptyString)
      with (String d (String LF EmptyString)).
    rewrite char_at_append.
    rewrite (word_char_space _ D). reflexivity. }
  rewrite E.
  change (substring 0 (S (length t)) (String x (t ++ String LF EmptyString)))
    with (String x (substring 0 (length t) (t ++ String LF EmptyString))).
  rewrite substring_prefix. reflexivity.
Qed.

Lemma digits_value_append (num : string) (c : ascii) (rest : string) (acc : Z) :
  all_chars is_digit num = true -> digit_value c = None ->
  digits_value (num ++ String c rest) acc = digits_value num acc.
Proof.
  intros D C. revert acc. induction num as [|x num IH]; intros acc; simpl.
  - rewrite C. reflexivity.
  - simpl in D. apply andb_prop in D. destruct D as (D1 & D2).
    unfold is_digit in D1. destruct (digit_value x); [|discriminate].
    apply IH. exact D2.
Qed.

Lemma skip_digits_append (num : string) (c : ascii) (rest : string) :
  all_chars is_digit num = true -> digit_value c = None ->
  skip_digits (num ++ String c rest) = String c rest.
Proof.
  intros D C. induction num as [|x num IH]; simpl.
  - rewrite C. reflexivity.
  - simpl in D. apply andb_prop in D. destruct D as (D1 & D2).
    unfold is_digit in D1. destruct (digit_value x); [|discriminate].
    apply IH. exact D2.
Qed.

Lemma scan_word_all (n : nat) (w : string) :
  all_chars word_char w = true -> (length w <= n)%nat -> scan_word n w = w.
Proof.
  revert n. induction w as [|c w IH]; intros n W L.
  - destruct n; reflexivity.
  - destruct n as [|n]; [simpl in L; lia|].
    simpl in W. apply andb_prop in W. destruct W as (W1 & W2).
    simpl. rewrite (word_char_space _ W1). rewrite IH; [reflexivity|exact W2|].
    simpl in L. lia.
Qed.

Lemma scan_d_unsigned (c : ascii) (s : string) :
  is_digit c = true ->
  scan_d (String c s) = Some (digits_value (String c s) 0, skip_digits (String c s)).
Proof.
  destruct c as [[] [] [] [] [] [] [] []]; intros H; try discriminate H; reflexivity.
Qed.

Lemma number_char_word (c : ascii) : number_char c = true -> word_char c = true.
Proof.
  destruct c as [[] [] [] [] [] [] [] []]; intros H; try discriminate H; reflexivity.
Qed.

(** [sscanf] with [%d,%15s] reads back a number printed with [%d], a
    comma and a word. *)
Lemma sscanf_button_line (n : Z) (c : ascii) (w : string) :
  (0 <= n <= INT_MAX)%Z ->
  all_chars word_char (String c w) = true -> (length (String c w) <= 15)%nat ->
  sscanf_button (format_d n ++ "," ++ String c w) = Some (Some (n, String c w)).
Proof.
  intros R W L. unfold sscanf_button, format_d.
  assert (E : (n <? 0)%Z = false) by (apply Z.ltb_ge; lia). rewrite E.
  pose proof (format_unsigned_chars 20 n EmptyString eq_refl) as D.
  pose proof (format_unsigned_value 20 n EmptyString) as V.
  destruct (format_unsigned_head 20 n EmptyString) as (x & rest & F).
  rewrite F in *.
  change (String x rest ++ "," ++ String c w)
    with (String x (rest ++ String ","%char (String c w))).
  pose proof D as D'. simpl in D'. apply andb_prop in D'. destruct D' as (D1 & D2).
  rewrite (scan_d_unsigned x _ D1).
  change (String x (rest ++ String ","%char (String c w)))
    with (String x rest ++ String ","%char (String c w)).
  rewrite (digits_value_append _ ","%char _ 0 D eq_refl).
  rewrite (skip_digits_append _ ","%char _ D eq_refl).
  rewrite V.
  2:{ rewrite pow10_21. unfold INT_MAX in R. change (2 ^ 31)%Z with 2147483648%Z in R. lia. }
  change (digits_value EmptyString n) with n.
  assert (I : ((INT_MIN <=? n) && (n <=? INT_MAX))%Z = true).
  { apply andb_true_intro. split; apply Z.leb_le; [|lia].
    unfold INT_MIN. change (2 ^ 31)%Z with 2147483648%Z. lia. }
  rewrite I. cbv iota beta. change (negb true) with false. cbv iota.
  pose proof W as W'. simpl in W'. apply andb_prop in W'. destruct W' as (W1 & _).
  rewrite (skip_spaces_word c w W1).
  rewrite (scan_word_all 15 (String c w) W L). reflexivity.
Qed.

(** What [parse_pico_command] keeps of a line of words that ends in a
    line end. *)
Lemma raw_of_line (text : string) :
  text <> EmptyString -> all_chars word_char text = true -> (length text <= 62)%nat ->
  trim_whitespace (strncpy 63 (text ++ String LF EmptyString)) = text.
Proof.
  intros N W L. unfold strncpy. rewrite substring_short.
  - apply trim_whitespace_line; assumption.
  - rewrite length_append. simpl. lia.
Qed.

Lemma word_line_parsed (a b c d : ascii) (word : string) (cmd : PicoCommand) :
  let prefix := String a (String b (String c (String d EmptyString))) in
  all_chars word_char (prefix ++ word) = true -> (length word <= 58)%nat ->
  strncmp_eq prefix "BTN:" 4 = false ->
  parse_pico_command (Some (prefix ++ word ++ String LF EmptyString)) cmd =
  Some (if strncmp_eq prefix "JOY:" 4 then true
        else if strncmp_eq prefix "CMD:" 4 then true else false,
        if strncmp_eq prefix "JOY:" 4 then parsed_command CMD_TYPE_JOY (prefix ++ word)
        else if strncmp_eq prefix "CMD:" 4 then parsed_command CMD_TYPE_CMD (prefix ++ word)
        else {| cmd_type := CMD_TYPE_NONE; display_text := EmptyString;
                raw_string := prefix ++ word |}).
Proof.
  intros prefix W L B. unfold parse_pico_command.
  rewrite <- append_assoc. rewrite raw_of_line.
  2:{ discriminate. }
  2:{ exact W. }
  2:{ rewrite length_append. simpl. lia. }
  change (length (prefix ++ word) =? 0)%nat with false. cbv iota.
  assert (P : forall needle, length needle = 4%nat ->
                strncmp_eq (prefix ++ word) needle 4 = strncmp_eq prefix needle 4).
  { intros needle. destruct needle as [|n1 [|n2 [|n3 [|n4 [|n5 needle]]]]];
      try discriminate. intros _. simpl.
    destruct (Ascii.eqb a n1), (Ascii.eqb b n2), (Ascii.eqb c n3), (Ascii.eqb d n4);
      reflexivity. }
  rewrite !P by reflexivity. rewrite B.
  unfold strncpy. rewrite substring_short.
  2:{ rewrite length_append. simpl. lia. }
  destruct (strncmp_eq prefix "JOY:" 4); [reflexivity|].
  destruct (strncmp_eq prefix "CMD:" 4); reflexivity.
Qed.

(** X21: the Raspberry Pi reads back what the Pico menu writes.  For a
    button number of type [uint8_t] and an action of 1 to 15 characters
    that are no white space, the line of [send_button_command] is accepted
    by [parse_pico_command] as a button command whose display text and raw
    string are the line without its line end; so are, as joystick and as
    high-level commands, the lines of [send_joystick_command] and
    [send_high_level_command] for a word of up to 58 such characters. *)
Theorem pico_lines_read_back (button_id : Z) (action word : string) (cmd : PicoCommand) :
  all_chars word_char action = true -> (1 <= length action <= 15)%nat ->
  all_chars word_char word = true -> (length word <= 58)%nat ->
  parse_pico_command (Some (send_button_command button_id action)) cmd =
    Some (true, parsed_command CMD_TYPE_BTN
                  ("BTN:" ++ format_d (to_uint8 button_id) ++ "," ++ action)) /\
  parse_pico_command (Some (send_joystick_command word)) cmd =
    Some (true, parsed_command CMD_TYPE_JOY ("JOY:" ++ word)) /\
  parse_pico_command (Some (send_high_level_command word)) cmd =
    Some (true, parsed_command CMD_TYPE_CMD ("CMD:" ++ word)).
Proof.
  intros WA LA WW LW.
  split; [|split].
  - unfold send_button_command.
    set (num := format_d (to_uint8 button_id)).
    assert (LN : (length num <= 11)%nat) by (apply format_d_length, to_uint8_int).
    assert (WN : all_chars word_char num = true).
    { apply (all_chars_weaken number_char); [exact number_char_word|apply format_d_chars]. }
    assert (R : (0 <= to_uint8 button_id <= INT_MAX)%Z).
    { pose proof (to_uint8_int button_id). unfold to_uint8 in *.
      pose proof (Z.mod_pos_bound button_id 256). lia. }
    destruct action as [|c w]; [simpl in LA; lia|].
    pose proof (sscanf_button_line (to_uint8 button_id) c w R WA (proj2 LA)) as S.
    fold num in S.
    set (rest := num ++ "," ++ String c w) in *.
    assert (WR : all_chars word_char rest = true).
    { unfold rest. rewrite !all_chars_append, WN, WA. reflexivity. }
    assert (LR : (length rest <= 27)%nat).
    { unfold rest. rewrite !length_append. simpl in LA |- *. lia. }
    assert (EL : "BTN:" ++ num ++ "," ++ String c w ++ String LF EmptyString
                 = ("BTN:" ++ rest) ++ String LF EmptyString).
    { unfold rest. rewrite !append_assoc. reflexivity. }
    rewrite EL. change ("BTN:" ++ num ++ "," ++ String c w) with ("BTN:" ++ rest).
    unfold parse_pico_command.
    rewrite raw_of_line.
    2:{ discriminate. }
    2:{ rewrite all_chars_append, WR. reflexivity. }
    2:{ rewrite length_append. simpl. lia. }
    change (length ("BTN:" ++ rest) =? 0)%nat with false.
    change (strncmp_eq ("BTN:" ++ rest) "BTN:" 4) with true.
    change (advance ("BTN:" ++ rest) 4) with rest.
    cbv iota. rewrite S.
    fold num. change (num ++ "," ++ String c w) with rest.
    unfold snprintf. rewrite substring_short.
    2:{ rewrite length_append. simpl. lia. }
    reflexivity.
  - unfold send_joystick_command.
    rewrite (word_line_parsed "J" "O" "Y" ":" word cmd); [reflexivity| |exact LW|reflexivity].
    rewrite all_chars_append, WW. reflexivity.
  - unfold send_high_level_command.
    rewrite (word_line_parsed "C" "M" "D" ":" word cmd); [reflexivity| |exact LW|reflexivity].
    rewrite all_chars_append, WW. reflexivity.
Qed.

(** The press of key 1 and the command that follows it. *)
Lemma pico_lines_read_back_witness :
  parse_pico_command (Some (send_button_command 1 "PRESS"))
                     (parsed_command CMD_TYPE_NONE EmptyString)
  = Some (true, parsed_command CMD_TYPE_BTN "BTN:1,PRESS") /\
  parse_pico_command (Some (send_joystick_command "FLY_MODE"))
                     (parsed_command CMD_TYPE_NONE EmptyString)
  = Some (true, parsed_command CMD_TYPE_JOY "JOY:FLY_MODE") /\
  parse_pico_command (Some (send_high_level_command "FLY_MODE"))
                     (parsed_command CMD_TYPE_NONE EmptyString)
  = Some (true, parsed_command CMD_TYPE_CMD "CMD:FLY_MODE").
Proof.
  apply (pico_lines_read_back 1 "PRESS" "FLY_MODE" (parsed_command CMD_TYPE_NONE EmptyString));
    [reflexivity|simpl; lia|reflexivity|simpl; lia].
Defined.

End CommandLines.

(* ================================================================== *)
(** * Debounced inputs and the commands of the main loop *)
(* ================================================================== *)

Section Inputs.
Import Ascii String.
Variable DEBOUNCE_MS : Z.
Variable JOYSTICK_CENTER_MIN : Z.
Variable JOYSTICK_CENTER_MAX : Z.
Local Open Scope Z_scope.


Lemma debounce_change (raw value : bool) (time now : Z) :
  fst (InputHandler.debounce DEBOUNCE_MS raw value time now) <> value ->
  fst (InputHandler.debounce DEBOUNCE_MS raw value time now) = raw /\
  InputHandler.is_debounced DEBOUNCE_MS time now = true /\
  snd (InputHandler.debounce DEBOUNCE_MS raw value time now) = now.
Proof.
  unfold InputHandler.debounce.
  destruct (negb (Bool.eqb raw value) && InputHandler.is_debounced DEBOUNCE_MS time now)
    eqn:E; simpl.
  - intros _. apply andb_prop in E. destruct E as (_ & E). repeat split. exact E.
  - intros N. contradiction N. reflexivity.
Qed.

Lemma debounce_hold (raw value : bool) (time now : Z) :
  to_uint32 (now - time) <= to_uint32 DEBOUNCE_MS ->
  fst (InputHandler.debounce DEBOUNCE_MS raw value time now) = value.
Proof.
  intros H. unfold InputHandler.debounce, InputHandler.is_debounced.
  assert (E : (to_uint32 (now - time) >? to_uint32 DEBOUNCE_MS) = false).
  { rewrite Z.gtb_ltb. apply Z.ltb_ge. exact H. }
  rewrite E, andb_false_r. reflexivity.
Qed.

Lemma read_held (b : Input) (s : InputHandler.InputState) (p : InputHandler.Pins) (t : Z) :
  let s' :=
    InputHandler.input_read DEBOUNCE_MS JOYSTICK_CENTER_MIN JOYSTICK_CENTER_MAX s p t in
  exists raw,
    held b s' = fst (InputHandler.debounce DEBOUNCE_MS raw (held b s) (changed_at b s) t) /\
    changed_at b s'
    = snd (InputHandler.debounce DEBOUNCE_MS raw (held b s) (changed_at b s) t) /\
    held_before b s' = held b s.
Proof.
  intros s'. subst s'. destruct b; simpl; eexists; repeat split.
Qed.

Lemma just_pressed_edge (b : Input) (s : InputHandler.InputState) :
  just_pressed b s = held b s && negb (held_before b s).
Proof. destruct b; reflexivity. Qed.

(** X24: the inputs are debounced and their presses are single pulses.
    For each of the eight inputs and two reads in a row: when
    [input_just_pressed] holds after the first read, the input was not
    held before it, more than [DEBOUNCE_MS] milliseconds (on the 32-bit
    clock) had passed since its last change, the change is stamped with
    the time of the read, and [input_just_pressed] no longer holds after
    the second read; and an input that changed in the first read keeps
    its state in a second read that comes no more than [DEBOUNCE_MS]
    milliseconds later, whatever the pins show. *)
Theorem input_changes_debounced (s : InputHandler.InputState)
    (p1 p2 : InputHandler.Pins) (t1 t2 : Z) (b : Input) :
  let s1 := InputHandler.input_read DEBOUNCE_MS JOYSTICK_CENTER_MIN JOYSTICK_CENTER_MAX s p1 t1 in
  let s2 := InputHandler.input_read DEBOUNCE_MS JOYSTICK_CENTER_MIN JOYSTICK_CENTER_MAX s1 p2 t2 in
  (just_pressed b s1 = true ->
     held b s = false /\ InputHandler.is_debounced DEBOUNCE_MS (changed_at b s) t1 = true /\
     changed_at b s1 = t1 /\ just_pressed b s2 = false) /\
  (held b s1 <> held b s -> to_uint32 (t2 - t1) <= to_uint32 DEBOUNCE_MS ->
     held b s2 = held b s1).
Proof.
  intros s1 s2.
  destruct (read_held b s p1 t1) as (raw1 & H1 & T1 & P1). fold s1 in H1, T1, P1.
  destruct (read_held b s1 p2 t2) as (raw2 & H2 & T2 & P2). fold s2 in H2, T2, P2.
  split.
  - intros J. rewrite just_pressed_edge in J. apply andb_prop in J.
    destruct J as (J1 & J2). rewrite P1 in J2. apply negb_true_iff in J2.
    assert (C : fst (InputHandler.debounce DEBOUNCE_MS raw1 (held b s) (changed_at b s) t1)
                <> held b s).
    { rewrite <- H1, J1, J2. discriminate. }
    destruct (debounce_change _ _ _ _ C) as (_ & D & T).
    split; [exact J2|]. split; [exact D|]. split; [rewrite T1; exact T|].
    rewrite just_pressed_edge, P2, J1. apply andb_false_r.
  - intros C L.
    assert (C' : fst (InputHandler.debounce DEBOUNCE_MS raw1 (held b s) (changed_at b s) t1)
                 <> held b s).
    { rewrite <- H1. exact C. }
    destruct (debounce_change _ _ _ _ C') as (_ & _ & T).
    rewrite H2. apply debounce_hold. rewrite T1, T. exact L.
Qed.

End Inputs.

Section MainCommands.
Import Ascii String.
Local Open Scope string_scope.

Lemma on_both_spec (f : bool -> bool) : on_both f = true -> forall b, f b = true.
Proof.
  unfold on_both. intros H b. apply andb_prop in H. destruct b; apply H.
Qed.

(** The commands follow the edges for every state whose tracker holds the
    state of the read before: by trying the 65536 cases. *)
Lemma main_commands_edges (st : InputHandler.InputState) (t : ButtonReleaseTracker) :
  (forall b, was_pressed b t = held_before b st) ->
  commands_follow_edges st (main_commands st t) = true.
Proof.
  intros H.
  pose proof (H InUp) as H1. pose proof (H InDown) as H2.
  pose proof (H InLeft) as H3. pose proof (H InRight) as H4.
  pose proof (H InPress) as H5. pose proof (H InKey1) as H6.
  pose proof (H InKey2) as H7. pose proof (H InKey4) as H8. clear H.
  destruct t as [k1 k2 k4 pr u d l r].
  destruct st as [a1 a2 a3 a4 a5 a6 a7 a8 b1 b2 b3 b4 b5 b6 b7 b8
                  t1 t2 t3 t4 t5 t6 t7 t8].
  simpl in H1, H2, H3, H4, H5, H6, H7, H8. subst.
  revert t1 t2 t3 t4 t5 t6 t7 t8. intros.
  revert a1 a2 a3 a4 a5 a6 a7 a8 b1 b2 b3 b4 b5 b6 b7 b8.
  assert (G : on_both (fun a1 => on_both (fun a2 => on_both (fun a3 => on_both (fun a4 =>
              on_both (fun a5 => on_both (fun a6 => on_both (fun a7 => on_both (fun a8 =>
              on_both (fun b1 => on_both (fun b2 => on_both (fun b3 => on_both (fun b4 =>
              on_both (fun b5 => on_both (fun b6 => on_both (fun b7 => on_both (fun b8 =>
                let st := InputHandler.Build_InputState a1 a2 a3 a4 a5 a6 a7 a8
                            b1 b2 b3 b4 b5 b6 b7 b8 0 0 0 0 0 0 0 0 in
                commands_follow_edges st
                  (main_commands st
                     (Build_ButtonReleaseTracker b6 b7 b8 b5 b1 b2 b3 b4))))))))))))))))))
              = true).
  { vm_compute. reflexivity. }
  intros a1 a2 a3 a4 a5 a6 a7 a8 b1 b2 b3 b4 b5 b6 b7 b8.
  pose proof (on_both_spec _ G a1) as G1. cbv beta in G1.
  pose proof (on_both_spec _ G1 a2) as G2. cbv beta in G2.
  pose proof (on_both_spec _ G2 a3) as G3. cbv beta in G3.
  pose proof (on_both_spec _ G3 a4) as G4. cbv beta in G4.
  pose proof (on_both_spec _ G4 a5) as G5. cbv beta in G5.
  pose proof (on_both_spec _ G5 a6) as G6. cbv beta in G6.
  pose proof (on_both_spec _ G6 a7) as G7. cbv beta in G7.
  pose proof (on_both_spec _ G7 a8) as G8. cbv beta in G8.
  pose proof (on_both_spec _ G8 b1) as G9. cbv beta in G9.
  pose proof (on_both_spec _ G9 b2) as G10. cbv beta in G10.
  pose proof (on_both_spec _ G10 b3) as G11. cbv beta in G11.
  pose proof (on_both_spec _ G11 b4) as G12. cbv beta in G12.
  pose proof (on_both_spec _ G12 b5) as G13. cbv beta in G13.
  pose proof (on_both_spec _ G13 b6) as G14. cbv beta in G14.
  pose proof (on_both_spec _ G14 b7) as G15. cbv beta in G15.
  pose proof (on_both_spec _ G15 b8) as G16. cbv beta in G16.
  exact G16.
Qed.

(** X25: the main loop of the Pico menu reports every change of a key
    once.  When the release tracker holds the debounced state of the
    eight inputs, as it does at the start, it holds it again after
    [input_read] and the commands of one pass, and the text written in
    the pass is the line of [input_read] with the raw values of the
    joystick, on every 1000th read of the program (the first included),
    followed by lines told by the edges alone: the press lines of the
    keys that went down in this read, then the release lines of the keys
    that went up, then the directions the joystick went to.  So each key
    sends PRESS and RELEASE in turn. *)
Theorem releases_follow_presses (DEBOUNCE_MS JOYSTICK_CENTER_MIN JOYSTICK_CENTER_MAX : Z)
    (s : InputHandler.InputState) (t : ButtonReleaseTracker)
    (pins : InputHandler.Pins) (now debug_counter : Z) :
  (forall b, was_pressed b t = held b s) ->
  (0 <= debug_counter < INT_MAX)%Z ->
  let st := InputHandler.input_read DEBOUNCE_MS JOYSTICK_CENTER_MIN JOYSTICK_CENTER_MAX
              s pins now in
  exists t',
    main_pass DEBOUNCE_MS JOYSTICK_CENTER_MIN JOYSTICK_CENTER_MAX
      debug_counter s t pins now =
    Some ((debug_counter + 1)%Z, st, t',
          when (debug_counter mod 1000 =? 0)%Z
               (debug_line JOYSTICK_CENTER_MIN JOYSTICK_CENTER_MAX pins)
          ++ lines_of_edges st) /\
    (forall b, was_pressed b t' = held b st) /\
    t' = fst (main_commands st t) /\
    snd (main_commands st t) = lines_of_edges st.
Proof.
  intros H C st.
  assert (P : forall b, was_pressed b t = held_before b st).
  { intros b. rewrite H. destruct b; reflexivity. }
  pose proof (main_commands_edges st t P) as E.
  unfold commands_follow_edges in E. apply andb_prop in E. destruct E as (E1 & E2).
  apply String.eqb_eq in E2.
  exists (fst (main_commands st t)). split; [|split; [|split]].
  - unfold main_pass, InputHandler.input_read_debug.
    assert (N : (debug_counter =? INT_MAX)%Z = false) by (apply Z.eqb_neq; lia).
    rewrite N. fold st.
    rewrite Z.rem_mod_nonneg by lia.
    destruct (main_commands st t) as [t' out] eqn:M. simpl in E2. subst out.
    simpl fst. unfold when at 1, debug_line. reflexivity.
  - intros b. rewrite forallb_forall in E1.
    apply Bool.eqb_prop. apply E1. destruct b; simpl; tauto.
  - reflexivity.
  - exact E2.
Qed.

End MainCommands.

(* ================================================================== *)
(** * The menu *)
(* ================================================================== *)

Section MenuTheory.
Variable Action : Type.
Local Open Scope Z_scope.

Lemma array_at_some (T : Type) (a : list T) (i : Z) :
  0 <= i < Z.of_nat (length a) -> exists v, array_at a i = Some v.
Proof.
  intros H. unfold array_at.
  assert (E : (i <? 0) = false) by (apply Z.ltb_ge; lia). rewrite E.
  destruct (nth_error a (Z.to_nat i)) as [v|] eqn:N; [exists v; reflexivity|].
  apply nth_error_None in N. lia.
Qed.

Lemma array_at_none (T : Type) (a : list T) (i : Z) :
  Z.of_nat (length a) <= i -> array_at a i = None.
Proof.
  intros H. unfold array_at.
  assert (E : (i <? 0) = false) by (apply Z.ltb_ge; lia). rewrite E.
  apply nth_error_None. lia.
Qed.

(** Within the two arrays every item can be drawn. *)
Lemma menu_draw_item_some (menu : MenuState Action) (index : Z) (selected : bool) :
  item_count menu <= Z.of_nat (length (items menu)) ->
  item_count menu <= Z.of_nat (length (positions menu)) ->
  exists d, menu_draw_item menu index selected = Some d.
Proof.
  intros HI HP. unfold menu_draw_item.
  destruct ((index <? 0) || (index >=? item_count menu)) eqn:E; [eexists; reflexivity|].
  apply orb_false_elim in E. destruct E as (E1 & E2).
  apply Z.ltb_ge in E1. rewrite Z.geb_leb in E2. apply Z.leb_gt in E2.
  destruct (array_at_some _ (positions menu) index) as (r & R); [lia|].
  destruct (array_at_some _ (items menu) index) as (it & I); [lia|].
  rewrite R, I. eexists. reflexivity.
Qed.

(** An item past the end of the positions cannot. *)
Lemma menu_draw_item_none (menu : MenuState Action) (index : Z) (selected : bool) :
  0 <= index < item_count menu -> Z.of_nat (length (positions menu)) <= index ->
  menu_draw_item menu index selected = None.
Proof.
  intros H L. unfold menu_draw_item.
  assert (E : (index <? 0) || (index >=? item_count menu) = false).
  { apply orb_false_intro; [apply Z.ltb_ge; lia|].
    rewrite Z.geb_leb. apply Z.leb_gt. lia. }
  rewrite E, (array_at_none _ _ _ L). reflexivity.
Qed.

Lemma draw_items_some (menu : MenuState Action) (n : nat) (i : Z) :
  item_count menu <= Z.of_nat (length (items menu)) ->
  item_count menu <= Z.of_nat (length (positions menu)) ->
  exists d, draw_items menu i n = Some d.
Proof.
  intros HI HP. revert i. induction n as [|n IH]; intros i; simpl.
  - eexists. reflexivity.
  - destruct (menu_draw_item_some menu i (i =? selection_index menu) HI HP) as (d & D).
    rewrite D. destruct (IH (i + 1)) as (r & R). rewrite R. eexists. reflexivity.
Qed.

Lemma draw_items_none (menu : MenuState Action) (n : nat) (i k : Z) :
  0 <= i <= k -> k < i + Z.of_nat n -> k < item_count menu ->
  Z.of_nat (length (positions menu)) <= k ->
  draw_items menu i n = None.
Proof.
  revert i. induction n as [|n IH]; intros i H1 H2 H3 H4; [lia|].
  simpl. destruct (Z.eq_dec i k) as [E|E].
  - subst i. rewrite menu_draw_item_none by lia. reflexivity.
  - destruct (menu_draw_item menu i (i =? selection_index menu)); [|reflexivity].
    rewrite (IH (i + 1)) by lia. reflexivity.
Qed.

(** X23: the default positions hold four items.  A menu set up by
    [menu_init] without positions of its own can be drawn by
    [menu_draw_full] when it has at most four items; with more, as with
    the five items of the main menu, the loop reads the rectangle of the
    fifth item past the end of [default_positions]. *)
Theorem default_positions_hold_four (menu_items : list (MenuItem Action)) (count : Z) :
  0 <= count <= Z.of_nat (length menu_items) ->
  (menu_draw_full (menu_init menu_items count None) = None <-> 4 < count).
Proof.
  intros H. unfold menu_draw_full.
  change (item_count (menu_init menu_items count None)) with count. split.
  - intros N. destruct (Z_lt_le_dec 4 count) as [G|G]; [exact G|exfalso].
    destruct (draw_items_some (menu_init menu_items count None) (Z.to_nat count) 0)
      as (d & D).
    + simpl. lia.
    + simpl. lia.
    + rewrite D in N. discriminate.
  - intros G.
    rewrite (draw_items_none (menu_init menu_items count None) (Z.to_nat count) 0 4).
    + reflexivity.
    + lia.
    + change (item_count (menu_init menu_items count None)) with count. lia.
    + simpl. lia.
    + simpl. lia.
Qed.

Lemma int_rem_small (a b : Z) :
  0 <= a <= INT_MAX -> 0 < b -> int_rem a b = Some (a mod b).
Proof.
  intros A B. unfold int_rem.
  assert (E1 : (b =? 0) = false) by (apply Z.eqb_neq; lia).
  assert (E2 : (INT_MIN <=? a) && (a <=? INT_MAX) = true).
  { apply andb_true_intro. split; apply Z.leb_le; [|lia].
    unfold INT_MIN. lia. }
  assert (E3 : (b =? -1) = false) by (apply Z.eqb_neq; lia).
  rewrite E1, E2, E3, andb_false_r. simpl.
  rewrite Z.rem_mod_nonneg by lia. reflexivity.
Qed.

Lemma down_index (count index : Z) :
  0 < count <= 2 ^ 30 -> index = -1 \/ 0 <= index < count ->
  (if index =? -1 then Some 0 else int_rem (index + 1) count)
  = Some (moved_down count index) /\
  0 <= moved_down count index < count.
Proof.
  intros C H. unfold moved_down.
  destruct (index =? -1) eqn:E; [split; [reflexivity|lia]|].
  apply Z.eqb_neq in E. destruct H as [H|H]; [contradiction|].
  rewrite int_rem_small by (unfold INT_MAX; lia).
  destruct (index + 1 =? count) eqn:W.
  - apply Z.eqb_eq in W. rewrite W, Z.mod_same by lia. split; [reflexivity|lia].
  - apply Z.eqb_neq in W. rewrite Z.mod_small by lia. split; [reflexivity|lia].
Qed.

Lemma up_index (count index : Z) :
  0 < count <= 2 ^ 30 -> index = -1 \/ 0 <= index < count ->
  (if index =? -1 then Some (count - 1)
   else int_rem (index - 1 + count) count)
  = Some (moved_up count index) /\
  0 <= moved_up count index < count.
Proof.
  intros C H. unfold moved_up.
  destruct (index =? -1) eqn:E; [split; [reflexivity|lia]|].
  apply Z.eqb_neq in E. destruct H as [H|H]; [contradiction|].
  rewrite int_rem_small by (unfold INT_MAX; lia).
  destruct (index =? 0) eqn:W.
  - apply Z.eqb_eq in W. subst index. rewrite Z.mod_small by lia. split; [f_equal; lia|lia].
  - apply Z.eqb_neq in W.
    replace (index - 1 + count) with (index - 1 + 1 * count) by lia.
    rewrite Z.mod_add by lia. rewrite Z.mod_small by lia. split; [reflexivity|lia].
Qed.

(** Down and up undo each other on a selected item. *)
Lemma up_down_inverse (count index : Z) :
  0 <= index < count ->
  moved_up count (moved_down count index) = index /\
  moved_down count (moved_up count index) = index.
Proof.
  intros H. split.
  - unfold moved_down.
    destruct (Z.eqb_spec index (-1)); [lia|].
    destruct (Z.eqb_spec (index + 1) count); unfold moved_up.
    + destruct (Z.eqb_spec 0 (-1)); [lia|].
      destruct (Z.eqb_spec 0 0); lia.
    + destruct (Z.eqb_spec (index + 1) (-1)); [lia|].
      destruct (Z.eqb_spec (index + 1) 0); lia.
  - unfold moved_up.
    destruct (Z.eqb_spec index (-1)); [lia|].
    destruct (Z.eqb_spec index 0); unfold moved_down.
    + destruct (Z.eqb_spec (count - 1) (-1)); [lia|].
      destruct (Z.eqb_spec (count - 1 + 1) count); lia.
    + destruct (Z.eqb_spec (index - 1) (-1)); [lia|].
      destruct (Z.eqb_spec (index - 1 + 1) count); lia.
Qed.

(** [menu_update_selection] within the arrays: the highlight follows the
    selection. *)
Lemma menu_update_selection_some (menu : MenuState Action) :
  item_count menu <= Z.of_nat (length (items menu)) ->
  item_count menu <= Z.of_nat (length (positions menu)) ->
  exists menu' d,
    menu_update_selection menu = Some (menu', d) /\
    items menu' = items menu /\ item_count menu' = item_count menu /\
    positions menu' = positions menu /\
    selection_index menu' = selection_index menu /\
    last_selection_index menu' = selection_index menu.
Proof.
  intros HI HP. unfold menu_update_selection.
  destruct (selection_index menu =? last_selection_index menu) eqn:E.
  - apply Z.eqb_eq in E. exists menu. eexists. repeat split. symmetry. exact E.
  - destruct (menu_draw_item_some menu (last_selection_index menu) false HI HP) as (d1 & D1).
    destruct (menu_draw_item_some menu (selection_index menu) true HI HP) as (d2 & D2).
    rewrite D1, D2.
    destruct (_ && _); destruct (_ && _); eexists; eexists; repeat split.
Qed.

(** One move of the selection, as [menu_handle_input] makes it for DOWN
    and for UP. *)
Lemma selection_moved (menu : MenuState Action) (pressed : bool)
    (index : option Z) (target : Z) :
  item_count menu <= Z.of_nat (length (items menu)) ->
  item_count menu <= Z.of_nat (length (positions menu)) ->
  index = Some target ->
  exists menu' d,
    (if pressed then
       match index with
       | None => None
       | Some index => menu_update_selection (with_selection menu index)
       end
     else Some (menu, [])) = Some (menu', d) /\
    items menu' = items menu /\ item_count menu' = item_count menu /\
    positions menu' = positions menu /\
    selection_index menu' = (if pressed then target else selection_index menu) /\
    last_selection_index menu' =
      (if pressed then target else last_selection_index menu).
Proof.
  intros HI HP E. subst index. destruct pressed.
  - destruct (menu_update_selection_some (with_selection menu target) HI HP)
      as (menu' & d & U & F1 & F2 & F3 & F4 & F5).
    exists menu', d. repeat split; assumption.
  - exists menu, []. repeat split.
Qed.

(** X22: the selection of the menu stays on an item.  For a menu of at
    most 2^30 items that lie within its two arrays, with no selection or
    a selection on an item, [menu_handle_input] reads no array past its
    end and leaves the selection moved one step down for DOWN and then
    one step up for UP, with the wrap at both ends: it is on an item
    after any move, the highlight follows it, and DOWN and UP in one read
    cancel on a selected item.  RIGHT or PRESS then run the action of the
    item selected after the move, and only they do. *)
Theorem menu_selection_stays_on_item (menu : MenuState Action)
    (input : InputHandler.InputState) :
  0 < item_count menu <= 2 ^ 30 ->
  item_count menu <= Z.of_nat (length (items menu)) ->
  item_count menu <= Z.of_nat (length (positions menu)) ->
  selection_index menu = -1 \/ 0 <= selection_index menu < item_count menu ->
  let down := InputHandler.input_just_pressed_down input in
  let up := InputHandler.input_just_pressed_up input in
  let go := InputHandler.input_just_pressed_right input
            || InputHandler.input_just_pressed_press input in
  let count := item_count menu in
  let index1 :=
    if down then moved_down count (selection_index menu) else selection_index menu in
  let index2 := if up then moved_up count index1 else index1 in
  exists menu' draws,
    menu_handle_input menu input =
      Some (menu', draws,
            if go && (0 <=? index2)
            then match array_at (items menu) index2 with
                 | Some item => action item
                 | None => None
                 end
            else None,
            go && (0 <=? index2)) /\
    items menu' = items menu /\ item_count menu' = count /\
    positions menu' = positions menu /\
    selection_index menu' = index2 /\
    (index2 = -1 \/ 0 <= index2 < count) /\
    (down || up = true -> 0 <= index2 < count /\ last_selection_index menu' = index2) /\
    (down && up = true -> 0 <= selection_index menu -> index2 = selection_index menu) /\
    (go && (0 <=? index2) = true -> exists item, array_at (items menu) index2 = Some item).
Proof.
  intros HC HI HP HS down up go count index1 index2. subst count.
  destruct (down_index (item_count menu) (selection_index menu) HC HS) as (D & DB).
  assert (S1 : index1 = -1 \/ 0 <= index1 < item_count menu).
  { unfold index1. destruct down; [right; exact DB|exact HS]. }
  destruct (up_index (item_count menu) index1 HC S1) as (U & UB).
  assert (S2 : index2 = -1 \/ 0 <= index2 < item_count menu).
  { unfold index2. destruct up; [right; exact UB|exact S1]. }
  destruct (selection_moved menu down _ _ HI HP D)
    as (menu1 & d1 & M1 & A1 & A2 & A3 & A4 & A5).
  fold index1 in A4.
  assert (U' : (if selection_index menu1 =? -1 then Some (item_count menu1 - 1)
                else int_rem (selection_index menu1 - 1 + item_count menu1)
                             (item_count menu1))
               = Some (moved_up (item_count menu) index1)).
  { rewrite A4, A2. exact U. }
  assert (HI1 : item_count menu1 <= Z.of_nat (length (items menu1))).
  { rewrite A1, A2. exact HI. }
  assert (HP1 : item_count menu1 <= Z.of_nat (length (positions menu1))).
  { rewrite A3, A2. exact HP. }
  destruct (selection_moved menu1 up _ _ HI1 HP1 U')
    as (menu2 & d2 & M2 & B1 & B2 & B3 & B4 & B5).
  rewrite A4 in B4. fold index2 in B4.
  assert (G : go && (0 <=? index2) = true ->
              exists item, array_at (items menu) index2 = Some item).
  { intros E. apply andb_prop in E. destruct E as (_ & E). apply Z.leb_le in E.
    apply array_at_some. lia. }
  exists menu2, (d1 ++ d2)%list.
  split.
  { unfold menu_handle_input. fold down. rewrite M1. fold up. rewrite M2. fold go.
    rewrite B4, B1, A1. rewrite Z.geb_leb.
    destruct (go && (0 <=? index2)) eqn:E; [|reflexivity].
    destruct (G eq_refl) as (item & I). rewrite I. reflexivity. }
  split; [rewrite B1; exact A1|].
  split; [rewrite B2; exact A2|].
  split; [rewrite B3; exact A3|].
  split; [exact B4|].
  split; [exact S2|].
  split.
  { intros E. rewrite B5. unfold index2, index1 in *.
    destruct up; [split; [exact UB|reflexivity]|].
    destruct down; [|discriminate E].
    split; [exact DB|]. rewrite A5. reflexivity. }
  split; [|exact G].
  intros E P. apply andb_prop in E. destruct E as (E1 & E2).
  unfold index2, index1. rewrite E1, E2.
  apply up_down_inverse. lia.
Qed.

End MenuTheory.

Section MenuWitnesses.
Import Ascii String.
Local Open Scope Z_scope.

(** The five items of the main menu. *)
Lemma default_positions_hold_four_witness :
  menu_draw_full
    (menu_init [ {| label := "GO FLY"; action := Some 0 |};
                 {| label := "BLUETOOTH"; action := Some 1 |};
                 {| label := "GYRO OFFSET"; action := Some 2 |};
                 {| label := "RADAR"; action := Some 3 |};
                 {| label := "TEST GYRO"; action := Some 4 |} ] 5 None) = None.
Proof.
  refine (proj2 (default_positions_hold_four Z _ 5 _) _); [simpl; lia|lia].
Defined.

(** DOWN on the last of two items with a press of the joystick: the
    selection wraps to the first item, and its action runs. *)
Lemma menu_selection_witness :
  exists menu' draws,
    menu_handle_input
      {| items := [ {| label := "RADAR"; action := Some 0 |};
                    {| label := "ATTITUDE"; action := Some 1 |} ];
         item_count := 2; selection_index := 1; last_selection_index := 1;
         positions := default_positions |}
      {| InputHandler.up := false; InputHandler.down := true;
         InputHandler.left := false; InputHandler.right := false;
         InputHandler.press := true; InputHandler.key1 := false;
         InputHandler.key2 := false; InputHandler.key4 := false;
         InputHandler.up_prev := false; InputHandler.down_prev := false;
         InputHandler.left_prev := false; InputHandler.right_prev := false;
         InputHandler.press_prev := false; InputHandler.key1_prev := false;
         InputHandler.key2_prev := false; InputHandler.key4_prev := false;
         InputHandler.up_time := 0; InputHandler.down_time := 500;
         InputHandler.left_time := 0; InputHandler.right_time := 0;
         InputHandler.press_time := 500; InputHandler.key1_time := 0;
         InputHandler.key2_time := 0; InputHandler.key4_time := 0 |}
    = Some (menu', draws, Some 0, true) /\
    selection_index menu' = 0.
Proof.
  destruct (menu_selection_stays_on_item Z
              {| items := [ {| label := "RADAR"; action := Some 0 |};
                            {| label := "ATTITUDE"; action := Some 1 |} ];
                 item_count := 2; selection_index := 1; last_selection_index := 1;
                 positions := default_positions |}
              {| InputHandler.up := false; InputHandler.down := true;
                 InputHandler.left := false; InputHandler.right := false;
                 InputHandler.press := true; InputHandler.key1 := false;
                 InputHandler.key2 := false; InputHandler.key4 := false;
                 InputHandler.up_prev := false; InputHandler.down_prev := false;
                 InputHandler.left_prev := false; InputHandler.right_prev := false;
                 InputHandler.press_prev := false; InputHandler.key1_prev := false;
                 InputHandler.key2_prev := false; InputHandler.key4_prev := false;
                 InputHandler.up_time := 0; InputHandler.down_time := 500;
                 InputHandler.left_time := 0; InputHandler.right_time := 0;
                 InputHandler.press_time := 500; InputHandler.key1_time := 0;
                 InputHandler.key2_time := 0; InputHandler.key4_time := 0 |})
    as (menu' & draws & H & _ & _ & _ & S & _).
  - simpl. lia.
  - simpl. lia.
  - simpl. lia.
  - right. simpl. lia.
  - exists menu', draws. split; [exact H|exact S].
Defined.

End MenuWitnesses.

Section InputWitnesses.
Import Ascii String.
Local Open Scope Z_scope.

(** Key 1 goes down 100 ms after the start, with 50 ms of debounce time;
    20 ms later the pin shows it up again. *)
Lemma input_changes_debounced_witness :
  let pins (key1 : bool) :=
    {| InputHandler.pin_key1 := key1; InputHandler.pin_key2 := true;
       InputHandler.pin_key4 := true; InputHandler.pin_joy_sw := true;
       InputHandler.adc_x := 2048; InputHandler.adc_y := 2048 |} in
  let s1 := InputHandler.input_read 50 1000 3000 InputHandler.zero_state (pins false) 100 in
  let s2 := InputHandler.input_read 50 1000 3000 s1 (pins true) 120 in
  changed_at InKey1 s1 = 100 /\ just_pressed InKey1 s2 = false /\
  held InKey1 s2 = true.
Proof.
  intros pins s1 s2.
  destruct (input_changes_debounced 50 1000 3000 InputHandler.zero_state
              (pins false) (pins true) 100 120 InKey1) as (A & B).
  destruct (A eq_refl) as (_ & _ & T & J).
  split; [exact T|]. split; [exact J|].
  refine (B _ _); [discriminate|vm_compute; discriminate].
Defined.

(** The first pass after the start, with key 1 down: the first read
    of the program prints its line before the two lines of the key. *)
Lemma releases_follow_presses_witness :
  let pins :=
    {| InputHandler.pin_key1 := false; InputHandler.pin_key2 := true;
       InputHandler.pin_key4 := true; InputHandler.pin_joy_sw := true;
       InputHandler.adc_x := 2048; InputHandler.adc_y := 2048 |} in
  exists st t',
    main_pass 50 1000 3000 0 InputHandler.zero_state zero_tracker pins 100 =
    Some (1, st, t',
          ("ADC: X=2048 Y=2048 (center range: 1000-3000)" ++ String LF EmptyString ++
           "BTN:1,PRESS" ++ String LF EmptyString ++
           "CMD:FLY_MODE" ++ String LF EmptyString)%string) /\
    key1_was_pressed t' = true.
Proof.
  intros pins.
  destruct (releases_follow_presses 50 1000 3000 InputHandler.zero_state zero_tracker
              pins 100 0) as (t' & M & T & _).
  - intros b. destruct b; reflexivity.
  - unfold INT_MAX. lia.
  - exists (InputHandler.input_read 50 1000 3000 InputHandler.zero_state pins 100), t'.
    split; [exact M|]. exact (T InKey1).
Defined.

End InputWitnesses.

(* ================================================================== *)
(** * The framebuffer of the Pico LCD *)
(* ================================================================== *)

Section Framebuffer.
Local Open Scope Z_scope.

Ltac by_cases :=
  repeat match goal with
         | |- context [?a <=? ?b] => destruct (Z.leb_spec a b)
         | |- context [?a <? ?b] => destruct (Z.ltb_spec a b)
         | |- context [?a =? ?b] => destruct (Z.eqb_spec a b)
         end;
  simpl; try reflexivity; try lia.

Lemma update_length (T : Type) (k : nat) (a : list T) (v : T) :
  (k < length a)%nat -> length (firstn k a ++ v :: skipn (S k) a) = length a.
Proof.
  intros H. rewrite length_app, length_firstn.
  change (length (v :: skipn (S k) a)) with (S (length (skipn (S k) a))).
  rewrite length_skipn. lia.
Qed.

Lemma update_nth (T : Type) (k : nat) (a : list T) (v : T) (j : nat) :
  (k < length a)%nat ->
  nth_error (firstn k a ++ v :: skipn (S k) a) j =
  if (j =? k)%nat then Some v else nth_error a j.
Proof.
  intros H.
  assert (L : length (firstn k a) = k) by (rewrite length_firstn; lia).
  destruct (Nat.eqb_spec j k) as [E|E].
  - subst j. rewrite nth_error_app2 by lia. rewrite L, Nat.sub_diag. reflexivity.
  - destruct (Nat.lt_ge_cases j k) as [G|G].
    + rewrite nth_error_app1 by lia. rewrite nth_error_firstn.
      destruct (Nat.ltb_spec j k); [reflexivity|lia].
    + rewrite nth_error_app2 by lia. rewrite L.
      destruct (j - k)%nat as [|m] eqn:M; [lia|].
      change (nth_error (v :: skipn (S k) a) (S m)) with (nth_error (skipn (S k) a) m).
      rewrite nth_error_skipn. f_equal. lia.
Qed.

(** A store inside the array changes the one element. *)
Lemma store_spec (a : list Z) (i v : Z) :
  0 <= i < Z.of_nat (length a) ->
  exists a', store a i v = Some a' /\ length a' = length a /\
             forall j, array_at a' j = if j =? i then Some v else array_at a j.
Proof.
  intros H. unfold store.
  assert (E : (0 <=? i) && (i <? Z.of_nat (length a)) = true).
  { apply andb_true_intro. split; [apply Z.leb_le|apply Z.ltb_lt]; lia. }
  rewrite E. eexists. split; [reflexivity|].
  split; [apply update_length; lia|].
  intros j. unfold array_at. destruct (Z.ltb_spec j 0) as [N|N].
  - destruct (Z.eqb_spec j i); [lia|reflexivity].
  - rewrite update_nth by lia.
    destruct (Z.eqb_spec j i) as [J|J].
    + subst j. rewrite Nat.eqb_refl. reflexivity.
    + destruct (Nat.eqb_spec (Z.to_nat j) (Z.to_nat i)); [lia|reflexivity].
Qed.

Lemma fill_cols_spec (color : Z) (n : nat) (fb : list Z) (row col : Z) :
  0 <= row * LCD_WIDTH + col ->
  row * LCD_WIDTH + col + Z.of_nat n <= Z.of_nat (length fb) ->
  exists fb', fill_cols fb row col n color = Some fb' /\ length fb' = length fb /\
    forall j, array_at fb' j =
              if (row * LCD_WIDTH + col <=? j) && (j <? row * LCD_WIDTH + col + Z.of_nat n)
              then Some color else array_at fb j.
Proof.
  revert fb col. induction n as [|n IH]; intros fb col H1 H2.
  - exists fb. split; [reflexivity|]. split; [reflexivity|].
    intros j. by_cases.
  - simpl fill_cols.
    destruct (store_spec fb (row * LCD_WIDTH + col) color) as (fb1 & S & L1 & C1); [lia|].
    rewrite S.
    destruct (IH fb1 (col + 1)) as (fb2 & F & L2 & C2); [lia|rewrite L1; lia|].
    exists fb2. split; [exact F|]. split; [congruence|].
    intros j. rewrite C2, C1. by_cases.
Qed.

Lemma fill_rows_spec (color x : Z) (w : nat) (n : nat) (fb : list Z) (row : Z) :
  0 <= row -> 0 <= x -> x + Z.of_nat w <= LCD_WIDTH ->
  (row + Z.of_nat n) * LCD_WIDTH <= Z.of_nat (length fb) ->
  exists fb', fill_rows fb row x w n color = Some fb' /\ length fb' = length fb /\
    forall px py, 0 <= px < LCD_WIDTH -> 0 <= py ->
      array_at fb' (py * LCD_WIDTH + px) =
      if in_rect x row (Z.of_nat w) (Z.of_nat n) px py
      then Some color else array_at fb (py * LCD_WIDTH + px).
Proof.
  unfold LCD_WIDTH, in_rect.
  revert fb row. induction n as [|n IH]; intros fb row H1 H2 H3 H4.
  - exists fb. split; [reflexivity|]. split; [reflexivity|].
    intros px py P1 P2. by_cases.
  - simpl fill_rows.
    destruct (fill_cols_spec color w fb row x) as (fb1 & F1 & L1 & C1);
      [unfold LCD_WIDTH; lia|unfold LCD_WIDTH; lia|].
    rewrite F1.
    destruct (IH fb1 (row + 1)) as (fb2 & F2 & L2 & C2); [lia|lia|lia|rewrite L1; lia|].
    exists fb2. split; [exact F2|]. split; [congruence|].
    intros px py P1 P2. rewrite C2 by lia. rewrite C1. unfold LCD_WIDTH.
    by_cases.
Qed.

(** What [lcd_fill_rect] leaves in the framebuffer. *)
Lemma lcd_fill_rect_pixels (framebuffer : list Z) (x y w h color : Z) :
  Z.of_nat (length framebuffer) = LCD_WIDTH * LCD_HEIGHT ->
  0 <= x < 65536 -> 0 <= y < 65536 -> 0 <= w < 65536 -> 0 <= h < 65536 ->
  exists fb',
    lcd_fill_rect framebuffer x y w h color = Some fb' /\
    length fb' = length framebuffer /\
    forall px py, 0 <= px < LCD_WIDTH -> 0 <= py < LCD_HEIGHT ->
      array_at fb' (py * LCD_WIDTH + px) =
      if in_rect x y w h px py then Some color
      else array_at framebuffer (py * LCD_WIDTH + px).
Proof.
  intros L X Y W H. unfold lcd_fill_rect.
  destruct ((x >=? LCD_WIDTH) || (y >=? LCD_HEIGHT)) eqn:E.
  - exists framebuffer. split; [reflexivity|]. split; [reflexivity|].
    intros px py P1 P2. unfold in_rect.
    apply orb_prop in E. rewrite !Z.geb_leb in E.
    destruct E as [E|E]; apply Z.leb_le in E; by_cases.
  - apply orb_false_elim in E. rewrite !Z.geb_leb in E. destruct E as (E1 & E2).
    apply Z.leb_gt in E1, E2. cbv zeta.
    set (w' := if x + w >? LCD_WIDTH then to_uint16 (LCD_WIDTH - x) else w).
    set (h' := if y + h >? LCD_HEIGHT then to_uint16 (LCD_HEIGHT - y) else h).
    assert (W' : 0 <= w' /\ x + w' <= LCD_WIDTH /\
                 (x + w <= LCD_WIDTH -> w' = w) /\ (LCD_WIDTH < x + w -> x + w' = LCD_WIDTH)).
    { unfold w', to_uint16. rewrite Z.gtb_ltb.
      destruct (Z.ltb_spec LCD_WIDTH (x + w)).
      - rewrite Z.mod_small by (unfold LCD_WIDTH in *; lia). lia.
      - lia. }
    assert (H' : 0 <= h' /\ y + h' <= LCD_HEIGHT /\
                 (y + h <= LCD_HEIGHT -> h' = h) /\ (LCD_HEIGHT < y + h -> y + h' = LCD_HEIGHT)).
    { unfold h', to_uint16. rewrite Z.gtb_ltb.
      destruct (Z.ltb_spec LCD_HEIGHT (y + h)).
      - rewrite Z.mod_small by (unfold LCD_HEIGHT in *; lia). lia.
      - lia. }
    clearbody w' h'.
    destruct (fill_rows_spec color x (Z.to_nat w') (Z.to_nat h') framebuffer y)
      as (fb' & F & L' & C); [lia|lia|lia| |].
    { rewrite L. unfold LCD_WIDTH, LCD_HEIGHT in *. lia. }
    exists fb'. split; [exact F|]. split; [exact L'|].
    intros px py P1 P2. rewrite C by lia. rewrite !Z2Nat.id by lia.
    unfold in_rect. unfold LCD_WIDTH, LCD_HEIGHT in *.
    destruct (Z_le_gt_dec (x + w) 320) as [A|A];
      destruct (Z_le_gt_dec (y + h) 240) as [B|B].
    + replace w' with w by (symmetry; apply W'; exact A).
      replace h' with h by (symmetry; apply H'; exact B). reflexivity.
    + replace w' with w by (symmetry; apply W'; exact A).
      by_cases.
    + replace h' with h by (symmetry; apply H'; exact B).
      by_cases.
    + by_cases.
Qed.

(** X26: [lcd_fill_rect] paints the part of the rectangle that is on the
    screen and nothing else.  For arguments of type [uint16_t] and the
    framebuffer of 320 by 240 pixels the function stores only inside the
    framebuffer, and afterwards a pixel of the screen holds the colour
    when it lies in the rectangle and what it held before when it does
    not. *)
Theorem fill_rect_clipped (framebuffer : list Z) (x y w h color : Z) :
  Z.of_nat (length framebuffer) = LCD_WIDTH * LCD_HEIGHT ->
  0 <= x < 65536 -> 0 <= y < 65536 -> 0 <= w < 65536 -> 0 <= h < 65536 ->
  exists fb',
    lcd_fill_rect framebuffer x y w h color = Some fb' /\
    length fb' = length framebuffer /\
    forall px py, 0 <= px < LCD_WIDTH -> 0 <= py < LCD_HEIGHT ->
      array_at fb' (py * LCD_WIDTH + px) =
      if in_rect x y w h px py then Some color
      else array_at framebuffer (py * LCD_WIDTH + px).
Proof. exact (lcd_fill_rect_pixels framebuffer x y w h color). Qed.

(** The corner of the screen, painted by a rectangle that hangs over
    it. *)
Lemma fill_rect_clipped_witness :
  exists fb',
    lcd_fill_rect (repeat 0 (Z.to_nat (LCD_WIDTH * LCD_HEIGHT))) 300 230 100 100 65535
    = Some fb' /\
    array_at fb' (239 * LCD_WIDTH + 319) = Some 65535 /\
    array_at fb' (229 * LCD_WIDTH + 319) = Some 0.
Proof.
  destruct (fill_rect_clipped (repeat 0 (Z.to_nat (LCD_WIDTH * LCD_HEIGHT)))
              300 230 100 100 65535) as (fb' & F & _ & C).
  - rewrite repeat_length. apply Z2Nat.id. unfold LCD_WIDTH, LCD_HEIGHT. lia.
  - lia.
  - lia.
  - lia.
  - lia.
  - exists fb'. split; [exact F|]. split.
    + rewrite (C 319 239) by (unfold LCD_WIDTH, LCD_HEIGHT; lia). reflexivity.
    + rewrite (C 319 229) by (unfold LCD_WIDTH, LCD_HEIGHT; lia).
      vm_compute. reflexivity.
Defined.

(** ** Sending the framebuffer *)

Lemma firstn_length_app (T : Type) (pre rest : list T) :
  firstn (length pre) (pre ++ rest) = pre.
Proof. induction pre as [|a pre IH]; simpl; [reflexivity|rewrite IH; reflexivity]. Qed.

Lemma skipn_length_app (T : Type) (pre rest : list T) :
  skipn (length pre) (pre ++ rest) = rest.
Proof. induction pre as [|a pre IH]; simpl; [reflexivity|exact IH]. Qed.

Lemma array_at_app (T : Type) (pre rest : list T) (v : T) (i : Z) :
  i = Z.of_nat (length pre) -> array_at (pre ++ v :: rest) i = Some v.
Proof.
  intros E. unfold array_at. subst i.
  destruct (Z.ltb_spec (Z.of_nat (length pre)) 0); [lia|].
  rewrite Nat2Z.id. rewrite nth_error_app2 by lia. rewrite Nat.sub_diag. reflexivity.
Qed.

Lemma store_app (pre rest : list Z) (a v i : Z) :
  i = Z.of_nat (length pre) -> store (pre ++ a :: rest) i v = Some (pre ++ v :: rest).
Proof.
  intros E. unfold store. subst i.
  assert (C : (0 <=? Z.of_nat (length pre))
              && (Z.of_nat (length pre) <? Z.of_nat (length (pre ++ a :: rest))) = true).
  { apply andb_true_intro. split; [apply Z.leb_le; lia|].
    apply Z.ltb_lt. rewrite length_app. simpl. lia. }
  rewrite C, Nat2Z.id, firstn_length_app.
  replace (S (length pre)) with (1 + length pre)%nat by lia.
  rewrite <- skipn_skipn, skipn_length_app. reflexivity.
Qed.

Lemma swap_bytes_loop_spec (n : nat) (pre rest : list Z) (i : Z) :
  Z.of_nat (length pre) = i * 2 -> (2 * n <= length rest)%nat ->
  swap_bytes_loop (pre ++ rest) i n = Some (pre ++ swap_pairs n rest).
Proof.
  revert pre rest i. induction n as [|n IH]; intros pre rest i P L.
  - destruct rest; reflexivity.
  - destruct rest as [|a [|b rest]]; try (simpl in L; lia).
    cbn [swap_bytes_loop swap_pairs].
    rewrite (array_at_app _ pre (b :: rest) a (i * 2)) by lia.
    replace (pre ++ a :: b :: rest) with ((pre ++ [a]) ++ b :: rest) at 1
      by (rewrite <- app_assoc; reflexivity).
    rewrite (array_at_app _ (pre ++ [a]) rest b (i * 2 + 1))
      by (rewrite length_app; simpl; lia).
    rewrite (store_app pre (b :: rest) a b (i * 2)) by lia.
    replace (pre ++ b :: b :: rest) with ((pre ++ [b]) ++ b :: rest)
      by (rewrite <- app_assoc; reflexivity).
    rewrite (store_app (pre ++ [b]) rest b a (i * 2 + 1))
      by (rewrite length_app; simpl; lia).
    replace ((pre ++ [b]) ++ a :: rest) with ((pre ++ [b; a]) ++ rest)
      by (rewrite <- !app_assoc; reflexivity).
    rewrite IH.
    + rewrite <- app_assoc. reflexivity.
    + rewrite length_app. simpl. lia.
    + simpl in L. lia.
Qed.

Lemma swap_pairs_length (n : nat) (l : list Z) : length (swap_pairs n l) = length l.
Proof.
  revert l. induction n as [|n IH]; intros l; [destruct l; reflexivity|].
  destruct l as [|a [|b l]]; try reflexivity. simpl. rewrite IH. reflexivity.
Qed.

Lemma swap_pairs_involutive (n : nat) (l : list Z) : swap_pairs n (swap_pairs n l) = l.
Proof.
  revert l. induction n as [|n IH]; intros l; [destruct l; reflexivity|].
  destruct l as [|a [|b l]]; try reflexivity. simpl. rewrite IH. reflexivity.
Qed.

Lemma pixel_bytes_length (fb : list Z) : length (pixel_bytes fb) = (2 * length fb)%nat.
Proof. induction fb as [|p fb IH]; simpl; [reflexivity|rewrite IH; lia]. Qed.

Lemma pixel_low_high (p : Z) :
  0 <= p < 65536 ->
  Z.land p 255 = p mod 256 /\ Z.shiftr p 8 = p / 256 /\
  Z.lor (Z.land p 255) (Z.shiftl (Z.shiftr p 8) 8) = p /\
  to_uint8 (Z.shiftr p 8) = p / 256 /\ to_uint8 (Z.land p 255) = p mod 256.
Proof.
  intros H.
  assert (A : Z.land p 255 = p mod 256).
  { change 255 with (Z.ones 8). rewrite Z.land_ones by lia. reflexivity. }
  assert (B : Z.shiftr p 8 = p / 256).
  { rewrite Z.shiftr_div_pow2 by lia. reflexivity. }
  pose proof (Z.mod_pos_bound p 256 ltac:(lia)) as M.
  assert (D : 0 <= p / 256 < 256).
  { split; [apply Z.div_pos; lia|apply Z.div_lt_upper_bound; lia]. }
  split; [exact A|]. split; [exact B|]. rewrite A, B. split.
  - rewrite Z.lor_comm. rewrite lor_shiftl_small by (change (2 ^ 8) with 256; lia).
    change (2 ^ 8) with 256. rewrite (Z.div_mod p 256) at 3 by lia. lia.
  - unfold to_uint8. split; apply Z.mod_small; lia.
Qed.

Lemma bytes_pixels_bytes (fb : list Z) :
  Forall (fun p => 0 <= p < 65536) fb -> bytes_pixels (pixel_bytes fb) = fb.
Proof.
  induction 1 as [|p fb P F IH]; [reflexivity|].
  cbn [pixel_bytes bytes_pixels]. rewrite IH.
  destruct (pixel_low_high p P) as (_ & _ & E & _). change 0xFF with 255. rewrite E.
  reflexivity.
Qed.

Lemma swapped_bytes_sent (fb : list Z) :
  Forall (fun p => 0 <= p < 65536) fb ->
  map LcdData (swap_pairs (length fb) (pixel_bytes fb)) = high_byte_first fb.
Proof.
  induction 1 as [|p fb P F IH]; [reflexivity|].
  cbn [pixel_bytes length swap_pairs map]. rewrite IH.
  destruct (pixel_low_high p P) as (A & B & _). change 0xFF with 255. rewrite A, B.
  reflexivity.
Qed.

Lemma firstn_plus (T : Type) (a b : nat) (l : list T) :
  firstn (a + b) l = firstn a l ++ firstn b (skipn a l).
Proof.
  revert l. induction a as [|a IH]; intros l; [reflexivity|].
  destruct l as [|x l]; [simpl; rewrite firstn_nil; reflexivity|].
  simpl. rewrite IH. reflexivity.
Qed.

Lemma skipn_cons (T : Type) (k : nat) (l : list T) (v : T) :
  nth_error l k = Some v -> skipn k l = v :: skipn (S k) l.
Proof.
  revert l. induction k as [|k IH]; intros l H.
  - destruct l; [discriminate|]. injection H as ->. reflexivity.
  - destruct l as [|x l]; [discriminate|]. simpl in H. apply (IH l H).
Qed.

Lemma flush_cols_spec (fb : list Z) (row_start : Z) (n : nat) (i : Z) :
  Forall (fun p => 0 <= p < 65536) fb ->
  0 <= row_start -> 0 <= i -> row_start + i + Z.of_nat n <= Z.of_nat (length fb) ->
  flush_cols fb row_start i n
  = Some (high_byte_first (firstn n (skipn (Z.to_nat (row_start + i)) fb))).
Proof.
  intros U R. revert i. induction n as [|n IH]; intros i I L; [reflexivity|].
  cbn [flush_cols].
  destruct (array_at_some _ fb (row_start + i)) as (v & V); [lia|].
  rewrite V. rewrite IH by lia.
  unfold array_at in V. destruct (Z.ltb_spec (row_start + i) 0); [lia|].
  rewrite (skipn_cons _ _ _ _ V).
  replace (Z.to_nat (row_start + (i + 1))) with (S (Z.to_nat (row_start + i))) by lia.
  assert (P : 0 <= v < 65536).
  { rewrite Forall_forall in U. apply U. apply (nth_error_In _ _ V). }
  destruct (pixel_low_high v P) as (_ & _ & _ & A & B). change 0xFF with 255.
  rewrite A, B. reflexivity.
Qed.

Lemma high_byte_first_app (a b : list Z) :
  high_byte_first (a ++ b) = high_byte_first a ++ high_byte_first b.
Proof. unfold high_byte_first. apply flat_map_app. Qed.

Lemma flush_rows_spec (fb : list Z) (n : nat) (row : Z) :
  Forall (fun p => 0 <= p < 65536) fb ->
  0 <= row -> (row + Z.of_nat n) * 320 <= Z.of_nat (length fb) ->
  flush_rows fb row 0 320 n
  = Some (high_byte_first (firstn (n * 320) (skipn (Z.to_nat (row * 320)) fb))).
Proof.
  intros U. revert row. induction n as [|n IH]; intros row R L; [reflexivity|].
  cbn [flush_rows]. unfold LCD_WIDTH.
  rewrite flush_cols_spec; [|exact U|lia|lia|lia].
  rewrite IH by lia.
  replace (S n * 320)%nat with (320 + n * 320)%nat by lia.
  rewrite firstn_plus, high_byte_first_app, skipn_skipn.
  replace (Z.to_nat (row * 320 + 0 + 0)) with (Z.to_nat (row * 320)) by lia.
  replace (Z.to_nat ((row + 1) * 320)) with (320 + Z.to_nat (row * 320))%nat by lia.
  reflexivity.
Qed.

(** X27: [lcd_flush] sends the picture and keeps it.  For the
    framebuffer of 320 by 240 pixels of type [uint16_t], the two byte
    swaps around the DMA transfer leave every pixel as it was, and what
    goes to the display after the window of the whole screen is each
    pixel in turn, its high byte first: the very bytes that
    [lcd_flush_rect] sends for the whole screen pixel by pixel. *)
Theorem flush_keeps_framebuffer (framebuffer : list Z) :
  Z.of_nat (length framebuffer) = LCD_WIDTH * LCD_HEIGHT ->
  Forall (fun p => 0 <= p < 65536) framebuffer ->
  lcd_flush framebuffer
  = Some (framebuffer,
          lcd_set_window 0 0 LCD_WIDTH LCD_HEIGHT ++ high_byte_first framebuffer) /\
  lcd_flush_rect framebuffer 0 0 LCD_WIDTH LCD_HEIGHT
  = Some (lcd_set_window 0 0 LCD_WIDTH LCD_HEIGHT ++ high_byte_first framebuffer).
Proof.
  intros L U.
  assert (N : Z.to_nat (LCD_WIDTH * LCD_HEIGHT) = length framebuffer).
  { rewrite <- L. apply Nat2Z.id. }
  split.
  - unfold lcd_flush, swap_bytes_region. rewrite N.
    pose proof (swap_bytes_loop_spec (length framebuffer) [] (pixel_bytes framebuffer) 0
                  eq_refl ltac:(rewrite pixel_bytes_length; lia)) as S1.
    cbn [app] in S1. rewrite S1.
    assert (LM : length (swap_pairs (length framebuffer) (pixel_bytes framebuffer))
                 = (2 * length framebuffer)%nat).
    { rewrite swap_pairs_length. apply pixel_bytes_length. }
    assert (C : (Z.of_nat (length (swap_pairs (length framebuffer)
                                     (pixel_bytes framebuffer)))
                 <? LCD_WIDTH * LCD_HEIGHT * 2) = false).
    { apply Z.ltb_ge. rewrite LM. lia. }
    rewrite C.
    pose proof (swap_bytes_loop_spec (length framebuffer) []
                  (swap_pairs (length framebuffer) (pixel_bytes framebuffer)) 0
                  eq_refl ltac:(rewrite LM; lia)) as S2.
    cbn [app] in S2. rewrite S2.
    rewrite swap_pairs_involutive, (bytes_pixels_bytes _ U).
    rewrite firstn_all2 by (rewrite LM; lia).
    rewrite (swapped_bytes_sent _ U). reflexivity.
  - unfold lcd_flush_rect.
    change ((0 >=? LCD_WIDTH) || (0 >=? LCD_HEIGHT)) with false.
    change (0 + LCD_WIDTH >? LCD_WIDTH) with false.
    change (0 + LCD_HEIGHT >? LCD_HEIGHT) with false.
    cbv iota zeta.
    change (Z.to_nat LCD_WIDTH) with 320%nat.
    change (Z.to_nat LCD_HEIGHT) with 240%nat.
    rewrite flush_rows_spec; [|exact U|lia|unfold LCD_WIDTH, LCD_HEIGHT in L; lia].
    change (Z.to_nat (0 * 320)) with 0%nat. cbn [skipn].
    rewrite firstn_all2 by (unfold LCD_WIDTH, LCD_HEIGHT in L; lia).
    reflexivity.
Qed.

(** A grey screen. *)
Lemma flush_keeps_framebuffer_witness :
  let framebuffer := repeat 0x8410 (Z.to_nat (LCD_WIDTH * LCD_HEIGHT)) in
  lcd_flush framebuffer
  = Some (framebuffer,
          lcd_set_window 0 0 LCD_WIDTH LCD_HEIGHT ++ high_byte_first framebuffer) /\
  lcd_flush_rect framebuffer 0 0 LCD_WIDTH LCD_HEIGHT
  = Some (lcd_set_window 0 0 LCD_WIDTH LCD_HEIGHT ++ high_byte_first framebuffer).
Proof.
  intros framebuffer. apply flush_keeps_framebuffer.
  - unfold framebuffer. rewrite repeat_length. apply Z2Nat.id.
    unfold LCD_WIDTH, LCD_HEIGHT. lia.
  - apply Forall_forall. intros p H. apply repeat_spec in H. subst p. lia.
Defined.

(** ** Text *)

(** The framebuffer [fb] holds, pixel by pixel, what [fb0] holds or the
    colour [bg]. *)
Lemma blank_cols (fb0 : list Z) (x y color bg j : Z) (n : nat) (fb : list Z) (i : Z) :
  Z.of_nat (length fb0) = LCD_WIDTH * LCD_HEIGHT ->
  0 <= i -> i + Z.of_nat n <= 5 -> length fb = length fb0 ->
  (forall k, array_at fb k = array_at fb0 k \/ array_at fb k = Some bg) ->
  exists fb',
    char_cols fb [0; 0; 0; 0; 0] x y color bg j i n = Some fb' /\
    length fb' = length fb0 /\
    forall k, array_at fb' k = array_at fb0 k \/ array_at fb' k = Some bg.
Proof.
  intros L0. revert fb i. induction n as [|n IH]; intros fb i I N L R.
  - exists fb. split; [reflexivity|]. split; assumption.
  - cbn [char_cols].
    assert (G : array_at [0; 0; 0; 0; 0] i = Some 0).
    { assert (C : i = 0 \/ i = 1 \/ i = 2 \/ i = 3 \/ i = 4) by lia.
      destruct C as [C|[C|[C|[C|C]]]]; subst i; reflexivity. }
    rewrite G. cbv zeta. change (Z.land 0 (Z.shiftl 1 j)) with 0.
    change (0 =? 0) with true. cbv iota.
    pose proof (Z.mod_pos_bound (x + i) 65536 ltac:(lia)) as PX.
    pose proof (Z.mod_pos_bound (y + j) 65536 ltac:(lia)) as PY.
    fold (to_uint16 (x + i)) in PX. fold (to_uint16 (y + j)) in PY.
    destruct ((to_uint16 (x + i) <? LCD_WIDTH) && (to_uint16 (y + j) <? LCD_HEIGHT)) eqn:E.
    + apply andb_prop in E. destruct E as (E1 & E2). apply Z.ltb_lt in E1, E2.
      destruct (store_spec fb (to_uint16 (y + j) * LCD_WIDTH + to_uint16 (x + i)) bg)
        as (fb1 & S & L1 & C1).
      { rewrite L, L0. unfold LCD_WIDTH, LCD_HEIGHT in *. lia. }
      rewrite S. apply IH; [lia|lia|congruence|].
      intros k. rewrite C1. destruct (k =? _); [right; reflexivity|apply R].
    + apply IH; [lia|lia|exact L|exact R].
Qed.

Lemma blank_rows (fb0 : list Z) (x y color bg : Z) (n : nat) (fb : list Z) (j : Z) :
  Z.of_nat (length fb0) = LCD_WIDTH * LCD_HEIGHT ->
  length fb = length fb0 ->
  (forall k, array_at fb k = array_at fb0 k \/ array_at fb k = Some bg) ->
  exists fb',
    char_rows fb [0; 0; 0; 0; 0] x y color bg j n = Some fb' /\
    length fb' = length fb0 /\
    forall k, array_at fb' k = array_at fb0 k \/ array_at fb' k = Some bg.
Proof.
  intros L0. revert fb j. induction n as [|n IH]; intros fb j L R.
  - exists fb. split; [reflexivity|]. split; assumption.
  - cbn [char_rows].
    destruct (blank_cols fb0 x y color bg j 5 fb 0 L0) as (fb1 & C & L1 & R1);
      [lia|lia|exact L|exact R|].
    rewrite C. apply IH; assumption.
Qed.

Lemma blank_string (fb0 : list Z) (color bg : Z) (str : String.string) :
  Z.of_nat (length fb0) = LCD_WIDTH * LCD_HEIGHT ->
  all_chars no_glyph str = true ->
  forall (fb : list Z) (orig_x x y : Z),
    length fb = length fb0 ->
    (forall k, array_at fb k = array_at fb0 k \/ array_at fb k = Some bg) ->
    exists fb',
      draw_string_loop fb orig_x x y str color bg = Some fb' /\
      length fb' = length fb0 /\
      forall k, array_at fb' k = array_at fb0 k \/ array_at fb' k = Some bg.
Proof.
  intros L0. induction str as [|c str IH]; intros A fb orig_x x y L R.
  - exists fb. split; [reflexivity|]. split; assumption.
  - simpl in A. apply andb_prop in A. destruct A as (A1 & A2).
    cbn [draw_string_loop]. destruct (Ascii.eqb c LF).
    + apply IH; assumption.
    + unfold lcd_draw_char. unfold no_glyph in A1. cbv zeta in A1. rewrite A1.
      change (array_at font_5x7 (32 - 32)) with (Some [0; 0; 0; 0; 0]).
      destruct (blank_rows fb0 x y color bg 7 fb 0 L0 L R) as (fb1 & C & L1 & R1).
      rewrite C. apply IH; assumption.
Qed.

(** X28: text the font has no glyph for is not shown.  The font of the
    Pico LCD covers the characters from the space to Z.  For a text of
    other characters only, lower-case letters among them, at any place
    and in any colour, [lcd_draw_string] stores only inside the
    framebuffer and stores nothing but the background colour: every pixel
    holds afterwards what it held before or the background colour. *)
Theorem text_without_glyphs_is_blank (framebuffer : list Z) (x y color bg_color : Z)
    (str : String.string) :
  Z.of_nat (length framebuffer) = LCD_WIDTH * LCD_HEIGHT ->
  all_chars no_glyph str = true ->
  exists fb',
    lcd_draw_string framebuffer x y str color bg_color = Some fb' /\
    length fb' = length framebuffer /\
    forall k, array_at fb' k = array_at framebuffer k \/ array_at fb' k = Some bg_color.
Proof.
  intros L A. unfold lcd_draw_string.
  apply (blank_string framebuffer color bg_color str L A framebuffer x x y eq_refl).
  intros k. left. reflexivity.
Qed.

End Framebuffer.

(* ================================================================== *)
(** * The aircraft marks of the radar *)
(* ================================================================== *)

Section Radar.
Local Open Scope Z_scope.

Lemma to_uint16_negative (n : Z) : -65536 <= n < 0 -> to_uint16 n = n + 65536.
Proof.
  intros H. unfold to_uint16. symmetry.
  apply (Z.mod_unique n 65536 (-1) (n + 65536)); lia.
Qed.

Lemma to_uint16_small (n : Z) : 0 <= n < 65536 -> to_uint16 n = n.
Proof. intros H. unfold to_uint16. apply Z.mod_small. exact H. Qed.

Lemma lcd_fill_rect_off_screen (fb : list Z) (x y w h color : Z) :
  LCD_WIDTH <= x \/ LCD_HEIGHT <= y -> lcd_fill_rect fb x y w h color = Some fb.
Proof.
  intros H. unfold lcd_fill_rect.
  assert (E : (x >=? LCD_WIDTH) || (y >=? LCD_HEIGHT) = true).
  { rewrite !Z.geb_leb. apply orb_true_intro.
    destruct H as [H|H]; [left|right]; apply Z.leb_le; exact H. }
  rewrite E. reflexivity.
Qed.

(** X29: an aircraft at the left or the upper edge of the radar.  For
    an aircraft whose screen position lies on the screen,
    [update_radar_aircraft] keeps the position for the next clear, but
    draws no square when the position is less than 2 pixels from the left
    or the upper edge, and the clear of this position in the next update
    changes no pixel when it is less than 3 pixels from the left or less
    than 5 from the upper edge: the corner of each rectangle is negative there and wraps
    to a [uint16_t] value off the screen.  So a square drawn at x = 2 or
    at y from 2 to 4 is not taken away by the clear; from x = 3 and y = 5
    on the clear blackens the whole square. *)
Theorem radar_mark_at_edge_stays (framebuffer : list Z) (screen_x screen_y : Z) :
  Z.of_nat (length framebuffer) = LCD_WIDTH * LCD_HEIGHT ->
  0 <= screen_x <= 320 -> 0 <= screen_y <= 240 ->
  exists fb1 fb2,
    update_radar_draw framebuffer screen_x screen_y = Some (fb1, true) /\
    update_radar_clear fb1 screen_x screen_y = Some fb2 /\
    (screen_x < 2 \/ screen_y < 2 -> fb1 = framebuffer) /\
    (2 <= screen_x -> 2 <= screen_y ->
       forall px py, 0 <= px < LCD_WIDTH -> 0 <= py < LCD_HEIGHT ->
         array_at fb1 (py * LCD_WIDTH + px) =
         if in_rect (screen_x - 2) (screen_y - 2) 4 4 px py then Some COLOR_RED
         else array_at framebuffer (py * LCD_WIDTH + px)) /\
    (screen_x < 3 \/ screen_y < 5 -> fb2 = fb1) /\
    (3 <= screen_x -> 5 <= screen_y ->
       forall px py, 0 <= px < LCD_WIDTH -> 0 <= py < LCD_HEIGHT ->
         in_rect (screen_x - 2) (screen_y - 2) 4 4 px py = true ->
         array_at fb2 (py * LCD_WIDTH + px) = Some COLOR_BLACK).
Proof.
  intros L X Y.
  assert (G : (screen_x >=? 0) && (screen_x <=? 320) && (screen_y >=? 0)
              && (screen_y <=? 240) = true).
  { rewrite !Z.geb_leb. repeat (apply andb_true_intro; split); apply Z.leb_le; lia. }
  assert (G' : (screen_x >=? 0) && (screen_y >=? 0) = true).
  { rewrite !Z.geb_leb. apply andb_true_intro; split; apply Z.leb_le; lia. }
  (* the square *)
  assert (D : exists fb1,
            lcd_fill_rect framebuffer (to_uint16 (screen_x - 2)) (to_uint16 (screen_y - 2))
                          4 4 COLOR_RED = Some fb1 /\
            length fb1 = length framebuffer /\
            (screen_x < 2 \/ screen_y < 2 -> fb1 = framebuffer) /\
            (2 <= screen_x -> 2 <= screen_y ->
             forall px py, 0 <= px < LCD_WIDTH -> 0 <= py < LCD_HEIGHT ->
               array_at fb1 (py * LCD_WIDTH + px) =
               if in_rect (screen_x - 2) (screen_y - 2) 4 4 px py then Some COLOR_RED
               else array_at framebuffer (py * LCD_WIDTH + px))).
  { destruct (Z_lt_le_dec screen_x 2) as [A|A]; [|destruct (Z_lt_le_dec screen_y 2) as [B|B]].
    - exists framebuffer. split; [|split; [reflexivity|split; [reflexivity|lia]]].
      apply lcd_fill_rect_off_screen. left.
      rewrite to_uint16_negative by lia. unfold LCD_WIDTH. lia.
    - exists framebuffer. split; [|split; [reflexivity|split; [reflexivity|lia]]].
      apply lcd_fill_rect_off_screen. right.
      rewrite to_uint16_negative by lia. unfold LCD_HEIGHT. lia.
    - rewrite !to_uint16_small by lia.
      destruct (lcd_fill_rect_pixels framebuffer (screen_x - 2) (screen_y - 2) 4 4 COLOR_RED)
        as (fb1 & F & L1 & C); [exact L|lia|lia|lia|lia|].
      exists fb1. split; [exact F|]. split; [exact L1|]. split; [lia|].
      intros _ _. exact C. }
  destruct D as (fb1 & F1 & L1 & D1 & D2).
  (* the clear *)
  assert (C : exists fb2,
            lcd_fill_rect fb1 (to_uint16 (screen_x - 3)) (to_uint16 (screen_y - 5))
                          50 10 COLOR_BLACK = Some fb2 /\
            (screen_x < 3 \/ screen_y < 5 -> fb2 = fb1) /\
            (3 <= screen_x -> 5 <= screen_y ->
             forall px py, 0 <= px < LCD_WIDTH -> 0 <= py < LCD_HEIGHT ->
               in_rect (screen_x - 2) (screen_y - 2) 4 4 px py = true ->
               array_at fb2 (py * LCD_WIDTH + px) = Some COLOR_BLACK)).
  { destruct (Z_lt_le_dec screen_x 3) as [A|A]; [|destruct (Z_lt_le_dec screen_y 5) as [B|B]].
    - exists fb1. split; [|split; [reflexivity|lia]].
      apply lcd_fill_rect_off_screen. left.
      rewrite to_uint16_negative by lia. unfold LCD_WIDTH. lia.
    - exists fb1. split; [|split; [reflexivity|lia]].
      apply lcd_fill_rect_off_screen. right.
      rewrite to_uint16_negative by lia. unfold LCD_HEIGHT. lia.
    - rewrite !to_uint16_small by lia.
      destruct (lcd_fill_rect_pixels fb1 (screen_x - 3) (screen_y - 5) 50 10 COLOR_BLACK)
        as (fb2 & F & L2 & C); [rewrite L1; exact L|lia|lia|lia|lia|].
      exists fb2. split; [exact F|]. split; [lia|].
      intros _ _ px py P1 P2 I. rewrite (C px py P1 P2).
      assert (J : in_rect (screen_x - 3) (screen_y - 5) 50 10 px py = true).
      { unfold in_rect in *.
        apply andb_prop in I. destruct I as (I & I4).
        apply andb_prop in I. destruct I as (I & I3).
        apply andb_prop in I. destruct I as (I1 & I2).
        apply Z.leb_le in I1, I3. apply Z.ltb_lt in I2, I4.
        repeat (apply andb_true_intro; split);
          [apply Z.leb_le|apply Z.ltb_lt|apply Z.leb_le|apply Z.ltb_lt]; lia. }
      rewrite J. reflexivity. }
  destruct C as (fb2 & F2 & C1 & C2).
  exists fb1, fb2.
  split; [unfold update_radar_draw; rewrite G, F1; reflexivity|].
  split; [unfold update_radar_clear; rewrite G', F2; reflexivity|].
  split; [exact D1|]. split; [exact D2|]. split; [exact C1|exact C2].
Qed.

(** An aircraft 2 pixels from the left edge, drawn on a black screen:
    the corner of the screen row 100 is red after the draw and after the
    clear. *)
Lemma radar_mark_at_edge_witness :
  exists fb1,
    update_radar_draw (repeat 0 (Z.to_nat (LCD_WIDTH * LCD_HEIGHT))) 2 100
    = Some (fb1, true) /\
    update_radar_clear fb1 2 100 = Some fb1 /\
    array_at fb1 (100 * LCD_WIDTH + 0) = Some COLOR_RED.
Proof.
  destruct (radar_mark_at_edge_stays (repeat 0 (Z.to_nat (LCD_WIDTH * LCD_HEIGHT))) 2 100)
    as (fb1 & fb2 & D & C & _ & P & S & _).
  - rewrite repeat_length. apply Z2Nat.id. unfold LCD_WIDTH, LCD_HEIGHT. lia.
  - lia.
  - lia.
  - exists fb1. split; [exact D|]. split.
    + rewrite <- (S ltac:(lia)) at 2. exact C.
    + rewrite (P ltac:(lia) ltac:(lia) 0 100)
        by (unfold LCD_WIDTH, LCD_HEIGHT; lia).
      reflexivity.
Defined.

End Radar.

(* ================================================================== *)
(** * Lines *)
(* ================================================================== *)

Section Lines.
Local Open Scope Z_scope.

(** The store of one pass of the loop of [lcd_draw_line]. *)
Lemma line_store (fb : list Z) (x y color : Z) :
  Z.of_nat (length fb) = LCD_WIDTH * LCD_HEIGHT ->
  exists fb1,
    (if (x >=? 0) && (x <? LCD_WIDTH) && (y >=? 0) && (y <? LCD_HEIGHT)
     then store fb (to_uint16 y * LCD_WIDTH + to_uint16 x) color
     else Some fb) = Some fb1 /\
    length fb1 = length fb /\
    (forall k, array_at fb1 k = array_at fb k \/ array_at fb1 k = Some color) /\
    (0 <= x < LCD_WIDTH -> 0 <= y < LCD_HEIGHT ->
     array_at fb1 (y * LCD_WIDTH + x) = Some color).
Proof.
  intros L.
  destruct ((x >=? 0) && (x <? LCD_WIDTH) && (y >=? 0) && (y <? LCD_HEIGHT)) eqn:E.
  - apply andb_prop in E. destruct E as (E & E4).
    apply andb_prop in E. destruct E as (E & E3).
    apply andb_prop in E. destruct E as (E1 & E2).
    rewrite Z.geb_leb in E1, E3. apply Z.leb_le in E1, E3. apply Z.ltb_lt in E2, E4.
    unfold LCD_WIDTH, LCD_HEIGHT in *.
    rewrite !to_uint16_small by lia.
    destruct (store_spec fb (y * 320 + x) color) as (fb1 & S & L1 & C); [lia|].
    exists fb1. split; [exact S|]. split; [exact L1|]. split.
    + intros k. rewrite C. destruct (k =? _); [right; reflexivity|left; reflexivity].
    + intros _ _. rewrite C, Z.eqb_refl. reflexivity.
  - exists fb. split; [reflexivity|]. split; [reflexivity|].
    split; [intros k; left; reflexivity|].
    intros X Y. exfalso.
    assert (T : (x >=? 0) && (x <? LCD_WIDTH) && (y >=? 0) && (y <? LCD_HEIGHT) = true).
    { rewrite !Z.geb_leb. repeat (apply andb_true_intro; split);
        [apply Z.leb_le|apply Z.ltb_lt|apply Z.leb_le|apply Z.ltb_lt]; lia. }
    rewrite T in E. discriminate.
Qed.

Lemma int32_value_small (v : Z) :
  - 2 ^ 30 <= v <= 2 ^ 30 -> int32_value v = Some v.
Proof.
  intros H. unfold int32_value.
  assert (E : (INT_MIN <=? v) && (v <=? INT_MAX) = true).
  { unfold INT_MIN, INT_MAX. apply andb_true_intro. split; apply Z.leb_le; lia. }
  rewrite E. reflexivity.
Qed.

Lemma to_int16_small (n : Z) : -32768 <= n <= 32767 -> to_int16 n = n.
Proof. intros H. unfold to_int16. rewrite Z.mod_small by lia. lia. Qed.

(** The loop from a point on the way: [a] and [b] steps are left along
    the two axes, and the guard allows for them. *)
Lemma line_loop_reaches (color x1 y1 dx dy sx sy : Z) :
  0 <= dx <= 65535 -> 0 <= dy <= 65535 -> sx = 1 \/ sx = -1 -> sy = 1 \/ sy = -1 ->
  -32768 <= x1 <= 32767 -> -32768 <= y1 <= 32767 ->
  -32768 <= x1 - sx * dx <= 32767 -> -32768 <= y1 - sy * dy <= 32767 ->
  forall (guard : nat) (fb : list Z) (x y err a b : Z),
    Z.of_nat (length fb) = LCD_WIDTH * LCD_HEIGHT ->
    a = (x1 - x) * sx -> b = (y1 - y) * sy -> 0 <= a <= dx -> 0 <= b <= dy ->
    err = dx - dy + a * dy - b * dx -> - 2 * (dx + dy) <= err <= 2 * (dx + dy) ->
    a + b + 1 <= Z.of_nat guard ->
    exists fb',
      line_loop fb x y x1 y1 dx dy sx sy err color guard = Some (fb', true) /\
      length fb' = length fb /\
      (forall k, array_at fb' k = array_at fb k \/ array_at fb' k = Some color) /\
      (0 <= x < LCD_WIDTH -> 0 <= y < LCD_HEIGHT ->
       array_at fb' (y * LCD_WIDTH + x) = Some color) /\
      (0 <= x1 < LCD_WIDTH -> 0 <= y1 < LCD_HEIGHT ->
       array_at fb' (y1 * LCD_WIDTH + x1) = Some color).
Proof.
  intros DX DY SX SY X1 Y1 X0 Y0.
  induction guard as [|guard IH]; intros fb x y err a b L A B RA RB E EB G; [lia|].
  cbn [line_loop].
  destruct (line_store fb x y color L) as (fb1 & S & L1 & R1 & P1). rewrite S.
  destruct ((x =? x1) && (y =? y1)) eqn:F.
  - apply andb_prop in F. destruct F as (F1 & F2).
    apply Z.eqb_eq in F1, F2. subst x1 y1.
    exists fb1. split; [reflexivity|]. split; [exact L1|]. split; [exact R1|].
    split; exact P1.
  - assert (N : 1 <= a + b).
    { destruct (Z.eq_dec (a + b) 0) as [Z0|Z0]; [exfalso|lia].
      assert (a = 0) by lia. assert (b = 0) by lia.
      assert (x = x1) by (destruct SX; subst sx; lia).
      assert (y = y1) by (destruct SY; subst sy; lia).
      subst x y. rewrite !Z.eqb_refl in F. discriminate. }
    assert (T1 : a = 0 -> 2 * err <= - dy) by (intros; subst a; nia).
    assert (T2 : b = 0 -> dx <= 2 * err) by (intros; subst b; nia).
    rewrite (int32_value_small (2 * err)) by lia.
    assert (Q : exists err' x' y' a' b',
              (if 2 * err >? - dy
               then match int32_value (err - dy) with
                    | None => None
                    | Some err => Some (err, to_int16 (x + sx))
                    end
               else Some (err, x))
              = Some (if 2 * err >? - dy then err - dy else err, x') /\
              (if 2 * err <? dx
               then match int32_value ((if 2 * err >? - dy then err - dy else err) + dx) with
                    | None => None
                    | Some err => Some (err, to_int16 (y + sy))
                    end
               else Some (if 2 * err >? - dy then err - dy else err, y))
              = Some (err', y') /\
              a' = (x1 - x') * sx /\ b' = (y1 - y') * sy /\
              0 <= a' <= dx /\ 0 <= b' <= dy /\
              err' = dx - dy + a' * dy - b' * dx /\
              - 2 * (dx + dy) <= err' <= 2 * (dx + dy) /\
              a' + b' + 1 <= Z.of_nat guard).
    { rewrite Z.gtb_ltb.
      destruct (Z.ltb_spec (- dy) (2 * err)) as [C1|C1];
        destruct (Z.ltb_spec (2 * err) dx) as [C2|C2].
      - (* both steps *)
        assert (1 <= a) by (destruct (Z.eq_dec a 0) as [Z0|Z0]; [specialize (T1 Z0)|]; lia).
        assert (1 <= b) by (destruct (Z.eq_dec b 0) as [Z0|Z0]; [specialize (T2 Z0)|]; lia).
        rewrite (int32_value_small (err - dy)) by lia.
        rewrite (int32_value_small (err - dy + dx)) by lia.
        rewrite (to_int16_small (x + sx)) by (destruct SX; subst sx; lia).
        rewrite (to_int16_small (y + sy)) by (destruct SY; subst sy; lia).
        exists (err - dy + dx), (x + sx), (y + sy), (a - 1), (b - 1).
        split; [reflexivity|]. split; [reflexivity|].
        split; [destruct SX; subst sx; lia|].
        split; [destruct SY; subst sy; lia|].
        split; [lia|]. split; [lia|]. split; [lia|]. split; lia.
      - (* the step along x *)
        assert (1 <= a) by (destruct (Z.eq_dec a 0) as [Z0|Z0]; [specialize (T1 Z0)|]; lia).
        rewrite (int32_value_small (err - dy)) by lia.
        rewrite (to_int16_small (x + sx)) by (destruct SX; subst sx; lia).
        exists (err - dy), (x + sx), y, (a - 1), b.
        split; [reflexivity|]. split; [reflexivity|].
        split; [destruct SX; subst sx; lia|].
        split; [exact B|].
        split; [lia|]. split; [lia|]. split; [lia|]. split; lia.
      - (* the step along y *)
        assert (1 <= b) by (destruct (Z.eq_dec b 0) as [Z0|Z0]; [specialize (T2 Z0)|]; lia).
        rewrite (int32_value_small (err + dx)) by lia.
        rewrite (to_int16_small (y + sy)) by (destruct SY; subst sy; lia).
        exists (err + dx), x, (y + sy), a, (b - 1).
        split; [reflexivity|]. split; [reflexivity|].
        split; [exact A|].
        split; [destruct SY; subst sy; lia|].
        split; [lia|]. split; [lia|]. split; [lia|]. split; lia.
      - (* no step: both differences are zero *)
        exfalso. lia. }
    destruct Q as (err' & x' & y' & a' & b' & Q1 & Q2 & A' & B' & RA' & RB' & E' & EB' & G').
    rewrite Q1, Q2.
    destruct (IH fb1 x' y' err' a' b') as (fb' & W & L' & R' & _ & P');
      [rewrite L1; exact L|assumption..|].
    exists fb'. split; [exact W|]. split; [congruence|].
    split.
    + intros k. destruct (R' k) as [K|K]; [rewrite K; apply R1|right; exact K].
    + split; [|exact P'].
      intros PX PY. destruct (R' (y * LCD_WIDTH + x)) as [K|K]; [|exact K].
      rewrite K. apply P1; assumption.
Qed.

(** X30: a line ends at its end point.  For end points of type
    [int16_t], on the screen or off it, the loop of [lcd_draw_line] is
    left at the end point and never by its guard, no [int32_t] value
    overflows, every store lies inside the framebuffer and stores the
    colour, and the two end points hold the colour afterwards when they
    are on the screen. *)
Theorem line_ends_at_end_point (framebuffer : list Z) (x0 y0 x1 y1 color : Z) :
  Z.of_nat (length framebuffer) = LCD_WIDTH * LCD_HEIGHT ->
  is_int16 x0 -> is_int16 y0 -> is_int16 x1 -> is_int16 y1 ->
  exists fb',
    lcd_draw_line framebuffer x0 y0 x1 y1 color = Some (fb', true) /\
    length fb' = length framebuffer /\
    (forall k, array_at fb' k = array_at framebuffer k \/ array_at fb' k = Some color) /\
    (0 <= x0 < LCD_WIDTH -> 0 <= y0 < LCD_HEIGHT ->
     array_at fb' (y0 * LCD_WIDTH + x0) = Some color) /\
    (0 <= x1 < LCD_WIDTH -> 0 <= y1 < LCD_HEIGHT ->
     array_at fb' (y1 * LCD_WIDTH + x1) = Some color).
Proof.
  unfold is_int16, INT16_MIN, INT16_MAX. intros L X0 Y0 X1 Y1.
  unfold lcd_draw_line. cbv zeta.
  set (sx := if x0 <? x1 then 1 else -1).
  set (sy := if y0 <? y1 then 1 else -1).
  assert (SX : (sx = 1 \/ sx = -1) /\ Z.abs (x1 - x0) = (x1 - x0) * sx).
  { unfold sx. destruct (Z.ltb_spec x0 x1); (split; [auto|lia]). }
  assert (SY : (sy = 1 \/ sy = -1) /\ Z.abs (y1 - y0) = (y1 - y0) * sy).
  { unfold sy. destruct (Z.ltb_spec y0 y1); (split; [auto|lia]). }
  destruct SX as (SX & AX). destruct SY as (SY & AY).
  clearbody sx sy.
  apply (line_loop_reaches color x1 y1 (Z.abs (x1 - x0)) (Z.abs (y1 - y0)) sx sy)
    with (a := Z.abs (x1 - x0)) (b := Z.abs (y1 - y0)).
  - lia.
  - lia.
  - exact SX.
  - exact SY.
  - lia.
  - lia.
  - rewrite AX. destruct SX; subst sx; lia.
  - rewrite AY. destruct SY; subst sy; lia.
  - exact L.
  - exact AX.
  - exact AY.
  - lia.
  - lia.
  - lia.
  - lia.
  - unfold LCD_WIDTH, LCD_HEIGHT. lia.
Qed.

(** The horizon line of a steep bank, from off the screen to off the
    screen. *)
Lemma line_ends_witness :
  exists fb',
    lcd_draw_line (repeat 0 (Z.to_nat (LCD_WIDTH * LCD_HEIGHT))) (-40) 300 360 (-60) 65535
    = Some (fb', true) /\
    length fb' = length (repeat 0 (Z.to_nat (LCD_WIDTH * LCD_HEIGHT))).
Proof.
  destruct (line_ends_at_end_point (repeat 0 (Z.to_nat (LCD_WIDTH * LCD_HEIGHT)))
              (-40) 300 360 (-60) 65535) as (fb' & D & L & _).
  - rewrite repeat_length. apply Z2Nat.id. unfold LCD_WIDTH, LCD_HEIGHT. lia.
  - unfold is_int16, INT16_MIN, INT16_MAX. lia.
  - unfold is_int16, INT16_MIN, INT16_MAX. lia.
  - unfold is_int16, INT16_MIN, INT16_MAX. lia.
  - unfold is_int16, INT16_MIN, INT16_MAX. lia.
  - exists fb'. split; [exact D|exact L].
Defined.

End Lines.

Section TextWitness.
Import Ascii String.
Local Open Scope Z_scope.

(** White on black at (60, 120), on a grey screen. *)
Lemma text_without_glyphs_witness :
  exists fb',
    lcd_draw_string (repeat 0x8410 (Z.to_nat (LCD_WIDTH * LCD_HEIGHT))) 60 120
                    "oming"%string 0xFFFF 0 = Some fb' /\
    List.length fb' = List.length (repeat 0x8410 (Z.to_nat (LCD_WIDTH * LCD_HEIGHT))) /\
    forall k, array_at fb' k
              = array_at (repeat 0x8410 (Z.to_nat (LCD_WIDTH * LCD_HEIGHT))) k
              \/ array_at fb' k = Some 0.
Proof.
  apply text_without_glyphs_is_blank.
  - rewrite repeat_length. apply Z2Nat.id. unfold LCD_WIDTH, LCD_HEIGHT. lia.
  - reflexivity.
Defined.

End TextWitness.
